(** * HellOS kernel core: heap allocator and process scheduler

    A shallow embedding of [src/x86_64/kernel/memory.c] and
    [src/x86_64/kernel/process.c], and the properties of the two subsystems
    that the specification states about them.

    Conventions of the embedding.
    - Machine integers are [Z] with the wrap-around written out: [wrap32]
      for [uint32_t], [wrap64] for [uint64_t], [size_t] and pointers (the
      tree is the x86_64 one: LP64).
    - A pointer to a block header is the header's address, [0] is [NULL].
      The headers that the allocator has written are kept in a finite map
      from addresses to header records; an address that holds no header
      reads as a zero-filled one.  The bytes that the byte and string
      routines read and write are a second finite map.  The two views are
      of one memory: a byte stored inside the 32 bytes of a header changes
      the field it falls in.
    - A store loop over a range that runs past the top of the address
      space would go through every byte of memory, the kernel's own code
      and stack included; such a call has no result ([None]).
    - A pointer to a process descriptor is the index of its slot in the
      static table [processes], [None] is [NULL].
    - The [while] loops that follow [next] links are fixpoints on a step
      budget that is as large as the number of distinct nodes: a walk that
      needs more steps has come back to a node and, the loops being
      read-only, never ends.  Such a function returns [None] exactly when
      the C loop does not terminate. *)

From stdpp Require Import gmap list strings.
From Stdlib Require Import ZArith Lia.

Local Open Scope Z_scope.

(** ** Machine arithmetic *)

Definition wrap32 (z : Z) : Z := z mod 2 ^ 32.
Definition wrap64 (z : Z) : Z := z mod 2 ^ 64.

(** [#define ALIGN_UP(addr, align) (((addr) + (align) - 1) & ~((align) - 1))]
    at type [size_t]. *)
Definition ALIGN_UP (addr align : Z) : Z :=
  Z.land (wrap64 (addr + align - 1)) (wrap64 (Z.lnot (align - 1))).

(** ** The heap allocator ([memory.c]) *)

Module Memory.

Definition PAGE_SIZE : Z := 4096.
Definition HEAP_START : Z := 0x200000.
Definition HEAP_SIZE : Z := 0x800000.
Definition BLOCK_MAGIC_ALLOCATED : Z := 0xDEADBEEF.
Definition BLOCK_MAGIC_FREE : Z := 0xFEEDFACE.

(** [struct memory_block_s]: [uint32_t size; bool is_free; next; prev;
    uint32_t magic].  With 8-byte pointers its size is 32. *)
Record memory_block : Type := MemoryBlock {
  size : Z;
  is_free : bool;
  next : Z;
  prev : Z;
  magic : Z
}.

Definition sizeof_memory_block : Z := 32.

Record memory_stats_t : Type := MemoryStats {
  total_memory : Z;
  used_memory : Z;
  free_memory : Z;
  allocated_blocks : Z;
  free_blocks : Z;
  corrupted_blocks : Z
}.

(** The file-scope state of [memory.c], with the arena it points into. *)
Record heap : Type := Heap {
  blocks : gmap Z memory_block;
  bytes : gmap Z Z;
  heap_start : Z;
  heap_end : Z;
  memory_stats : memory_stats_t;
  memory_initialized : bool
}.

Definition zero_block : memory_block := MemoryBlock 0 false 0 0 0.

(** [*p] for a header pointer [p]. *)
Definition deref (h : heap) (p : Z) : memory_block :=
  default zero_block (blocks h !! p).

Definition store (h : heap) (p : Z) (b : memory_block) : heap :=
  Heap (<[p := b]> (blocks h)) (bytes h) (heap_start h) (heap_end h)
       (memory_stats h) (memory_initialized h).

Definition with_stats (h : heap) (s : memory_stats_t) : heap :=
  Heap (blocks h) (bytes h) (heap_start h) (heap_end h) s
       (memory_initialized h).

Definition with_bytes (h : heap) (m : gmap Z Z) : heap :=
  Heap (blocks h) m (heap_start h) (heap_end h) (memory_stats h)
       (memory_initialized h).

(** [p->field = v] for a header pointer [p]. *)
Definition set_size (v : Z) (b : memory_block) : memory_block :=
  MemoryBlock v (is_free b) (next b) (prev b) (magic b).
Definition set_is_free (v : bool) (b : memory_block) : memory_block :=
  MemoryBlock (size b) v (next b) (prev b) (magic b).
Definition set_next (v : Z) (b : memory_block) : memory_block :=
  MemoryBlock (size b) (is_free b) v (prev b) (magic b).
Definition set_prev (v : Z) (b : memory_block) : memory_block :=
  MemoryBlock (size b) (is_free b) (next b) v (magic b).
Definition set_magic (v : Z) (b : memory_block) : memory_block :=
  MemoryBlock (size b) (is_free b) (next b) (prev b) v.

Definition assign (h : heap) (p : Z) (f : memory_block → memory_block)
    : heap :=
  store h p (f (deref h p)).

Definition set_free_blocks (v : Z) (s : memory_stats_t) : memory_stats_t :=
  MemoryStats (total_memory s) (used_memory s) (free_memory s)
              (allocated_blocks s) v (corrupted_blocks s).
Definition set_corrupted_blocks (v : Z) (s : memory_stats_t) : memory_stats_t :=
  MemoryStats (total_memory s) (used_memory s) (free_memory s)
              (allocated_blocks s) (free_blocks s) v.

(** [memory_stats.free_blocks++] and [memory_stats.free_blocks--]. *)
Definition incr_free_blocks (h : heap) : heap :=
  with_stats h (set_free_blocks (wrap32 (free_blocks (memory_stats h) + 1))
                                (memory_stats h)).
Definition decr_free_blocks (h : heap) : heap :=
  with_stats h (set_free_blocks (wrap32 (free_blocks (memory_stats h) - 1))
                                (memory_stats h)).

(** The state before [init_memory_manager]: the statics of [memory.c]. *)
Definition boot : heap :=
  Heap ∅ ∅ 0 0 (MemoryStats 0 0 0 0 0 0) false.

(** [init_memory_manager] *)
Definition init_memory_manager (h : heap) : heap :=
  Heap (<[HEAP_START :=
            MemoryBlock (HEAP_SIZE - sizeof_memory_block) true 0 0
                        BLOCK_MAGIC_FREE]> (blocks h))
       (bytes h)
       HEAP_START
       (HEAP_START + HEAP_SIZE)
       (MemoryStats HEAP_SIZE sizeof_memory_block
                    (HEAP_SIZE - sizeof_memory_block) 0 1 0)
       true.

(** [find_free_block]: first fit along the [next] links. *)
Fixpoint find_free_block_loop (fuel : nat) (h : heap) (current sz : Z)
    {struct fuel} : option Z :=
  if negb (current =? 0) && (current <? heap_end h) then
    match fuel with
    | O => None
    | S fuel' =>
        let b := deref h current in
        if is_free b && (sz <=? size b) then Some current
        else find_free_block_loop fuel' h (next b) sz
    end
  else Some 0.

Definition walk_budget (h : heap) : nat := S (base.size (blocks h)).

Definition find_free_block (h : heap) (sz : Z) : option Z :=
  find_free_block_loop (walk_budget h) h (heap_start h) sz.

(** [split_block] *)
Definition split_block (h : heap) (block sz : Z) : heap :=
  if (block =? 0)
     || (size (deref h block) <=? wrap64 (sz + sizeof_memory_block)) then h
  else
    let new_block := wrap64 (block + sizeof_memory_block + sz) in
    let h1 :=
      assign h new_block
        (set_size (wrap32 (wrap64 (size (deref h block) - sz
                                   - sizeof_memory_block)))) in
    let h2 := assign h1 new_block (set_is_free true) in
    let h3 := assign h2 new_block (set_magic BLOCK_MAGIC_FREE) in
    let h4 := assign h3 new_block (set_next (next (deref h3 block))) in
    let h5 := assign h4 new_block (set_prev block) in
    let h6 := assign h5 block (set_size (wrap32 sz)) in
    let h7 := assign h6 block (set_next new_block) in
    let nn := next (deref h7 new_block) in
    let h8 :=
      if negb (nn =? 0) then assign h7 nn (set_prev new_block) else h7 in
    incr_free_blocks h8.

(** [coalesce_blocks], the body of its first [if]: the following block is
    absorbed. *)
Definition merge_next (h : heap) (block : Z) : heap :=
  let h1 :=
    assign h block
      (set_size
         (wrap32 (wrap64 (size (deref h block)
                          + wrap64 (size (deref h (next (deref h block)))
                                    + sizeof_memory_block))))) in
  let nxt := next (deref h1 block) in
  let h2 := assign h1 block (set_next (next (deref h1 nxt))) in
  let nn := next (deref h2 nxt) in
  let h3 := if negb (nn =? 0) then assign h2 nn (set_prev block) else h2 in
  decr_free_blocks h3.

(** The body of its second [if]: the block is absorbed by the preceding
    one. *)
Definition merge_prev (h : heap) (block : Z) : heap :=
  let p := prev (deref h block) in
  let h1 :=
    assign h p
      (set_size
         (wrap32 (wrap64 (size (deref h p)
                          + wrap64 (size (deref h block)
                                    + sizeof_memory_block))))) in
  let h2 :=
    assign h1 (prev (deref h1 block)) (set_next (next (deref h1 block))) in
  let nn := next (deref h2 block) in
  let h3 :=
    if negb (nn =? 0) then assign h2 nn (set_prev (prev (deref h2 block)))
    else h2 in
  decr_free_blocks h3.

Definition coalesce_blocks (h : heap) (block : Z) : heap :=
  if (block =? 0) || negb (is_free (deref h block)) then h
  else
    let h1 :=
      if negb (next (deref h block) =? 0)
         && is_free (deref h (next (deref h block)))
      then merge_next h block else h in
    if negb (prev (deref h1 block) =? 0)
       && is_free (deref h1 (prev (deref h1 block)))
    then merge_prev h1 block else h1.

(** [validate_block]: the bounds are checked before the tag is read. *)
Definition validate_block (h : heap) (block : Z) : bool :=
  if block =? 0 then false
  else if (block <? heap_start h) || (heap_end h <=? block) then false
  else if negb (magic (deref h block) =? BLOCK_MAGIC_ALLOCATED)
          && negb (magic (deref h block) =? BLOCK_MAGIC_FREE) then false
  else true.

(** [malloc]; the result is the new state and the pointer, [0] for [NULL]. *)
Definition malloc (h : heap) (sz : Z) : option (heap * Z) :=
  if negb (memory_initialized h) then Some (h, 0)
  else if sz =? 0 then Some (h, 0)
  else
    let sz := ALIGN_UP sz 8 in
    block ← find_free_block h sz;
    if block =? 0 then Some (h, 0)
    else
      let h1 :=
        if wrap64 (wrap64 (sz + sizeof_memory_block) + 8)
           <? size (deref h block)
        then split_block h block sz else h in
      let h2 := assign h1 block (set_is_free false) in
      let h3 := assign h2 block (set_magic BLOCK_MAGIC_ALLOCATED) in
      let b := deref h3 block in
      let s := memory_stats h3 in
      let h4 :=
        with_stats h3
          (MemoryStats (total_memory s)
                       (wrap64 (used_memory s + size b))
                       (wrap64 (free_memory s - size b))
                       (wrap32 (allocated_blocks s + 1))
                       (wrap32 (free_blocks s - 1))
                       (corrupted_blocks s)) in
      Some (h4, wrap64 (block + sizeof_memory_block)).

(** [free] *)
Definition free (h : heap) (ptr : Z) : heap :=
  if (ptr =? 0) || negb (memory_initialized h) then h
  else
    let block := wrap64 (ptr - sizeof_memory_block) in
    if negb (validate_block h block) then
      with_stats h
        (set_corrupted_blocks
           (wrap32 (corrupted_blocks (memory_stats h) + 1))
           (memory_stats h))
    else
      let h1 := assign h block (set_is_free true) in
      let h2 := assign h1 block (set_magic BLOCK_MAGIC_FREE) in
      let b := deref h2 block in
      let s := memory_stats h2 in
      let h3 :=
        with_stats h2
          (MemoryStats (total_memory s)
                       (wrap64 (used_memory s - size b))
                       (wrap64 (free_memory s + size b))
                       (wrap32 (allocated_blocks s - 1))
                       (wrap32 (free_blocks s + 1))
                       (corrupted_blocks s)) in
      coalesce_blocks h3 block.

(** ** Stores through byte pointers

    A byte that was never written reads as [0]; [p[i]] is the byte at
    address [p + i]. *)
Definition load (m : gmap Z Z) (a : Z) : Z := default 0 (m !! a).

(** The byte at [a] read through a [uint8_t*] and through a [char*]
    ([char] is signed on x86_64). *)
Definition uint8 (m : gmap Z Z) (a : Z) : Z := load m a mod 256.

Definition schar (m : gmap Z Z) (a : Z) : Z :=
  if uint8 m a <? 128 then uint8 m a else uint8 m a - 256.

(** The layout of [struct memory_block_s] on x86_64: [size] is the bytes
    0 to 3 and [magic] the bytes 24 to 27, [next] the bytes 8 to 15 and
    [prev] the bytes 16 to 23, all little-endian; [is_free] is byte 4, read
    as true when it is not 0; the bytes 5 to 7 and 28 to 31 are padding.

    [covered d n a]: the address [a] is one of the [n] bytes from [d]. *)
Definition covered (d n a : Z) : bool := (d <=? a) && (a <? d + n).

(** The value of the [w]-byte field at address [a], which held [x], once
    the bytes from [d] to [d + n - 1] hold what [m] holds. *)
Fixpoint refresh_field (w : nat) (m : gmap Z Z) (d n a x : Z) : Z :=
  match w with
  | O => x
  | S w' =>
      (if covered d n a then uint8 m a else x mod 256)
      + 256 * refresh_field w' m d n (a + 1) (x / 256)
  end.

(** The header at address [a] after such a store. *)
Definition refresh_block (m : gmap Z Z) (d n a : Z) (b : memory_block)
    : memory_block :=
  MemoryBlock (refresh_field 4 m d n a (size b))
              (if covered d n (a + 4) then negb (uint8 m (a + 4) =? 0)
               else is_free b)
              (refresh_field 8 m d n (a + 8) (next b))
              (refresh_field 8 m d n (a + 16) (prev b))
              (refresh_field 4 m d n (a + 24) (magic b)).

(** The heap after a byte routine has stored the [n] bytes from [d] and
    left the byte memory [m]: the headers under these bytes have
    changed with them. *)
Definition stored (h : heap) (m : gmap Z Z) (d n : Z) : heap :=
  Heap (map_imap (λ a b, Some (refresh_block m d n a b)) (blocks h)) m
       (heap_start h) (heap_end h) (memory_stats h) (memory_initialized h).

(** [memset] and [memcpy], one byte per step.  A range that runs past the
    top of the address space is never completed. *)
Fixpoint memset_loop (n : nat) (m : gmap Z Z) (p val : Z) : gmap Z Z :=
  match n with
  | O => m
  | S n' => memset_loop n' (<[p := val]> m) (p + 1) val
  end.

Definition memset (h : heap) (ptr value sz : Z) : option heap :=
  if 2 ^ 64 <? ptr + sz then None
  else
    Some (stored h (memset_loop (Z.to_nat sz) (bytes h) ptr (value mod 256))
                 ptr sz).

Fixpoint memcpy_loop (n : nat) (m : gmap Z Z) (d s : Z) : gmap Z Z :=
  match n with
  | O => m
  | S n' => memcpy_loop n' (<[d := default 0 (m !! s)]> m) (d + 1) (s + 1)
  end.

Definition memcpy (h : heap) (dest src sz : Z) : option heap :=
  if (2 ^ 64 <? dest + sz) || (2 ^ 64 <? src + sz) then None
  else Some (stored h (memcpy_loop (Z.to_nat sz) (bytes h) dest src) dest sz).

(** [calloc] *)
Definition calloc (h : heap) (num sz : Z) : option (heap * Z) :=
  let total_size := wrap64 (num * sz) in
  '(h1, ptr) ← malloc h total_size;
  if negb (ptr =? 0) then
    h2 ← memset h1 ptr 0 total_size;
    Some (h2, ptr)
  else Some (h1, ptr).

(** [realloc] *)
Definition realloc (h : heap) (ptr sz : Z) : option (heap * Z) :=
  if ptr =? 0 then malloc h sz
  else if sz =? 0 then Some (free h ptr, 0)
  else
    let block := wrap64 (ptr - sizeof_memory_block) in
    if negb (validate_block h block) then Some (h, 0)
    else if sz <=? size (deref h block) then Some (h, ptr)
    else
      '(h1, new_ptr) ← malloc h sz;
      if new_ptr =? 0 then Some (h1, 0)
      else
        h2 ← memcpy h1 new_ptr ptr (size (deref h1 block));
        Some (free h2 ptr, new_ptr).

(** The block list: the headers met from [heap_start] along the [next]
    links, as [display_memory_info] walks them
    ([while (current && current < heap_end)]). *)
Fixpoint block_list_from (fuel : nat) (h : heap) (current : Z)
    {struct fuel} : option (list Z) :=
  if negb (current =? 0) && (current <? heap_end h) then
    match fuel with
    | O => None
    | S fuel' =>
        (current ::.) <$> block_list_from fuel' h (next (deref h current))
    end
  else Some [].

Definition block_list (h : heap) : option (list Z) :=
  block_list_from (walk_budget h) h (heap_start h).

(** [display_memory_info]: the statistics recomputed by a scan. *)
Definition display_memory_info (h : heap) : option heap :=
  if negb (memory_initialized h) then Some h
  else
    l ← block_list h;
    let valid := filter (λ a, validate_block h a = true) l in
    let fr := filter (λ a, is_free (deref h a) = true) valid in
    let al := filter (λ a, is_free (deref h a) = false) valid in
    Some (with_stats h
            (MemoryStats HEAP_SIZE
               (wrap64 (foldr (λ a acc, size (deref h a) + acc) 0 al))
               (wrap64 (foldr (λ a acc, size (deref h a) + acc) 0 fr))
               (wrap32 (Z.of_nat (length al)))
               (wrap32 (Z.of_nat (length fr)))
               (corrupted_blocks (memory_stats h)))).

(** The footprint of the block list: payload plus header of every block. *)
Definition footprint (h : heap) (l : list Z) : Z :=
  foldr (λ a acc, size (deref h a) + sizeof_memory_block + acc) 0 l.

(** ** The comparison and string routines of [memory.c] *)

(** [memcmp] *)
Fixpoint memcmp_loop (n : nat) (m : gmap Z Z) (p1 p2 : Z) : Z :=
  match n with
  | O => 0
  | S n' =>
      if negb (uint8 m p1 =? uint8 m p2) then uint8 m p1 - uint8 m p2
      else memcmp_loop n' m (p1 + 1) (p2 + 1)
  end.

Definition memcmp (h : heap) (ptr1 ptr2 sz : Z) : Z :=
  memcmp_loop (Z.to_nat sz) (bytes h) ptr1 ptr2.

(** The loops below run until they meet a NUL.  A byte that is not NUL has
    been written, so a loop that only reads ends within as many steps as
    the memory holds bytes, plus one. *)
Definition string_budget (m : gmap Z Z) : nat := S (base.size m).

(** [strlen] *)
Fixpoint strlen_loop (fuel : nat) (m : gmap Z Z) (str len : Z)
    {struct fuel} : option Z :=
  if negb (schar m (str + len) =? 0) then
    match fuel with
    | O => None
    | S fuel' => strlen_loop fuel' m str (wrap64 (len + 1))
    end
  else Some len.

Definition strlen (h : heap) (str : Z) : option Z :=
  strlen_loop (string_budget (bytes h)) (bytes h) str 0.

(** [strcmp] *)
Fixpoint strcmp_loop (fuel : nat) (m : gmap Z Z) (str1 str2 : Z)
    {struct fuel} : option Z :=
  if negb (schar m str1 =? 0) && negb (schar m str2 =? 0)
     && (schar m str1 =? schar m str2) then
    match fuel with
    | O => None
    | S fuel' => strcmp_loop fuel' m (str1 + 1) (str2 + 1)
    end
  else Some (schar m str1 - schar m str2).

Definition strcmp (h : heap) (str1 str2 : Z) : option Z :=
  strcmp_loop (string_budget (bytes h)) (bytes h) str1 str2.

(** [strncmp] *)
Fixpoint strncmp_loop (n : nat) (m : gmap Z Z) (str1 str2 : Z) : Z :=
  match n with
  | O => 0
  | S n' =>
      if negb (schar m str1 =? schar m str2) || (schar m str1 =? 0)
      then schar m str1 - schar m str2
      else strncmp_loop n' m (str1 + 1) (str2 + 1)
  end.

Definition strncmp (h : heap) (str1 str2 n : Z) : Z :=
  strncmp_loop (Z.to_nat n) (bytes h) str1 str2.

(** [strcpy]: each step stores the character read and moves both pointers
    on, until the character stored is the NUL.  The copy reads what it has
    written when the destination starts inside the source string; it then
    never meets a NUL.  The loop gives the byte memory and the pointer [d]
    as it leaves them. *)
Fixpoint strcpy_loop (fuel : nat) (m : gmap Z Z) (d src : Z)
    {struct fuel} : option (gmap Z Z * Z) :=
  let m' := <[d := load m src]> m in
  if negb (schar m src =? 0) then
    match fuel with
    | O => None
    | S fuel' => strcpy_loop fuel' m' (d + 1) (src + 1)
    end
  else Some (m', d + 1).

Definition strcpy (h : heap) (dest src : Z) : option heap :=
  '(m, d) ← strcpy_loop (string_budget (bytes h)) (bytes h) dest src;
  Some (stored h m dest (d - dest)).

(** [strncpy]; its second loop is the zero fill of the rest of the [n]
    bytes. *)
Fixpoint strncpy_loop (n : nat) (m : gmap Z Z) (d src : Z) : gmap Z Z :=
  match n with
  | O => m
  | S n' =>
      if negb (schar m src =? 0)
      then strncpy_loop n' (<[d := load m src]> m) (d + 1) (src + 1)
      else memset_loop (S n') m d 0
  end.

Definition strncpy (h : heap) (dest src n : Z) : option heap :=
  if 2 ^ 64 <? dest + n then None
  else Some (stored h (strncpy_loop (Z.to_nat n) (bytes h) dest src) dest n).

(** [strcat]: the pointer is moved to the NUL of the destination, then the
    loop of [strcpy] runs from there. *)
Fixpoint strcat_seek (fuel : nat) (m : gmap Z Z) (d : Z)
    {struct fuel} : option Z :=
  if negb (schar m d =? 0) then
    match fuel with
    | O => None
    | S fuel' => strcat_seek fuel' m (d + 1)
    end
  else Some d.

Definition strcat (h : heap) (dest src : Z) : option heap :=
  d ← strcat_seek (string_budget (bytes h)) (bytes h) dest;
  '(m, e) ← strcpy_loop (string_budget (bytes h)) (bytes h) d src;
  Some (stored h m d (e - d)).

(** [get_memory_stats] *)
Definition get_memory_stats (h : heap) : memory_stats_t := memory_stats h.

End Memory.


(** ** The process table and the scheduler ([process.c]) *)

Module Process.

Definition MAX_PROCESSES : nat := 64.
Definition PROCESS_NAME_LENGTH : nat := 32.
Definition STACK_SIZE : Z := 0x8000.

Inductive process_state_t : Type :=
  | PROCESS_STATE_READY
  | PROCESS_STATE_RUNNING
  | PROCESS_STATE_WAITING
  | PROCESS_STATE_TERMINATED
  | PROCESS_STATE_ZOMBIE.

#[export] Instance process_state_eq_dec : EqDecision process_state_t.
Proof. solve_decision. Defined.

(** [process_priority_t] *)
Definition PRIORITY_OVERLORD : Z := 0.
Definition PRIORITY_DEMON : Z := 1.
Definition PRIORITY_SOUL : Z := 2.
Definition PRIORITY_DAMNED : Z := 3.

(** [struct process] of [kernel.h]. *)
Record process : Type := Process {
  pid : Z;
  name : string;
  state : process_state_t;
  priority : Z;
  stack_pointer : Z;
  stack_base : Z;
  heap_start : Z;
  heap_size : Z;
  entry_point : Z;
  instruction_pointer : Z;
  registers : list Z;
  parent_pid : Z;
  parent : option nat;
  children : option nat;
  next_sibling : option nat;
  cpu_time : Z;
  last_scheduled : Z;
  time_slice : Z;
  next : option nat;
  prev : option nat;
  is_demon : bool;
  is_kernel_mode : bool;
  is_suspended : bool;
  creation_time : Z
}.

Definition set_pid (v : Z) (p : process) : process :=
  Process v (name p) (state p) (priority p) (stack_pointer p) (stack_base p)
    (heap_start p) (heap_size p) (entry_point p) (instruction_pointer p)
    (registers p) (parent_pid p) (parent p) (children p) (next_sibling p)
    (cpu_time p) (last_scheduled p) (time_slice p) (next p) (prev p)
    (is_demon p) (is_kernel_mode p) (is_suspended p) (creation_time p).
Definition set_name (v : string) (p : process) : process :=
  Process (pid p) v (state p) (priority p) (stack_pointer p) (stack_base p)
    (heap_start p) (heap_size p) (entry_point p) (instruction_pointer p)
    (registers p) (parent_pid p) (parent p) (children p) (next_sibling p)
    (cpu_time p) (last_scheduled p) (time_slice p) (next p) (prev p)
    (is_demon p) (is_kernel_mode p) (is_suspended p) (creation_time p).
Definition set_state (v : process_state_t) (p : process) : process :=
  Process (pid p) (name p) v (priority p) (stack_pointer p) (stack_base p)
    (heap_start p) (heap_size p) (entry_point p) (instruction_pointer p)
    (registers p) (parent_pid p) (parent p) (children p) (next_sibling p)
    (cpu_time p) (last_scheduled p) (time_slice p) (next p) (prev p)
    (is_demon p) (is_kernel_mode p) (is_suspended p) (creation_time p).
Definition set_priority (v : Z) (p : process) : process :=
  Process (pid p) (name p) (state p) v (stack_pointer p) (stack_base p)
    (heap_start p) (heap_size p) (entry_point p) (instruction_pointer p)
    (registers p) (parent_pid p) (parent p) (children p) (next_sibling p)
    (cpu_time p) (last_scheduled p) (time_slice p) (next p) (prev p)
    (is_demon p) (is_kernel_mode p) (is_suspended p) (creation_time p).
Definition set_stack_pointer (v : Z) (p : process) : process :=
  Process (pid p) (name p) (state p) (priority p) v (stack_base p)
    (heap_start p) (heap_size p) (entry_point p) (instruction_pointer p)
    (registers p) (parent_pid p) (parent p) (children p) (next_sibling p)
    (cpu_time p) (last_scheduled p) (time_slice p) (next p) (prev p)
    (is_demon p) (is_kernel_mode p) (is_suspended p) (creation_time p).
Definition set_stack_base (v : Z) (p : process) : process :=
  Process (pid p) (name p) (state p) (priority p) (stack_pointer p) v
    (heap_start p) (heap_size p) (entry_point p) (instruction_pointer p)
    (registers p) (parent_pid p) (parent p) (children p) (next_sibling p)
    (cpu_time p) (last_scheduled p) (time_slice p) (next p) (prev p)
    (is_demon p) (is_kernel_mode p) (is_suspended p) (creation_time p).
Definition set_heap_start (v : Z) (p : process) : process :=
  Process (pid p) (name p) (state p) (priority p) (stack_pointer p)
    (stack_base p) v (heap_size p) (entry_point p) (instruction_pointer p)
    (registers p) (parent_pid p) (parent p) (children p) (next_sibling p)
    (cpu_time p) (last_scheduled p) (time_slice p) (next p) (prev p)
    (is_demon p) (is_kernel_mode p) (is_suspended p) (creation_time p).
Definition set_heap_size (v : Z) (p : process) : process :=
  Process (pid p) (name p) (state p) (priority p) (stack_pointer p)
    (stack_base p) (heap_start p) v (entry_point p) (instruction_pointer p)
    (registers p) (parent_pid p) (parent p) (children p) (next_sibling p)
    (cpu_time p) (last_scheduled p) (time_slice p) (next p) (prev p)
    (is_demon p) (is_kernel_mode p) (is_suspended p) (creation_time p).
Definition set_entry_point (v : Z) (p : process) : process :=
  Process (pid p) (name p) (state p) (priority p) (stack_pointer p)
    (stack_base p) (heap_start p) (heap_size p) v (instruction_pointer p)
    (registers p) (parent_pid p) (parent p) (children p) (next_sibling p)
    (cpu_time p) (last_scheduled p) (time_slice p) (next p) (prev p)
    (is_demon p) (is_kernel_mode p) (is_suspended p) (creation_time p).
Definition set_instruction_pointer (v : Z) (p : process) : process :=
  Process (pid p) (name p) (state p) (priority p) (stack_pointer p)
    (stack_base p) (heap_start p) (heap_size p) (entry_point p) v
    (registers p) (parent_pid p) (parent p) (children p) (next_sibling p)
    (cpu_time p) (last_scheduled p) (time_slice p) (next p) (prev p)
    (is_demon p) (is_kernel_mode p) (is_suspended p) (creation_time p).
Definition set_registers (v : list Z) (p : process) : process :=
  Process (pid p) (name p) (state p) (priority p) (stack_pointer p)
    (stack_base p) (heap_start p) (heap_size p) (entry_point p)
    (instruction_pointer p) v (parent_pid p) (parent p) (children p)
    (next_sibling p) (cpu_time p) (last_scheduled p) (time_slice p) (next p)
    (prev p) (is_demon p) (is_kernel_mode p) (is_suspended p)
    (creation_time p).
Definition set_parent_pid (v : Z) (p : process) : process :=
  Process (pid p) (name p) (state p) (priority p) (stack_pointer p)
    (stack_base p) (heap_start p) (heap_size p) (entry_point p)
    (instruction_pointer p) (registers p) v (parent p) (children p)
    (next_sibling p) (cpu_time p) (last_scheduled p) (time_slice p) (next p)
    (prev p) (is_demon p) (is_kernel_mode p) (is_suspended p)
    (creation_time p).
Definition set_parent (v : option nat) (p : process) : process :=
  Process (pid p) (name p) (state p) (priority p) (stack_pointer p)
    (stack_base p) (heap_start p) (heap_size p) (entry_point p)
    (instruction_pointer p) (registers p) (parent_pid p) v (children p)
    (next_sibling p) (cpu_time p) (last_scheduled p) (time_slice p) (next p)
    (prev p) (is_demon p) (is_kernel_mode p) (is_suspended p)
    (creation_time p).
Definition set_children (v : option nat) (p : process) : process :=
  Process (pid p) (name p) (state p) (priority p) (stack_pointer p)
    (stack_base p) (heap_start p) (heap_size p) (entry_point p)
    (instruction_pointer p) (registers p) (parent_pid p) (parent p) v
    (next_sibling p) (cpu_time p) (last_scheduled p) (time_slice p) (next p)
    (prev p) (is_demon p) (is_kernel_mode p) (is_suspended p)
    (creation_time p).
Definition set_next_sibling (v : option nat) (p : process) : process :=
  Process (pid p) (name p) (state p) (priority p) (stack_pointer p)
    (stack_base p) (heap_start p) (heap_size p) (entry_point p)
    (instruction_pointer p) (registers p) (parent_pid p) (parent p)
    (children p) v (cpu_time p) (last_scheduled p) (time_slice p) (next p)
    (prev p) (is_demon p) (is_kernel_mode p) (is_suspended p)
    (creation_time p).
Definition set_cpu_time (v : Z) (p : process) : process :=
  Process (pid p) (name p) (state p) (priority p) (stack_pointer p)
    (stack_base p) (heap_start p) (heap_size p) (entry_point p)
    (instruction_pointer p) (registers p) (parent_pid p) (parent p)
    (children p) (next_sibling p) v (last_scheduled p) (time_slice p)
    (next p) (prev p) (is_demon p) (is_kernel_mode p) (is_suspended p)
    (creation_time p).
Definition set_last_scheduled (v : Z) (p : process) : process :=
  Process (pid p) (name p) (state p) (priority p) (stack_pointer p)
    (stack_base p) (heap_start p) (heap_size p) (entry_point p)
    (instruction_pointer p) (registers p) (parent_pid p) (parent p)
    (children p) (next_sibling p) (cpu_time p) v (time_slice p) (next p)
    (prev p) (is_demon p) (is_kernel_mode p) (is_suspended p)
    (creation_time p).
Definition set_time_slice (v : Z) (p : process) : process :=
  Process (pid p) (name p) (state p) (priority p) (stack_pointer p)
    (stack_base p) (heap_start p) (heap_size p) (entry_point p)
    (instruction_pointer p) (registers p) (parent_pid p) (parent p)
    (children p) (next_sibling p) (cpu_time p) (last_scheduled p) v (next p)
    (prev p) (is_demon p) (is_kernel_mode p) (is_suspended p)
    (creation_time p).
Definition set_next (v : option nat) (p : process) : process :=
  Process (pid p) (name p) (state p) (priority p) (stack_pointer p)
    (stack_base p) (heap_start p) (heap_size p) (entry_point p)
    (instruction_pointer p) (registers p) (parent_pid p) (parent p)
    (children p) (next_sibling p) (cpu_time p) (last_scheduled p)
    (time_slice p) v (prev p) (is_demon p) (is_kernel_mode p)
    (is_suspended p) (creation_time p).
Definition set_prev (v : option nat) (p : process) : process :=
  Process (pid p) (name p) (state p) (priority p) (stack_pointer p)
    (stack_base p) (heap_start p) (heap_size p) (entry_point p)
    (instruction_pointer p) (registers p) (parent_pid p) (parent p)
    (children p) (next_sibling p) (cpu_time p) (last_scheduled p)
    (time_slice p) (next p) v (is_demon p) (is_kernel_mode p)
    (is_suspended p) (creation_time p).
Definition set_is_demon (v : bool) (p : process) : process :=
  Process (pid p) (name p) (state p) (priority p) (stack_pointer p)
    (stack_base p) (heap_start p) (heap_size p) (entry_point p)
    (instruction_pointer p) (registers p) (parent_pid p) (parent p)
    (children p) (next_sibling p) (cpu_time p) (last_scheduled p)
    (time_slice p) (next p) (prev p) v (is_kernel_mode p) (is_suspended p)
    (creation_time p).
Definition set_is_kernel_mode (v : bool) (p : process) : process :=
  Process (pid p) (name p) (state p) (priority p) (stack_pointer p)
    (stack_base p) (heap_start p) (heap_size p) (entry_point p)
    (instruction_pointer p) (registers p) (parent_pid p) (parent p)
    (children p) (next_sibling p) (cpu_time p) (last_scheduled p)
    (time_slice p) (next p) (prev p) (is_demon p) v (is_suspended p)
    (creation_time p).
Definition set_is_suspended (v : bool) (p : process) : process :=
  Process (pid p) (name p) (state p) (priority p) (stack_pointer p)
    (stack_base p) (heap_start p) (heap_size p) (entry_point p)
    (instruction_pointer p) (registers p) (parent_pid p) (parent p)
    (children p) (next_sibling p) (cpu_time p) (last_scheduled p)
    (time_slice p) (next p) (prev p) (is_demon p) (is_kernel_mode p) v
    (creation_time p).
Definition set_creation_time (v : Z) (p : process) : process :=
  Process (pid p) (name p) (state p) (priority p) (stack_pointer p)
    (stack_base p) (heap_start p) (heap_size p) (entry_point p)
    (instruction_pointer p) (registers p) (parent_pid p) (parent p)
    (children p) (next_sibling p) (cpu_time p) (last_scheduled p)
    (time_slice p) (next p) (prev p) (is_demon p) (is_kernel_mode p)
    (is_suspended p) v.

Record process_stats_t : Type := ProcessStats {
  total_processes : Z;
  active_processes : Z;
  demon_processes : Z;
  soul_processes : Z;
  zombie_processes : Z;
  context_switches : Z;
  total_cpu_time : Z
}.

(** The file-scope state of [process.c], the allocator it calls into and the
    counter behind [get_system_time]. *)
Record kernel : Type := Kernel {
  mem : Memory.heap;
  processes : list process;
  process_list : option nat;
  current_process : option nat;
  ready_queue : option nat;
  next_pid : Z;
  process_count : Z;
  process_manager_initialized : bool;
  process_stats : process_stats_t;
  time_counter : Z
}.

Definition zero_process : process :=
  Process 0 EmptyString PROCESS_STATE_READY 0 0 0 0 0 0 0 (replicate 16 0) 0
          None None None 0 0 0 None None false false false 0.

Definition with_mem (m : Memory.heap) (k : kernel) : kernel :=
  Kernel m (processes k) (process_list k) (current_process k) (ready_queue k)
         (next_pid k) (process_count k) (process_manager_initialized k)
         (process_stats k) (time_counter k).
Definition with_processes (l : list process) (k : kernel) : kernel :=
  Kernel (mem k) l (process_list k) (current_process k) (ready_queue k)
         (next_pid k) (process_count k) (process_manager_initialized k)
         (process_stats k) (time_counter k).
Definition with_process_list (v : option nat) (k : kernel) : kernel :=
  Kernel (mem k) (processes k) v (current_process k) (ready_queue k)
         (next_pid k) (process_count k) (process_manager_initialized k)
         (process_stats k) (time_counter k).
Definition with_current_process (v : option nat) (k : kernel) : kernel :=
  Kernel (mem k) (processes k) (process_list k) v (ready_queue k)
         (next_pid k) (process_count k) (process_manager_initialized k)
         (process_stats k) (time_counter k).
Definition with_ready_queue (v : option nat) (k : kernel) : kernel :=
  Kernel (mem k) (processes k) (process_list k) (current_process k) v
         (next_pid k) (process_count k) (process_manager_initialized k)
         (process_stats k) (time_counter k).
Definition with_next_pid (v : Z) (k : kernel) : kernel :=
  Kernel (mem k) (processes k) (process_list k) (current_process k)
         (ready_queue k) v (process_count k) (process_manager_initialized k)
         (process_stats k) (time_counter k).
Definition with_process_count (v : Z) (k : kernel) : kernel :=
  Kernel (mem k) (processes k) (process_list k) (current_process k)
         (ready_queue k) (next_pid k) v (process_manager_initialized k)
         (process_stats k) (time_counter k).
Definition with_initialized (v : bool) (k : kernel) : kernel :=
  Kernel (mem k) (processes k) (process_list k) (current_process k)
         (ready_queue k) (next_pid k) (process_count k) v
         (process_stats k) (time_counter k).
Definition with_process_stats (v : process_stats_t) (k : kernel) : kernel :=
  Kernel (mem k) (processes k) (process_list k) (current_process k)
         (ready_queue k) (next_pid k) (process_count k)
         (process_manager_initialized k) v (time_counter k).
Definition with_time_counter (v : Z) (k : kernel) : kernel :=
  Kernel (mem k) (processes k) (process_list k) (current_process k)
         (ready_queue k) (next_pid k) (process_count k)
         (process_manager_initialized k) (process_stats k) v.

(** [processes[i]] and an assignment to fields of [processes[i]]. *)
Definition proc (k : kernel) (i : nat) : process :=
  default zero_process (processes k !! i).

Definition upd (i : nat) (f : process → process) (k : kernel) : kernel :=
  with_processes (<[i := f (proc k i)]> (processes k)) k.

(** The statics of [process.c] at boot, over a given allocator state. *)
Definition boot (m : Memory.heap) : kernel :=
  Kernel m (replicate MAX_PROCESSES zero_process) None None None 1 0 false
         (ProcessStats 0 0 0 0 0 0 0) 0.

(** [get_system_time]: [return ++time_counter;] *)
Definition get_system_time (k : kernel) : kernel * Z :=
  let t := wrap64 (time_counter k + 1) in (with_time_counter t k, t).

(** [find_process_by_pid]: the first slot that carries the pid. *)
Fixpoint find_pid_from (l : list process) (i : nat) (p : Z) : option nat :=
  match l with
  | [] => None
  | x :: l' => if pid x =? p then Some i else find_pid_from l' (S i) p
  end.

Definition find_process_by_pid (k : kernel) (p : Z) : option nat :=
  find_pid_from (processes k) 0%nat p.

(** [add_to_ready_queue] *)
Fixpoint insert_walk (fuel : nat) (k : kernel) (current : nat) (prio : Z)
    {struct fuel} : option nat :=
  match next (proc k current) with
  | Some n =>
      if priority (proc k n) <=? prio then
        match fuel with
        | O => None
        | S fuel' => insert_walk fuel' k n prio
        end
      else Some current
  | None => Some current
  end.

Definition add_to_ready_queue (k : kernel) (p : option nat) : option kernel :=
  match p with
  | None => Some k
  | Some i =>
      if decide (state (proc k i) = PROCESS_STATE_READY) then
        match ready_queue k with
        | None =>
            Some (with_ready_queue (Some i) (upd i (set_next None) k))
        | Some hd =>
            if priority (proc k i) <? priority (proc k hd) then
              Some (with_ready_queue (Some i) (upd i (set_next (Some hd)) k))
            else
              current ← insert_walk MAX_PROCESSES k hd (priority (proc k i));
              let k1 := upd i (set_next (next (proc k current))) k in
              Some (upd current (set_next (Some i)) k1)
        end
      else Some k
  end.

(** [remove_from_ready_queue] *)
Fixpoint remove_walk (fuel : nat) (k : kernel) (current i : nat)
    {struct fuel} : option nat :=
  match next (proc k current) with
  | Some n =>
      if decide (n = i) then Some current
      else
        match fuel with
        | O => None
        | S fuel' => remove_walk fuel' k n i
        end
  | None => Some current
  end.

Definition remove_from_ready_queue (k : kernel) (p : option nat)
    : option kernel :=
  match p, ready_queue k with
  | Some i, Some hd =>
      k1 ←
        (if decide (hd = i) then Some (with_ready_queue (next (proc k i)) k)
         else
           current ← remove_walk MAX_PROCESSES k hd i;
           match next (proc k current) with
           | Some _ => Some (upd current (set_next (next (proc k i))) k)
           | None => Some k
           end);
      Some (upd i (set_next None) k1)
  | _, _ => Some k
  end.

(** [save_process_context]: two readings of the clock. *)
Definition save_process_context (k : kernel) (p : option nat) : kernel :=
  match p with
  | None => k
  | Some i =>
      let '(k1, t1) := get_system_time k in
      let k2 :=
        upd i (λ x, set_cpu_time
                      (wrap64 (cpu_time x + wrap64 (t1 - last_scheduled x))) x)
            k1 in
      let '(k3, t2) := get_system_time k2 in
      let s := process_stats k3 in
      with_process_stats
        (ProcessStats (total_processes s) (active_processes s)
           (demon_processes s) (soul_processes s) (zombie_processes s)
           (context_switches s)
           (wrap64 (total_cpu_time s
                    + wrap64 (t2 - last_scheduled (proc k3 i)))))
        k3
  end.

(** [load_process_context]: a placeholder in the source. *)
Definition load_process_context (k : kernel) (p : option nat) : kernel := k.

(** [schedule_next_process] *)
Definition schedule_next_process (k : kernel) : option kernel :=
  match ready_queue k with
  | None => Some k
  | Some next_process =>
      let k1 := with_ready_queue (next (proc k next_process)) k in
      let k2 := upd next_process (set_next None) k1 in
      k3 ←
        match current_process k2 with
        | Some cur =>
            if decide (cur = next_process) then Some k2
            else
              let ka := save_process_context k2 (Some cur) in
              if decide (state (proc ka cur) = PROCESS_STATE_RUNNING) then
                add_to_ready_queue
                  (upd cur (set_state PROCESS_STATE_READY) ka) (Some cur)
              else Some ka
        | None => Some k2
        end;
      let k4 := with_current_process (Some next_process) k3 in
      let k5 := upd next_process (set_state PROCESS_STATE_RUNNING) k4 in
      let '(k6, t) := get_system_time k5 in
      let k7 := upd next_process (set_last_scheduled t) k6 in
      let k8 := load_process_context k7 (current_process k7) in
      let s := process_stats k8 in
      Some (with_process_stats
              (ProcessStats (total_processes s) (active_processes s)
                 (demon_processes s) (soul_processes s) (zombie_processes s)
                 (wrap64 (context_switches s + 1)) (total_cpu_time s))
              k8)
  end.

(** [strncpy(dest, src, n)] into a zeroed buffer, read back as a string. *)
Fixpoint strncpy (n : nat) (src : string) : string :=
  match n, src with
  | S n', String c s =>
      if decide (c = Ascii.zero) then EmptyString
      else String c (strncpy n' s)
  | _, _ => EmptyString
  end.

(** The slot search of [create_process]: the first [i] with
    [processes[i].pid == 0]. *)
Definition find_free_slot (k : kernel) : option nat :=
  find_pid_from (processes k) 0%nat 0.

Definition time_slice_of (prio : Z) : Z :=
  if prio =? PRIORITY_OVERLORD then 100
  else if prio =? PRIORITY_DEMON then 50
  else if prio =? PRIORITY_SOUL then 25
  else 10.

(** [create_process]; the result is the new state and the descriptor,
    [None] for [NULL]. *)
Definition create_process (k : kernel) (nm : string) (entry prio : Z)
    (demon : bool) : option (kernel * option nat) :=
  if negb (process_manager_initialized k)
     || (Z.of_nat MAX_PROCESSES <=? process_count k) then Some (k, None)
  else
    match find_free_slot k with
    | None => Some (k, None)
    | Some i =>
        let k1 := with_next_pid (wrap32 (next_pid k + 1))
                    (upd i (set_pid (next_pid k)) k) in
        let k2 :=
          upd i (λ p, set_is_suspended false
                        (set_is_kernel_mode demon
                           (set_is_demon demon
                              (set_priority prio
                                 (set_state PROCESS_STATE_READY
                                    (set_name
                                       (strncpy (PROCESS_NAME_LENGTH - 1) nm)
                                       p)))))) k1 in
        '(m, ptr) ← Memory.malloc (mem k2) STACK_SIZE;
        let k3 := upd i (set_stack_base ptr) (with_mem m k2) in
        if ptr =? 0 then Some (upd i (set_pid 0) k3, None)
        else
          let k4 :=
            upd i (λ p, set_registers (replicate 16 0)
                          (set_instruction_pointer entry
                             (set_entry_point entry
                                (set_heap_size 0
                                   (set_heap_start 0
                                      (set_stack_pointer
                                         (wrap64 (stack_base p + STACK_SIZE))
                                         p)))))) k3 in
          let k5 :=
            upd i (set_parent_pid
                     (match current_process k4 with
                      | Some c => pid (proc k4 c)
                      | None => 0
                      end)) k4 in
          let k6 :=
            upd i (λ p, set_time_slice (time_slice_of prio)
                          (set_last_scheduled 0
                             (set_cpu_time 0
                                (set_next_sibling None
                                   (set_children None
                                      (set_parent (current_process k5) p))))))
                k5 in
          let k7 :=
            upd i (λ p, set_prev None (set_next (process_list k6) p)) k6 in
          let k8 :=
            match process_list k7 with
            | Some l => upd l (set_prev (Some i)) k7
            | None => k7
            end in
          let k9 := with_process_list (Some i) k8 in
          k10 ← add_to_ready_queue k9 (Some i);
          let s := process_stats k10 in
          let k11 :=
            with_process_stats
              (ProcessStats (wrap32 (total_processes s + 1))
                 (wrap32 (active_processes s + 1))
                 (if demon then wrap32 (demon_processes s + 1)
                  else demon_processes s)
                 (if demon then soul_processes s
                  else wrap32 (soul_processes s + 1))
                 (zombie_processes s) (context_switches s) (total_cpu_time s))
              (with_process_count (wrap32 (process_count k10 + 1)) k10) in
          let '(k12, t) := get_system_time k11 in
          Some (upd i (set_creation_time t) k12, Some i)
    end.

(** [terminate_process] *)
Definition terminate_process (k : kernel) (p : Z) : option kernel :=
  match find_process_by_pid k p with
  | None => Some k
  | Some i =>
      if decide (state (proc k i) = PROCESS_STATE_TERMINATED) then Some k
      else if pid (proc k i) =? 0 then Some k
      else
        let k1 := upd i (set_state PROCESS_STATE_TERMINATED) k in
        k2 ← remove_from_ready_queue k1 (Some i);
        let k3 :=
          if negb (stack_base (proc k2 i) =? 0) then
            upd i (set_stack_base 0)
                (with_mem (Memory.free (mem k2) (stack_base (proc k2 i))) k2)
          else k2 in
        let k4 :=
          if negb (heap_start (proc k3 i) =? 0) then
            upd i (set_heap_start 0)
                (with_mem (Memory.free (mem k3) (heap_start (proc k3 i))) k3)
          else k3 in
        let s := process_stats k4 in
        let k5 :=
          with_process_stats
            (ProcessStats (total_processes s)
               (wrap32 (active_processes s - 1))
               (if is_demon (proc k4 i) then wrap32 (demon_processes s - 1)
                else demon_processes s)
               (if is_demon (proc k4 i) then soul_processes s
                else wrap32 (soul_processes s - 1))
               (zombie_processes s) (context_switches s) (total_cpu_time s))
            k4 in
        k6 ←
          (if decide (current_process k5 = Some i)
           then schedule_next_process k5 else Some k5);
        Some (with_process_count (wrap32 (process_count k6 - 1))
                (upd i (set_pid 0) k6))
  end.

(** [yield_process] *)
Definition yield_process (k : kernel) : option kernel :=
  match current_process k with
  | Some c => schedule_next_process (upd c (set_state PROCESS_STATE_READY) k)
  | None => Some k
  end.

(** [suspend_process] *)
Definition suspend_process (k : kernel) (p : Z) : option kernel :=
  match find_process_by_pid k p with
  | Some i =>
      if decide (state (proc k i) = PROCESS_STATE_RUNNING) then
        let k1 :=
          upd i (λ x, set_state PROCESS_STATE_WAITING
                        (set_is_suspended true x)) k in
        k2 ← remove_from_ready_queue k1 (Some i);
        if decide (current_process k2 = Some i)
        then schedule_next_process k2 else Some k2
      else Some k
  | None => Some k
  end.

(** [resume_process] *)
Definition resume_process (k : kernel) (p : Z) : option kernel :=
  match find_process_by_pid k p with
  | Some i =>
      if is_suspended (proc k i) then
        add_to_ready_queue
          (upd i (λ x, set_state PROCESS_STATE_READY
                         (set_is_suspended false x)) k)
          (Some i)
      else Some k
  | None => Some k
  end.

(** [process_scheduler], the timer tick. *)
Definition process_scheduler (k : kernel) : option kernel :=
  if negb (process_manager_initialized k) then Some k
  else
    match current_process k with
    | None => Some k
    | Some c =>
        let '(k1, current_time) := get_system_time k in
        if time_slice (proc k1 c)
           <=? wrap64 (current_time - last_scheduled (proc k1 c)) then
          if decide (state (proc k1 c) = PROCESS_STATE_RUNNING) then
            schedule_next_process (upd c (set_state PROCESS_STATE_READY) k1)
          else Some k1
        else Some k1
    end.

(** [init_process_manager] *)
Definition init_process_manager (k : kernel) : option kernel :=
  let k1 :=
    with_processes
      (map (λ p, set_prev None
                   (set_next None
                      (set_state PROCESS_STATE_TERMINATED (set_pid 0 p))))
           (processes k)) k in
  '(k2, kernel_process) ←
    create_process k1 "kernel_daemon" 0 PRIORITY_OVERLORD true;
  let k3 :=
    match kernel_process with
    | Some i =>
        with_current_process (Some i)
          (upd i (λ p, set_state PROCESS_STATE_RUNNING (set_pid 0 p)) k2)
    | None => k2
    end in
  let s := process_stats k3 in
  Some (with_initialized true
          (with_process_stats
             (ProcessStats 1 1 1 0 0 0 0) k3)).

(** [get_process_count] *)
Definition get_process_count (k : kernel) : Z := process_count k.

(** The Ready Queue as the list of slots met from [ready_queue] along the
    [next] links; [None] when the links form a cycle. *)
Fixpoint queue_from (fuel : nat) (k : kernel) (p : option nat)
    {struct fuel} : option (list nat) :=
  match p with
  | None => Some []
  | Some i =>
      match fuel with
      | O => None
      | S fuel' => (i ::.) <$> queue_from fuel' k (next (proc k i))
      end
  end.

Definition ready_list (k : kernel) : option (list nat) :=
  queue_from MAX_PROCESSES k (ready_queue k).

(** [get_current_process], [get_process_list], [get_process_stats] *)
Definition get_current_process (k : kernel) : option nat :=
  current_process k.
Definition get_process_list (k : kernel) : option nat := process_list k.
Definition get_process_stats (k : kernel) : process_stats_t :=
  process_stats k.

(** [list_processes]: the descriptors visited from [process_list] along
    the [next] links; [None] when the walk never ends. *)
Definition list_processes (k : kernel) : option (list nat) :=
  queue_from MAX_PROCESSES k (process_list k).

End Process.


(** * Definitions used to state the properties *)

Module MemorySpec.
Import Memory.

(** A heap with one live allocation: the arena after [init], [malloc(100)]. *)
Definition heap_one_live : heap :=
  match malloc (init_memory_manager boot) 100 with
  | Some (h, _) => h
  | None => boot
  end.

(** A handle that [validate_block] turns down: the header lies outside the
    arena or its tag is neither of the two magic values. *)
Definition bad_handle (h : heap) (ptr : Z) : Prop :=
  let block := wrap64 (ptr - sizeof_memory_block) in
  block < heap_start h ∨ heap_end h ≤ block ∨
  (magic (deref h block) ≠ BLOCK_MAGIC_ALLOCATED ∧
   magic (deref h block) ≠ BLOCK_MAGIC_FREE).

(** [heap_one_live] after a client overran the tag of its live block. *)
Definition heap_bad_tag : heap :=
  assign heap_one_live HEAP_START (set_magic 0xBADC0DE).

(** The heap after [init], [a = malloc(8)], [free(a)]. *)
Definition heap_freed_once : heap :=
  match malloc (init_memory_manager boot) 8 with
  | Some (h, a) => free h a
  | None => boot
  end.

(** Two heaps whose headers carry the same tags everywhere. *)
Definition same_tags (h h' : heap) : Prop :=
  ∀ a, is_free (deref h' a) = is_free (deref h a) ∧
       magic (deref h' a) = magic (deref h a).

(** A header whose flag and tag agree. *)
Definition tag_ok (b : memory_block) : Prop :=
  (is_free b = true ∧ magic b = BLOCK_MAGIC_FREE) ∨
  (is_free b = false ∧ magic b = BLOCK_MAGIC_ALLOCATED).

(** A run [l] of blocks that lie back to back and are linked both ways:
    the first block's [prev] is [p], the last block's [next] is [n] and its
    payload ends at address [e]. *)
Fixpoint bseg (h : heap) (p : Z) (l : list Z) (n e : Z) : Prop :=
  match l with
  | [] => True
  | a :: l' =>
      prev (deref h a) = p ∧
      0 ≤ size (deref h a) < 2 ^ 32 ∧
      tag_ok (deref h a) ∧
      next (deref h a) = hd n l' ∧
      a + sizeof_memory_block + size (deref h a) = hd e l' ∧
      bseg h a l' n e
  end.

(** The allocator is initialised and [l] is its block list: it starts at
    the arena base and covers the arena without gaps or overlaps. *)
Definition heap_ok (h : heap) (l : list Z) : Prop :=
  memory_initialized h = true ∧
  heap_start h = HEAP_START ∧
  heap_end h = HEAP_START + HEAP_SIZE ∧
  hd 0 l = HEAP_START ∧
  bseg h 0 l 0 (heap_end h).

(** No two neighbours of the block list are both free. *)
Fixpoint no_adjacent_free (h : heap) (l : list Z) : Prop :=
  match l with
  | [] => True
  | a :: l' =>
      match l' with
      | [] => True
      | b :: _ => is_free (deref h a) && is_free (deref h b) = false
      end ∧ no_adjacent_free h l'
  end.

(** The invariant of the heap under well-behaved clients. *)
Definition heap_inv (h : heap) : Prop :=
  ∃ l, heap_ok h l ∧ no_adjacent_free h l.

(** What [free] does to the header before it coalesces. *)
Definition mark_free (h : heap) (a : Z) : heap :=
  assign (assign h a (set_is_free true)) a (set_magic BLOCK_MAGIC_FREE).

(** A handle the client may pass to [free] and [realloc]: [NULL], or the
    payload address of an allocated block of the block list. *)
Definition live (h : heap) (ptr : Z) : Prop :=
  ∃ l, block_list h = Some l ∧
       (ptr - sizeof_memory_block) ∈ l ∧
       is_free (deref h (ptr - sizeof_memory_block)) = false.

Definition live_or_null (h : heap) (ptr : Z) : Prop := ptr = 0 ∨ live h ptr.

(** The largest request that [ALIGN_UP] does not wrap to 0:
    [SIZE_MAX - 7]. *)
Definition MAX_REQUEST : Z := 2 ^ 64 - 8.

(** The states a well-behaved client can reach: [init], then calls whose
    handles are null or live and in which [calloc] and [realloc], which
    write to the block they are granted, ask for at most [MAX_REQUEST]
    bytes. *)
Inductive reachable : heap → Prop :=
  | reach_init h : reachable (init_memory_manager h)
  | reach_malloc h sz h' p :
      reachable h → malloc h sz = Some (h', p) → reachable h'
  | reach_free h ptr :
      reachable h → live_or_null h ptr → reachable (free h ptr)
  | reach_calloc h num sz h' p :
      reachable h → wrap64 (num * sz) ≤ MAX_REQUEST →
      calloc h num sz = Some (h', p) → reachable h'
  | reach_realloc h ptr sz h' p :
      reachable h → live_or_null h ptr → sz ≤ MAX_REQUEST →
      realloc h ptr sz = Some (h', p) → reachable h'.

(** The block list is defined and its footprint is the arena size. *)
Definition covers_arena (h : heap) : Prop :=
  ∃ l, block_list h = Some l ∧ footprint h l = HEAP_SIZE.

(** The block list is defined and has no two free neighbours. *)
Definition coalesced (h : heap) : Prop :=
  ∃ l, block_list h = Some l ∧ no_adjacent_free h l.

(** [init], [a = malloc(8)], [b = malloc(8)], [free(a)], [free(b)]: the
    arena is one free block again and [b]'s old header still carries the
    free tag. *)
Definition heap_merged : heap :=
  default boot
    ('(h1, a) ← malloc (init_memory_manager boot) 8;
     '(h2, b) ← malloc h1 8;
     Some (free (free h2 a) b)).

(** Four blocks [a b c d]; [b] and [a] are freed and merge; the merged
    block is allocated again whole; [c] is freed.  [b]'s old header lies in
    the payload of the first block and still carries the free tag. *)
Definition heap_stale : heap :=
  default boot
    ('(h1, a) ← malloc (init_memory_manager boot) 8;
     '(h2, b) ← malloc h1 8;
     '(h3, c) ← malloc h2 8;
     '(h4, d) ← malloc h3 8;
     '(h5, _) ← malloc (free (free h4 b) a) 48;
     Some (free h5 c)).

(** The handles of the four blocks of [heap_stale]. *)
Definition handle_a : Z := HEAP_START + 32.
Definition handle_b : Z := HEAP_START + 72.
Definition handle_c : Z := HEAP_START + 112.
Definition handle_d : Z := HEAP_START + 152.

(** [heap_one_live] after [realloc] of its live block to [SIZE_MAX]
    bytes. *)
Definition heap_wrapped : heap :=
  match realloc heap_one_live (HEAP_START + 32) (2 ^ 64 - 1) with
  | Some (h, _) => h
  | None => boot
  end.

(** The [w] bytes from [a] read as a little-endian number, and the 32
    bytes from [a] read as a block header. *)
Fixpoint le_bytes (w : nat) (m : gmap Z Z) (a : Z) : Z :=
  match w with
  | O => 0
  | S w' => uint8 m a + 256 * le_bytes w' m (a + 1)
  end.

Definition decode (m : gmap Z Z) (a : Z) : memory_block :=
  MemoryBlock (le_bytes 4 m a) (negb (uint8 m (a + 4) =? 0))
              (le_bytes 8 m (a + 8)) (le_bytes 8 m (a + 16))
              (le_bytes 4 m (a + 24)).

(** A header whose fields are values of their C types. *)
Definition well_typed (b : memory_block) : Prop :=
  0 ≤ size b < 2 ^ 32 ∧ 0 ≤ next b < 2 ^ 64 ∧ 0 ≤ prev b < 2 ^ 64 ∧
  0 ≤ magic b < 2 ^ 32.

(** The string at [s] has length [n]: the first NUL from [s] is the byte
    at [s + n]. *)
Definition first_nul (m : gmap Z Z) (s n : Z) : Prop :=
  0 ≤ n ∧ schar m (s + n) = 0 ∧ ∀ i, 0 ≤ i < n → schar m (s + i) ≠ 0.

(** A memory with the string [hi] at address 100 and the string [ho] at
    address 200. *)
Definition text_heap : heap :=
  with_bytes boot
    (list_to_map [(100, 104); (101, 105); (200, 104); (201, 111)]).

(** A block that [find_free_block] accepts for a request of [sz] bytes. *)
Definition fits (h : heap) (sz x : Z) : Prop :=
  is_free (deref h x) = true ∧ sz ≤ size (deref h x).

(** A sum over the blocks of a list, of a quantity that depends on the
    payload size and on the free flag. *)
Definition sum_over (f : Z → bool → Z) (h : heap) (l : list Z) : Z :=
  foldr (λ a acc, f (size (deref h a)) (is_free (deref h a)) + acc) 0 l.

(** The payload bytes of the allocated blocks and of the free blocks, and
    the numbers of allocated and of free blocks. *)
Definition allocated_bytes : heap → list Z → Z :=
  sum_over (λ s f, if f then 0 else s).
Definition free_bytes : heap → list Z → Z :=
  sum_over (λ s f, if f then s else 0).
Definition count_allocated : heap → list Z → Z :=
  sum_over (λ _ f, if f then 0 else 1).
Definition count_free : heap → list Z → Z :=
  sum_over (λ _ f, if f then 1 else 0).

(** The statistics agree with the block list [l]: the block counts are
    exact, [used_memory] is one header plus the allocated payload and
    [free_memory] is the rest of the arena. *)
Definition stats_exact (h : heap) (l : list Z) : Prop :=
  total_memory (memory_stats h) = HEAP_SIZE ∧
  used_memory (memory_stats h) = sizeof_memory_block + allocated_bytes h l ∧
  free_memory (memory_stats h)
  = HEAP_SIZE - sizeof_memory_block - allocated_bytes h l ∧
  allocated_blocks (memory_stats h) = count_allocated h l ∧
  free_blocks (memory_stats h) = count_free h l ∧
  corrupted_blocks (memory_stats h) = 0.

(** Every header of the list lies on an 8-byte boundary. *)
Definition aligned (l : list Z) : Prop := Forall (λ a, a mod 8 = 0) l.

(** The invariant of the heap under well-behaved clients, with the
    statistics and the alignment. *)
Definition heap_sound (h : heap) : Prop :=
  ∃ l, heap_ok h l ∧ no_adjacent_free h l ∧ stats_exact h l ∧ aligned l.

(** The header of a block as [malloc] leaves it. *)
Definition mark_allocated (h : heap) (a : Z) : heap :=
  assign (assign h a (set_is_free false)) a (set_magic BLOCK_MAGIC_ALLOCATED).

(** The heap after [init], [malloc(100)], [malloc(100)]: two live blocks
    of 104 bytes and the free rest. *)
Definition heap_two_live : heap :=
  match malloc heap_one_live 100 with
  | Some (h, _) => h
  | None => boot
  end.

End MemorySpec.

Module ProcessSpec.
Import Process.

(** The kernel after [kernel_main] has run [init_memory_manager] and
    [init_process_manager]. *)
Definition fresh : option kernel :=
  init_process_manager (boot (Memory.init_memory_manager Memory.boot)).

Definition fresh_kernel : kernel := default (boot Memory.boot) fresh.

(** The state after a second [init_process_manager]. *)
Definition reinit_kernel : kernel :=
  default (boot Memory.boot) (fresh ≫= init_process_manager).

(** A state with a running process and one ready process.  [init] is run a
    second time (the first run creates no kernel process); the kernel
    process of slot 0 yields to itself, which empties the queue; ["a"] then
    takes slot 0 (its pid is 0, so the slot search sees it as free) and,
    being the current process, yields to itself and runs; ["b"] is created
    in slot 1 and waits in the queue. *)
Definition scenario : option kernel :=
  k1 ← fresh;
  k2 ← init_process_manager k1;
  k3 ← yield_process k2;
  '(k4, _) ← create_process k3 "a" 0 PRIORITY_SOUL false;
  k5 ← yield_process k4;
  '(k6, _) ← create_process k5 "b" 0 PRIORITY_SOUL false;
  Some k6.

Definition scenario_kernel : kernel :=
  default (boot Memory.boot) scenario.

(** The scenario after its running process has yielded. *)
Definition yielded_kernel : kernel :=
  default (boot Memory.boot) (yield_process scenario_kernel).

(** The first creation after boot, and the first creation after a second
    [init_process_manager] and a [yield_process]. *)
Definition first_creation : option (kernel * option nat) :=
  create_process fresh_kernel "a" 0 PRIORITY_SOUL false.

Definition creation_after_reinit : option (kernel * option nat) :=
  k1 ← yield_process reinit_kernel;
  create_process k1 "a" 0 PRIORITY_SOUL false.

(** [n] timer ticks. *)
Fixpoint ticks (n : nat) (k : kernel) : option kernel :=
  match n with
  | O => Some k
  | S n' => k' ← process_scheduler k; ticks n' k'
  end.

(** The allocator after [n] stacks have been carved out of the fresh
    arena. *)
Definition stack_heap (n : nat) : Memory.heap :=
  Nat.iter n
    (λ h, match Memory.malloc h STACK_SIZE with
          | Some (h', _) => h'
          | None => h
          end)
    (Memory.init_memory_manager Memory.boot).

Definition stack_fits (h : Memory.heap) : bool :=
  match Memory.malloc h STACK_SIZE with
  | Some (_, p) => negb (p =? 0)
  | None => false
  end.

(** The arguments of a [create_process] call. *)
Record request : Type := Request {
  r_name : string;
  r_entry : Z;
  r_priority : Z;
  r_demon : bool
}.

Definition create (k : kernel) (r : request)
    : option (kernel * option nat) :=
  create_process k (r_name r) (r_entry r) (r_priority r) (r_demon r).

(** A run of [create_process] calls, with the descriptors returned. *)
Fixpoint create_all (k : kernel) (rs : list request)
    : option (kernel * list (option nat)) :=
  match rs with
  | [] => Some (k, [])
  | r :: rs' =>
      '(k1, p) ← create k r;
      '(k2, ps) ← create_all k1 rs';
      Some (k2, p :: ps)
  end.

(** The stages of a successful [create_process] on slot [i], around its
    calls to [malloc] and [add_to_ready_queue]. *)
Definition create_claim (k : kernel) (i : nat) (nm : string) (prio : Z)
    (demon : bool) : kernel :=
  upd i (λ p, set_is_suspended false
                (set_is_kernel_mode demon
                   (set_is_demon demon
                      (set_priority prio
                         (set_state PROCESS_STATE_READY
                            (set_name
                               (strncpy (PROCESS_NAME_LENGTH - 1) nm)
                               p))))))
      (with_next_pid (wrap32 (next_pid k + 1))
         (upd i (set_pid (next_pid k)) k)).

Definition create_setup (k3 : kernel) (i : nat) (entry prio : Z) : kernel :=
  let k4 :=
    upd i (λ p, set_registers (replicate 16 0)
                  (set_instruction_pointer entry
                     (set_entry_point entry
                        (set_heap_size 0
                           (set_heap_start 0
                              (set_stack_pointer
                                 (wrap64 (stack_base p + STACK_SIZE))
                                 p)))))) k3 in
  let k5 :=
    upd i (set_parent_pid
             (match current_process k4 with
              | Some c => pid (proc k4 c)
              | None => 0
              end)) k4 in
  let k6 :=
    upd i (λ p, set_time_slice (time_slice_of prio)
                  (set_last_scheduled 0
                     (set_cpu_time 0
                        (set_next_sibling None
                           (set_children None
                              (set_parent (current_process k5) p))))))
        k5 in
  let k7 :=
    upd i (λ p, set_prev None (set_next (process_list k6) p)) k6 in
  let k8 :=
    match process_list k7 with
    | Some l => upd l (set_prev (Some i)) k7
    | None => k7
    end in
  with_process_list (Some i) k8.

Definition create_finish (k10 : kernel) (i : nat) (demon : bool) : kernel :=
  let s := process_stats k10 in
  let k11 :=
    with_process_stats
      (ProcessStats (wrap32 (total_processes s + 1))
         (wrap32 (active_processes s + 1))
         (if demon then wrap32 (demon_processes s + 1)
          else demon_processes s)
         (if demon then soul_processes s
          else wrap32 (soul_processes s + 1))
         (zombie_processes s) (context_switches s) (total_cpu_time s))
      (with_process_count (wrap32 (process_count k10 + 1)) k10) in
  upd i (set_creation_time (snd (get_system_time k11)))
      (fst (get_system_time k11)).

(** The scenario after the 25 ticks of the running process's slice. *)
Definition ticked_kernel : kernel :=
  default (boot Memory.boot) (ticks 25 scenario_kernel).

(** A segment of [next] links: from pointer [p] through the slots [q] to
    pointer [e]. *)
Fixpoint lseg (k : kernel) (p : option nat) (q : list nat) (e : option nat)
    : Prop :=
  match q with
  | [] => p = e
  | i :: q' => p = Some i ∧ lseg k (next (proc k i)) q' e
  end.

(** Every slot index of [q] is inside the table. *)
Definition in_table (k : kernel) (q : list nat) : Prop :=
  Forall (λ i, (i < length (processes k))%nat) q.

(** The table has its [MAX_PROCESSES] slots and the Ready Queue is the
    acyclic list [q] of slots of the table. *)
Definition queue_is (k : kernel) (q : list nat) : Prop :=
  length (processes k) = MAX_PROCESSES ∧
  ready_list k = Some q ∧ in_table k q.

(** The table after [n] creations on a freshly initialised table: slots
    [0 .. n-1] are taken, in this order, the others are free; the Ready
    Queue holds taken slots only. *)
Definition filled (n : nat) (k : kernel) : Prop :=
  process_manager_initialized k = true ∧
  process_count k = Z.of_nat n ∧
  next_pid k = Z.of_nat n + 1 ∧
  mem k = stack_heap n ∧
  (∀ j, (j < n)%nat → pid (proc k j) ≠ 0) ∧
  (∀ j, (n ≤ j)%nat → pid (proc k j) = 0) ∧
  ∃ q, queue_is k q ∧ Forall (λ j, (j < n)%nat) q.

(** The Ready Queue order: after the last entry whose priority value is not
    above the new one. *)
Fixpoint insert_by_priority (k : kernel) (i : nat) (q : list nat)
    : list nat :=
  match q with
  | [] => [i]
  | j :: q' =>
      if priority (proc k i) <? priority (proc k j) then i :: j :: q'
      else j :: insert_by_priority k i q'
  end.

(** Two states that differ at most in [ready_queue] and in the [next]
    fields of the table. *)
Definition same_but_links (k k' : kernel) : Prop :=
  mem k' = mem k ∧ process_list k' = process_list k ∧
  current_process k' = current_process k ∧ next_pid k' = next_pid k ∧
  process_count k' = process_count k ∧
  process_manager_initialized k' = process_manager_initialized k ∧
  process_stats k' = process_stats k ∧ time_counter k' = time_counter k ∧
  length (processes k') = length (processes k) ∧
  ∀ j, set_next None (proc k' j) = set_next None (proc k j).

(** The queue is in priority order: the priority values do not decrease
    along it. *)
Fixpoint by_priority (k : kernel) (q : list nat) : Prop :=
  match q with
  | [] => True
  | i :: q' =>
      Forall (λ j, priority (proc k i) ≤ priority (proc k j)) q' ∧
      by_priority k q'
  end.

(** The byte memory [m] holds the characters of [s] from address [p] on,
    followed by a NUL. *)
Fixpoint holds (m : gmap Z Z) (p : Z) (s : string) : Prop :=
  match s with
  | EmptyString => Memory.load m p = 0
  | String c s' =>
      Memory.load m p = Z.of_N (Ascii.N_of_ascii c) ∧ holds m (p + 1) s'
  end.

(** The name buffer of a descriptor as [create_process] fills it:
    [strncpy] of [PROCESS_NAME_LENGTH - 1] bytes, then a NUL in the last
    byte. *)
Definition name_buffer (m : gmap Z Z) (dest src : Z) : gmap Z Z :=
  <[dest + Z.of_nat (PROCESS_NAME_LENGTH - 1) := 0]>
    (Memory.strncpy_loop (PROCESS_NAME_LENGTH - 1) m dest src).

(** The yielded scenario with two more processes: ["c"] (slot 2, a demon
    by priority) and ["d"] (slot 3, of the lowest priority) wait in the
    Ready Queue, in this order; the process of slot 0 is [READY] and not
    queued. *)
Definition crowded_kernel : kernel :=
  default (boot Memory.boot)
    ('(k1, _) ← create_process yielded_kernel "c" 0 PRIORITY_DEMON false;
     '(k2, _) ← create_process k1 "d" 0 PRIORITY_DAMNED false;
     Some k2).

(** A process manager that was initialised with no memory manager behind
    it: every [malloc] fails. *)
Definition heapless_kernel : kernel :=
  default (boot Memory.boot) (init_process_manager (boot Memory.boot)).

(** Two states with the same Ready Queue, current process and counters
    and, slot by slot, the same links, pids, states and priorities. *)
Definition same_scheduling (k k' : kernel) : Prop :=
  ready_queue k' = ready_queue k ∧
  current_process k' = current_process k ∧
  process_count k' = process_count k ∧
  next_pid k' = next_pid k ∧
  length (processes k') = length (processes k) ∧
  ∀ j, next (proc k' j) = next (proc k j) ∧
       pid (proc k' j) = pid (proc k j) ∧
       state (proc k' j) = state (proc k j) ∧
       priority (proc k' j) = priority (proc k j).

(** The allocator after [terminate_process] has released the stack at
    [sb] and the heap at [hs] of a process; a null address is skipped. *)
Definition released (m : Memory.heap) (sb hs : Z) : Memory.heap :=
  let m1 := if sb =? 0 then m else Memory.free m sb in
  if hs =? 0 then m1 else Memory.free m1 hs.

End ProcessSpec.

(** * Properties of the allocator *)

Module MemoryFacts.
Import Memory MemorySpec.

(** ** Reading headers after assignments *)

Lemma deref_store h x b a :
  deref (store h x b) a = if decide (x = a) then b else deref h a.
Proof.
  unfold deref, store; cbn [blocks]. rewrite lookup_insert.
  by destruct (decide (x = a)).
Qed.

Lemma deref_assign h p f a :
  deref (assign h p f) a = if decide (p = a) then f (deref h p) else deref h a.
Proof. apply deref_store. Qed.

Lemma deref_assign_eq h p f : deref (assign h p f) p = f (deref h p).
Proof. rewrite deref_assign. by rewrite decide_True. Qed.

Lemma deref_assign_ne h p f a : p ≠ a → deref (assign h p f) a = deref h a.
Proof. intros. rewrite deref_assign. by rewrite decide_False. Qed.

Ltac field_read :=
  intros; rewrite deref_assign; case_decide; subst; reflexivity.

Lemma size_assign_size h p v a :
  size (deref (assign h p (set_size v)) a)
  = if decide (p = a) then v else size (deref h a).
Proof. field_read. Qed.
Lemma size_assign_is_free h p v a :
  size (deref (assign h p (set_is_free v)) a) = size (deref h a).
Proof. field_read. Qed.
Lemma size_assign_next h p v a :
  size (deref (assign h p (set_next v)) a) = size (deref h a).
Proof. field_read. Qed.
Lemma size_assign_prev h p v a :
  size (deref (assign h p (set_prev v)) a) = size (deref h a).
Proof. field_read. Qed.
Lemma size_assign_magic h p v a :
  size (deref (assign h p (set_magic v)) a) = size (deref h a).
Proof. field_read. Qed.

Lemma is_free_assign_size h p v a :
  is_free (deref (assign h p (set_size v)) a) = is_free (deref h a).
Proof. field_read. Qed.
Lemma is_free_assign_is_free h p v a :
  is_free (deref (assign h p (set_is_free v)) a)
  = if decide (p = a) then v else is_free (deref h a).
Proof. field_read. Qed.
Lemma is_free_assign_next h p v a :
  is_free (deref (assign h p (set_next v)) a) = is_free (deref h a).
Proof. field_read. Qed.
Lemma is_free_assign_prev h p v a :
  is_free (deref (assign h p (set_prev v)) a) = is_free (deref h a).
Proof. field_read. Qed.
Lemma is_free_assign_magic h p v a :
  is_free (deref (assign h p (set_magic v)) a) = is_free (deref h a).
Proof. field_read. Qed.

Lemma next_assign_size h p v a :
  next (deref (assign h p (set_size v)) a) = next (deref h a).
Proof. field_read. Qed.
Lemma next_assign_is_free h p v a :
  next (deref (assign h p (set_is_free v)) a) = next (deref h a).
Proof. field_read. Qed.
Lemma next_assign_next h p v a :
  next (deref (assign h p (set_next v)) a)
  = if decide (p = a) then v else next (deref h a).
Proof. field_read. Qed.
Lemma next_assign_prev h p v a :
  next (deref (assign h p (set_prev v)) a) = next (deref h a).
Proof. field_read. Qed.
Lemma next_assign_magic h p v a :
  next (deref (assign h p (set_magic v)) a) = next (deref h a).
Proof. field_read. Qed.

Lemma prev_assign_size h p v a :
  prev (deref (assign h p (set_size v)) a) = prev (deref h a).
Proof. field_read. Qed.
Lemma prev_assign_is_free h p v a :
  prev (deref (assign h p (set_is_free v)) a) = prev (deref h a).
Proof. field_read. Qed.
Lemma prev_assign_next h p v a :
  prev (deref (assign h p (set_next v)) a) = prev (deref h a).
Proof. field_read. Qed.
Lemma prev_assign_prev h p v a :
  prev (deref (assign h p (set_prev v)) a)
  = if decide (p = a) then v else prev (deref h a).
Proof. field_read. Qed.
Lemma prev_assign_magic h p v a :
  prev (deref (assign h p (set_magic v)) a) = prev (deref h a).
Proof. field_read. Qed.

Lemma magic_assign_size h p v a :
  magic (deref (assign h p (set_size v)) a) = magic (deref h a).
Proof. field_read. Qed.
Lemma magic_assign_is_free h p v a :
  magic (deref (assign h p (set_is_free v)) a) = magic (deref h a).
Proof. field_read. Qed.
Lemma magic_assign_next h p v a :
  magic (deref (assign h p (set_next v)) a) = magic (deref h a).
Proof. field_read. Qed.
Lemma magic_assign_prev h p v a :
  magic (deref (assign h p (set_prev v)) a) = magic (deref h a).
Proof. field_read. Qed.
Lemma magic_assign_magic h p v a :
  magic (deref (assign h p (set_magic v)) a)
  = if decide (p = a) then v else magic (deref h a).
Proof. field_read. Qed.

Lemma deref_with_stats h s a : deref (with_stats h s) a = deref h a.
Proof. reflexivity. Qed.
Lemma deref_incr_free_blocks h a : deref (incr_free_blocks h) a = deref h a.
Proof. reflexivity. Qed.
Lemma deref_decr_free_blocks h a : deref (decr_free_blocks h) a = deref h a.
Proof. reflexivity. Qed.
Lemma memory_stats_assign h p f : memory_stats (assign h p f) = memory_stats h.
Proof. reflexivity. Qed.
Lemma heap_end_assign h p f : heap_end (assign h p f) = heap_end h.
Proof. reflexivity. Qed.
Lemma heap_start_assign h p f : heap_start (assign h p f) = heap_start h.
Proof. reflexivity. Qed.

Create Rewrite HintDb heap_rw.
#[local] Hint Rewrite
  size_assign_size size_assign_is_free size_assign_next size_assign_prev
  size_assign_magic is_free_assign_size is_free_assign_is_free
  is_free_assign_next is_free_assign_prev is_free_assign_magic
  next_assign_size next_assign_is_free next_assign_next next_assign_prev
  next_assign_magic prev_assign_size prev_assign_is_free prev_assign_next
  prev_assign_prev prev_assign_magic magic_assign_size magic_assign_is_free
  magic_assign_next magic_assign_prev magic_assign_magic
  deref_with_stats deref_incr_free_blocks deref_decr_free_blocks
  memory_stats_assign heap_end_assign heap_start_assign : heap_rw.

(** ** Tags and statistics under coalescing *)

Lemma same_tags_refl h : same_tags h h.
Proof. by intros a. Qed.

Lemma same_tags_trans h1 h2 h3 :
  same_tags h1 h2 → same_tags h2 h3 → same_tags h1 h3.
Proof. intros H1 H2 a. destruct (H1 a), (H2 a). split; congruence. Qed.

Lemma same_tags_merge_next h b : same_tags h (merge_next h b).
Proof.
  intros a. unfold merge_next. cbv zeta.
  autorewrite with heap_rw.
  match goal with |- context [if ?c then _ else _] => destruct c end;
    autorewrite with heap_rw; done.
Qed.

Lemma same_tags_merge_prev h b : same_tags h (merge_prev h b).
Proof.
  intros a. unfold merge_prev. cbv zeta.
  autorewrite with heap_rw.
  match goal with |- context [if ?c then _ else _] => destruct c end;
    autorewrite with heap_rw; done.
Qed.

Lemma coalesce_blocks_same_tags h b : same_tags h (coalesce_blocks h b).
Proof.
  unfold coalesce_blocks.
  destruct (_ || _); [apply same_tags_refl|]. cbv zeta.
  destruct (negb (next (deref h b) =? 0) && _).
  - eapply same_tags_trans; [apply same_tags_merge_next|].
    destruct (_ && _); [apply same_tags_merge_prev|apply same_tags_refl].
  - destruct (_ && _); [apply same_tags_merge_prev|apply same_tags_refl].
Qed.

Lemma memory_stats_merge_next h b :
  memory_stats (merge_next h b)
  = set_free_blocks (wrap32 (free_blocks (memory_stats h) - 1))
                    (memory_stats h).
Proof.
  unfold merge_next. cbv zeta.
  match goal with |- context [if ?c then _ else _] => destruct c end;
    reflexivity.
Qed.

Lemma memory_stats_merge_prev h b :
  memory_stats (merge_prev h b)
  = set_free_blocks (wrap32 (free_blocks (memory_stats h) - 1))
                    (memory_stats h).
Proof.
  unfold merge_prev. cbv zeta.
  match goal with |- context [if ?c then _ else _] => destruct c end;
    reflexivity.
Qed.

Lemma coalesce_blocks_stats h b :
  let s := memory_stats h in
  let s' := memory_stats (coalesce_blocks h b) in
  total_memory s' = total_memory s ∧ used_memory s' = used_memory s ∧
  free_memory s' = free_memory s ∧
  allocated_blocks s' = allocated_blocks s ∧
  corrupted_blocks s' = corrupted_blocks s ∧
  ∃ merges, 0 ≤ merges ≤ 2 ∧
    free_blocks s' = (if merges =? 0 then free_blocks s
                      else wrap32 (free_blocks s - merges)).
Proof.
  cbv zeta. unfold coalesce_blocks.
  destruct (_ || _); [repeat split; exists 0; split; [lia|done]|].
  cbv zeta.
  destruct (negb (next (deref h b) =? 0) && _);
    (destruct (_ && _);
     [rewrite memory_stats_merge_prev|]);
    rewrite ?memory_stats_merge_next; cbn; repeat split;
    first [ exists 0; split; [lia|reflexivity]
          | exists 1; split; [lia|reflexivity]
          | exists 2; split; [lia|]; cbn; unfold wrap32;
            rewrite Zminus_mod_idemp_l; f_equal; lia ].
Qed.

(** ** The block list of a well-formed heap *)

Lemma bseg_ext h h' p l n e :
  (∀ a, a ∈ l → deref h' a = deref h a) →
  bseg h p l n e → bseg h' p l n e.
Proof.
  revert p. induction l as [|a l IH]; intros p Hl; cbn; [done|].
  rewrite (Hl a) by left.
  intros (?&?&?&?&?&?). repeat split; try done; try lia.
  apply IH; [|done]. intros x Hx. apply Hl. by right.
Qed.

Lemma last_cons_default (x p : Z) (l : list Z) :
  List.last (x :: l) p = List.last l x.
Proof.
  revert x p. induction l as [|y l IH]; intros x p; [done|].
  change (List.last (x :: y :: l) p) with (List.last (y :: l) p).
  by rewrite !IH.
Qed.

Lemma bseg_app h p l1 a l2 n e :
  bseg h p (l1 ++ a :: l2) n e ↔
  bseg h p l1 a a ∧ bseg h (List.last l1 p) (a :: l2) n e.
Proof.
  revert p. induction l1 as [|x l1 IH]; intros p.
  - cbn. tauto.
  - cbn [app bseg]. rewrite IH.
    replace (hd n (l1 ++ a :: l2)) with (hd a l1) by (by destruct l1).
    replace (hd e (l1 ++ a :: l2)) with (hd a l1) by (by destruct l1).
    rewrite last_cons_default. cbn [bseg]. tauto.
Qed.

Lemma bseg_bounds h p a l n e :
  bseg h p (a :: l) n e →
  a + sizeof_memory_block ≤ e ∧
  ∀ x, x ∈ l → a + sizeof_memory_block ≤ x ∧ x + sizeof_memory_block ≤ e.
Proof.
  revert p a. induction l as [|b l IH]; intros p a.
  - cbn. intros (_&?&_&_&?&_). split; [lia|]. intros x Hx.
    by apply elem_of_nil in Hx.
  - intros (_&?&_&_&Hb&Hl). cbn in Hb. apply IH in Hl as [Hbe Hl].
    unfold sizeof_memory_block in *. split; [lia|].
    intros x [->|Hx]%elem_of_cons; [lia|]. specialize (Hl x Hx). lia.
Qed.

Lemma bseg_before h p l a :
  bseg h p l a a → ∀ x, x ∈ l → x + sizeof_memory_block ≤ a.
Proof.
  destruct l as [|b l]; [intros _ x Hx; by apply elem_of_nil in Hx|].
  intros H. apply bseg_bounds in H as [H1 H2].
  intros x [->|Hx]%elem_of_cons; [done|]. by apply H2.
Qed.

(** The addresses on both sides of a block of the list. *)
Lemma bseg_around h p l1 a l2 n e :
  bseg h p (l1 ++ a :: l2) n e →
  (∀ x, x ∈ l1 → x + sizeof_memory_block ≤ a) ∧
  (∀ x, x ∈ l2 → a + sizeof_memory_block ≤ x ∧ x + sizeof_memory_block ≤ e) ∧
  a + sizeof_memory_block ≤ e.
Proof.
  rewrite bseg_app. intros [H1 H2].
  split; [by eapply bseg_before|]. apply bseg_bounds in H2. tauto.
Qed.

Lemma bseg_NoDup h p l n e : bseg h p l n e → NoDup l.
Proof.
  revert p. induction l as [|a l IH]; intros p H; [constructor|].
  pose proof (bseg_bounds _ _ _ _ _ _ H) as [_ Hl].
  destruct H as (_&_&_&_&_&H). constructor; [|eauto].
  intros Ha. specialize (Hl a Ha). unfold sizeof_memory_block in Hl. lia.
Qed.

Lemma tag_ok_tracked h a : tag_ok (deref h a) → is_Some (blocks h !! a).
Proof.
  unfold deref. destruct (blocks h !! a); [eauto|].
  cbn. intros [[_ H]|[_ H]]; discriminate H.
Qed.

Lemma bseg_tracked h p l n e :
  bseg h p l n e → ∀ a, a ∈ l → is_Some (blocks h !! a).
Proof.
  revert p. induction l as [|a l IH]; intros p H x Hx.
  - by apply elem_of_nil in Hx.
  - destruct H as (_&_&Ht&_&_&H).
    apply elem_of_cons in Hx as [->|Hx]; [by apply tag_ok_tracked|eauto].
Qed.

Lemma bseg_length h p l n e :
  bseg h p l n e → (length l ≤ base.size (blocks h))%nat.
Proof.
  intros H.
  rewrite <- (size_list_to_set (C := gset Z) l) by (by eapply bseg_NoDup).
  rewrite <- size_dom. apply subseteq_size.
  intros a Ha. apply elem_of_list_to_set in Ha. apply elem_of_dom.
  by eapply bseg_tracked.
Qed.

Lemma bseg_footprint h p a l n e :
  bseg h p (a :: l) n e → footprint h (a :: l) = e - a.
Proof.
  revert p a. induction l as [|b l IH]; intros p a.
  - cbn. intros (_&_&_&_&?&_). lia.
  - intros (_&_&_&_&Hb&Hl). cbn in Hb. apply IH in Hl.
    change (footprint h (a :: b :: l))
      with (size (deref h a) + sizeof_memory_block + footprint h (b :: l)).
    lia.
Qed.

Lemma block_list_from_null fuel h : block_list_from fuel h 0 = Some [].
Proof. by destruct fuel. Qed.

Lemma bseg_block_list_from fuel h p a l :
  0 < a → bseg h p (a :: l) 0 (heap_end h) → (length (a :: l) ≤ fuel)%nat →
  block_list_from fuel h a = Some (a :: l).
Proof.
  revert p a fuel. induction l as [|b l IH]; intros p a fuel Ha H Hlen.
  - destruct fuel as [|fuel]; [cbn in Hlen; lia|].
    pose proof (bseg_bounds _ _ _ _ _ _ H) as [Hae _].
    destruct H as (_&_&_&Hn&_&_). cbn in Hn. cbn [block_list_from].
    unfold sizeof_memory_block in *.
    replace (negb (a =? 0) && (a <? heap_end h)) with true by lia.
    rewrite Hn, block_list_from_null. done.
  - destruct fuel as [|fuel]; [cbn in Hlen; lia|].
    pose proof (bseg_bounds _ _ _ _ _ _ H) as [Hae _].
    destruct H as (_&?&_&Hn&Hb&H). cbn in Hn, Hb. cbn [block_list_from].
    unfold sizeof_memory_block in *.
    replace (negb (a =? 0) && (a <? heap_end h)) with true by lia.
    rewrite Hn. rewrite (IH a b fuel); [done|lia|done|cbn in *; lia].
Qed.

Lemma heap_ok_nonempty h l : heap_ok h l → ∃ l', l = HEAP_START :: l'.
Proof.
  intros (_&_&_&Hhd&_). destruct l as [|a l']; [discriminate Hhd|].
  cbn in Hhd. subst a. by exists l'.
Qed.

Lemma heap_ok_block_list h l : heap_ok h l → block_list h = Some l.
Proof.
  intros Hok. destruct (heap_ok_nonempty _ _ Hok) as [l' ->].
  destruct Hok as (_&Hs&_&_&H). unfold block_list. rewrite Hs.
  apply (bseg_block_list_from _ _ 0); [done|done|].
  apply bseg_length in H. unfold walk_budget. lia.
Qed.

Lemma heap_ok_footprint h l : heap_ok h l → footprint h l = HEAP_SIZE.
Proof.
  intros Hok. destruct (heap_ok_nonempty _ _ Hok) as [l' ->].
  destruct Hok as (_&_&He&_&H).
  rewrite (bseg_footprint _ _ _ _ _ _ H), He. lia.
Qed.

Lemma heap_ok_covers_arena h l : heap_ok h l → covers_arena h.
Proof.
  intros Hok. exists l.
  split; [by apply heap_ok_block_list|by apply heap_ok_footprint].
Qed.

(** [find_free_block] on a well-formed heap: [NULL], or a free block of the
    list that is large enough. *)
Lemma bseg_find_free_block_loop fuel h p a l sz :
  0 < a → bseg h p (a :: l) 0 (heap_end h) → (length (a :: l) ≤ fuel)%nat →
  ∃ r, find_free_block_loop fuel h a sz = Some r ∧
       (r = 0 ∨ (r ∈ a :: l ∧ is_free (deref h r) = true
                 ∧ sz ≤ size (deref h r))).
Proof.
  revert p a fuel. induction l as [|b l IH]; intros p a fuel Ha H Hlen.
  - destruct fuel as [|fuel]; [cbn in Hlen; lia|].
    pose proof (bseg_bounds _ _ _ _ _ _ H) as [Hae _].
    destruct H as (_&_&_&Hn&_&_). cbn in Hn. cbn [find_free_block_loop].
    unfold sizeof_memory_block in *.
    replace (negb (a =? 0) && (a <? heap_end h)) with true by lia.
    destruct (is_free (deref h a) && (sz <=? size (deref h a))) eqn:E.
    + exists a. split; [done|]. right. apply andb_true_iff in E as [E1 E2].
      split; [left|]. split; [done|lia].
    + exists 0. rewrite Hn. split; [by destruct fuel|by left].
  - destruct fuel as [|fuel]; [cbn in Hlen; lia|].
    pose proof (bseg_bounds _ _ _ _ _ _ H) as [Hae _].
    destruct H as (_&?&_&Hn&Hb&H). cbn in Hn, Hb. cbn [find_free_block_loop].
    unfold sizeof_memory_block in *.
    replace (negb (a =? 0) && (a <? heap_end h)) with true by lia.
    destruct (is_free (deref h a) && (sz <=? size (deref h a))) eqn:E.
    + exists a. split; [done|]. right. apply andb_true_iff in E as [E1 E2].
      split; [left|]. split; [done|lia].
    + rewrite Hn. destruct (IH a b fuel) as (r & Hr & Hcase);
        [lia|done|cbn in *; lia|].
      exists r. split; [done|]. destruct Hcase as [->|(Hin & Hf & Hs)];
        [by left|].
      right. split; [by right|done].
Qed.

Lemma heap_ok_find_free_block h l sz :
  heap_ok h l →
  ∃ r, find_free_block h sz = Some r ∧
       (r = 0 ∨ (r ∈ l ∧ is_free (deref h r) = true ∧ sz ≤ size (deref h r))).
Proof.
  intros Hok. destruct (heap_ok_nonempty _ _ Hok) as [l' ->].
  destruct Hok as (_&Hs&_&_&H). unfold find_free_block. rewrite Hs.
  apply (bseg_find_free_block_loop _ _ 0); [done|done|].
  apply bseg_length in H. unfold walk_budget. lia.
Qed.

(** ** Splitting and coalescing on a well-formed heap *)

Lemma wrap32_small z : 0 ≤ z < 2 ^ 32 → wrap32 z = z.
Proof. intros. unfold wrap32. by apply Z.mod_small. Qed.

Lemma wrap64_small z : 0 ≤ z < 2 ^ 64 → wrap64 z = z.
Proof. intros. unfold wrap64. by apply Z.mod_small. Qed.

Ltac rd :=
  autorewrite with heap_rw;
  repeat first [ rewrite decide_True by lia | rewrite decide_False by lia ].

Lemma tag_ok_eq b b' :
  is_free b' = is_free b → magic b' = magic b → tag_ok b → tag_ok b'.
Proof. unfold tag_ok. by intros -> ->. Qed.

Ltac tag_tac :=
  first [ by (left; rd)
        | by (right; rd)
        | match goal with
          | H : tag_ok (deref _ ?x) |- tag_ok (deref _ ?x) =>
              by (eapply tag_ok_eq; [| |exact H]; rd)
          end ].

Ltac fin :=
  try done; try (unfold sizeof_memory_block in *; lia); try tag_tac.

Lemma bseg_cons_intro h p a l n e :
  prev (deref h a) = p → 0 ≤ size (deref h a) < 2 ^ 32 →
  tag_ok (deref h a) → next (deref h a) = hd n l →
  a + 32 + size (deref h a) = hd e l → bseg h a l n e →
  bseg h p (a :: l) n e.
Proof. cbn. unfold sizeof_memory_block. tauto. Qed.

(** A run whose blocks keep their links and sizes, and have fitting tags,
    is still a run. *)
Lemma bseg_ext_fields h h' p l n e :
  (∀ a, a ∈ l →
        prev (deref h' a) = prev (deref h a) ∧
        size (deref h' a) = size (deref h a) ∧
        next (deref h' a) = next (deref h a) ∧
        tag_ok (deref h' a)) →
  bseg h p l n e → bseg h' p l n e.
Proof.
  revert p. induction l as [|a l IH]; intros p Hl; cbn; [done|].
  destruct (Hl a) as (-> & -> & -> & Ht); [left|].
  intros (?&?&?&?&?&?). repeat split; try done; try lia.
  apply IH; [|done]. intros x Hx. apply Hl. by right.
Qed.

(** The run after a block whose predecessor changes: only the [prev] of
    its first block is rewritten. *)
Lemma bseg_new_prev h h' p p' l n e :
  (∀ a, a ∈ l →
        prev (deref h' a)
        = (if decide (a = hd 0 l) then p' else prev (deref h a)) ∧
        size (deref h' a) = size (deref h a) ∧
        next (deref h' a) = next (deref h a) ∧
        tag_ok (deref h' a)) →
  bseg h p l n e → bseg h' p' l n e.
Proof.
  destruct l as [|a l]; [done|]. intros Hl H.
  pose proof (bseg_NoDup _ _ _ _ _ H) as [Ha _]%NoDup_cons.
  destruct H as (?&?&?&?&?&H).
  destruct (Hl a) as (Hp & Hs & Hn & Ht); [left|].
  cbn [hd] in Hp. rewrite decide_True in Hp by done.
  cbn [bseg]. rewrite Hp, Hs, Hn. repeat split; try done; try lia.
  eapply bseg_ext_fields; [|done]. intros x Hx.
  destruct (Hl x) as (Hp' & Hs' & Hn' & Ht'); [by right|].
  cbn [hd] in Hp'. rewrite decide_False in Hp' by (by intros ->).
  done.
Qed.

Lemma heap_ok_limits h l :
  heap_ok h l →
  heap_end h = HEAP_START + HEAP_SIZE ∧
  ∀ a, a ∈ l → HEAP_START ≤ a ∧ a + sizeof_memory_block ≤ heap_end h.
Proof.
  intros Hok. destruct (heap_ok_nonempty _ _ Hok) as [l' ->].
  destruct Hok as (_&_&He&_&H). split; [done|].
  apply bseg_bounds in H as [H1 H2].
  intros a [->|Ha]%elem_of_cons; [lia|].
  specialize (H2 a Ha). unfold sizeof_memory_block in *. lia.
Qed.

Lemma hd_app_cons {A} (d : A) l1 a l2 : hd d (l1 ++ a :: l2) = hd a l1.
Proof. by destruct l1. Qed.

(** [split_block] cuts block [a] of the list in two. *)
Lemma split_block_ok h l1 a l2 sz :
  heap_ok h (l1 ++ a :: l2) → 0 ≤ sz →
  sz + sizeof_memory_block < size (deref h a) →
  let nb := a + sizeof_memory_block + sz in
  let h' := split_block h a sz in
  heap_ok h' (l1 ++ a :: nb :: l2) ∧
  size (deref h' a) = sz ∧
  size (deref h' nb) = size (deref h a) - sz - sizeof_memory_block ∧
  is_free (deref h' nb) = true ∧
  (∀ x, x ≠ nb → is_free (deref h' x) = is_free (deref h x)) ∧
  (∀ x, x ≠ nb → magic (deref h' x) = magic (deref h x)).
Proof.
  intros Hok Hsz Hfit nb h'.
  destruct (heap_ok_limits _ _ Hok) as [He Hlim].
  destruct (Hlim a) as [Ha1 Ha2]; [apply elem_of_app; right; left|].
  destruct Hok as (Hi & Hs & _ & Hhd & Hseg).
  pose proof (bseg_around _ _ _ _ _ _ _ Hseg) as (Hl1 & Hl2 & _).
  apply bseg_app in Hseg as [Hseg1 Hseg2].
  destruct Hseg2 as (Hp & Hsa & Hta & Hna & Hea & Hseg2).
  unfold sizeof_memory_block, HEAP_START, HEAP_SIZE in *.
  assert (Hc : next (deref h a) = 0 ∨ a + 32 + size (deref h a)
               = next (deref h a)).
  { destruct l2; cbn in Hna, Hea; [by left|right; congruence]. }
  assert (Hh' : h' = incr_free_blocks
    (let h7 :=
       assign (assign (assign (assign (assign (assign (assign h
         nb (set_size (size (deref h a) - sz - 32)))
         nb (set_is_free true)) nb (set_magic BLOCK_MAGIC_FREE))
         nb (set_next (next (deref h a)))) nb (set_prev a))
         a (set_size sz)) a (set_next nb) in
     if next (deref h a) =? 0 then h7
     else assign h7 (next (deref h a)) (set_prev nb))).
  { subst h'. unfold split_block, sizeof_memory_block.
    rewrite (wrap64_small (sz + 32)) by lia.
    replace (a =? 0) with false by lia.
    replace (size (deref h a) <=? sz + 32) with false by lia.
    cbn [orb]. cbv zeta.
    rewrite (wrap64_small (a + 32 + sz)) by lia. fold nb.
    rewrite (wrap64_small (size (deref h a) - sz - 32)) by lia.
    rewrite (wrap32_small (size (deref h a) - sz - 32)) by lia.
    rewrite (wrap32_small sz) by lia.
    rd. subst nb. rd.
    destruct (next (deref h a) =? 0); reflexivity. }
  clearbody h'. subst h'.
  assert (Hnb : nb = a + 32 + sz) by done. clearbody nb.
  destruct l2 as [|c l2]; cbn [hd] in Hna, Hea.
  - rewrite Hna. cbn [Z.eqb]. cbv zeta.
    split; [|repeat split; intros; rd; done].
    split; [done|]. split; [done|]. split; [done|].
    split; [by rewrite hd_app_cons in *|].
    apply bseg_app. split.
    + eapply bseg_ext; [|done]. intros x Hx. specialize (Hl1 x Hx).
      rewrite deref_incr_free_blocks, !deref_assign_ne by lia. done.
    + cbn [bseg hd] in *. rd.
      change (heap_end (incr_free_blocks ?x)) with (heap_end x). rd.
      repeat split; fin.
  - destruct (Hl2 c) as [Hc1 Hc2]; [left|].
    replace (next (deref h a) =? 0) with false by lia. cbv zeta.
    rewrite Hna.
    split; [|repeat split; intros; rd; done].
    split; [done|]. split; [done|]. split; [done|].
    split; [by rewrite hd_app_cons in *|].
    apply bseg_app. split.
    + eapply bseg_ext; [|done]. intros x Hx. specialize (Hl1 x Hx).
      rewrite deref_incr_free_blocks, !deref_assign_ne by lia. done.
    + change (heap_end (incr_free_blocks ?x)) with (heap_end x). rd.
      apply bseg_cons_intro; [rd; cbn [hd]; fin..|].
      apply bseg_cons_intro; [rd; cbn [hd]; fin..|].
      eapply bseg_new_prev; [|exact Hseg2].
      intros x Hx. cbn [hd].
      destruct (decide (x = c)) as [->|Hne].
      * destruct Hseg2 as (_&_&Htc&_). rd. repeat split; try done. tag_tac.
      * assert (Hx' : x ∈ l2).
        { by apply elem_of_cons in Hx as [?|?]. }
        pose proof (bseg_bounds _ _ _ _ _ _ Hseg2) as [_ Hxb].
        specialize (Hxb x Hx'). unfold sizeof_memory_block in Hxb.
        rd. repeat split; try done. rewrite !deref_assign_ne by lia.
        destruct Hseg2 as (_&_&_&_&_&Hseg2).
        clear -Hseg2 Hx'. revert Hseg2 Hx'. generalize c.
        induction l2 as [|y l2 IH]; intros c' Hs Hx';
          [by apply elem_of_nil in Hx'|].
        destruct Hs as (_&_&Hty&_&_&Hs).
        apply elem_of_cons in Hx' as [->|Hx']; [done|eauto].
Qed.

(** [merge_next] lets block [a] of the list absorb its successor [b]. *)
Lemma merge_next_ok h l1 a b l3 :
  heap_ok h (l1 ++ a :: b :: l3) →
  let h' := merge_next h a in
  heap_ok h' (l1 ++ a :: l3) ∧
  size (deref h' a)
  = size (deref h a) + size (deref h b) + sizeof_memory_block.
Proof.
  intros Hok h'.
  destruct (heap_ok_limits _ _ Hok) as [He Hlim].
  destruct (Hlim a) as [Ha1 Ha2]; [apply elem_of_app; right; left|].
  destruct Hok as (Hi & Hs & _ & Hhd & Hseg).
  pose proof (bseg_around _ _ _ _ _ _ _ Hseg) as (Hl1 & Hl2 & _).
  apply bseg_app in Hseg as [Hseg1 Hseg2].
  destruct Hseg2 as (Hp & Hsa & Hta & Hna & Hea & Hseg2).
  cbn [hd] in Hna, Hea.
  pose proof (bseg_bounds _ _ _ _ _ _ Hseg2) as [Hbe Hl3].
  destruct Hseg2 as (Hpb & Hsb & Htb & Hnb & Heb & Hseg3).
  unfold sizeof_memory_block, HEAP_START, HEAP_SIZE in *.
  assert (Hbb : b + 32 + size (deref h b) ≤ heap_end h).
  { destruct l3 as [|c l3]; cbn [hd] in Heb; [lia|].
    destruct (Hl3 c); [left|lia]. }
  assert (Hh' : h' = decr_free_blocks
    (let h2 :=
       assign (assign h a
         (set_size (size (deref h a) + size (deref h b) + 32)))
         a (set_next (next (deref h b))) in
     if next (deref h b) =? 0 then h2
     else assign h2 (next (deref h b)) (set_prev a))).
  { subst h'. unfold merge_next, sizeof_memory_block. cbv zeta.
    rewrite Hna.
    rewrite (wrap64_small (size (deref h b) + 32)) by lia.
    rewrite (wrap64_small (size (deref h a) + _)) by lia.
    rewrite (wrap32_small (size (deref h a) + _)) by lia.
    rd. rewrite Hna. rd. rewrite Z.add_assoc.
    destruct (next (deref h b) =? 0); reflexivity. }
  clearbody h'. subst h'.
  destruct l3 as [|c l3]; cbn [hd] in Hnb, Heb.
  - rewrite Hnb. cbn [Z.eqb]. cbv zeta.
    split; [|rd; lia].
    split; [done|]. split; [done|]. split; [done|].
    split; [by rewrite hd_app_cons in *|].
    apply bseg_app. split.
    + eapply bseg_ext; [|done]. intros x Hx. specialize (Hl1 x Hx).
      rewrite deref_decr_free_blocks, !deref_assign_ne by lia. done.
    + change (heap_end (decr_free_blocks ?x)) with (heap_end x). rd.
      apply bseg_cons_intro; [rd; cbn [hd]; fin..|done].
  - destruct (Hl3 c) as [Hc1 Hc2]; [left|].
    replace (next (deref h b) =? 0) with false by lia. cbv zeta.
    rewrite Hnb.
    split; [|rd; lia].
    split; [done|]. split; [done|]. split; [done|].
    split; [by rewrite hd_app_cons in *|].
    apply bseg_app. split.
    + eapply bseg_ext; [|done]. intros x Hx. specialize (Hl1 x Hx).
      rewrite deref_decr_free_blocks, !deref_assign_ne by lia. done.
    + change (heap_end (decr_free_blocks ?x)) with (heap_end x). rd.
      apply bseg_cons_intro; [rd; cbn [hd]; fin..|].
      eapply bseg_new_prev; [|exact Hseg3].
      intros x Hx. cbn [hd].
      destruct (decide (x = c)) as [->|Hne].
      * destruct Hseg3 as (_&_&Htc&_). rd. repeat split; try done. tag_tac.
      * assert (Hx' : x ∈ l3).
        { by apply elem_of_cons in Hx as [?|?]. }
        pose proof (bseg_bounds _ _ _ _ _ _ Hseg3) as [_ Hxb].
        specialize (Hxb x Hx'). unfold sizeof_memory_block in Hxb.
        rd. repeat split; try done. rewrite !deref_assign_ne by lia.
        destruct Hseg3 as (_&_&_&_&_&Hseg3).
        clear -Hseg3 Hx'. revert Hseg3 Hx'. generalize c.
        induction l3 as [|y l3 IH]; intros c' Hs Hx';
          [by apply elem_of_nil in Hx'|].
        destruct Hs as (_&_&Hty&_&_&Hs).
        apply elem_of_cons in Hx' as [->|Hx']; [done|eauto].
Qed.

(** On linked neighbours [merge_prev] at a block is [merge_next] at its
    predecessor. *)
Lemma merge_prev_as_merge_next h a :
  next (deref h (prev (deref h a))) = a →
  merge_prev h a = merge_next h (prev (deref h a)).
Proof.
  intros Hn. unfold merge_prev, merge_next. cbv zeta.
  autorewrite with heap_rw. rewrite Hn. autorewrite with heap_rw.
  reflexivity.
Qed.

(** ** Free neighbours *)

Lemma no_adjacent_free_cons h a l :
  no_adjacent_free h (a :: l) ↔
  (is_free (deref h a) = true → is_free (deref h (hd 0 l)) = true → l = [])
  ∧ no_adjacent_free h l.
Proof.
  destruct l as [|b l]; cbn [no_adjacent_free hd]; [tauto|].
  split; intros [H1 H2]; (split; [|done]).
  - intros Ha Hb. by rewrite Ha, Hb in H1.
  - destruct (is_free (deref h a)), (is_free (deref h b)); try done.
    by discriminate H1.
Qed.

Lemma no_adjacent_free_app h l1 a l2 :
  no_adjacent_free h (l1 ++ a :: l2) ↔
  no_adjacent_free h (l1 ++ [a]) ∧ no_adjacent_free h (a :: l2).
Proof.
  induction l1 as [|x l1 IH].
  - cbn [app]. rewrite !no_adjacent_free_cons. cbn. tauto.
  - cbn [app]. rewrite !(no_adjacent_free_cons h x), IH.
    rewrite !hd_app_cons.
    assert (l1 ++ a :: l2 = [] ↔ l1 ++ [a] = []) as ->
      by (by destruct l1).
    tauto.
Qed.

(** Fewer free blocks, no more free neighbours. *)
Lemma no_adjacent_free_mono h h' l :
  (∀ x, x ∈ l → is_free (deref h' x) = true → is_free (deref h x) = true) →
  no_adjacent_free h l → no_adjacent_free h' l.
Proof.
  induction l as [|a l IH]; [done|]. intros Hl.
  rewrite !no_adjacent_free_cons. intros [H1 H2]. split.
  - intros Ha Hb. destruct l as [|b l]; [done|]. cbn [hd] in *.
    apply H1; apply Hl; try done; [left|right; left].
  - apply IH; [|done]. intros x Hx. apply Hl. by right.
Qed.

Lemma no_adjacent_free_snoc_allocated h l a :
  is_free (deref h a) = false →
  no_adjacent_free h (l ++ [a]) ↔ no_adjacent_free h l.
Proof.
  intros Ha. induction l as [|x l IH].
  - cbn. tauto.
  - cbn [app]. rewrite !no_adjacent_free_cons, IH, hd_app_cons.
    destruct l as [|y l]; cbn [hd app].
    + rewrite Ha. split; [tauto|]. intros [_ ?]. split; [|done]. done.
    + split; intros [H1 H2]; (split; [|done]); intros ? ?;
        by specialize (H1 ltac:(done) ltac:(done)).
Qed.

(** ** The tag of a block of the list *)

Lemma heap_ok_retag h l a f m :
  heap_ok h l → a ∈ l →
  (f = true ∧ m = BLOCK_MAGIC_FREE ∨ f = false ∧ m = BLOCK_MAGIC_ALLOCATED) →
  heap_ok (assign (assign h a (set_is_free f)) a (set_magic m)) l.
Proof.
  intros (Hi & Hs & He & Hhd & Hseg) Ha Hfm.
  split; [done|]. split; [done|]. split; [done|]. split; [done|].
  change (heap_end (assign ?x _ _)) with (heap_end x).
  eapply bseg_ext_fields; [|done]. intros x Hx.
  autorewrite with heap_rw. repeat split.
  destruct (decide (a = x)) as [->|Hne].
  - unfold tag_ok. autorewrite with heap_rw. by rewrite !decide_True.
  - rewrite !deref_assign_ne by done.
    clear -Hseg Hx. revert Hseg Hx. generalize 0 at 1.
    induction l as [|y l IH]; intros p Hs Hx;
      [by apply elem_of_nil in Hx|].
    destruct Hs as (_&_&Hty&_&_&Hs).
    apply elem_of_cons in Hx as [->|Hx]; [done|eauto].
Qed.

Lemma heap_ok_with_stats h s l : heap_ok (with_stats h s) l ↔ heap_ok h l.
Proof.
  unfold heap_ok. cbn [memory_initialized heap_start heap_end with_stats].
  split; intros (?&?&?&?&H); repeat split; try done;
    (eapply bseg_ext; [|exact H]; done).
Qed.

Lemma heap_ok_with_bytes h m l : heap_ok (with_bytes h m) l ↔ heap_ok h l.
Proof.
  unfold heap_ok. cbn [memory_initialized heap_start heap_end with_bytes].
  split; intros (?&?&?&?&H); repeat split; try done;
    (eapply bseg_ext; [|exact H]; done).
Qed.

Lemma heap_ok_tag h l a : heap_ok h l → a ∈ l → tag_ok (deref h a).
Proof.
  intros (_&_&_&_&Hseg) Ha. revert Hseg Ha. generalize 0 at 1.
  induction l as [|y l IH]; intros p Hs Hx; [by apply elem_of_nil in Hx|].
  destruct Hs as (_&_&Hty&_&_&Hs).
  apply elem_of_cons in Hx as [->|Hx]; [done|eauto].
Qed.

Lemma heap_ok_size h l a : heap_ok h l → a ∈ l → 0 ≤ size (deref h a) < 2 ^ 32.
Proof.
  intros (_&_&_&_&Hseg) Ha. revert Hseg Ha. generalize 0 at 1.
  induction l as [|y l IH]; intros p Hs Hx; [by apply elem_of_nil in Hx|].
  destruct Hs as (_&Hsy&_&_&_&Hs).
  apply elem_of_cons in Hx as [->|Hx]; [done|eauto].
Qed.

(** A block of the list passes [validate_block]. *)
Lemma heap_ok_validate h l a : heap_ok h l → a ∈ l → validate_block h a = true.
Proof.
  intros Hok Ha. destruct (heap_ok_limits _ _ Hok) as [He Hlim].
  specialize (Hlim a Ha). pose proof (heap_ok_tag _ _ _ Hok Ha) as Ht.
  destruct Hok as (_&Hs&_). unfold validate_block.
  unfold HEAP_START, HEAP_SIZE, sizeof_memory_block in *.
  replace (a =? 0) with false by lia.
  replace (a <? heap_start h) with false by lia.
  replace (heap_end h <=? a) with false by lia. cbn [orb].
  destruct Ht as [[_ ->]|[_ ->]]; reflexivity.
Qed.

(** ** [coalesce_blocks] and [free] on a well-formed heap *)

Lemma no_adjacent_free_ext h h' l :
  (∀ x, x ∈ l → is_free (deref h' x) = is_free (deref h x)) →
  no_adjacent_free h l → no_adjacent_free h' l.
Proof.
  intros Hl. apply no_adjacent_free_mono. intros x Hx. by rewrite Hl.
Qed.

Lemma heap_ok_NoDup h l : heap_ok h l → NoDup l.
Proof. intros (_&_&_&_&H). by eapply bseg_NoDup. Qed.

Lemma heap_ok_prev h l1 a l2 :
  heap_ok h (l1 ++ a :: l2) → prev (deref h a) = List.last l1 0.
Proof. intros (_&_&_&_&H). apply bseg_app in H as [_ (?&_)]. done. Qed.

Lemma heap_ok_next h l1 a l2 :
  heap_ok h (l1 ++ a :: l2) → next (deref h a) = hd 0 l2.
Proof. intros (_&_&_&_&H). apply bseg_app in H as [_ (_&_&_&?&_)]. done. Qed.

Lemma heap_ok_pos h l a : heap_ok h l → a ∈ l → a ≠ 0.
Proof.
  intros Hok Ha. destruct (heap_ok_limits _ _ Hok) as [_ Hlim].
  specialize (Hlim a Ha). unfold HEAP_START in Hlim. lia.
Qed.

Lemma merge_next_heap_ok h l1 a b l3 :
  heap_ok h (l1 ++ a :: b :: l3) → heap_ok (merge_next h a) (l1 ++ a :: l3).
Proof. intros Hok. by destruct (merge_next_ok h l1 a b l3 Hok). Qed.

(** [coalesce_blocks] at a block of the list keeps the list well formed;
    when that block is free and the only one that may have a free
    neighbour, no two neighbours are free afterwards. *)
Lemma coalesce_blocks_spec h l1 a l2 :
  heap_ok h (l1 ++ a :: l2) →
  ∃ l', heap_ok (coalesce_blocks h a) l' ∧
    (∀ x, x ∈ l' → x ∈ l1 ++ a :: l2) ∧
    (is_free (deref h a) = true →
     no_adjacent_free (assign h a (set_is_free false)) (l1 ++ a :: l2) →
     no_adjacent_free (coalesce_blocks h a) l').
Proof.
  intros Hok.
  assert (Ha0 : a ≠ 0).
  { eapply heap_ok_pos; [done|]. apply elem_of_app. right. left. }
  unfold coalesce_blocks. apply Z.eqb_neq in Ha0 as Ha0'. rewrite Ha0'.
  cbn [orb].
  destruct (is_free (deref h a)) eqn:Hfa; cbn [negb];
    [|exists (l1 ++ a :: l2); split; [done|]; split; [done|]; done].
  cbv zeta.
  pose proof (heap_ok_NoDup _ _ Hok) as Hnd.
  apply NoDup_app in Hnd as (_ & Hl1a & [Hal2 _]%NoDup_cons).
  assert (Hal1 : a ∉ l1) by (intros H; eapply Hl1a; [done|left]).
  set (hA := assign h a (set_is_free false)).
  assert (HfA : ∀ x, x ≠ a → is_free (deref hA x) = is_free (deref h x)).
  { intros x Hx. subst hA. autorewrite with heap_rw.
    by rewrite decide_False. }
  (* the first [if]: the following block *)
  assert (∃ h1 l2',
    (if negb (next (deref h a) =? 0) && is_free (deref h (next (deref h a)))
     then merge_next h a else h) = h1 ∧
    heap_ok h1 (l1 ++ a :: l2') ∧ same_tags h h1 ∧
    (∀ x, x ∈ l2' → x ∈ l2) ∧
    (no_adjacent_free hA (l1 ++ a :: l2) →
     (is_free (deref h1 (hd 0 l2')) = true → l2' = []) ∧
     no_adjacent_free h1 l2'))
    as (h1 & l2' & -> & Hok1 & Htags1 & Hsub1 & Hnaf1).
  { rewrite (heap_ok_next _ _ _ _ Hok).
    destruct l2 as [|b l3]; cbn [hd].
    - exists h, []. cbn. split; [done|]. split; [done|].
      split; [apply same_tags_refl|]. done.
    - assert (Hb0 : b ≠ 0).
      { eapply heap_ok_pos; [done|]. apply elem_of_app. right. right. left. }
      apply Z.eqb_neq in Hb0. rewrite Hb0. cbn [negb andb].
      destruct (is_free (deref h b)) eqn:Hfb.
      + exists (merge_next h a), l3. split; [done|].
        split; [by eapply merge_next_heap_ok|].
        split; [apply same_tags_merge_next|].
        split; [intros x Hx; by right|].
        intros Hnaf. apply no_adjacent_free_app in Hnaf as [_ Hnaf].
        apply no_adjacent_free_cons in Hnaf as [_ Hnaf].
        assert (Hnaf' : no_adjacent_free h (b :: l3)).
        { eapply no_adjacent_free_ext; [|exact Hnaf].
          intros x Hx. symmetry. apply HfA. by intros ->. }
        apply no_adjacent_free_cons in Hnaf' as [Hb Hl3].
        split.
        * intros Hc. apply Hb; [done|].
          by rewrite <- (proj1 (same_tags_merge_next h a _)).
        * eapply no_adjacent_free_ext; [|exact Hl3].
          intros x _. apply same_tags_merge_next.
      + exists h, (b :: l3). split; [done|]. split; [done|].
        split; [apply same_tags_refl|]. split; [done|].
        intros Hnaf. split; [cbn [hd]; by rewrite Hfb|].
        apply no_adjacent_free_app in Hnaf as [_ Hnaf].
        apply no_adjacent_free_cons in Hnaf as [_ Hnaf].
        eapply no_adjacent_free_ext; [|exact Hnaf].
        intros x Hx. symmetry. apply HfA. by intros ->. }
  assert (Hfa1 : is_free (deref h1 a) = true).
  { by rewrite (proj1 (Htags1 a)). }
  (* the second [if]: the preceding block *)
  rewrite (heap_ok_prev _ _ _ _ Hok1).
  destruct l1 as [|p0 l0 _] using rev_ind.
  - cbn [List.last Z.eqb negb andb app].
    exists (a :: l2'). split; [done|]. split.
    { intros x [->|Hx]%elem_of_cons; [left|right; by apply Hsub1]. }
    intros _ Hnaf. apply no_adjacent_free_cons.
    destruct (Hnaf1 Hnaf) as [H1 H2]. split; [|done]. intros _. exact H1.
  - rewrite List.last_last.
    assert (Hp0 : p0 ≠ 0).
    { eapply heap_ok_pos; [exact Hok1|].
      apply elem_of_app. left. apply elem_of_app. right. left. }
    assert (Hpa : p0 ≠ a).
    { intros ->. apply Hal1. apply elem_of_app. right. left. }
    apply Z.eqb_neq in Hp0. rewrite Hp0. cbn [negb andb].
    rewrite <- app_assoc in Hok1. cbn [app] in Hok1.
    assert (HnafP : no_adjacent_free hA ((l0 ++ [p0]) ++ a :: l2) →
                    ∀ h', (∀ x, x ≠ a → is_free (deref h' x)
                                       = is_free (deref h x)) →
                    no_adjacent_free h' (l0 ++ [p0])).
    { intros Hnaf h' Hh'.
      apply no_adjacent_free_app in Hnaf as [Hnaf _].
      apply no_adjacent_free_snoc_allocated in Hnaf;
        [|subst hA; autorewrite with heap_rw; by rewrite decide_True].
      eapply no_adjacent_free_ext; [|exact Hnaf].
      intros x Hx. rewrite Hh', HfA; try done; by intros ->. }
    destruct (is_free (deref h1 p0)) eqn:Hfp.
    + rewrite merge_prev_as_merge_next;
        rewrite (heap_ok_prev _ (l0 ++ [p0]) a l2')
          by (by rewrite <- app_assoc); rewrite List.last_last;
        [|by rewrite (heap_ok_next _ _ _ _ Hok1)].
      exists (l0 ++ p0 :: l2').
      split; [by eapply merge_next_heap_ok|]. split.
      { intros x Hx. rewrite <- app_assoc. cbn [app].
        rewrite !elem_of_app, !elem_of_cons in *.
        destruct Hx as [?|[?|?]]; [tauto|tauto|].
        right. right. right. by apply Hsub1. }
      intros _ Hnaf. destruct (Hnaf1 Hnaf) as [H1 H2].
      apply no_adjacent_free_app. split.
      * apply (HnafP Hnaf). intros x Hx.
        rewrite (proj1 (same_tags_merge_next h1 p0 x)).
        apply Htags1.
      * apply no_adjacent_free_cons. split.
        -- intros _ Hc. apply H1.
           by rewrite <- (proj1 (same_tags_merge_next h1 p0 _)).
        -- eapply no_adjacent_free_ext; [|exact H2].
           intros x _. apply same_tags_merge_next.
    + exists (l0 ++ p0 :: a :: l2'). split; [done|]. split.
      { intros x Hx. rewrite <- app_assoc. cbn [app].
        rewrite !elem_of_app, !elem_of_cons in *.
        destruct Hx as [?|[?|[?|?]]]; [tauto|tauto|tauto|].
        right. right. right. by apply Hsub1. }
      intros _ Hnaf. destruct (Hnaf1 Hnaf) as [H1 H2].
      apply no_adjacent_free_app. split.
      * apply (HnafP Hnaf). intros x Hx. apply Htags1.
      * apply no_adjacent_free_cons. split.
        -- cbn [hd]. intros Hc. by rewrite Hfp in Hc.
        -- apply no_adjacent_free_cons. split; [|done].
           intros _. exact H1.
Qed.

(** The order of the two merges: with both neighbours free, the following
    block is absorbed first and the preceding block then absorbs the
    extended block. *)
Lemma coalesce_blocks_both_neighbours h l0 p a b l3 :
  heap_ok h (l0 ++ p :: a :: b :: l3) →
  is_free (deref h p) = true → is_free (deref h a) = true →
  is_free (deref h b) = true →
  coalesce_blocks h a = merge_next (merge_next h a) p ∧
  heap_ok (coalesce_blocks h a) (l0 ++ p :: l3) ∧
  size (deref (coalesce_blocks h a) p)
  = size (deref h p) + size (deref h a) + size (deref h b)
    + 2 * sizeof_memory_block.
Proof.
  intros Hok Hfp Hfa Hfb.
  assert (Hok' : heap_ok h ((l0 ++ [p]) ++ a :: b :: l3))
    by (by rewrite <- app_assoc).
  assert (Ha0 : a ≠ 0).
  { eapply heap_ok_pos; [exact Hok'|]. apply elem_of_app. right. left. }
  assert (Hb0 : b ≠ 0).
  { eapply heap_ok_pos; [exact Hok'|]. apply elem_of_app. right. right. left. }
  assert (Hp0 : p ≠ 0).
  { eapply heap_ok_pos; [exact Hok|]. apply elem_of_app. right. left. }
  assert (Hpa : p ≠ a).
  { pose proof (heap_ok_NoDup _ _ Hok) as Hnd.
    apply NoDup_app in Hnd as (_ & _ & [Hnd _]%NoDup_cons).
    intros ->. apply Hnd. left. }
  destruct (merge_next_ok h (l0 ++ [p]) a b l3 Hok') as [Hok1 Hsz1].
  rewrite <- app_assoc in Hok1. cbn [app] in Hok1.
  destruct (merge_next_ok (merge_next h a) l0 p a l3 Hok1) as [Hok2 Hsz2].
  assert (E : coalesce_blocks h a = merge_next (merge_next h a) p).
  { unfold coalesce_blocks. apply Z.eqb_neq in Ha0, Hb0, Hp0.
    rewrite Ha0, Hfa. cbn [orb negb]. cbv zeta.
    rewrite (heap_ok_next _ _ _ _ Hok'). cbn [hd].
    rewrite Hb0, Hfb. cbn [negb andb].
    rewrite (heap_ok_prev _ (l0 ++ [p]) a l3)
      by (by rewrite <- app_assoc).
    rewrite List.last_last, Hp0.
    rewrite (proj1 (same_tags_merge_next h a p)), Hfp. cbn [negb andb].
    rewrite merge_prev_as_merge_next;
      rewrite (heap_ok_prev _ (l0 ++ [p]) a l3)
        by (by rewrite <- app_assoc); rewrite List.last_last;
      [done|by rewrite (heap_ok_next _ _ _ _ Hok1)]. }
  rewrite E. split; [done|]. split; [done|].
  rewrite Hsz2, Hsz1.
  assert (size (deref (merge_next h a) p) = size (deref h p)) as ->.
  { unfold merge_next. cbv zeta. autorewrite with heap_rw.
    destruct (negb _); autorewrite with heap_rw;
      by rewrite ?decide_False by done. }
  unfold sizeof_memory_block. lia.
Qed.

(** ** Stores through byte pointers and the headers under them *)

Lemma covered_false d n a : a < d ∨ d + n ≤ a → covered d n a = false.
Proof. unfold covered. intros [?|?]; lia. Qed.

Lemma covered_true d n a : d ≤ a < d + n → covered d n a = true.
Proof. unfold covered. lia. Qed.

Lemma refresh_field_clear w m d n a x :
  a + Z.of_nat w ≤ d ∨ d + n ≤ a → refresh_field w m d n a x = x.
Proof.
  revert a x. induction w as [|w IH]; intros a x Ha; [done|].
  cbn [refresh_field]. rewrite covered_false by lia. rewrite IH by lia.
  symmetry. rewrite Z.add_comm. apply Z.div_mod. lia.
Qed.

(** A store that does not reach the 32 bytes of a header leaves it. *)
Lemma refresh_block_clear m d n a b :
  a + sizeof_memory_block ≤ d ∨ d + n ≤ a → refresh_block m d n a b = b.
Proof.
  unfold sizeof_memory_block. intros Ha. unfold refresh_block.
  rewrite !refresh_field_clear by lia. rewrite covered_false by lia.
  by destruct b.
Qed.

Lemma refresh_field_covered w m d n a x :
  (∀ k, 0 ≤ k < Z.of_nat w → covered d n (a + k) = true) →
  0 ≤ x < 256 ^ Z.of_nat w →
  refresh_field w m d n a x = le_bytes w m a.
Proof.
  revert a x. induction w as [|w IH]; intros a x Hc Hx.
  - cbn [refresh_field le_bytes]. change (256 ^ Z.of_nat 0) with 1 in Hx. lia.
  - cbn [refresh_field le_bytes].
    pose proof (Hc 0 ltac:(lia)) as H0. rewrite Z.add_0_r in H0. rewrite H0.
    rewrite (IH (a + 1) (x / 256)); [done| |].
    + intros k Hk. replace (a + 1 + k) with (a + (k + 1)) by lia.
      apply Hc. lia.
    + rewrite Nat2Z.inj_succ, Z.pow_succ_r in Hx by lia.
      split; [apply Z.div_pos; lia|].
      apply Z.div_lt_upper_bound; lia.
Qed.

(** A header that lies wholly under the bytes stored reads back as they
    decode. *)
Lemma refresh_block_covered m d n a b :
  d ≤ a → a + sizeof_memory_block ≤ d + n → well_typed b →
  refresh_block m d n a b = decode m a.
Proof.
  unfold sizeof_memory_block. intros Hd Hn (Hs & Hnx & Hp & Hm).
  unfold refresh_block, decode.
  rewrite !refresh_field_covered;
    try (intros k Hk; apply covered_true; cbn in Hk; lia);
    try (cbn; lia).
  rewrite covered_true by lia. done.
Qed.

Lemma deref_stored h m d n a :
  deref (stored h m d n) a
  = match blocks h !! a with
    | Some b => refresh_block m d n a b
    | None => zero_block
    end.
Proof.
  unfold deref, stored. cbn [blocks]. rewrite map_lookup_imap.
  by destruct (blocks h !! a).
Qed.

Lemma deref_stored_clear h m d n a :
  a + sizeof_memory_block ≤ d ∨ d + n ≤ a →
  deref (stored h m d n) a = deref h a.
Proof.
  intros Ha. rewrite deref_stored. unfold deref.
  destruct (blocks h !! a); [|done]. by apply refresh_block_clear.
Qed.

(** A store of no byte changes no header. *)
Lemma deref_stored_none h m d n a : n ≤ 0 → deref (stored h m d n) a = deref h a.
Proof.
  intros Hn. rewrite deref_stored. unfold deref.
  destruct (blocks h !! a) as [b|]; [|done]. cbn [default].
  assert (Hc : ∀ x, covered d n x = false) by (intros x; unfold covered; lia).
  assert (Hf : ∀ w y x, refresh_field w m d n y x = x).
  { induction w as [|w IH]; intros y x; [done|].
    cbn [refresh_field]. rewrite Hc, IH. symmetry. rewrite Z.add_comm.
    apply Z.div_mod. lia. }
  unfold refresh_block. rewrite !Hf, Hc. by destruct b.
Qed.

Lemma size_blocks_stored h m d n :
  base.size (blocks (stored h m d n)) = base.size (blocks h).
Proof.
  rewrite <- !size_dom. f_equal. apply set_eq. intros a.
  rewrite !elem_of_dom. unfold stored. cbn [blocks].
  rewrite map_lookup_imap. destruct (blocks h !! a); cbn; split;
    intros [? ?]; eauto; done.
Qed.

(** The invariants look at the headers of the block list only. *)
Lemma heap_ok_ext h h' l :
  memory_initialized h' = memory_initialized h →
  heap_start h' = heap_start h → heap_end h' = heap_end h →
  (∀ a, a ∈ l → deref h' a = deref h a) →
  heap_ok h l → heap_ok h' l.
Proof.
  intros Hi Hs He Hl (?&?&?&?&H). unfold heap_ok. rewrite Hi, Hs, He.
  do 4 (split; [done|]). by eapply bseg_ext.
Qed.

Lemma bseg_after h p a l n e x :
  bseg h p (a :: l) n e → x ∈ l →
  a + sizeof_memory_block + size (deref h a) ≤ x.
Proof.
  intros (_ & Hs & _ & _ & He & Hl) Hx.
  destruct l as [|c l]; [by apply elem_of_nil in Hx|].
  cbn [hd] in He. apply elem_of_cons in Hx as [->|Hx]; [lia|].
  pose proof (bseg_bounds _ _ _ _ _ _ Hl) as [_ Hb].
  specialize (Hb x Hx). unfold sizeof_memory_block in *. lia.
Qed.

Lemma heap_ok_after h l1 a l2 x :
  heap_ok h (l1 ++ a :: l2) → x ∈ l2 →
  a + sizeof_memory_block + size (deref h a) ≤ x.
Proof.
  intros (_&_&_&_&H) Hx. apply bseg_app in H as [_ H].
  by eapply bseg_after.
Qed.

Lemma heap_ok_extent h l a :
  heap_ok h l → a ∈ l →
  a + sizeof_memory_block + size (deref h a) ≤ HEAP_START + HEAP_SIZE.
Proof.
  intros Hok Ha. apply list_elem_of_split in Ha as (l1 & l2 & ->).
  destruct (heap_ok_limits _ _ Hok) as [He Hlim].
  destruct Hok as (_&_&_&_&H). apply bseg_app in H as [_ H].
  destruct H as (_ & _ & _ & _ & Hext & _).
  destruct l2 as [|c l2]; cbn [hd] in Hext; [lia|].
  destruct (Hlim c) as [_ ?]; [apply elem_of_app; right; right; left|].
  unfold sizeof_memory_block in *. lia.
Qed.

Lemma heap_ok_ordered h l a b :
  heap_ok h l → a ∈ l → b ∈ l → a ≠ b →
  a + sizeof_memory_block + size (deref h a) ≤ b ∨
  b + sizeof_memory_block + size (deref h b) ≤ a.
Proof.
  intros Hok Ha Hb Hab.
  apply list_elem_of_split in Ha as (l1 & l2 & ->).
  apply elem_of_app in Hb as [Hb|[?|Hb]%elem_of_cons]; [|done|].
  - right. apply list_elem_of_split in Hb as (l0 & l0' & ->).
    rewrite <- app_assoc in Hok. cbn [app] in Hok.
    eapply heap_ok_after; [done|]. apply elem_of_app. right. left.
  - left. by eapply heap_ok_after.
Qed.

(** No header of the block list lies in the payload of a block of it. *)
Lemma heap_ok_payload_clear h l b x :
  heap_ok h l → b ∈ l → x ∈ l →
  x + sizeof_memory_block ≤ b + sizeof_memory_block ∨
  b + sizeof_memory_block + size (deref h b) ≤ x.
Proof.
  intros Hok Hb Hx. destruct (decide (x = b)) as [->|Hne]; [left; lia|].
  pose proof (heap_ok_size _ _ _ Hok Hx).
  destruct (heap_ok_ordered h l x b Hok Hx Hb Hne);
    unfold sizeof_memory_block in *; [left|right]; lia.
Qed.

(** A store into the payload of a block of the list leaves the headers of
    the list as they are. *)
Lemma stored_payload h l m b d n :
  heap_ok h l → b ∈ l →
  b + sizeof_memory_block ≤ d →
  d + n ≤ b + sizeof_memory_block + size (deref h b) →
  (∀ x, x ∈ l → deref (stored h m d n) x = deref h x) ∧
  heap_ok (stored h m d n) l.
Proof.
  intros Hok Hb Hd Hn.
  assert (Hl : ∀ x, x ∈ l → deref (stored h m d n) x = deref h x).
  { intros x Hx. apply deref_stored_clear.
    destruct (heap_ok_payload_clear h l b x Hok Hb Hx);
      unfold sizeof_memory_block in *; lia. }
  split; [done|]. by apply (heap_ok_ext h).
Qed.

Lemma live_agree h h' l ptr :
  heap_ok h l → heap_ok h' l →
  (∀ a, a ∈ l → deref h' a = deref h a) →
  live h ptr → live h' ptr.
Proof.
  intros Hok Hok' Hl (l0 & Hl0 & Ha & Hf).
  rewrite (heap_ok_block_list _ _ Hok) in Hl0. injection Hl0 as <-.
  exists l. split; [by apply heap_ok_block_list|]. split; [done|].
  by rewrite Hl.
Qed.

Lemma deref_stored_covered h m d n a b :
  blocks h !! a = Some b → well_typed b →
  d ≤ a → a + sizeof_memory_block ≤ d + n →
  deref (stored h m d n) a = decode m a.
Proof.
  intros Hb Hwt Hd Hn. rewrite deref_stored, Hb.
  by apply refresh_block_covered.
Qed.

(** ** The calls on a well-formed heap *)

Lemma live_block h l ptr :
  heap_ok h l → live h ptr →
  let a := ptr - sizeof_memory_block in
  a ∈ l ∧ is_free (deref h a) = false ∧
  wrap64 (ptr - sizeof_memory_block) = a ∧ ptr ≠ 0.
Proof.
  intros Hok (l' & Hl' & Ha & Hf) a.
  rewrite (heap_ok_block_list _ _ Hok) in Hl'. injection Hl' as <-.
  destruct (heap_ok_limits _ _ Hok) as [He Hlim]. specialize (Hlim _ Ha).
  fold a in Ha, Hf, Hlim |- *.
  unfold HEAP_START, HEAP_SIZE, sizeof_memory_block in *.
  repeat split; try done; [apply wrap64_small|]; lia.
Qed.

Lemma free_ok h l ptr :
  heap_ok h l → live h ptr →
  ∃ l', heap_ok (free h ptr) l' ∧
        (∀ x, x ∈ l' → x ∈ l) ∧
        (no_adjacent_free h l → no_adjacent_free (free h ptr) l').
Proof.
  intros Hok Hlive.
  destruct (live_block _ _ _ Hok Hlive) as (Ha & Hf & Hw & Hp).
  unfold free. set (a := ptr - sizeof_memory_block) in *.
  apply Z.eqb_neq in Hp. rewrite Hp.
  destruct Hok as (Hi & Hrest). rewrite Hi. cbn [negb orb].
  assert (Hok : heap_ok h l) by (by split). clear Hrest.
  rewrite Hw, (heap_ok_validate _ _ _ Hok Ha). cbn [negb]. cbv zeta.
  match goal with |- context [coalesce_blocks ?x a] => set (h3 := x) end.
  assert (Hok3 : heap_ok h3 l).
  { subst h3. apply heap_ok_with_stats. apply heap_ok_retag; [done|done|].
    by left. }
  assert (Hf3 : ∀ x, is_free (deref h3 x)
                     = if decide (a = x) then true else is_free (deref h x)).
  { intros x. subst h3. by autorewrite with heap_rw. }
  apply list_elem_of_split in Ha as (l1 & l2 & ->).
  destruct (coalesce_blocks_spec h3 l1 a l2 Hok3) as (l' & Hok' & Hsub & Hnaf).
  exists l'. split; [done|]. split; [done|].
  intros Hnaf0. apply Hnaf.
  - rewrite Hf3. by rewrite decide_True.
  - eapply no_adjacent_free_ext; [|exact Hnaf0].
    intros x _. autorewrite with heap_rw. rewrite Hf3.
    destruct (decide (a = x)) as [->|]; done.
Qed.

Lemma free_null h : free h 0 = h.
Proof. done. Qed.

Lemma ALIGN_UP_range sz : 0 ≤ ALIGN_UP sz 8 < 2 ^ 64.
Proof.
  unfold ALIGN_UP.
  assert (0 ≤ wrap64 (sz + 8 - 1) < 2 ^ 64) as Hw
    by (unfold wrap64; apply Z.mod_pos_bound; lia).
  change (wrap64 (Z.lnot (8 - 1))) with (2 ^ 64 - 8).
  set (r := Z.land _ _).
  assert (0 ≤ r) as Hr by (apply Z.land_nonneg; lia).
  split; [done|].
  destruct (decide (r = 0)) as [->|Hne]; [done|].
  apply Z.log2_lt_pow2; [lia|].
  pose proof (Z.log2_land (wrap64 (sz + 8 - 1)) (2 ^ 64 - 8)) as Hl.
  fold r in Hl.
  assert (Z.log2 (2 ^ 64 - 8) = 63) as E by reflexivity.
  rewrite E in Hl. lia.
Qed.

Lemma split_block_fresh h l1 a l2 sz :
  heap_ok (split_block h a sz) (l1 ++ a :: (a + 32 + sz) :: l2) →
  ∀ x, x ∈ l1 ++ a :: l2 → x ≠ a + 32 + sz.
Proof.
  intros Hok x Hx ->. apply heap_ok_NoDup in Hok.
  apply NoDup_app in Hok as (_ & H1 & [H2 [H3 _]%NoDup_cons]%NoDup_cons).
  apply elem_of_app in Hx as [Hx|[Hx|Hx]%elem_of_cons].
  - apply (H1 _ Hx). right. left.
  - apply H2. apply elem_of_cons. by left.
  - done.
Qed.

(** Marking a block of the list allocated. *)
Lemma no_adjacent_free_allocate h h' l1 r l2 :
  (∀ x, is_free (deref h' x)
        = if decide (r = x) then false else is_free (deref h x)) →
  no_adjacent_free h (l1 ++ [r]) → no_adjacent_free h l2 →
  no_adjacent_free h' (l1 ++ r :: l2).
Proof.
  intros Hf H1 H2. apply no_adjacent_free_app. split.
  - eapply no_adjacent_free_mono; [|exact H1]. intros x _.
    rewrite Hf. by case_decide.
  - apply no_adjacent_free_cons. split.
    + rewrite Hf. by rewrite decide_True.
    + eapply no_adjacent_free_mono; [|exact H2]. intros x _.
      rewrite Hf. by case_decide.
Qed.

(** [malloc] on a well-formed heap returns, keeps the heap well formed and
    leaves the allocated blocks allocated. *)
Lemma malloc_ok h l sz :
  heap_ok h l →
  ∃ h' p l', malloc h sz = Some (h', p) ∧ heap_ok h' l' ∧
    (no_adjacent_free h l → no_adjacent_free h' l') ∧
    (∀ x, x ∈ l → is_free (deref h x) = false →
          x ∈ l' ∧ is_free (deref h' x) = false).
Proof.
  intros Hok. unfold malloc.
  destruct Hok as (Hi & Hrest). rewrite Hi. cbn [negb].
  assert (Hok : heap_ok h l) by (by split). clear Hrest.
  destruct (sz =? 0); [by exists h, 0, l|].
  cbv zeta. set (sz' := ALIGN_UP sz 8).
  pose proof (ALIGN_UP_range sz) as Hsz'. fold sz' in Hsz'.
  destruct (heap_ok_find_free_block h l sz' Hok) as (r & -> & Hr).
  cbn [mbind option_bind].
  destruct Hr as [->|(Hrl & Hrf & Hrs)]; [by exists h, 0, l|].
  pose proof (heap_ok_pos _ _ _ Hok Hrl) as Hr0.
  apply Z.eqb_neq in Hr0. rewrite Hr0.
  pose proof (heap_ok_size _ _ _ Hok Hrl) as Hrsz.
  apply list_elem_of_split in Hrl as (l1 & l2 & ->).
  destruct (wrap64 (wrap64 (sz' + sizeof_memory_block) + 8)
            <? size (deref h r)) eqn:E;
    unfold sizeof_memory_block in E;
    rewrite (wrap64_small (sz' + 32)) in E by lia;
    rewrite (wrap64_small (sz' + 32 + 8)) in E by lia;
    eexists _, _.
  - destruct (split_block_ok h l1 r l2 sz' Hok)
      as (Hok1 & _ & _ & Hfnb & Hfx & _);
      [lia|unfold sizeof_memory_block; lia|].
    unfold sizeof_memory_block in Hok1, Hfnb, Hfx.
    pose proof (split_block_fresh _ _ _ _ _ Hok1) as Hfresh.
    set (nb := r + 32 + sz') in *.
    set (h1 := split_block h r sz') in *.
    exists (l1 ++ r :: nb :: l2). split; [reflexivity|]. split; [|split].
    + apply heap_ok_with_stats. apply heap_ok_retag; [done| |by right].
      apply elem_of_app. right. left.
    + intros Hnaf. apply no_adjacent_free_app in Hnaf as [Hn1 Hn2].
      apply no_adjacent_free_cons in Hn2 as [Hn2 Hn3].
      apply (no_adjacent_free_allocate h1).
      * intros x. by autorewrite with heap_rw.
      * eapply no_adjacent_free_ext; [|exact Hn1].
        intros x Hx. apply Hfx, Hfresh.
        rewrite elem_of_app, elem_of_cons in *. 
        rewrite elem_of_nil in Hx. tauto.
      * apply no_adjacent_free_cons. split.
        -- intros _ Hc. destruct l2 as [|c l2]; [done|].
           apply Hn2; [done|]. cbn [hd] in *.
           rewrite <- Hfx; [done|]. apply Hfresh.
           apply elem_of_app. right. right. left.
        -- eapply no_adjacent_free_ext; [|exact Hn3].
           intros x Hx. apply Hfx, Hfresh.
           apply elem_of_app. right. by right.
    + intros x Hx Hxf. split.
      * rewrite !elem_of_app, !elem_of_cons in *. tauto.
      * autorewrite with heap_rw. case_decide; [done|].
        rewrite Hfx; [done|]. by apply Hfresh.
  - exists (l1 ++ r :: l2). split; [reflexivity|]. split; [|split].
    + apply heap_ok_with_stats. apply heap_ok_retag; [done| |by right].
      apply elem_of_app. right. left.
    + intros Hnaf. apply no_adjacent_free_app in Hnaf as [Hn1 Hn2].
      apply no_adjacent_free_cons in Hn2 as [Hn2 Hn3].
      apply (no_adjacent_free_allocate h); [|done|done].
      intros x. by autorewrite with heap_rw.
    + intros x Hx Hxf. split; [done|].
      autorewrite with heap_rw. by case_decide.
Qed.

Lemma init_heap_ok h : heap_ok (init_memory_manager h) [HEAP_START].
Proof.
  split; [done|]. split; [done|]. split; [done|]. split; [done|].
  cbn [bseg hd]. unfold deref, init_memory_manager; cbn [blocks heap_end].
  rewrite lookup_insert_eq. cbn. repeat split; try done. by left.
Qed.

Lemma heap_inv_init h : heap_inv (init_memory_manager h).
Proof. exists [HEAP_START]. split; [apply init_heap_ok|done]. Qed.

Lemma heap_inv_malloc h sz h' p :
  heap_inv h → malloc h sz = Some (h', p) → heap_inv h'.
Proof.
  intros (l & Hok & Hnaf) E.
  destruct (malloc_ok h l sz Hok) as (h1 & p1 & l' & E' & Hok' & Hnaf' & _).
  rewrite E in E'. injection E' as <- <-. exists l'. split; [done|eauto].
Qed.

Lemma heap_inv_free h ptr : heap_inv h → live_or_null h ptr → heap_inv (free h ptr).
Proof.
  intros Hinv [->|Hlive]; [done|]. destruct Hinv as (l & Hok & Hnaf).
  destruct (free_ok h l ptr Hok Hlive) as (l' & Hok' & _ & Hnaf').
  exists l'. split; [done|eauto].
Qed.

Lemma heap_inv_with_bytes h m : heap_inv h → heap_inv (with_bytes h m).
Proof.
  intros (l & Hok & Hnaf). exists l. split; [by apply heap_ok_with_bytes|].
  eapply no_adjacent_free_ext; [|done]. done.
Qed.

Lemma block_list_from_with_bytes fuel h m a :
  block_list_from fuel (with_bytes h m) a = block_list_from fuel h a.
Proof.
  revert a. induction fuel as [|fuel IH]; intros a; [done|].
  cbn [block_list_from]. by rewrite IH.
Qed.

Lemma live_with_bytes h m ptr : live h ptr → live (with_bytes h m) ptr.
Proof.
  intros (l & Hl & Hrest). exists l. split; [|done].
  unfold block_list. by rewrite block_list_from_with_bytes.
Qed.



Lemma block_list_init h :
  block_list (init_memory_manager h) = Some [HEAP_START].
Proof.
  unfold block_list, walk_budget.
  generalize (base.size (blocks (init_memory_manager h))); intros n.
  cbn [block_list_from].
  change (heap_start (init_memory_manager h)) with HEAP_START.
  change (heap_end (init_memory_manager h)) with (HEAP_START + HEAP_SIZE).
  replace (negb (HEAP_START =? 0) && (HEAP_START <? HEAP_START + HEAP_SIZE))
    with true by reflexivity.
  unfold deref, init_memory_manager; cbn [blocks].
  rewrite lookup_insert_eq; cbn [default next].
  destruct n; reflexivity.
Qed.

(** C4 (as found): a second [init] is not rejected.  On a heap with a live
    allocation it hands the allocation's block back as one free block that
    spans the arena. *)
Lemma init_twice_resets_live_allocation :
  memory_initialized heap_one_live = true ∧
  block_list heap_one_live = Some [HEAP_START; HEAP_START + 136] ∧
  is_free (deref heap_one_live HEAP_START) = false ∧
  init_memory_manager heap_one_live ≠ heap_one_live ∧
  block_list (init_memory_manager heap_one_live) = Some [HEAP_START] ∧
  is_free (deref (init_memory_manager heap_one_live) HEAP_START) = true ∧
  allocated_blocks (memory_stats heap_one_live) = 1 ∧
  allocated_blocks (memory_stats (init_memory_manager heap_one_live)) = 0.
Proof.
  do 3 (split; [vm_compute; reflexivity|]). split.
  - intros E. apply (f_equal (λ h, is_free (deref h HEAP_START))) in E.
    vm_compute in E. discriminate.
  - do 3 (split; [vm_compute; reflexivity|]). vm_compute; reflexivity.
Qed.

(** C4 (amended): [init] has no [AlreadyInitialized] check.  On any state,
    initialised or not, it re-establishes the arena as one free block that
    spans it and resets the statistics. *)
Theorem init_memory_manager_resets (h : heap) :
  let h' := init_memory_manager h in
  memory_initialized h' = true ∧
  heap_start h' = HEAP_START ∧
  heap_end h' = HEAP_START + HEAP_SIZE ∧
  block_list h' = Some [HEAP_START] ∧
  deref h' HEAP_START =
    MemoryBlock (HEAP_SIZE - sizeof_memory_block) true 0 0 BLOCK_MAGIC_FREE ∧
  footprint h' [HEAP_START] = HEAP_SIZE ∧
  memory_stats h' =
    MemoryStats HEAP_SIZE sizeof_memory_block
                (HEAP_SIZE - sizeof_memory_block) 0 1 0.
Proof.
  cbv zeta. repeat split.
  - apply block_list_init.
  - unfold deref, init_memory_manager; cbn [blocks].
    by rewrite lookup_insert_eq.
  - unfold footprint, deref, init_memory_manager; cbn [blocks foldr].
    rewrite lookup_insert_eq. reflexivity.
Qed.

Lemma bad_handle_invalid h ptr :
  bad_handle h ptr → validate_block h (wrap64 (ptr - sizeof_memory_block)) = false.
Proof.
  unfold bad_handle, validate_block; cbv zeta.
  set (block := wrap64 _). intros Hb.
  destruct (block =? 0); [done|].
  destruct (block <? heap_start h) eqn:E1; [done|].
  destruct (heap_end h <=? block) eqn:E2; [done|]. cbn [orb].
  destruct Hb as [Hb|[Hb|[Ha Hf]]]; [lia..|].
  apply Z.eqb_neq in Ha, Hf. by rewrite Ha, Hf.
Qed.

(** C5 (as found): [realloc] on a corrupted tag returns [NULL] and counts
    nothing. *)
Lemma realloc_bad_tag_not_counted :
  bad_handle heap_bad_tag (HEAP_START + 32) ∧
  corrupted_blocks (memory_stats heap_bad_tag) = 0 ∧
  realloc heap_bad_tag (HEAP_START + 32) 200 = Some (heap_bad_tag, 0) ∧
  (∀ h p, realloc heap_bad_tag (HEAP_START + 32) 200 = Some (h, p) →
          corrupted_blocks (memory_stats h) ≠ 1).
Proof.
  assert (E : realloc heap_bad_tag (HEAP_START + 32) 200
              = Some (heap_bad_tag, 0)) by (vm_compute; reflexivity).
  split; [right; right; vm_compute; split; discriminate|].
  split; [reflexivity|]. split; [exact E|].
  intros h p. rewrite E. intros [= <- <-]. vm_compute. discriminate.
Qed.

(** C5 (amended): on a bad handle [free] counts one corruption and changes
    nothing else; [realloc] with a non-zero size returns [NULL] and changes
    nothing at all, and with size zero it is [free]. *)
Theorem bad_handle_swallowed (h : heap) (ptr : Z) :
  memory_initialized h = true → ptr ≠ 0 → bad_handle h ptr →
  free h ptr =
    with_stats h
      (set_corrupted_blocks (wrap32 (corrupted_blocks (memory_stats h) + 1))
                            (memory_stats h)) ∧
  (0 ≤ corrupted_blocks (memory_stats h) < 2 ^ 32 - 1 →
   corrupted_blocks (memory_stats (free h ptr))
   = corrupted_blocks (memory_stats h) + 1) ∧
  (∀ sz, sz ≠ 0 → realloc h ptr sz = Some (h, 0)) ∧
  realloc h ptr 0 = Some (free h ptr, 0).
Proof.
  intros Hi Hp Hb. apply bad_handle_invalid in Hb.
  assert (Ef : free h ptr =
    with_stats h
      (set_corrupted_blocks (wrap32 (corrupted_blocks (memory_stats h) + 1))
                            (memory_stats h))).
  { unfold free. apply Z.eqb_neq in Hp. by rewrite Hp, Hi, Hb. }
  split; [exact Ef|]. split; [|split].
  - intros Hc. rewrite Ef. cbn. unfold wrap32. rewrite Z.mod_small; lia.
  - intros sz Hsz. unfold realloc. apply Z.eqb_neq in Hp, Hsz.
    by rewrite Hp, Hsz, Hb.
  - unfold realloc. apply Z.eqb_neq in Hp. by rewrite Hp.
Qed.

Lemma bad_handle_swallowed_witness :
  corrupted_blocks (memory_stats (free heap_bad_tag (HEAP_START + 32))) = 1.
Proof.
  refine (proj1 (proj2 (bad_handle_swallowed heap_bad_tag (HEAP_START + 32)
                          _ _ _)) _).
  - reflexivity.
  - discriminate.
  - right; right. vm_compute. split; discriminate.
  - vm_compute. split; [discriminate|reflexivity].
Defined.

(** *** Double free *)

(** C10: a handle whose header carries the free tag passes validation;
    [free] does not count a corruption and updates the byte totals and the
    block counts once more, before it coalesces. *)
Theorem double_free_accepted (h : heap) (ptr : Z) :
  let block := wrap64 (ptr - sizeof_memory_block) in
  memory_initialized h = true → ptr ≠ 0 → block ≠ 0 →
  heap_start h ≤ block < heap_end h →
  magic (deref h block) = BLOCK_MAGIC_FREE →
  let s := memory_stats h in
  let s' := memory_stats (free h ptr) in
  let sz := size (deref h block) in
  validate_block h block = true ∧
  corrupted_blocks s' = corrupted_blocks s ∧
  used_memory s' = wrap64 (used_memory s - sz) ∧
  free_memory s' = wrap64 (free_memory s + sz) ∧
  allocated_blocks s' = wrap32 (allocated_blocks s - 1) ∧
  (∃ merges, 0 ≤ merges ≤ 2 ∧
     free_blocks s' = wrap32 (free_blocks s + 1 - merges)) ∧
  is_free (deref (free h ptr) block) = true.
Proof.
  intros block Hi Hp Hb0 Hb Hm s s' sz.
  assert (Hv : validate_block h block = true).
  { unfold validate_block. apply Z.eqb_neq in Hb0. rewrite Hb0.
    replace (block <? heap_start h) with false by lia.
    replace (heap_end h <=? block) with false by lia.
    rewrite Hm. reflexivity. }
  split; [exact Hv|].
  subst s'. unfold free. apply Z.eqb_neq in Hp. rewrite Hp, Hi.
  cbn [orb negb]. fold block. rewrite Hv. cbn [negb]. cbv zeta.
  match goal with |- context [coalesce_blocks ?x block] => set (h3 := x) end.
  assert (Hs3 : memory_stats h3 =
    MemoryStats (total_memory s) (wrap64 (used_memory s - sz))
      (wrap64 (free_memory s + sz)) (wrap32 (allocated_blocks s - 1))
      (wrap32 (free_blocks s + 1)) (corrupted_blocks s)).
  { subst h3. cbn [memory_stats with_stats].
    autorewrite with heap_rw. reflexivity. }
  assert (Hd3 : is_free (deref h3 block) = true).
  { subst h3. autorewrite with heap_rw. by rewrite decide_True. }
  clearbody h3.
  destruct (coalesce_blocks_stats h3 block)
    as (_ & Hu & Hf & Ha & Hc & m & Hm2 & Hfb).
  destruct (coalesce_blocks_same_tags h3 block block) as [Hfr _].
  rewrite Hc, Hu, Hf, Ha, Hfr, Hfb, Hs3, Hd3.
  cbn [corrupted_blocks used_memory free_memory allocated_blocks free_blocks].
  repeat split.
  exists m. split; [exact Hm2|].
  destruct (m =? 0) eqn:E.
  - apply Z.eqb_eq in E. subst m. f_equal. lia.
  - unfold wrap32. rewrite Zminus_mod_idemp_l. f_equal.
Qed.

Lemma double_free_accepted_witness :
  let s := memory_stats heap_freed_once in
  let s' := memory_stats (free heap_freed_once (HEAP_START + 32)) in
  magic (deref heap_freed_once HEAP_START) = BLOCK_MAGIC_FREE ∧
  corrupted_blocks s' = 0 ∧
  allocated_blocks s = 0 ∧ allocated_blocks s' = 2 ^ 32 - 1 ∧
  free_memory s = HEAP_SIZE - 32 ∧
  free_memory s' = 2 * (HEAP_SIZE - 32).
Proof.
  pose proof (double_free_accepted heap_freed_once (HEAP_START + 32)) as H.
  cbv zeta in H.
  destruct H as (_ & Hc & _ & Hf & Ha & _).
  - reflexivity.
  - discriminate.
  - discriminate.
  - vm_compute. split; [discriminate|reflexivity].
  - reflexivity.
  - cbv zeta. rewrite Hc, Hf, Ha. vm_compute. tauto.
Defined.


Lemma memset_loop_lookup n (m : gmap Z Z) p v a :
  memset_loop n m p v !! a =
  if decide (p ≤ a < p + Z.of_nat n) then Some v else m !! a.
Proof.
  revert m p. induction n as [|n IH]; intros m p.
  - cbn. rewrite decide_False by lia. done.
  - cbn [memset_loop]. rewrite IH.
    destruct (decide (p + 1 ≤ a < p + 1 + Z.of_nat n)).
    + rewrite decide_True by lia. done.
    + destruct (decide (a = p)) as [->|].
      * rewrite decide_True by lia. by rewrite lookup_insert_eq.
      * rewrite decide_False by lia. by rewrite lookup_insert_ne.
Qed.

(** C9 (as found): the product is taken in [size_t] and wraps; no overflow
    is detected.  [calloc(2^63 + 1, 2)] asks [malloc] for 2 bytes and gets
    them. *)
Lemma calloc_overflow_succeeds :
  2 ^ 64 ≤ (2 ^ 63 + 1) * 2 ∧
  snd <$> calloc (init_memory_manager boot) (2 ^ 63 + 1) 2
  = Some (HEAP_START + 32) ∧
  (size ∘ (λ h, deref h HEAP_START) ∘ fst)
    <$> calloc (init_memory_manager boot) (2 ^ 63 + 1) 2 = Some 8.
Proof. split; [lia|]. split; vm_compute; reflexivity. Qed.


(** ** The byte and string routines *)

Lemma load_insert (m : gmap Z Z) d v a :
  load (<[d := v]> m) a = if decide (d = a) then v else load m a.
Proof.
  unfold load. case_decide; subst;
    [by rewrite lookup_insert_eq|by rewrite lookup_insert_ne].
Qed.

Lemma uint8_insert (m : gmap Z Z) d v a :
  uint8 (<[d := v]> m) a = if decide (d = a) then v mod 256 else uint8 m a.
Proof. unfold uint8. rewrite load_insert. by case_decide. Qed.

Lemma schar_insert_load (m : gmap Z Z) d s a :
  schar (<[d := load m s]> m) a = if decide (d = a) then schar m s else schar m a.
Proof. unfold schar. rewrite uint8_insert. by case_decide. Qed.

Lemma schar_insert_zero (m : gmap Z Z) d a :
  schar (<[d := 0]> m) a = if decide (d = a) then 0 else schar m a.
Proof. unfold schar. rewrite uint8_insert. by case_decide. Qed.

Lemma load_memset_loop n (m : gmap Z Z) p v a :
  load (memset_loop n m p v) a =
  if decide (p ≤ a < p + Z.of_nat n) then v else load m a.
Proof. unfold load. rewrite memset_loop_lookup. by case_decide. Qed.

Lemma schar_nonzero_tracked (m : gmap Z Z) a : schar m a ≠ 0 → is_Some (m !! a).
Proof.
  unfold schar, uint8, load. destruct (m !! a); [by eexists|]. cbn. done.
Qed.

(** A run of [n] bytes that are not NUL does not outnumber the bytes of
    the memory. *)
Lemma nonzero_run_size (m : gmap Z Z) s n :
  (∀ i, 0 ≤ i < Z.of_nat n → schar m (s + i) ≠ 0) → (n ≤ base.size m)%nat.
Proof.
  intros H.
  set (l := (λ i : nat, s + Z.of_nat i) <$> seq 0 n).
  assert (Hnd : NoDup l).
  { apply NoDup_fmap_2; [|apply NoDup_seq]. intros i j. lia. }
  assert (Hlen : length l = n) by (subst l; by rewrite length_fmap, length_seq).
  rewrite <- Hlen, <- (size_list_to_set (C := gset Z) l) by done.
  rewrite <- size_dom. apply subseteq_size.
  intros a Ha. apply elem_of_list_to_set in Ha. apply elem_of_dom.
  subst l. apply list_elem_of_fmap in Ha as (i & -> & Hi).
  apply elem_of_seq in Hi. apply schar_nonzero_tracked, H. lia.
Qed.

Lemma memcmp_loop_spec n m p1 p2 :
  (memcmp_loop n m p1 p2 = 0 ↔
   ∀ i, 0 ≤ i < Z.of_nat n → uint8 m (p1 + i) = uint8 m (p2 + i)) ∧
  ∀ k, 0 ≤ k < Z.of_nat n →
       (∀ i, 0 ≤ i < k → uint8 m (p1 + i) = uint8 m (p2 + i)) →
       uint8 m (p1 + k) ≠ uint8 m (p2 + k) →
       memcmp_loop n m p1 p2 = uint8 m (p1 + k) - uint8 m (p2 + k).
Proof.
  revert p1 p2. induction n as [|n IH]; intros p1 p2.
  { split; [split; [intros; lia|done]|intros; lia]. }
  cbn [memcmp_loop].
  destruct (uint8 m p1 =? uint8 m p2) eqn:E; cbn [negb].
  - apply Z.eqb_eq in E. destruct (IH (p1 + 1) (p2 + 1)) as [IH1 IH2]. split.
    + rewrite IH1. split; intros H i Hi.
      * destruct (decide (i = 0)) as [->|]; [by rewrite !Z.add_0_r|].
        specialize (H (i - 1)).
        replace (p1 + 1 + (i - 1)) with (p1 + i) in H by lia.
        replace (p2 + 1 + (i - 1)) with (p2 + i) in H by lia.
        apply H. lia.
      * replace (p1 + 1 + i) with (p1 + (i + 1)) by lia.
        replace (p2 + 1 + i) with (p2 + (i + 1)) by lia.
        apply H. lia.
    + intros k Hk Hpre Hne.
      destruct (decide (k = 0)) as [->|]; [by rewrite !Z.add_0_r in Hne|].
      rewrite (IH2 (k - 1)).
      * by replace (p1 + 1 + (k - 1)) with (p1 + k) by lia;
          replace (p2 + 1 + (k - 1)) with (p2 + k) by lia.
      * lia.
      * intros i Hi.
        replace (p1 + 1 + i) with (p1 + (i + 1)) by lia.
        replace (p2 + 1 + i) with (p2 + (i + 1)) by lia.
        apply Hpre. lia.
      * by replace (p1 + 1 + (k - 1)) with (p1 + k) by lia;
          replace (p2 + 1 + (k - 1)) with (p2 + k) by lia.
  - apply Z.eqb_neq in E. split.
    + split; [lia|]. intros H. exfalso. apply E.
      specialize (H 0). rewrite !Z.add_0_r in H. apply H. lia.
    + intros k Hk Hpre Hne.
      destruct (decide (k = 0)) as [->|]; [by rewrite !Z.add_0_r|].
      exfalso. apply E. specialize (Hpre 0). rewrite !Z.add_0_r in Hpre.
      apply Hpre. lia.
Qed.

(** X1.  [memcmp] returns 0 exactly when the two ranges hold the same
    bytes; otherwise it returns the difference, as unsigned bytes, of the
    first pair that differs. *)
Theorem memcmp_first_difference (h : heap) (ptr1 ptr2 sz : Z) :
  let m := bytes h in
  (memcmp h ptr1 ptr2 sz = 0 ↔
   ∀ i, 0 ≤ i < sz → uint8 m (ptr1 + i) = uint8 m (ptr2 + i)) ∧
  ∀ k, 0 ≤ k < sz →
       (∀ i, 0 ≤ i < k → uint8 m (ptr1 + i) = uint8 m (ptr2 + i)) →
       uint8 m (ptr1 + k) ≠ uint8 m (ptr2 + k) →
       memcmp h ptr1 ptr2 sz = uint8 m (ptr1 + k) - uint8 m (ptr2 + k) ∧
       memcmp h ptr1 ptr2 sz ≠ 0.
Proof.
  cbv zeta. unfold memcmp.
  destruct (memcmp_loop_spec (Z.to_nat sz) (bytes h) ptr1 ptr2) as [H1 H2].
  split.
  - rewrite H1. split; intros H i Hi; apply H; lia.
  - intros k Hk Hpre Hne. rewrite (H2 k); [split; [done|lia]|lia|done|done].
Qed.

Lemma memcpy_loop_load n (m : gmap Z Z) d s a :
  load (memcpy_loop n m d s) a =
  if decide (d ≤ a < d + Z.of_nat n) then
    load m (if decide (d ≤ s) then s + (a - d) else s + (a - d) mod (d - s))
  else load m a.
Proof.
  revert m d s. induction n as [|n IH]; intros m d s.
  { cbn [memcpy_loop]. by rewrite decide_False by lia. }
  cbn [memcpy_loop]. rewrite IH.
  change (default 0 (m !! s)) with (load m s).
  destruct (decide (d + 1 ≤ a < d + 1 + Z.of_nat n)) as [Hin|Hout].
  - rewrite (decide_True (P := d ≤ a < d + Z.of_nat (S n))) by lia.
    rewrite load_insert.
    destruct (decide (d ≤ s)) as [Hds|Hds].
    + rewrite (decide_True (P := d + 1 ≤ s + 1)) by lia.
      rewrite decide_False by lia. f_equal. lia.
    + rewrite (decide_False (P := d + 1 ≤ s + 1)) by lia.
      replace (d + 1 - (s + 1)) with (d - s) by lia.
      replace (a - (d + 1)) with (a - d - 1) by lia.
      set (δ := d - s). assert (0 < δ) as Hδ by (subst δ; lia).
      pose proof (Z.mod_pos_bound (a - d - 1) δ Hδ) as Hr.
      pose proof (Z.div_mod (a - d - 1) δ ltac:(lia)) as Hq.
      set (r := (a - d - 1) mod δ) in *. set (q := (a - d - 1) / δ) in *.
      destruct (decide (r + 1 = δ)) as [Hlast|Hmid].
      * rewrite decide_True by (subst δ; lia).
        assert ((a - d) mod δ = 0) as ->; [|by rewrite Z.add_0_r].
        symmetry. apply (Z.mod_unique_pos _ _ (q + 1)); nia.
      * rewrite decide_False by (subst δ; lia).
        assert ((a - d) mod δ = r + 1) as ->; [|f_equal; lia].
        symmetry. apply (Z.mod_unique_pos _ _ q); nia.
  - rewrite load_insert.
    destruct (decide (d = a)) as [<-|Hne].
    + rewrite decide_True by lia. rewrite Z.sub_diag.
      case_decide; [f_equal; lia|]. rewrite Z.mod_0_l by lia. f_equal. lia.
    + by rewrite decide_False by lia.
Qed.

(** X2.  [memcpy] copies upwards one byte at a time.  It changes the [sz]
    bytes from [dest] and no other byte; when the destination does not
    start inside the source range they are the source bytes, otherwise the
    first [dest - src] source bytes repeated.  A block header that the
    [sz] bytes do not reach is left as it is; one that lies wholly under
    them is overwritten: it reads back as the bytes copied decode. *)
Theorem memcpy_copies_forward (h : heap) (dest src sz : Z) :
  dest + sz ≤ 2 ^ 64 → src + sz ≤ 2 ^ 64 →
  ∃ h', memcpy h dest src sz = Some h' ∧
    (∀ a, load (bytes h') a =
          if decide (dest ≤ a < dest + sz) then
            if decide (dest ≤ src ∨ src + sz ≤ dest) then
              load (bytes h) (src + (a - dest))
            else load (bytes h) (src + (a - dest) mod (dest - src))
          else load (bytes h) a) ∧
    (∀ x, x + sizeof_memory_block ≤ dest ∨ dest + sz ≤ x →
          deref h' x = deref h x) ∧
    (∀ x b, blocks h !! x = Some b → well_typed b →
            dest ≤ x → x + sizeof_memory_block ≤ dest + sz →
            deref h' x = decode (bytes h') x).
Proof.
  intros Hd Hs. unfold memcpy.
  replace (2 ^ 64 <? dest + sz) with false by lia.
  replace (2 ^ 64 <? src + sz) with false by lia. cbn [orb].
  eexists. split; [reflexivity|]. split.
  - intros a. cbn [bytes stored]. rewrite memcpy_loop_load.
    destruct (decide (dest ≤ a < dest + sz)) as [Hin|Hout].
    + rewrite decide_True by lia.
      destruct (decide (dest ≤ src)) as [Hds|Hds].
      * by rewrite decide_True by lia.
      * case_decide as Hc; [|done].
        rewrite Z.mod_small by lia. done.
    + by rewrite decide_False by lia.
  - split; [intros x Hx; by apply deref_stored_clear|].
    intros x b Hb Hwt Hx Hn. by eapply deref_stored_covered.
Qed.

Lemma memcpy_copies_forward_witness :
  ∃ h', memcpy text_heap 300 100 2 = Some h' ∧ load (bytes h') 301 = 105.
Proof.
  destruct (memcpy_copies_forward text_heap 300 100 2) as (h' & E & Hb & _);
    [lia|lia|].
  exists h'. split; [exact E|]. rewrite Hb. vm_compute. reflexivity.
Defined.

(** A copy onto a block header changes the header: after 32 unwritten
    (zero) bytes have been copied over the header of the live block of
    [heap_one_live], its handle has lost its tag and the block list, which
    started with it, is cut off behind it: [malloc] finds no block. *)
Lemma memcpy_onto_header :
  ∃ h', memcpy heap_one_live HEAP_START 5000 32 = Some h' ∧
    block_list heap_one_live = Some [HEAP_START; HEAP_START + 136] ∧
    validate_block heap_one_live HEAP_START = true ∧
    validate_block h' HEAP_START = false ∧
    block_list h' = Some [HEAP_START] ∧
    snd <$> malloc h' 8 = Some 0.
Proof.
  eexists. split; [vm_compute; reflexivity|].
  do 4 (split; [vm_compute; reflexivity|]). vm_compute. reflexivity.
Qed.

Lemma schar_of_load (m m' : gmap Z Z) a b :
  load m' a = load m b → schar m' a = schar m b.
Proof. unfold schar, uint8. by intros ->. Qed.

Lemma first_nul_fuel (m : gmap Z Z) s n :
  first_nul m s n → (Z.to_nat n ≤ string_budget m)%nat.
Proof.
  intros (Hn & _ & Hnz). unfold string_budget.
  pose proof (nonzero_run_size m s (Z.to_nat n)) as H.
  etrans; [apply H|lia]. intros i Hi. apply Hnz. lia.
Qed.

Lemma first_nul_tail (m : gmap Z Z) s n :
  first_nul m s n → 0 < n → first_nul m (s + 1) (n - 1).
Proof.
  intros (Hn & Hz & Hnz) Hpos. split; [lia|]. split.
  - by replace (s + 1 + (n - 1)) with (s + n) by lia.
  - intros i Hi. replace (s + 1 + i) with (s + (i + 1)) by lia.
    apply Hnz. lia.
Qed.

Lemma first_nul_head (m : gmap Z Z) s n :
  first_nul m s n → 0 < n → schar m s ≠ 0.
Proof.
  intros (_ & _ & Hnz) Hpos. specialize (Hnz 0). rewrite Z.add_0_r in Hnz.
  apply Hnz. lia.
Qed.

Lemma first_nul_zero (m : gmap Z Z) s : first_nul m s 0 → schar m s = 0.
Proof. intros (_ & Hz & _). by rewrite Z.add_0_r in Hz. Qed.

Lemma strlen_loop_first_nul fuel m str len n :
  0 ≤ len ≤ n → n < 2 ^ 64 → schar m (str + n) = 0 →
  (∀ i, len ≤ i < n → schar m (str + i) ≠ 0) →
  (Z.to_nat (n - len) ≤ fuel)%nat →
  strlen_loop fuel m str len = Some n.
Proof.
  revert len. induction fuel as [|fuel IH]; intros len Hlen Hn Hz Hnz Hf.
  - assert (len = n) as -> by lia. cbn [strlen_loop]. by rewrite Hz.
  - cbn [strlen_loop]. destruct (decide (len = n)) as [->|Hne].
    + by rewrite Hz.
    + pose proof (Hnz len ltac:(lia)) as Hc. apply Z.eqb_neq in Hc.
      rewrite Hc. cbn [negb]. rewrite wrap64_small by lia.
      apply IH; try lia. intros; apply Hnz; lia.
Qed.

(** X3.  [strlen] returns the offset of the first NUL. *)
Theorem strlen_first_nul (h : heap) (str n : Z) :
  first_nul (bytes h) str n → n < 2 ^ 64 → strlen h str = Some n.
Proof.
  intros Hfn Hn. pose proof (first_nul_fuel _ _ _ Hfn) as Hfuel.
  destruct Hfn as (H0 & Hz & Hnz). unfold strlen.
  apply strlen_loop_first_nul; try done; lia.
Qed.

Lemma text_heap_hi : first_nul (bytes text_heap) 100 2.
Proof.
  split; [lia|]. split; [by vm_compute|].
  intros i Hi. assert (i = 0 ∨ i = 1) as [-> | ->] by lia; by vm_compute.
Qed.

Lemma text_heap_ho : first_nul (bytes text_heap) 200 2.
Proof.
  split; [lia|]. split; [by vm_compute|].
  intros i Hi. assert (i = 0 ∨ i = 1) as [-> | ->] by lia; by vm_compute.
Qed.

Lemma strlen_first_nul_witness : strlen text_heap 100 = Some 2.
Proof. apply strlen_first_nul; [apply text_heap_hi|lia]. Defined.

Lemma strcmp_loop_spec fuel m s1 s2 n :
  first_nul m s1 n → (Z.to_nat n ≤ fuel)%nat →
  ∃ r, strcmp_loop fuel m s1 s2 = Some r ∧
       (r = 0 ↔ ∀ i, 0 ≤ i ≤ n → schar m (s1 + i) = schar m (s2 + i)) ∧
       ∀ k, 0 ≤ k ≤ n →
            (∀ i, 0 ≤ i < k → schar m (s1 + i) = schar m (s2 + i)) →
            schar m (s1 + k) ≠ schar m (s2 + k) →
            r = schar m (s1 + k) - schar m (s2 + k).
Proof.
  revert s1 s2 n. induction fuel as [|fuel IH]; intros s1 s2 n Hfn Hfuel.
  - assert (n = 0) as -> by (destruct Hfn; lia).
    apply first_nul_zero in Hfn as Hz. cbn [strcmp_loop]. rewrite Hz.
    cbn [Z.eqb negb andb]. eexists. split; [done|]. split.
    + split.
      * intros H i Hi. assert (i = 0) as -> by lia. rewrite !Z.add_0_r. lia.
      * intros H. specialize (H 0). rewrite !Z.add_0_r in H.
        rewrite <- H; lia.
    + intros k Hk _ _. assert (k = 0) as -> by lia.
      rewrite !Z.add_0_r. by rewrite Hz.
  - cbn [strcmp_loop].
    destruct (decide (n = 0)) as [->|Hn].
    { apply first_nul_zero in Hfn as Hz. rewrite Hz.
      cbn [Z.eqb negb andb]. eexists. split; [done|]. split.
      + split.
        * intros H i Hi. assert (i = 0) as -> by lia.
          rewrite !Z.add_0_r. lia.
        * intros H. specialize (H 0). rewrite !Z.add_0_r in H.
          rewrite <- H; lia.
      + intros k Hk _ _. assert (k = 0) as -> by lia.
        rewrite !Z.add_0_r. by rewrite Hz. }
    assert (0 < n) as Hpos by (destruct Hfn; lia).
    pose proof (first_nul_head _ _ _ Hfn Hpos) as Hc1.
    destruct (negb (schar m s1 =? 0) && negb (schar m s2 =? 0)
              && (schar m s1 =? schar m s2)) eqn:E.
    + apply andb_prop in E as [_ E]. apply Z.eqb_eq in E.
      destruct (IH (s1 + 1) (s2 + 1) (n - 1)) as (r & -> & Hr0 & Hrk);
        [by apply first_nul_tail|lia|].
      exists r. split; [done|]. split.
      * rewrite Hr0. split; intros H i Hi.
        -- destruct (decide (i = 0)) as [->|]; [by rewrite !Z.add_0_r|].
           specialize (H (i - 1)).
           replace (s1 + 1 + (i - 1)) with (s1 + i) in H by lia.
           replace (s2 + 1 + (i - 1)) with (s2 + i) in H by lia.
           apply H. lia.
        -- replace (s1 + 1 + i) with (s1 + (i + 1)) by lia.
           replace (s2 + 1 + i) with (s2 + (i + 1)) by lia.
           apply H. lia.
      * intros k Hk Hpre Hne.
        destruct (decide (k = 0)) as [->|]; [by rewrite !Z.add_0_r in Hne|].
        rewrite (Hrk (k - 1)).
        -- by replace (s1 + 1 + (k - 1)) with (s1 + k) by lia;
             replace (s2 + 1 + (k - 1)) with (s2 + k) by lia.
        -- lia.
        -- intros i Hi.
           replace (s1 + 1 + i) with (s1 + (i + 1)) by lia.
           replace (s2 + 1 + i) with (s2 + (i + 1)) by lia.
           apply Hpre. lia.
        -- by replace (s1 + 1 + (k - 1)) with (s1 + k) by lia;
             replace (s2 + 1 + (k - 1)) with (s2 + k) by lia.
    + assert (schar m s1 ≠ schar m s2) as Hne.
      { intros Heq. apply Z.eqb_neq in Hc1 as Hc1'.
        rewrite <- Heq, Hc1', Z.eqb_refl in E. done. }
      eexists. split; [done|]. split.
      * split; [lia|]. intros H. exfalso. apply Hne.
        specialize (H 0). rewrite !Z.add_0_r in H. apply H. lia.
      * intros k Hk Hpre Hnek.
        destruct (decide (k = 0)) as [->|]; [by rewrite !Z.add_0_r|].
        exfalso. apply Hne. specialize (Hpre 0).
        rewrite !Z.add_0_r in Hpre. apply Hpre. lia.
Qed.

(** X4.  On a first string of length [n], [strcmp] returns 0 exactly when
    the second string has the same [n] characters and ends there too;
    otherwise it returns the difference, as signed characters, of the first
    pair that differs. *)
Theorem strcmp_first_difference (h : heap) (str1 str2 n : Z) :
  first_nul (bytes h) str1 n →
  let m := bytes h in
  ∃ r, strcmp h str1 str2 = Some r ∧
       (r = 0 ↔ ∀ i, 0 ≤ i ≤ n → schar m (str1 + i) = schar m (str2 + i)) ∧
       ∀ k, 0 ≤ k ≤ n →
            (∀ i, 0 ≤ i < k → schar m (str1 + i) = schar m (str2 + i)) →
            schar m (str1 + k) ≠ schar m (str2 + k) →
            r = schar m (str1 + k) - schar m (str2 + k).
Proof.
  intros Hfn m. unfold strcmp. apply strcmp_loop_spec; [done|].
  by eapply first_nul_fuel.
Qed.

Lemma strcmp_first_difference_witness :
  ∃ r, strcmp text_heap 100 200 = Some r ∧ r = 105 - 111.
Proof.
  destruct (strcmp_first_difference text_heap 100 200 2 text_heap_hi)
    as (r & E & _ & Hk).
  exists r. split; [done|]. apply (Hk 1); [lia| |by vm_compute].
  intros i Hi. assert (i = 0) as -> by lia. by vm_compute.
Defined.

Lemma strncmp_loop_zero n m s1 s2 :
  strncmp_loop n m s1 s2 = 0 ↔
  ∃ k, 0 ≤ k ≤ Z.of_nat n ∧
       (∀ i, 0 ≤ i < k →
             schar m (s1 + i) = schar m (s2 + i) ∧ schar m (s1 + i) ≠ 0) ∧
       (k = Z.of_nat n ∨ (schar m (s1 + k) = 0 ∧ schar m (s2 + k) = 0)).
Proof.
  revert s1 s2. induction n as [|n IH]; intros s1 s2.
  { cbn [strncmp_loop]. split; [|done]. intros _. exists 0.
    split; [lia|]. split; [intros; lia|by left]. }
  cbn [strncmp_loop].
  destruct (negb (schar m s1 =? schar m s2) || (schar m s1 =? 0)) eqn:E.
  - split.
    + intros H. assert (schar m s1 = schar m s2) as Heq by lia.
      apply Z.eqb_eq in Heq as Heq'. rewrite Heq' in E. cbn in E.
      apply Z.eqb_eq in E. exists 0. split; [lia|].
      split; [intros; lia|]. right. rewrite !Z.add_0_r. split; [done|lia].
    + intros (k & Hk & Hpre & Hend).
      destruct (decide (k = 0)) as [->|Hk0].
      * destruct Hend as [?|[H1 H2]]; [lia|].
        rewrite !Z.add_0_r in H1, H2. lia.
      * specialize (Hpre 0 ltac:(lia)). rewrite !Z.add_0_r in Hpre.
        destruct Hpre as [H1 H2]. apply Z.eqb_eq in H1. apply Z.eqb_neq in H2.
        rewrite H1, H2 in E. done.
  - apply orb_false_elim in E as [E1 E2].
    apply negb_false_iff, Z.eqb_eq in E1. apply Z.eqb_neq in E2.
    rewrite IH. split.
    + intros (k & Hk & Hpre & Hend). exists (k + 1). split; [lia|]. split.
      * intros i Hi. destruct (decide (i = 0)) as [->|].
        { by rewrite !Z.add_0_r. }
        specialize (Hpre (i - 1) ltac:(lia)).
        by replace (s1 + 1 + (i - 1)) with (s1 + i) in Hpre by lia;
          replace (s2 + 1 + (i - 1)) with (s2 + i) in Hpre by lia.
      * destruct Hend as [?|Hend]; [left; lia|right].
        by replace (s1 + 1 + k) with (s1 + (k + 1)) in Hend by lia;
          replace (s2 + 1 + k) with (s2 + (k + 1)) in Hend by lia.
    + intros (k & Hk & Hpre & Hend).
      assert (k ≠ 0) as Hk0.
      { intros ->. destruct Hend as [?|[H1 _]]; [lia|].
        rewrite Z.add_0_r in H1. done. }
      exists (k - 1). split; [lia|]. split.
      * intros i Hi. specialize (Hpre (i + 1) ltac:(lia)).
        by replace (s1 + 1 + i) with (s1 + (i + 1)) by lia;
          replace (s2 + 1 + i) with (s2 + (i + 1)) by lia.
      * destruct Hend as [?|Hend]; [left; lia|right].
        by replace (s1 + 1 + (k - 1)) with (s1 + k) by lia;
          replace (s2 + 1 + (k - 1)) with (s2 + k) by lia.
Qed.

(** X5.  [strncmp] returns 0 exactly when the two strings agree up to a
    common NUL or, failing that, on their first [n] characters; with
    [n = 0] it returns 0 whatever the strings. *)
Theorem strncmp_zero_iff (h : heap) (str1 str2 n : Z) :
  0 ≤ n →
  let m := bytes h in
  (strncmp h str1 str2 n = 0 ↔
   ∃ k, 0 ≤ k ≤ n ∧
        (∀ i, 0 ≤ i < k →
              schar m (str1 + i) = schar m (str2 + i) ∧
              schar m (str1 + i) ≠ 0) ∧
        (k = n ∨ (schar m (str1 + k) = 0 ∧ schar m (str2 + k) = 0))) ∧
  strncmp h str1 str2 0 = 0.
Proof.
  intros Hn m. split; [|done]. unfold strncmp. rewrite strncmp_loop_zero.
  rewrite Z2Nat.id by done. done.
Qed.

Lemma strncmp_zero_iff_witness : strncmp text_heap 100 200 1 = 0.
Proof.
  destruct (strncmp_zero_iff text_heap 100 200 1 ltac:(lia)) as [H _].
  apply H. exists 1. split; [lia|]. split; [|by left].
  intros i Hi. assert (i = 0) as -> by lia. by vm_compute.
Defined.

Lemma strcpy_loop_disjoint fuel m d s n :
  first_nul m s n → d ≤ s ∨ s + n < d → (Z.to_nat n ≤ fuel)%nat →
  ∃ m', strcpy_loop fuel m d s = Some (m', d + n + 1) ∧
    ∀ a, load m' a = if decide (d ≤ a ≤ d + n) then load m (s + (a - d))
                     else load m a.
Proof.
  revert m d s n. induction fuel as [|fuel IH]; intros m d s n Hfn Hds Hfuel.
  - assert (n = 0) as -> by (destruct Hfn; lia).
    apply first_nul_zero in Hfn as Hz. cbn [strcpy_loop]. rewrite Hz.
    cbn [Z.eqb negb]. eexists. split; [by rewrite Z.add_0_r|]. intros a.
    rewrite load_insert. destruct (decide (d = a)) as [<-|].
    + rewrite decide_True by lia. f_equal. lia.
    + by rewrite decide_False by lia.
  - cbn [strcpy_loop]. destruct (decide (n = 0)) as [->|Hn].
    { apply first_nul_zero in Hfn as Hz. rewrite Hz.
      cbn [Z.eqb negb]. eexists. split; [by rewrite Z.add_0_r|]. intros a.
      rewrite load_insert. destruct (decide (d = a)) as [<-|].
      + rewrite decide_True by lia. f_equal. lia.
      + by rewrite decide_False by lia. }
    assert (0 < n) as Hpos by (destruct Hfn; lia).
    pose proof (first_nul_head _ _ _ Hfn Hpos) as Hc.
    apply Z.eqb_neq in Hc. rewrite Hc. cbn [negb].
    destruct (IH (<[d := load m s]> m) (d + 1) (s + 1) (n - 1))
      as (m' & -> & Hm'); [|lia|lia|].
    { destruct (first_nul_tail _ _ _ Hfn Hpos) as (H0 & Hz & Hnz).
      split; [done|]. split.
      - rewrite schar_insert_load. by rewrite decide_False by lia.
      - intros i Hi. rewrite schar_insert_load.
        rewrite decide_False by lia. by apply Hnz. }
    exists m'. split; [do 2 f_equal; lia|]. intros a. rewrite Hm'.
    destruct (decide (d + 1 ≤ a ≤ d + 1 + (n - 1))) as [Hin|Hout].
    + rewrite decide_True by lia. rewrite load_insert.
      rewrite decide_False by lia. f_equal. lia.
    + rewrite load_insert. destruct (decide (d = a)) as [<-|].
      * rewrite decide_True by lia. f_equal. lia.
      * by rewrite decide_False by lia.
Qed.

Lemma strcpy_loop_overlap fuel m d s :
  s < d → (∀ i, 0 ≤ i < d - s → schar m (s + i) ≠ 0) →
  strcpy_loop fuel m d s = None.
Proof.
  revert m d s. induction fuel as [|fuel IH]; intros m d s Hsd Hnz.
  - cbn [strcpy_loop]. pose proof (Hnz 0 ltac:(lia)) as Hc.
    rewrite Z.add_0_r in Hc. apply Z.eqb_neq in Hc. by rewrite Hc.
  - cbn [strcpy_loop]. pose proof (Hnz 0 ltac:(lia)) as Hc.
    rewrite Z.add_0_r in Hc. apply Z.eqb_neq in Hc as Hc'. rewrite Hc'.
    cbn [negb]. apply IH; [lia|]. intros i Hi. rewrite schar_insert_load.
    case_decide as Hd; [done|].
    replace (s + 1 + i) with (s + (i + 1)) by lia. apply Hnz. lia.
Qed.

(** The copy of a string that the destination does not run into. *)
Lemma strcpy_disjoint (h : heap) (dest src n : Z) :
  first_nul (bytes h) src n → dest ≤ src ∨ src + n < dest →
  ∃ h', strcpy h dest src = Some h' ∧
    first_nul (bytes h') dest n ∧
    (∀ a, load (bytes h') a =
          if decide (dest ≤ a ≤ dest + n)
          then load (bytes h) (src + (a - dest)) else load (bytes h) a) ∧
    (∀ x, x + sizeof_memory_block ≤ dest ∨ dest + n < x →
          deref h' x = deref h x).
Proof.
  intros Hfn Hds. unfold strcpy.
  destruct (strcpy_loop_disjoint (string_budget (bytes h)) (bytes h)
              dest src n Hfn Hds) as (m' & -> & Hm');
    [by eapply first_nul_fuel|].
  cbn [mbind option_bind]. eexists. split; [reflexivity|].
  cbn [bytes stored]. split; [|split; [done|]].
  - destruct Hfn as (H0 & Hz & Hnz). split; [done|]. split.
    + rewrite <- Hz. apply schar_of_load. rewrite Hm'.
      rewrite decide_True by lia. f_equal. lia.
    + intros i Hi. rewrite <- (Z.add_0_r (dest + i)).
      erewrite schar_of_load; [apply (Hnz i Hi)|].
      rewrite Hm'. rewrite decide_True by lia. f_equal. lia.
  - intros x Hx. apply deref_stored_clear. lia.
Qed.

(** X6.  [strcpy] of a string of length [n] whose destination does not
    start inside the string copies its [n] characters and the NUL and
    changes no other byte; a block header that these [n + 1] bytes do not
    reach is left as it is.  When the destination starts inside the source
    string, after its first character, the loop never ends. *)
Theorem strcpy_copies_or_diverges (h : heap) (dest src n : Z) :
  first_nul (bytes h) src n →
  (dest ≤ src ∨ src + n < dest →
   ∃ h', strcpy h dest src = Some h' ∧
     first_nul (bytes h') dest n ∧
     (∀ a, load (bytes h') a =
           if decide (dest ≤ a ≤ dest + n)
           then load (bytes h) (src + (a - dest)) else load (bytes h) a) ∧
     (∀ x, x + sizeof_memory_block ≤ dest ∨ dest + n < x →
           deref h' x = deref h x)) ∧
  (src < dest ≤ src + n →
   strcpy h dest src = None ∧
   ∀ fuel, strcpy_loop fuel (bytes h) dest src = None).
Proof.
  intros Hfn. split; [by apply strcpy_disjoint|].
  intros Hov. assert (∀ fuel, strcpy_loop fuel (bytes h) dest src = None)
    as Hdiv.
  { intros fuel. apply strcpy_loop_overlap; [lia|].
    destruct Hfn as (_ & _ & Hnz). intros i Hi. apply Hnz. lia. }
  split; [|done]. unfold strcpy. by rewrite Hdiv.
Qed.

Lemma strcpy_copies_or_diverges_witness :
  (∃ h', strcpy text_heap 300 100 = Some h' ∧
         first_nul (bytes h') 300 2) ∧
  strcpy text_heap 101 100 = None.
Proof.
  destruct (strcpy_copies_or_diverges text_heap 300 100 2 text_heap_hi)
    as [H1 _].
  destruct (strcpy_copies_or_diverges text_heap 101 100 2 text_heap_hi)
    as [_ H2].
  split.
  - destruct H1 as (h' & E & Hfn & _); [lia|]. by exists h'.
  - apply H2. lia.
Defined.

Lemma strncpy_loop_load k m d s len a :
  0 ≤ len →
  (∀ i, 0 ≤ i < len → i < Z.of_nat k → schar m (s + i) ≠ 0) →
  (len < Z.of_nat k → schar m (s + len) = 0) →
  d ≤ s ∨ s + Z.of_nat k ≤ d →
  load (strncpy_loop k m d s) a =
  if decide (d ≤ a < d + Z.of_nat k) then
    if decide (a - d < len) then load m (s + (a - d)) else 0
  else load m a.
Proof.
  revert m d s len. induction k as [|k IH]; intros m d s len Hlen Hnz Hz Hds.
  { cbn [strncpy_loop]. by rewrite decide_False by lia. }
  cbn [strncpy_loop]. destruct (decide (len = 0)) as [->|Hl0].
  - specialize (Hz ltac:(lia)). rewrite Z.add_0_r in Hz. rewrite Hz.
    cbn [Z.eqb negb]. rewrite load_memset_loop.
    case_decide; [|done]. by rewrite decide_False by lia.
  - pose proof (Hnz 0 ltac:(lia) ltac:(lia)) as Hc. rewrite Z.add_0_r in Hc.
    apply Z.eqb_neq in Hc. rewrite Hc. cbn [negb].
    rewrite (IH _ _ _ (len - 1)); [|lia| | |lia].
    + destruct (decide (d + 1 ≤ a < d + 1 + Z.of_nat k)) as [Hin|Hout].
      * rewrite (decide_True (P := d ≤ a < d + Z.of_nat (S k))) by lia.
        destruct (decide (a - (d + 1) < len - 1)).
        -- rewrite decide_True by lia. rewrite load_insert.
           rewrite decide_False by lia. f_equal. lia.
        -- by rewrite decide_False by lia.
      * rewrite load_insert. destruct (decide (d = a)) as [<-|].
        -- rewrite decide_True by lia. rewrite decide_True by lia.
           f_equal. lia.
        -- by rewrite decide_False by lia.
    + intros i Hi Hik. rewrite schar_insert_load.
      rewrite decide_False by lia.
      replace (s + 1 + i) with (s + (i + 1)) by lia. apply Hnz; lia.
    + intros Hlk. rewrite schar_insert_load. rewrite decide_False by lia.
      replace (s + 1 + (len - 1)) with (s + len) by lia. apply Hz. lia.
Qed.

(** X7.  [strncpy] writes exactly [n] bytes: the characters of the source
    string, then NULs up to [n].  A source string of [n] characters or more
    is cut after [n] characters and the copy has no NUL.  A block header
    that the [n] bytes do not reach is left as it is. *)
Theorem strncpy_pads_or_truncates (h : heap) (dest src n len : Z) :
  first_nul (bytes h) src len → dest ≤ src ∨ src + n ≤ dest →
  dest + n ≤ 2 ^ 64 →
  ∃ h', strncpy h dest src n = Some h' ∧
    (∀ a, load (bytes h') a =
          if decide (dest ≤ a < dest + n) then
            if decide (a - dest < len) then load (bytes h) (src + (a - dest))
            else 0
          else load (bytes h) a) ∧
    (n ≤ len → ∀ i, 0 ≤ i < n → schar (bytes h') (dest + i) ≠ 0) ∧
    (∀ x, x + sizeof_memory_block ≤ dest ∨ dest + n ≤ x →
          deref h' x = deref h x).
Proof.
  intros (H0 & Hz & Hnz) Hds Htop. unfold strncpy.
  replace (2 ^ 64 <? dest + n) with false by lia.
  eexists. split; [reflexivity|]. cbn [bytes stored].
  assert (Hload : ∀ a,
    load (strncpy_loop (Z.to_nat n) (bytes h) dest src) a =
    if decide (dest ≤ a < dest + n) then
      if decide (a - dest < len) then load (bytes h) (src + (a - dest))
      else 0
    else load (bytes h) a).
  { intros b. rewrite (strncpy_loop_load _ _ _ _ len); try done.
    - destruct (decide (dest ≤ b < dest + n)).
      + by rewrite decide_True by lia.
      + by rewrite decide_False by lia.
    - intros i Hi _. by apply Hnz.
    - lia. }
  split; [apply Hload|]. split.
  - intros Hn i Hi. rewrite <- (Z.add_0_r (dest + i)).
    erewrite schar_of_load; [apply (Hnz i); lia|].
    rewrite Z.add_0_r, Hload. rewrite decide_True by lia.
    rewrite decide_True by lia. f_equal. lia.
  - intros x Hx. by apply deref_stored_clear.
Qed.

Lemma strncpy_pads_or_truncates_witness :
  ∃ h', strncpy text_heap 300 100 8 = Some h' ∧
    load (bytes h') 301 = 105 ∧ load (bytes h') 307 = 0.
Proof.
  destruct (strncpy_pads_or_truncates text_heap 300 100 8 2 text_heap_hi)
    as (h' & E & Hb & _); [lia|lia|].
  exists h'. split; [exact E|]. rewrite !Hb.
  split; vm_compute; reflexivity.
Defined.

Lemma strcat_seek_first_nul fuel m d n :
  first_nul m d n → (Z.to_nat n ≤ fuel)%nat →
  strcat_seek fuel m d = Some (d + n).
Proof.
  revert d n. induction fuel as [|fuel IH]; intros d n Hfn Hfuel.
  - assert (n = 0) as -> by (destruct Hfn; lia).
    apply first_nul_zero in Hfn as Hz. cbn [strcat_seek]. rewrite Hz.
    by rewrite Z.add_0_r.
  - cbn [strcat_seek]. destruct (decide (n = 0)) as [->|Hn].
    { apply first_nul_zero in Hfn as Hz. rewrite Hz. by rewrite Z.add_0_r. }
    assert (0 < n) as Hpos by (destruct Hfn; lia).
    pose proof (first_nul_head _ _ _ Hfn Hpos) as Hc.
    apply Z.eqb_neq in Hc. rewrite Hc. cbn [negb].
    rewrite (IH (d + 1) (n - 1)); [f_equal; lia| |lia].
    by apply first_nul_tail.
Qed.

(** X8.  [strcat(dest, src)] is [strcpy(dest + strlen(dest), src)]; when
    the copy does not run into the source string, the result has the
    length of the two strings together. *)
Theorem strcat_appends (h : heap) (dest src n k : Z) :
  first_nul (bytes h) dest n → first_nul (bytes h) src k →
  strcat h dest src = strcpy h (dest + n) src ∧
  (dest + n ≤ src ∨ src + k < dest →
   ∃ h', strcat h dest src = Some h' ∧ first_nul (bytes h') dest (n + k) ∧
         ∀ i, 0 ≤ i ≤ k →
              load (bytes h') (dest + n + i) = load (bytes h) (src + i)).
Proof.
  intros Hd Hs.
  assert (E : strcat h dest src = strcpy h (dest + n) src).
  { unfold strcat, strcpy.
    rewrite (strcat_seek_first_nul _ _ _ n); [done|done|].
    by eapply first_nul_fuel. }
  split; [done|]. intros Hds. rewrite E.
  destruct (strcpy_disjoint h (dest + n) src k Hs)
    as (h' & -> & _ & Hload & _); [destruct Hd; lia|].
  exists h'. split; [done|].
  destruct Hd as (Hn & Hzd & Hnzd). destruct Hs as (Hk & Hzs & Hnzs).
  split.
  - split; [lia|]. split.
    + rewrite <- Hzs. apply schar_of_load. rewrite Hload.
      rewrite decide_True by lia. f_equal. lia.
    + intros i Hi. destruct (decide (i < n)) as [Hin|Hin].
      * rewrite <- (Z.add_0_r (dest + i)).
        erewrite schar_of_load; [apply (Hnzd i); lia|].
        rewrite Z.add_0_r, Hload. by rewrite decide_False by lia.
      * rewrite <- (Z.add_0_r (dest + i)).
        erewrite schar_of_load; [apply (Hnzs (i - n)); lia|].
        rewrite Z.add_0_r, Hload. rewrite decide_True by lia.
        f_equal. lia.
  - intros i Hi. rewrite Hload. rewrite decide_True by lia. f_equal. lia.
Qed.

Lemma strcat_appends_witness :
  ∃ h', strcat text_heap 100 200 = Some h' ∧ first_nul (bytes h') 100 4.
Proof.
  destruct (strcat_appends text_heap 100 200 2 2 text_heap_hi text_heap_ho)
    as [_ H].
  destruct H as (h' & E & Hfn & _); [lia|]. by exists h'.
Defined.

Lemma strncpy_loop_outside n (m : gmap Z Z) d s a :
  ¬ (d ≤ a < d + Z.of_nat n) → load (strncpy_loop n m d s) a = load m a.
Proof.
  revert m d s. induction n as [|n IH]; intros m d s Ha; [done|].
  cbn [strncpy_loop]. destruct (negb _).
  - rewrite IH by lia. rewrite load_insert. by rewrite decide_False by lia.
  - rewrite load_memset_loop. by rewrite decide_False by lia.
Qed.

(** ** The shape of the calls on a well-formed heap *)

Lemma bytes_assign h p f : bytes (assign h p f) = bytes h.
Proof. done. Qed.

Lemma bytes_split_block h a sz : bytes (split_block h a sz) = bytes h.
Proof.
  unfold split_block. destruct (_ || _); [done|]. cbv zeta.
  by destruct (negb _).
Qed.

Lemma bytes_merge_next h a : bytes (merge_next h a) = bytes h.
Proof. unfold merge_next. cbv zeta. by destruct (negb _). Qed.

Lemma bytes_merge_prev h a : bytes (merge_prev h a) = bytes h.
Proof. unfold merge_prev. cbv zeta. by destruct (negb _). Qed.

Lemma bytes_coalesce_blocks h a : bytes (coalesce_blocks h a) = bytes h.
Proof.
  unfold coalesce_blocks. destruct (_ || _); [done|]. cbv zeta.
  destruct (negb (next (deref h a) =? 0) && _);
    destruct (negb _ && _);
    by rewrite ?bytes_merge_prev, ?bytes_merge_next.
Qed.

Lemma bytes_free h ptr : bytes (free h ptr) = bytes h.
Proof.
  unfold free. destruct (_ || _); [done|]. cbv zeta.
  destruct (negb _); [done|]. by rewrite bytes_coalesce_blocks.
Qed.

Lemma bytes_malloc h sz h' p : malloc h sz = Some (h', p) → bytes h' = bytes h.
Proof.
  unfold malloc. destruct (negb _); [by intros [= <- _]|].
  destruct (sz =? 0); [by intros [= <- _]|]. cbv zeta.
  destruct (find_free_block h _) as [r|]; [|done]. cbn [mbind option_bind].
  destruct (r =? 0); [by intros [= <- _]|].
  intros [= <- _]. cbn [bytes with_stats]. rewrite !bytes_assign.
  destruct (_ <? _); [apply bytes_split_block|done].
Qed.

Lemma size_merge_next_other h a x :
  x ≠ a → size (deref (merge_next h a) x) = size (deref h x).
Proof.
  intros Hx. unfold merge_next. cbv zeta.
  destruct (negb _); rd; by rewrite ?decide_False by done.
Qed.

Lemma is_free_merge_next h a x :
  is_free (deref (merge_next h a) x) = is_free (deref h x).
Proof. apply same_tags_merge_next. Qed.

(** First fit: [find_free_block] returns the first block of the list that
    is free and large enough, and [NULL] when there is none. *)
Lemma bseg_find_free_block_first fuel h p a l sz :
  0 < a → bseg h p (a :: l) 0 (heap_end h) → (length (a :: l) ≤ fuel)%nat →
  ∃ r, find_free_block_loop fuel h a sz = Some r ∧
       ((r = 0 ∧ ∀ x, x ∈ a :: l → ¬ fits h sz x) ∨
        ∃ l1 l2, a :: l = l1 ++ r :: l2 ∧ fits h sz r ∧
                 ∀ x, x ∈ l1 → ¬ fits h sz x).
Proof.
  revert p a fuel. induction l as [|b l IH]; intros p a fuel Ha H Hlen.
  - destruct fuel as [|fuel]; [cbn in Hlen; lia|].
    pose proof (bseg_bounds _ _ _ _ _ _ H) as [Hae _].
    destruct H as (_&_&_&Hn&_&_). cbn in Hn. cbn [find_free_block_loop].
    unfold sizeof_memory_block in *.
    replace (negb (a =? 0) && (a <? heap_end h)) with true by lia.
    destruct (is_free (deref h a) && (sz <=? size (deref h a))) eqn:E.
    + exists a. split; [done|]. right. apply andb_true_iff in E as [E1 E2].
      exists [], []. split; [done|]. split; [split; [done|lia]|].
      by intros x ?%elem_of_nil.
    + exists 0. rewrite Hn. split; [by destruct fuel|]. left.
      split; [done|]. intros x ->%list_elem_of_singleton [Hf Hs].
      rewrite Hf in E. cbn in E. lia.
  - destruct fuel as [|fuel]; [cbn in Hlen; lia|].
    pose proof (bseg_bounds _ _ _ _ _ _ H) as [Hae _].
    destruct H as (_&?&_&Hn&Hb&H). cbn in Hn, Hb. cbn [find_free_block_loop].
    unfold sizeof_memory_block in *.
    replace (negb (a =? 0) && (a <? heap_end h)) with true by lia.
    destruct (is_free (deref h a) && (sz <=? size (deref h a))) eqn:E.
    + exists a. split; [done|]. right. apply andb_true_iff in E as [E1 E2].
      exists [], (b :: l). split; [done|]. split; [split; [done|lia]|].
      by intros x ?%elem_of_nil.
    + assert (Hna : ¬ fits h sz a).
      { intros [Hf Hs]. rewrite Hf in E. cbn in E. lia. }
      rewrite Hn. destruct (IH a b fuel) as (r & Hr & Hcase);
        [lia|done|cbn in *; lia|].
      exists r. split; [done|].
      destruct Hcase as [[-> Hnone]|(l1 & l2 & El & Hfit & Hfirst)].
      * left. split; [done|]. intros x [->|Hx]%elem_of_cons; [done|eauto].
      * right. exists (a :: l1), l2. split; [by rewrite El|].
        split; [done|]. intros x [->|Hx]%elem_of_cons; [done|eauto].
Qed.

Lemma heap_ok_find_free_block_first h l sz :
  heap_ok h l →
  ∃ r, find_free_block h sz = Some r ∧
       ((r = 0 ∧ ∀ x, x ∈ l → ¬ fits h sz x) ∨
        ∃ l1 l2, l = l1 ++ r :: l2 ∧ fits h sz r ∧
                 ∀ x, x ∈ l1 → ¬ fits h sz x).
Proof.
  intros Hok. destruct (heap_ok_nonempty _ _ Hok) as [l' ->].
  destruct Hok as (_&Hs&_&_&H). unfold find_free_block. rewrite Hs.
  apply (bseg_find_free_block_first _ _ 0); [done|done|].
  apply bseg_length in H. unfold walk_budget. lia.
Qed.

(** [ALIGN_UP(size, 8)] rounds up to a multiple of 8, modulo [2^64]. *)
Lemma land_align_mask x :
  0 ≤ x < 2 ^ 64 → Z.land x (2 ^ 64 - 8) = 8 * (x / 8).
Proof.
  intros Hx. apply Z.bits_inj'. intros n Hn.
  rewrite Z.land_spec.
  change (2 ^ 64 - 8) with (Z.shiftl (Z.ones 61) 3).
  replace (8 * (x / 8)) with (Z.shiftl (Z.shiftr x 3) 3)
    by (rewrite Z.shiftl_mul_pow2, Z.shiftr_div_pow2 by lia;
        change (2 ^ 3) with 8; lia).
  destruct (decide (n < 3)) as [Hlt|Hge].
  - rewrite !Z.shiftl_spec_low by lia. apply andb_false_r.
  - rewrite !Z.shiftl_spec by lia. rewrite Z.shiftr_spec by lia.
    replace (n - 3 + 3) with n by lia.
    destruct (decide (n < 64)) as [Hlt|Hge'].
    + rewrite Z.ones_spec_low by lia. apply andb_true_r.
    + rewrite Z.ones_spec_high by lia. rewrite andb_false_r.
      symmetry. destruct (decide (x = 0)) as [->|]; [apply Z.bits_0|].
      apply Z.bits_above_log2; [lia|].
      assert (Z.log2 x < 64) by (apply Z.log2_lt_pow2; lia). lia.
Qed.

Lemma ALIGN_UP_eq sz : ALIGN_UP sz 8 = 8 * (wrap64 (sz + 7) / 8).
Proof.
  unfold ALIGN_UP. change (wrap64 (Z.lnot (8 - 1))) with (2 ^ 64 - 8).
  replace (sz + 8 - 1) with (sz + 7) by lia.
  apply land_align_mask. unfold wrap64. apply Z.mod_pos_bound. lia.
Qed.

Lemma ALIGN_UP_aligned sz : ALIGN_UP sz 8 mod 8 = 0.
Proof. rewrite ALIGN_UP_eq, Z.mul_comm. apply Z.mod_mul. lia. Qed.

Lemma ALIGN_UP_ge sz : 0 ≤ sz ≤ 2 ^ 64 - 8 → sz ≤ ALIGN_UP sz 8 < sz + 8.
Proof.
  intros Hsz. rewrite ALIGN_UP_eq. rewrite wrap64_small by lia.
  pose proof (Z.div_mod (sz + 7) 8 ltac:(lia)).
  pose proof (Z.mod_pos_bound (sz + 7) 8 ltac:(lia)). lia.
Qed.

Lemma ALIGN_UP_wraps sz : 2 ^ 64 - 8 < sz < 2 ^ 64 → ALIGN_UP sz 8 = 0.
Proof.
  intros Hsz. rewrite ALIGN_UP_eq. unfold wrap64.
  replace ((sz + 7) mod 2 ^ 64) with (sz + 7 - 2 ^ 64).
  - rewrite Z.div_small by lia. lia.
  - apply (Z.mod_unique_pos _ _ 1); lia.
Qed.

(** The sums over the block list. *)
Lemma sum_over_app f h l1 l2 :
  sum_over f h (l1 ++ l2) = sum_over f h l1 + sum_over f h l2.
Proof.
  induction l1 as [|a l1 IH]; [done|]. cbn [app].
  change (sum_over f h (a :: ?l))
    with (f (size (deref h a)) (is_free (deref h a)) + sum_over f h l).
  rewrite IH. lia.
Qed.

Lemma sum_over_cons f h a l :
  sum_over f h (a :: l)
  = f (size (deref h a)) (is_free (deref h a)) + sum_over f h l.
Proof. done. Qed.

Lemma sum_over_nil f h : sum_over f h [] = 0.
Proof. done. Qed.

Lemma sum_over_ext f h h' l :
  (∀ x, x ∈ l → size (deref h' x) = size (deref h x)
                ∧ is_free (deref h' x) = is_free (deref h x)) →
  sum_over f h' l = sum_over f h l.
Proof.
  induction l as [|a l IH]; [done|]. intros H. rewrite !sum_over_cons.
  destruct (H a) as [-> ->]; [left|]. rewrite IH; [done|].
  intros x Hx. apply H. by right.
Qed.

Lemma sum_over_bounds h l :
  (∀ a, a ∈ l → 0 ≤ size (deref h a)) →
  0 ≤ allocated_bytes h l ∧ 0 ≤ free_bytes h l ∧
  0 ≤ count_allocated h l ∧ 0 ≤ count_free h l ∧
  count_allocated h l + count_free h l = Z.of_nat (length l) ∧
  allocated_bytes h l + free_bytes h l
  + sizeof_memory_block * Z.of_nat (length l) = footprint h l.
Proof.
  unfold allocated_bytes, free_bytes, count_allocated, count_free.
  induction l as [|a l IH]; intros H; [done|].
  rewrite !sum_over_cons.
  change (footprint h (a :: l))
    with (size (deref h a) + sizeof_memory_block + footprint h l).
  specialize (H a (list_elem_of_here _ _)) as Ha.
  destruct IH as (?&?&?&?&?&?); [intros x Hx; apply H; by right|].
  cbn [length]. unfold sizeof_memory_block in *.
  destruct (is_free (deref h a)); lia.
Qed.

Lemma heap_ok_sums h l :
  heap_ok h l →
  0 ≤ allocated_bytes h l ∧ 0 ≤ free_bytes h l ∧
  0 ≤ count_allocated h l ∧ 0 ≤ count_free h l ∧
  count_allocated h l + count_free h l = Z.of_nat (length l) ∧
  allocated_bytes h l + free_bytes h l
  + sizeof_memory_block * Z.of_nat (length l) = HEAP_SIZE.
Proof.
  intros Hok. rewrite <- (heap_ok_footprint _ _ Hok).
  apply sum_over_bounds. intros a Ha.
  by destruct (heap_ok_size _ _ _ Hok Ha).
Qed.

Lemma size_split_block_other h a sz x :
  x ≠ a → x ≠ wrap64 (a + sizeof_memory_block + sz) →
  size (deref (split_block h a sz) x) = size (deref h x).
Proof.
  intros Hxa Hxn. unfold split_block. destruct (_ || _); [done|]. cbv zeta.
  rewrite deref_incr_free_blocks.
  destruct (negb _); autorewrite with heap_rw;
    by rewrite ?decide_False by done.
Qed.

Lemma memory_stats_split_block h a sz :
  memory_stats (split_block h a sz) =
  if (a =? 0) || (size (deref h a) <=? wrap64 (sz + sizeof_memory_block))
  then memory_stats h
  else set_free_blocks (wrap32 (free_blocks (memory_stats h) + 1))
                       (memory_stats h).
Proof.
  unfold split_block. destruct (_ || _); [done|]. cbv zeta.
  by destruct (negb _).
Qed.

(** What [malloc] does: [NULL] and no change when the request is empty or
    no free block is large enough; otherwise the first block that fits is
    split when it is more than 40 bytes larger than the rounded request,
    marked allocated and counted. *)
Lemma malloc_cases h l sz h' p :
  heap_ok h l → malloc h sz = Some (h', p) →
  (p = 0 ∧ h' = h ∧ (sz = 0 ∨ ∀ x, x ∈ l → ¬ fits h (ALIGN_UP sz 8) x)) ∨
  ∃ l1 r l2 hs ls,
    l = l1 ++ r :: l2 ∧ p = r + sizeof_memory_block ∧ sz ≠ 0 ∧
    fits h (ALIGN_UP sz 8) r ∧
    (∀ x, x ∈ l1 → ¬ fits h (ALIGN_UP sz 8) x) ∧
    ((ALIGN_UP sz 8 + 40 < size (deref h r) ∧
      hs = split_block h r (ALIGN_UP sz 8) ∧
      ls = l1 ++ r :: (r + 32 + ALIGN_UP sz 8) :: l2) ∨
     (size (deref h r) ≤ ALIGN_UP sz 8 + 40 ∧ hs = h ∧ ls = l)) ∧
    heap_ok hs ls ∧
    h' = with_stats (mark_allocated hs r)
           (MemoryStats
              (total_memory (memory_stats hs))
              (wrap64 (used_memory (memory_stats hs) + size (deref hs r)))
              (wrap64 (free_memory (memory_stats hs) - size (deref hs r)))
              (wrap32 (allocated_blocks (memory_stats hs) + 1))
              (wrap32 (free_blocks (memory_stats hs) - 1))
              (corrupted_blocks (memory_stats hs))).
Proof.
  intros Hok. unfold malloc.
  destruct Hok as (Hi & Hrest). rewrite Hi. cbn [negb].
  assert (Hok : heap_ok h l) by (by split). clear Hrest.
  destruct (sz =? 0) eqn:Esz.
  { intros [= <- <-]. left. split; [done|]. split; [done|]. left. lia. }
  cbv zeta. set (A := ALIGN_UP sz 8).
  pose proof (ALIGN_UP_range sz) as HA. fold A in HA.
  destruct (heap_ok_find_free_block_first h l A Hok) as (r & -> & Hr).
  cbn [mbind option_bind].
  destruct Hr as [[-> Hnone]|(l1 & l2 & -> & Hfit & Hfirst)].
  { intros [= <- <-]. left. split; [done|]. split; [done|]. by right. }
  assert (Hrl : r ∈ l1 ++ r :: l2) by (apply elem_of_app; right; left).
  pose proof (heap_ok_pos _ _ _ Hok Hrl) as Hr0.
  apply Z.eqb_neq in Hr0. rewrite Hr0.
  pose proof (heap_ok_size _ _ _ Hok Hrl) as Hrsz.
  pose proof Hfit as [Hrf Hrs].
  assert (Hw : wrap64 (r + sizeof_memory_block) = r + sizeof_memory_block).
  { destruct (heap_ok_limits _ _ Hok) as [He Hlim].
    specialize (Hlim r Hrl). apply wrap64_small.
    unfold HEAP_START, HEAP_SIZE, sizeof_memory_block in *. lia. }
  rewrite Hw. intros [= <- <-]. right.
  destruct (wrap64 (wrap64 (A + sizeof_memory_block) + 8)
            <? size (deref h r)) eqn:E;
    unfold sizeof_memory_block in E;
    rewrite (wrap64_small (A + 32)) in E by lia;
    rewrite (wrap64_small (A + 32 + 8)) in E by lia.
  - exists l1, r, l2, (split_block h r A), (l1 ++ r :: (r + 32 + A) :: l2).
    split; [done|]. split; [done|]. split; [lia|]. split; [done|].
    split; [done|]. split; [left; split; [lia|done]|]. split.
    + destruct (split_block_ok h l1 r l2 A Hok) as (Hok1 & _);
        [lia|unfold sizeof_memory_block; lia|done].
    + unfold mark_allocated. f_equal.
      autorewrite with heap_rw. rewrite ?memory_stats_assign. done.
  - exists l1, r, l2, h, (l1 ++ r :: l2).
    split; [done|]. split; [done|]. split; [lia|]. split; [done|].
    split; [done|]. split; [right; split; [lia|done]|]. split; [done|].
    unfold mark_allocated. f_equal.
    autorewrite with heap_rw. rewrite ?memory_stats_assign. done.
Qed.

(** What [free] does on a live handle. *)
Lemma free_live_unfold h l ptr :
  heap_ok h l → live h ptr →
  let a := ptr - sizeof_memory_block in
  free h ptr =
  coalesce_blocks
    (with_stats (mark_free h a)
       (MemoryStats
          (total_memory (memory_stats h))
          (wrap64 (used_memory (memory_stats h) - size (deref h a)))
          (wrap64 (free_memory (memory_stats h) + size (deref h a)))
          (wrap32 (allocated_blocks (memory_stats h) - 1))
          (wrap32 (free_blocks (memory_stats h) + 1))
          (corrupted_blocks (memory_stats h)))) a.
Proof.
  intros Hok Hlive a. subst a.
  destruct (live_block _ _ _ Hok Hlive) as (Ha & Hf & Hw & Hp).
  unfold free. apply Z.eqb_neq in Hp. rewrite Hp.
  destruct Hok as (Hi & Hrest). rewrite Hi. cbn [negb orb].
  assert (Hok : heap_ok h l) by (by split). clear Hrest.
  rewrite Hw, (heap_ok_validate _ _ _ Hok Ha). cbn [negb]. cbv zeta.
  unfold mark_free. f_equal. f_equal.
  autorewrite with heap_rw. rewrite ?memory_stats_assign. done.
Qed.

(** What [coalesce_blocks] does at a free block of the list: the
    following block is absorbed when it is free, and the preceding block
    then absorbs the result when it is free. *)
Lemma coalesce_blocks_cases h l1 a l2 :
  heap_ok h (l1 ++ a :: l2) → is_free (deref h a) = true →
  ∃ h1 l2',
    ((h1 = h ∧ l2' = l2 ∧ (l2 = [] ∨ is_free (deref h (hd 0 l2)) = false)) ∨
     (∃ b l3, l2 = b :: l3 ∧ is_free (deref h b) = true ∧
              h1 = merge_next h a ∧ l2' = l3)) ∧
    heap_ok h1 (l1 ++ a :: l2') ∧
    ((coalesce_blocks h a = h1 ∧
      (l1 = [] ∨ is_free (deref h (List.last l1 0)) = false)) ∨
     (∃ l0 p, l1 = l0 ++ [p] ∧ is_free (deref h p) = true ∧
              coalesce_blocks h a = merge_next h1 p)).
Proof.
  intros Hok Hfa.
  assert (Ha0 : a ≠ 0).
  { eapply heap_ok_pos; [done|]. apply elem_of_app. right. left. }
  unfold coalesce_blocks. apply Z.eqb_neq in Ha0 as Ha0'.
  rewrite Ha0', Hfa. cbn [orb negb]. cbv zeta.
  assert (∃ h1 l2',
    (if negb (next (deref h a) =? 0) && is_free (deref h (next (deref h a)))
     then merge_next h a else h) = h1 ∧
    ((h1 = h ∧ l2' = l2 ∧ (l2 = [] ∨ is_free (deref h (hd 0 l2)) = false)) ∨
     (∃ b l3, l2 = b :: l3 ∧ is_free (deref h b) = true ∧
              h1 = merge_next h a ∧ l2' = l3)) ∧
    heap_ok h1 (l1 ++ a :: l2') ∧ same_tags h h1)
    as (h1 & l2' & -> & Hcase & Hok1 & Htags1).
  { rewrite (heap_ok_next _ _ _ _ Hok).
    destruct l2 as [|b l3]; cbn [hd].
    - exists h, []. cbn. split; [done|]. split; [left; by auto|].
      split; [done|apply same_tags_refl].
    - assert (Hb0 : b ≠ 0).
      { eapply heap_ok_pos; [done|]. apply elem_of_app. right. right. left. }
      apply Z.eqb_neq in Hb0. rewrite Hb0. cbn [negb andb].
      destruct (is_free (deref h b)) eqn:Hfb.
      + exists (merge_next h a), l3. split; [done|].
        split; [right; by exists b, l3|].
        split; [by eapply merge_next_heap_ok|apply same_tags_merge_next].
      + exists h, (b :: l3). split; [done|]. split; [left; by auto|].
        split; [done|apply same_tags_refl]. }
  exists h1, l2'. split; [done|]. split; [done|].
  rewrite (heap_ok_prev _ _ _ _ Hok1).
  destruct l1 as [|p0 l0 _] using rev_ind.
  - cbn [List.last Z.eqb negb andb]. left. by auto.
  - rewrite List.last_last.
    assert (Hp0 : p0 ≠ 0).
    { eapply heap_ok_pos; [exact Hok1|].
      apply elem_of_app. left. apply elem_of_app. right. left. }
    apply Z.eqb_neq in Hp0. rewrite Hp0. cbn [negb andb].
    rewrite (proj1 (Htags1 p0)).
    destruct (is_free (deref h p0)) eqn:Hfp.
    + right. exists l0, p0. split; [done|]. split; [done|].
      rewrite merge_prev_as_merge_next;
        rewrite (heap_ok_prev _ (l0 ++ [p0]) a l2') by done;
        rewrite List.last_last; [done|].
      rewrite <- app_assoc in Hok1. cbn [app] in Hok1.
      by rewrite (heap_ok_next _ _ _ _ Hok1).
    + left. by auto.
Qed.

(** A property of the heap and its block list that [merge_next] keeps on
    two free neighbours is kept by [coalesce_blocks] at a free block. *)
Lemma coalesce_blocks_keeps (P : heap → list Z → Prop) h l1 a l2 :
  (∀ h l1 a b l3,
     heap_ok h (l1 ++ a :: b :: l3) →
     is_free (deref h a) = true → is_free (deref h b) = true →
     P h (l1 ++ a :: b :: l3) → P (merge_next h a) (l1 ++ a :: l3)) →
  heap_ok h (l1 ++ a :: l2) → is_free (deref h a) = true →
  P h (l1 ++ a :: l2) →
  ∃ l', heap_ok (coalesce_blocks h a) l' ∧ P (coalesce_blocks h a) l' ∧
        (∀ x, x ∈ l' → x ∈ l1 ++ a :: l2).
Proof.
  intros Hstep Hok Hfa HP.
  destruct (coalesce_blocks_cases h l1 a l2 Hok Hfa)
    as (h1 & l2' & Hfirst & Hok1 & Hsecond).
  assert (P h1 (l1 ++ a :: l2') ∧ same_tags h h1 ∧
          ∀ x, x ∈ l2' → x ∈ l2) as (HP1 & Htags & Hsub).
  { destruct Hfirst as [(-> & -> & _)|(b & l3 & -> & Hfb & -> & ->)].
    - split; [done|]. split; [apply same_tags_refl|done].
    - split; [by apply (Hstep h l1 a b l3)|].
      split; [apply same_tags_merge_next|].
      intros x Hx. by right. }
  destruct Hsecond as [[-> _]|(l0 & p & -> & Hfp & ->)].
  - exists (l1 ++ a :: l2'). split; [done|]. split; [done|].
    intros x. rewrite !elem_of_app, !elem_of_cons.
    intros [?|[?|?]]; auto.
  - rewrite <- app_assoc in Hok1, HP1. cbn [app] in Hok1, HP1.
    exists (l0 ++ p :: l2'). split; [by eapply merge_next_heap_ok|]. split.
    + apply (Hstep h1 l0 p a l2'); try done.
      * by rewrite (proj1 (Htags p)).
      * by rewrite (proj1 (Htags a)).
    + intros x. rewrite <- app_assoc. cbn [app].
      rewrite !elem_of_app, !elem_of_cons.
      intros [?|[?|?]]; auto.
Qed.

(** ** The statistics and the alignment under well-behaved clients *)

Lemma heap_ok_unique h l l' : heap_ok h l → heap_ok h l' → l = l'.
Proof.
  intros H1%heap_ok_block_list H2%heap_ok_block_list. congruence.
Qed.

Lemma sum_over_with_stats f h s l :
  sum_over f (with_stats h s) l = sum_over f h l.
Proof. apply sum_over_ext. intros x _. by rewrite deref_with_stats. Qed.

Lemma sum_over_with_bytes f h m l :
  sum_over f (with_bytes h m) l = sum_over f h l.
Proof. by apply sum_over_ext. Qed.

Lemma sum_over_middle f h l1 a l2 :
  sum_over f h (l1 ++ a :: l2)
  = sum_over f h l1 + f (size (deref h a)) (is_free (deref h a))
    + sum_over f h l2.
Proof. rewrite sum_over_app, sum_over_cons. lia. Qed.

Lemma NoDup_middle (l1 l2 : list Z) a :
  NoDup (l1 ++ a :: l2) → (a ∉ l1) ∧ (a ∉ l2).
Proof.
  intros (_ & H1 & [H2 _]%NoDup_cons)%NoDup_app. split; [|done].
  intros H. apply (H1 _ H). left.
Qed.

Lemma sum_over_retag f h l1 a l2 fl m :
  NoDup (l1 ++ a :: l2) →
  sum_over f (assign (assign h a (set_is_free fl)) a (set_magic m))
           (l1 ++ a :: l2)
  = sum_over f h l1 + f (size (deref h a)) fl + sum_over f h l2.
Proof.
  intros [H1 H2]%NoDup_middle. rewrite sum_over_middle.
  autorewrite with heap_rw. rewrite decide_True by done.
  rewrite !(sum_over_ext f h (assign _ _ _)); [done| |].
  - intros x Hx. autorewrite with heap_rw.
    rewrite decide_False by (by intros ->). done.
  - intros x Hx. autorewrite with heap_rw.
    rewrite decide_False by (by intros ->). done.
Qed.

Lemma sum_over_split f h l1 r l2 A :
  heap_ok h (l1 ++ r :: l2) → 0 ≤ A →
  A + sizeof_memory_block < size (deref h r) →
  sum_over f (split_block h r A) (l1 ++ r :: (r + 32 + A) :: l2)
  = sum_over f h l1 + f A (is_free (deref h r))
    + f (size (deref h r) - A - 32) true + sum_over f h l2.
Proof.
  intros Hok HA Hfit.
  destruct (split_block_ok h l1 r l2 A Hok HA Hfit)
    as (Hok1 & Hsr & Hsn & Hfn & Hfx & _).
  unfold sizeof_memory_block in *.
  pose proof (split_block_fresh _ _ _ _ _ Hok1) as Hfresh.
  pose proof (heap_ok_NoDup _ _ Hok) as [Hr1 Hr2]%NoDup_middle.
  assert (Hw : wrap64 (r + 32 + A) = r + 32 + A).
  { destruct (heap_ok_limits _ _ Hok1) as [He Hlim].
    destruct (Hlim (r + 32 + A)) as [? ?];
      [apply elem_of_app; right; right; left|].
    apply wrap64_small.
    unfold HEAP_START, HEAP_SIZE, sizeof_memory_block in *. lia. }
  assert (Hext : ∀ x, x ∈ l1 ++ r :: l2 → x ≠ r →
            size (deref (split_block h r A) x) = size (deref h x) ∧
            is_free (deref (split_block h r A) x) = is_free (deref h x)).
  { intros x Hx Hxr. pose proof (Hfresh x Hx) as Hxn. split.
    - apply size_split_block_other; [done|].
      unfold sizeof_memory_block. by rewrite Hw.
    - by apply Hfx. }
  rewrite sum_over_app, !sum_over_cons, Hsr, Hsn, Hfn.
  rewrite (Hfx r) by (apply Hfresh, elem_of_app; right; left).
  rewrite (sum_over_ext f h _ l1), (sum_over_ext f h _ l2); [lia| |].
  - intros x Hx. apply Hext; [|by intros ->].
    apply elem_of_app. right. by right.
  - intros x Hx. apply Hext; [|by intros ->]. apply elem_of_app. by left.
Qed.

Lemma sum_over_merge_next f h l1 a b l3 :
  heap_ok h (l1 ++ a :: b :: l3) →
  sum_over f (merge_next h a) (l1 ++ a :: l3)
  = sum_over f h l1
    + f (size (deref h a) + size (deref h b) + 32) (is_free (deref h a))
    + sum_over f h l3.
Proof.
  intros Hok. destruct (merge_next_ok h l1 a b l3 Hok) as [Hok1 Hsz].
  pose proof (heap_ok_NoDup _ _ Hok1) as [Ha1 Ha3]%NoDup_middle.
  rewrite sum_over_middle, Hsz, is_free_merge_next.
  unfold sizeof_memory_block.
  rewrite (sum_over_ext f h _ l1), (sum_over_ext f h _ l3); [done| |].
  - intros x Hx. rewrite is_free_merge_next.
    rewrite size_merge_next_other by (by intros ->). done.
  - intros x Hx. rewrite is_free_merge_next.
    rewrite size_merge_next_other by (by intros ->). done.
Qed.

Ltac sums :=
  unfold allocated_bytes, free_bytes, count_allocated, count_free in *.

Lemma stats_exact_init h : stats_exact (init_memory_manager h) [HEAP_START].
Proof.
  unfold stats_exact. sums. rewrite !sum_over_cons, !sum_over_nil.
  assert (E : deref (init_memory_manager h) HEAP_START
              = MemoryBlock (HEAP_SIZE - sizeof_memory_block) true 0 0
                            BLOCK_MAGIC_FREE).
  { unfold deref, init_memory_manager. cbn [blocks].
    by rewrite lookup_insert_eq. }
  rewrite E. cbn. done.
Qed.

Lemma stats_exact_split h l1 r l2 A :
  heap_ok h (l1 ++ r :: l2) → 0 ≤ A →
  A + sizeof_memory_block < size (deref h r) →
  is_free (deref h r) = true →
  stats_exact h (l1 ++ r :: l2) →
  stats_exact (split_block h r A) (l1 ++ r :: (r + 32 + A) :: l2).
Proof.
  intros Hok HA Hfit Hfr (Ht & Hu & Hf & Hca & Hcf & Hc).
  destruct (split_block_ok h l1 r l2 A Hok HA Hfit) as (Hok1 & _).
  pose proof (heap_ok_sums _ _ Hok1) as Hs1.
  cbv zeta in Hs1. unfold sizeof_memory_block in Hs1.
  pose proof (heap_ok_size _ _ r Hok) as Hrs.
  unfold stats_exact. rewrite memory_stats_split_block.
  replace (r =? 0) with false
    by (symmetry; apply Z.eqb_neq; eapply heap_ok_pos;
        [done|apply elem_of_app; right; left]).
  unfold sizeof_memory_block in *.
  rewrite wrap64_small
    by (specialize (Hrs ltac:(apply elem_of_app; right; left)); lia).
  replace (size (deref h r) <=? A + 32) with false by lia.
  cbn [orb total_memory used_memory free_memory allocated_blocks
       free_blocks corrupted_blocks set_free_blocks].
  sums. rewrite !(sum_over_split _ h) in * by done.
  rewrite !sum_over_middle in *. rewrite Hfr in *.
  rewrite wrap32_small; [lia|].
  unfold HEAP_SIZE in *. rewrite Hcf.
  destruct Hs1 as (?&?&?&?&?&?). rewrite length_app in *. cbn [length] in *.
  lia.
Qed.

Lemma stats_exact_merge_next h l1 a b l3 :
  heap_ok h (l1 ++ a :: b :: l3) →
  is_free (deref h a) = true → is_free (deref h b) = true →
  stats_exact h (l1 ++ a :: b :: l3) →
  stats_exact (merge_next h a) (l1 ++ a :: l3).
Proof.
  intros Hok Hfa Hfb (Ht & Hu & Hf & Hca & Hcf & Hc).
  pose proof (merge_next_heap_ok _ _ _ _ _ Hok) as Hok1.
  pose proof (heap_ok_sums _ _ Hok1) as Hs1.
  unfold stats_exact. rewrite memory_stats_merge_next.
  cbn [total_memory used_memory free_memory allocated_blocks
       free_blocks corrupted_blocks set_free_blocks].
  sums. rewrite !(sum_over_merge_next _ h l1 a b l3 Hok) in *.
  rewrite !sum_over_middle, !sum_over_cons in *. rewrite Hfa, Hfb in *.
  rewrite wrap32_small; [lia|].
  unfold HEAP_SIZE, sizeof_memory_block in *. rewrite Hcf.
  destruct Hs1 as (?&?&?&?&?&?). rewrite length_app in *. cbn [length] in *.
  lia.
Qed.

Lemma stats_exact_mark_allocated hs ls r :
  heap_ok hs ls → r ∈ ls → is_free (deref hs r) = true →
  stats_exact hs ls →
  stats_exact
    (with_stats (mark_allocated hs r)
       (MemoryStats
          (total_memory (memory_stats hs))
          (wrap64 (used_memory (memory_stats hs) + size (deref hs r)))
          (wrap64 (free_memory (memory_stats hs) - size (deref hs r)))
          (wrap32 (allocated_blocks (memory_stats hs) + 1))
          (wrap32 (free_blocks (memory_stats hs) - 1))
          (corrupted_blocks (memory_stats hs)))) ls.
Proof.
  intros Hok Hr Hfr (Ht & Hu & Hf & Hca & Hcf & Hc).
  pose proof (heap_ok_NoDup _ _ Hok) as Hnd.
  assert (Hok' : heap_ok (mark_allocated hs r) ls)
    by (apply heap_ok_retag; [done|done|by right]).
  pose proof (heap_ok_sums _ _ Hok') as Hs'.
  pose proof (heap_ok_sums _ _ Hok) as Hs.
  apply list_elem_of_split in Hr as (l1 & l2 & ->).
  unfold stats_exact.
  cbn [memory_stats with_stats total_memory used_memory free_memory
       allocated_blocks free_blocks corrupted_blocks].
  unfold mark_allocated in *. sums. rewrite !sum_over_with_stats.
  rewrite !sum_over_retag in * by done.
  rewrite !sum_over_middle in *. rewrite Hfr in *.
  unfold sizeof_memory_block, HEAP_SIZE in *.
  destruct Hs' as (?&?&?&?&?&?). destruct Hs as (?&?&?&?&?&?).
  rewrite length_app in *. cbn [length] in *.
  rewrite !wrap64_small, !wrap32_small by lia. lia.
Qed.

Lemma stats_exact_mark_free h l a :
  heap_ok h l → a ∈ l → is_free (deref h a) = false →
  stats_exact h l →
  stats_exact
    (with_stats (mark_free h a)
       (MemoryStats
          (total_memory (memory_stats h))
          (wrap64 (used_memory (memory_stats h) - size (deref h a)))
          (wrap64 (free_memory (memory_stats h) + size (deref h a)))
          (wrap32 (allocated_blocks (memory_stats h) - 1))
          (wrap32 (free_blocks (memory_stats h) + 1))
          (corrupted_blocks (memory_stats h)))) l.
Proof.
  intros Hok Ha Hfa (Ht & Hu & Hf & Hca & Hcf & Hc).
  pose proof (heap_ok_NoDup _ _ Hok) as Hnd.
  assert (Hok' : heap_ok (mark_free h a) l)
    by (apply heap_ok_retag; [done|done|by left]).
  pose proof (heap_ok_sums _ _ Hok') as Hs'.
  pose proof (heap_ok_sums _ _ Hok) as Hs.
  apply list_elem_of_split in Ha as (l1 & l2 & ->).
  unfold stats_exact.
  cbn [memory_stats with_stats total_memory used_memory free_memory
       allocated_blocks free_blocks corrupted_blocks].
  unfold mark_free in *. sums. rewrite !sum_over_with_stats.
  rewrite !sum_over_retag in * by done.
  rewrite !sum_over_middle in *. rewrite Hfa in *.
  unfold sizeof_memory_block, HEAP_SIZE in *.
  destruct Hs' as (?&?&?&?&?&?). destruct Hs as (?&?&?&?&?&?).
  rewrite length_app in *. cbn [length] in *.
  rewrite !wrap64_small, !wrap32_small by lia. lia.
Qed.

Lemma aligned_subset l l' : aligned l → (∀ x, x ∈ l' → x ∈ l) → aligned l'.
Proof. unfold aligned. rewrite !Forall_forall. auto. Qed.

Lemma aligned_insert l1 r l2 A :
  aligned (l1 ++ r :: l2) → A mod 8 = 0 →
  aligned (l1 ++ r :: (r + 32 + A) :: l2).
Proof.
  unfold aligned. rewrite !Forall_app, !Forall_cons.
  intros (H1 & Hr & H2) HA. repeat split; try done.
  revert Hr HA. generalize r A. clear. intros r A.
  Z.div_mod_to_equations. lia.
Qed.

Lemma heap_sound_init h : heap_sound (init_memory_manager h).
Proof.
  exists [HEAP_START]. split; [apply init_heap_ok|]. split; [done|].
  split; [apply stats_exact_init|]. by apply Forall_singleton.
Qed.

Lemma heap_sound_heap_inv h : heap_sound h → heap_inv h.
Proof. intros (l & ? & ? & _). by exists l. Qed.

Lemma heap_sound_malloc h sz h' p :
  heap_sound h → malloc h sz = Some (h', p) → heap_sound h'.
Proof.
  intros (l & Hok & Hnaf & Hst & Hal) E.
  destruct (malloc_ok h l sz Hok) as (h1 & p1 & l' & E' & Hok' & Hnaf' & _).
  rewrite E in E'. injection E' as <- <-.
  exists l'. split; [done|]. split; [auto|].
  destruct (malloc_cases h l sz h' p Hok E)
    as [(-> & -> & _)
       |(l1 & r & l2 & hs & ls & -> & -> & Hsz & [Hfr Hfit] & Hfirst
         & Hcase & Hoks & ->)].
  { by rewrite (heap_ok_unique _ _ _ Hok' Hok). }
  assert (Hrl : r ∈ l1 ++ r :: l2) by (apply elem_of_app; right; left).
  pose proof (ALIGN_UP_range sz) as HA.
  assert (r ∈ ls ∧ is_free (deref hs r) = true ∧ stats_exact hs ls
          ∧ aligned ls) as (Hrls & Hfrs & Hsts & Hals).
  { destruct Hcase as [(Hbig & -> & ->)|(_ & -> & ->)]; [|done].
    destruct (split_block_ok h l1 r l2 (ALIGN_UP sz 8) Hok)
      as (Hok1 & _ & _ & _ & Hfx & _);
      [lia|unfold sizeof_memory_block; lia|].
    split; [apply elem_of_app; right; left|]. split.
    - rewrite Hfx; [done|].
      by apply (split_block_fresh _ _ _ _ _ Hok1).
    - split.
      + apply stats_exact_split; try done; [lia|].
        unfold sizeof_memory_block. lia.
      + apply aligned_insert; [done|apply ALIGN_UP_aligned]. }
  assert (Hokf : heap_ok
            (with_stats (mark_allocated hs r)
               (MemoryStats (total_memory (memory_stats hs))
                  (wrap64 (used_memory (memory_stats hs) + size (deref hs r)))
                  (wrap64 (free_memory (memory_stats hs) - size (deref hs r)))
                  (wrap32 (allocated_blocks (memory_stats hs) + 1))
                  (wrap32 (free_blocks (memory_stats hs) - 1))
                  (corrupted_blocks (memory_stats hs)))) ls).
  { apply heap_ok_with_stats. apply heap_ok_retag; [done|done|by right]. }
  rewrite (heap_ok_unique _ _ _ Hok' Hokf). split; [|done].
  by apply stats_exact_mark_allocated.
Qed.

Lemma heap_sound_free h ptr :
  heap_sound h → live_or_null h ptr → heap_sound (free h ptr).
Proof.
  intros Hs [->|Hlive]; [by rewrite free_null|].
  destruct Hs as (l & Hok & Hnaf & Hst & Hal).
  destruct (free_ok h l ptr Hok Hlive) as (l' & Hok' & _ & Hnaf').
  exists l'. split; [done|]. split; [auto|].
  destruct (live_block _ _ _ Hok Hlive) as (Ha & Hf & _ & _).
  pose proof (free_live_unfold h l ptr Hok Hlive) as E. cbv zeta in E.
  set (a := ptr - sizeof_memory_block) in *.
  set (h3 := with_stats _ _) in E.
  assert (Hok3 : heap_ok h3 l).
  { subst h3. apply heap_ok_with_stats.
    apply heap_ok_retag; [done|done|by left]. }
  assert (Hf3 : is_free (deref h3 a) = true).
  { subst h3. unfold mark_free. autorewrite with heap_rw.
    by rewrite decide_True. }
  assert (Hst3 : stats_exact h3 l) by (by apply stats_exact_mark_free).
  apply list_elem_of_split in Ha as (l1 & l2 & ->).
  destruct (coalesce_blocks_keeps stats_exact h3 l1 a l2)
    as (l'' & Hok'' & Hst'' & Hsub); try done.
  { intros. by eapply stats_exact_merge_next. }
  rewrite <- E in Hok'', Hst''.
  rewrite (heap_ok_unique _ _ _ Hok' Hok''). split; [done|].
  by eapply aligned_subset.
Qed.

Lemma malloc_keeps_live h l sz h' p ptr :
  heap_ok h l → malloc h sz = Some (h', p) → live h ptr → live h' ptr.
Proof.
  intros Hok E Hlive.
  destruct (malloc_ok h l sz Hok) as (h1 & q & l' & E' & Hok' & _ & Hkeep).
  rewrite E in E'. injection E' as <- <-.
  destruct (live_block _ _ _ Hok Hlive) as (Ha & Hf & _).
  destruct (Hkeep _ Ha Hf) as [Ha' Hf'].
  exists l'. split; [by apply heap_ok_block_list|done].
Qed.

Lemma malloc_granted (h : heap) (sz : Z) (h' : heap) (p : Z) :
  heap_sound h → malloc h sz = Some (h', p) → p ≠ 0 →
  let n := size (deref h' (p - sizeof_memory_block)) in
  live h' p ∧
  ALIGN_UP sz 8 ≤ n ≤ ALIGN_UP sz 8 + 40 ∧
  (sz ≤ MAX_REQUEST → sz ≤ n) ∧
  p mod 8 = 0 ∧
  HEAP_START + sizeof_memory_block ≤ p ∧ p + n ≤ HEAP_START + HEAP_SIZE ∧
  bytes h' = bytes h ∧
  ∀ q, live h q →
       live h' q ∧ q ≠ p ∧
       size (deref h' (q - sizeof_memory_block))
       = size (deref h (q - sizeof_memory_block)).
Proof.
  intros Hs E Hp n.
  pose proof Hs as (l & Hok & _ & _ & Hal).
  pose proof (heap_sound_malloc _ _ _ _ Hs E) as (l' & Hok' & _ & _ & Hal').
  pose proof (ALIGN_UP_range sz) as HA.
  destruct (malloc_cases h l sz h' p Hok E)
    as [(-> & _)
       |(l1 & r & l2 & hs & ls & -> & -> & Hsz & [Hfr Hfit] & Hfirst
         & Hcase & Hoks & Eh')]; [done|].
  subst n.
  replace (r + sizeof_memory_block - sizeof_memory_block) with r by lia.
  assert (Hrl : r ∈ l1 ++ r :: l2) by (apply elem_of_app; right; left).
  assert (Hrls : r ∈ ls).
  { destruct Hcase as [(_ & _ & ->)|(_ & _ & ->)]; [|done].
    apply elem_of_app. right. left. }
  assert (Hokf : heap_ok h' ls).
  { rewrite Eh'. apply heap_ok_with_stats.
    apply heap_ok_retag; [done|done|by right]. }
  assert (Hsize : size (deref h' r) = size (deref hs r)).
  { rewrite Eh'. unfold mark_allocated. by autorewrite with heap_rw. }
  assert (Hfree : ∀ x, is_free (deref h' x)
            = if decide (r = x) then false else is_free (deref hs x)).
  { intros x. rewrite Eh'. unfold mark_allocated.
    by autorewrite with heap_rw. }
  assert (ALIGN_UP sz 8 ≤ size (deref hs r) ≤ ALIGN_UP sz 8 + 40 ∧
          ∀ x, x ∈ l1 ++ r :: l2 → x ≠ r →
               x ∈ ls ∧ size (deref hs x) = size (deref h x) ∧
               is_free (deref hs x) = is_free (deref h x))
    as [Hn Hothers].
  { destruct Hcase as [(Hbig & -> & ->)|(Hsmall & -> & ->)].
    - destruct (split_block_ok h l1 r l2 (ALIGN_UP sz 8) Hok)
        as (Hok1 & Hsr & _ & _ & Hfx & _);
        [lia|unfold sizeof_memory_block; lia|].
      pose proof (split_block_fresh _ _ _ _ _ Hok1) as Hfresh.
      assert (Hw : wrap64 (r + sizeof_memory_block + ALIGN_UP sz 8)
                   = r + 32 + ALIGN_UP sz 8).
      { destruct (heap_ok_limits _ _ Hok1) as [He Hlim].
        destruct (Hlim (r + 32 + ALIGN_UP sz 8)) as [? ?];
          [apply elem_of_app; right; right; left|].
        apply wrap64_small.
        unfold HEAP_START, HEAP_SIZE, sizeof_memory_block in *. lia. }
      split; [lia|]. intros x Hx Hxr. split; [|split].
      + revert Hx. rewrite !elem_of_app, !elem_of_cons. tauto.
      + apply size_split_block_other; [done|]. rewrite Hw. by apply Hfresh.
      + apply Hfx. by apply Hfresh.
    - split; [lia|]. by intros x Hx _. }
  rewrite Hsize.
  split.
  { exists ls. split; [by apply heap_ok_block_list|].
    replace (r + sizeof_memory_block - sizeof_memory_block) with r by lia.
    split; [done|]. rewrite Hfree. by rewrite decide_True. }
  split; [done|]. split.
  { unfold MAX_REQUEST. intros Hle. destruct (decide (0 ≤ sz)) as [H0|H0]; [|lia].
    pose proof (ALIGN_UP_ge sz ltac:(lia)). lia. }
  split.
  { unfold aligned in Hal. rewrite Forall_forall in Hal.
    specialize (Hal r Hrl). revert Hal. unfold sizeof_memory_block.
    generalize r. clear. intros r. Z.div_mod_to_equations. lia. }
  destruct (heap_ok_limits _ _ Hok) as [_ Hlim].
  destruct (Hlim r Hrl) as [Hlo _].
  pose proof (heap_ok_extent _ _ _ Hokf Hrls) as Hext. rewrite Hsize in Hext.
  split; [lia|]. split; [lia|]. split; [by eapply bytes_malloc|].
  intros q Hq.
  destruct (live_block _ _ _ Hok Hq) as (Hql & Hqf & _ & _).
  assert (Hqr : q - sizeof_memory_block ≠ r) by (intros Heq; congruence).
  destruct (Hothers _ Hql Hqr) as (Hqls & Hqs & Hqf').
  split; [|split].
  - exists ls. split; [by apply heap_ok_block_list|]. split; [done|].
    rewrite Hfree. rewrite decide_False by done. congruence.
  - lia.
  - rewrite <- Hqs. rewrite Eh'. unfold mark_allocated.
    by autorewrite with heap_rw.
Qed.


(** A store into the payload of a live block keeps the invariant, the
    headers of the block list and the live handles. *)
Lemma heap_sound_stored h l m q d n :
  heap_sound h → heap_ok h l → live h q →
  q ≤ d → d + n ≤ q + size (deref h (q - sizeof_memory_block)) →
  heap_sound (stored h m d n) ∧ heap_ok (stored h m d n) l ∧
  (∀ x, x ∈ l → deref (stored h m d n) x = deref h x) ∧
  (∀ ptr, live h ptr → live (stored h m d n) ptr).
Proof.
  intros (l0 & Hok0 & Hnaf & Hst & Hal) Hok Hq Hd Hn.
  rewrite (heap_ok_unique _ _ _ Hok0 Hok) in *. clear Hok0.
  destruct (live_block _ _ _ Hok Hq) as (Hb & _).
  destruct (stored_payload h l m (q - sizeof_memory_block) d n Hok Hb)
    as [Hl Hok']; [lia|lia|].
  split; [|split; [done|split; [done|]]].
  - exists l. split; [done|]. split.
    + eapply no_adjacent_free_ext; [|done]. intros x Hx. by rewrite Hl.
    + split; [|done]. revert Hst. unfold stats_exact. sums.
      change (memory_stats (stored h m d n)) with (memory_stats h).
      rewrite !(sum_over_ext _ h (stored h m d n) l); [done|..];
        intros x Hx; by rewrite Hl.
  - intros ptr Hp. by apply (live_agree h _ l).
Qed.

Lemma heap_sound_calloc h num sz h' p :
  heap_sound h → wrap64 (num * sz) ≤ MAX_REQUEST →
  calloc h num sz = Some (h', p) → heap_sound h'.
Proof.
  intros Hs Ht. unfold calloc.
  destruct (malloc h (wrap64 (num * sz))) as [[h1 q]|] eqn:E; [|done].
  cbn [mbind option_bind].
  pose proof (heap_sound_malloc _ _ _ _ Hs E) as Hs1.
  destruct (q =? 0) eqn:Eq; cbn [negb]; [by intros [= <- <-]|].
  apply Z.eqb_neq in Eq.
  destruct (malloc_granted h _ h1 q Hs E Eq) as (Hlive & _ & Hge & _).
  unfold memset. destruct (_ <? _); [done|]. cbn [mbind option_bind].
  intros [= <- <-]. destruct Hs1 as (l1 & Hok1 & Hrest).
  eapply (heap_sound_stored h1 l1); [by exists l1|done|exact Hlive|lia|].
  specialize (Hge Ht). lia.
Qed.

Lemma heap_sound_realloc h ptr sz h' p :
  heap_sound h → live_or_null h ptr → sz ≤ MAX_REQUEST →
  realloc h ptr sz = Some (h', p) → heap_sound h'.
Proof.
  intros Hs Hptr Hmax. unfold realloc.
  destruct (ptr =? 0) eqn:Ep; [by apply heap_sound_malloc|].
  destruct Hptr as [->|Hlive]; [done|].
  destruct (sz =? 0);
    [intros [= <- <-]; apply heap_sound_free; [done|by right]|].
  destruct (negb (validate_block h _)); [by intros [= <- <-]|].
  destruct (sz <=? _) eqn:Efit; [by intros [= <- <-]|].
  destruct (malloc h sz) as [[h1 q]|] eqn:E; [|done].
  cbn [mbind option_bind].
  pose proof (heap_sound_malloc _ _ _ _ Hs E) as Hs1.
  destruct (q =? 0) eqn:Eq; [by intros [= <- <-]|].
  apply Z.eqb_neq in Eq.
  destruct (malloc_granted h _ h1 q Hs E Eq)
    as (Hliveq & _ & Hge & _ & _ & _ & _ & Hkeep).
  destruct (Hkeep ptr Hlive) as (Hlive1 & _ & Hsize).
  unfold memcpy. destruct (_ || _); [done|]. cbn [mbind option_bind].
  intros [= <- <-]. destruct Hs as (l & Hok & _).
  destruct (live_block _ _ _ Hok Hlive) as (_ & _ & Hw & _).
  rewrite Hw in *. apply Z.leb_gt in Efit.
  destruct Hs1 as (l1 & Hok1 & Hrest).
  destruct (heap_sound_stored h1 l1
              (memcpy_loop (Z.to_nat (size (deref h1 (ptr - sizeof_memory_block))))
                           (bytes h1) q ptr)
              q q (size (deref h1 (ptr - sizeof_memory_block))))
    as (Hs2 & _ & _ & Hl2); [by exists l1|done|exact Hliveq|lia| |].
  { specialize (Hge Hmax). lia. }
  apply heap_sound_free; [done|]. right. by apply Hl2.
Qed.

Lemma reachable_heap_sound h : reachable h → heap_sound h.
Proof.
  induction 1 as [h|h sz h' p _ IH E|h ptr _ IH Hp|h num sz h' p _ IH Ht E
                  |h ptr sz h' p _ IH Hp Hsz E].
  - apply heap_sound_init.
  - by eapply heap_sound_malloc.
  - by apply heap_sound_free.
  - by eapply heap_sound_calloc.
  - by eapply heap_sound_realloc.
Qed.

Lemma reachable_heap_inv h : reachable h → heap_inv h.
Proof. intros H. by apply heap_sound_heap_inv, reachable_heap_sound. Qed.

(** The calls return on every state a well-behaved client can reach. *)
Lemma reachable_malloc_returns h sz :
  reachable h → ∃ h' p, malloc h sz = Some (h', p).
Proof.
  intros (l & Hok & _)%reachable_heap_inv.
  destruct (malloc_ok h l sz Hok) as (h' & p & _ & E & _). eauto.
Qed.


(** ** The footprint of the block list *)

(** C2 (as found): a second [free] of the same handle passes validation
    (its stale header carries the free tag) and adds the block's size to
    its free predecessor once more: the block list is one block of
    [2 * HEAP_SIZE - 72] payload bytes. *)
Lemma double_free_breaks_footprint :
  block_list heap_merged = Some [HEAP_START] ∧
  footprint heap_merged [HEAP_START] = HEAP_SIZE ∧
  magic (deref heap_merged (handle_b - 32)) = BLOCK_MAGIC_FREE ∧
  block_list (free heap_merged handle_b) = Some [HEAP_START] ∧
  footprint (free heap_merged handle_b) [HEAP_START] = 2 * HEAP_SIZE - 40 ∧
  ¬ covers_arena (free heap_merged handle_b).
Proof.
  assert (E : block_list (free heap_merged handle_b) = Some [HEAP_START])
    by (vm_compute; reflexivity).
  do 3 (split; [vm_compute; reflexivity|]). split; [exact E|].
  split; [vm_compute; reflexivity|].
  intros (l & Hl & Hf). rewrite E in Hl. injection Hl as <-.
  vm_compute in Hf. discriminate.
Qed.

(** C2 (amended): in every state reached by [init] and calls whose handles
    are null or live and in which [calloc] and [realloc] ask for at most
    [MAX_REQUEST] bytes, the block list is defined and the payload and
    header sizes of its blocks add up to the arena size; from such a state,
    splitting a block of the list, and coalescing at a block of the list
    that has just been marked free, give a state with the same sum. *)
Theorem footprint_invariant (h : heap) :
  reachable h →
  covers_arena h ∧
  (∀ l a sz, block_list h = Some l → a ∈ l → 0 ≤ sz →
             sz + sizeof_memory_block < 2 ^ 64 →
             covers_arena (split_block h a sz)) ∧
  (∀ l a, block_list h = Some l → a ∈ l →
          covers_arena (coalesce_blocks (mark_free h a) a)).
Proof.
  intros (l & Hok & _)%reachable_heap_inv.
  pose proof (heap_ok_block_list _ _ Hok) as Hbl.
  split; [by eapply heap_ok_covers_arena|]. split.
  - intros l0 a sz Hl0 Ha Hsz Hsz'. rewrite Hbl in Hl0. injection Hl0 as <-.
    destruct (decide (sz + sizeof_memory_block < size (deref h a)))
      as [Hfit|Hfit].
    + apply list_elem_of_split in Ha as (l1 & l2 & ->).
      destruct (split_block_ok h l1 a l2 sz Hok Hsz Hfit) as [Hok' _].
      by eapply heap_ok_covers_arena.
    + unfold split_block. rewrite wrap64_small
        by (unfold sizeof_memory_block in *; lia).
      replace (size (deref h a) <=? sz + sizeof_memory_block) with true
        by lia.
      rewrite orb_true_r. by eapply heap_ok_covers_arena.
  - intros l0 a Hl0 Ha. rewrite Hbl in Hl0. injection Hl0 as <-.
    assert (Hok1 : heap_ok (mark_free h a) l)
      by (apply heap_ok_retag; [done|done|by left]).
    apply list_elem_of_split in Ha as (l1 & l2 & ->).
    destruct (coalesce_blocks_spec _ l1 a l2 Hok1) as (l' & Hok' & _).
    by eapply heap_ok_covers_arena.
Qed.

Lemma heap_one_live_reachable : reachable heap_one_live.
Proof.
  apply (reach_malloc (init_memory_manager boot) 100 _ (HEAP_START + 32)).
  - apply reach_init.
  - vm_compute. reflexivity.
Qed.

Lemma footprint_invariant_witness :
  covers_arena heap_one_live ∧
  covers_arena (coalesce_blocks (mark_free heap_one_live HEAP_START)
                                HEAP_START).
Proof.
  destruct (footprint_invariant heap_one_live heap_one_live_reachable)
    as (H1 & _ & H3).
  split; [exact H1|].
  apply (H3 [HEAP_START; HEAP_START + 136]).
  - vm_compute. reflexivity.
  - left.
Defined.

(** ** Free neighbours after [free] *)

(** C3 (as found): after a double free of [b], whose stale header sits in
    the payload of the first block, [free] of the live handle [d] leaves
    the blocks [c] and [d] both free and next to each other. *)
Lemma double_free_breaks_coalescing :
  block_list heap_stale
  = Some [HEAP_START; HEAP_START + 80; HEAP_START + 120; HEAP_START + 160] ∧
  is_free (deref heap_stale (handle_d - 32)) = false ∧
  magic (deref heap_stale (handle_b - 32)) = BLOCK_MAGIC_FREE ∧
  block_list (free (free heap_stale handle_b) handle_d)
  = Some [HEAP_START; HEAP_START + 80; HEAP_START + 120] ∧
  is_free (deref (free (free heap_stale handle_b) handle_d)
                 (HEAP_START + 80)) = true ∧
  is_free (deref (free (free heap_stale handle_b) handle_d)
                 (HEAP_START + 120)) = true ∧
  ¬ coalesced (free (free heap_stale handle_b) handle_d).
Proof.
  assert (E : block_list (free (free heap_stale handle_b) handle_d)
              = Some [HEAP_START; HEAP_START + 80; HEAP_START + 120])
    by (vm_compute; reflexivity).
  do 3 (split; [vm_compute; reflexivity|]). split; [exact E|].
  do 2 (split; [vm_compute; reflexivity|]).
  intros (l & Hl & Hn). rewrite E in Hl. injection Hl as <-.
  destruct Hn as (_ & Hn & _). vm_compute in Hn. discriminate.
Qed.

Lemma free_live_eq h l ptr :
  heap_ok h l → live h ptr →
  ∃ s, free h ptr
       = coalesce_blocks
           (with_stats (mark_free h (ptr - sizeof_memory_block)) s)
           (ptr - sizeof_memory_block).
Proof.
  intros Hok Hlive.
  destruct (live_block _ _ _ Hok Hlive) as (Ha & Hf & Hw & Hp).
  unfold free. apply Z.eqb_neq in Hp. rewrite Hp.
  destruct Hok as (Hi & Hrest). rewrite Hi. cbn [negb orb].
  assert (Hok : heap_ok h l) by (by split). clear Hrest.
  rewrite Hw, (heap_ok_validate _ _ _ Hok Ha). cbn [negb]. cbv zeta.
  eexists. reflexivity.
Qed.

(** C3 (amended): in a state reached by [init] and calls whose handles are
    null or live and in which [calloc] and [realloc] ask for at most
    [MAX_REQUEST] bytes, after [free] of a null or live handle returns, the
    block list is defined and no two neighbours of it are both free.  When both
    neighbours of the freed block are free, the following block is merged
    first and the preceding block then takes the extended block: one block
    remains, of the three payloads and two headers. *)
Theorem free_coalesces (h : heap) (ptr : Z) :
  reachable h → live_or_null h ptr →
  coalesced (free h ptr) ∧
  ∀ l0 p b l3,
    block_list h = Some (l0 ++ p :: (ptr - sizeof_memory_block) :: b :: l3) →
    is_free (deref h p) = true → is_free (deref h b) = true →
    block_list (free h ptr) = Some (l0 ++ p :: l3) ∧
    size (deref (free h ptr) p)
    = size (deref h p) + size (deref h (ptr - sizeof_memory_block))
      + size (deref h b) + 2 * sizeof_memory_block.
Proof.
  intros Hr Hp. split.
  { destruct (reachable_heap_inv _ (reach_free h ptr Hr Hp))
      as (l & Hok & Hn).
    exists l. split; [by apply heap_ok_block_list|done]. }
  intros l0 p b l3 Hbl Hfp Hfb.
  destruct (reachable_heap_inv _ Hr) as (l & Hok & Hnaf).
  rewrite (heap_ok_block_list _ _ Hok) in Hbl. injection Hbl as ->.
  set (a := ptr - sizeof_memory_block) in *.
  assert (Hal : a ∈ l0 ++ p :: a :: b :: l3).
  { apply elem_of_app. right. right. left. }
  assert (Hpl : p ∈ l0 ++ p :: a :: b :: l3).
  { apply elem_of_app. right. left. }
  assert (Hlive : live h ptr).
  { destruct Hp as [->|Hp]; [|done].
    apply (heap_ok_limits _ _ Hok) in Hal. subst a.
    unfold HEAP_START, sizeof_memory_block in Hal. lia. }
  destruct (free_live_eq _ _ _ Hok Hlive) as (s & ->). fold a.
  set (h3 := with_stats (mark_free h a) s).
  assert (Hok3 : heap_ok h3 (l0 ++ p :: a :: b :: l3)).
  { apply heap_ok_with_stats, heap_ok_retag; [done|done|by left]. }
  assert (Hpa : p ≠ a).
  { pose proof (heap_ok_NoDup _ _ Hok) as Hnd.
    apply NoDup_app in Hnd as (_ & _ & [Hnd _]%NoDup_cons).
    intros ->. apply Hnd. left. }
  assert (Hba : b ≠ a).
  { pose proof (heap_ok_NoDup _ _ Hok) as Hnd.
    apply NoDup_app in Hnd as (_ & _ & [_ [Hnd _]%NoDup_cons]%NoDup_cons).
    intros ->. apply Hnd. left. }
  destruct (coalesce_blocks_both_neighbours h3 l0 p a b l3 Hok3)
    as (_ & Hok' & Hsz).
  - subst h3. unfold mark_free. autorewrite with heap_rw.
    by rewrite decide_False.
  - subst h3. unfold mark_free. autorewrite with heap_rw.
    by rewrite decide_True.
  - subst h3. unfold mark_free. autorewrite with heap_rw.
    by rewrite decide_False.
  - split; [by apply heap_ok_block_list|]. rewrite Hsz.
    subst h3. unfold mark_free. by autorewrite with heap_rw.
Qed.

Lemma free_coalesces_witness :
  coalesced (free heap_one_live (HEAP_START + 32)).
Proof.
  apply free_coalesces; [exact heap_one_live_reachable|].
  right. exists [HEAP_START; HEAP_START + 136].
  split; [vm_compute; reflexivity|]. split; [left|vm_compute; reflexivity].
Defined.

(** X9.  In every state a well-behaved client can reach the statistics
    are exact: the two block counters count the allocated and the free
    blocks of the block list, [used_memory] is one header plus the payload
    of the allocated blocks, [free_memory] is the rest of the arena, and no
    corruption has been counted. *)
Theorem statistics_are_exact (h : heap) :
  reachable h →
  ∃ l, block_list h = Some l ∧
       allocated_blocks (memory_stats h) = count_allocated h l ∧
       free_blocks (memory_stats h) = count_free h l ∧
       used_memory (memory_stats h)
       = sizeof_memory_block + allocated_bytes h l ∧
       used_memory (memory_stats h) + free_memory (memory_stats h)
       = HEAP_SIZE ∧
       total_memory (memory_stats h) = HEAP_SIZE ∧
       corrupted_blocks (memory_stats h) = 0.
Proof.
  intros (l & Hok & _ & (Ht & Hu & Hf & Hca & Hcf & Hc) & _)%reachable_heap_sound.
  exists l. split; [by apply heap_ok_block_list|].
  repeat split; try done. lia.
Qed.

Lemma statistics_are_exact_witness :
  ∃ l, block_list heap_one_live = Some l ∧
       allocated_blocks (memory_stats heap_one_live)
       = count_allocated heap_one_live l.
Proof.
  destruct (statistics_are_exact heap_one_live heap_one_live_reachable)
    as (l & Hl & H & _).
  exists l. split; [exact Hl|exact H].
Defined.

(** ** What the clients of the allocator can rely on *)

Lemma filter_all {A} (P : A → Prop) `{∀ x, Decision (P x)} (l : list A) :
  (∀ x, x ∈ l → P x) → filter P l = l.
Proof.
  induction l as [|a l IH]; [done|]. intros Hl. rewrite filter_cons.
  rewrite decide_True by (apply Hl; left). f_equal. apply IH.
  intros x Hx. apply Hl. by right.
Qed.

Lemma filter_sums h l :
  foldr (λ a acc, size (deref h a) + acc) 0
        (filter (λ a, is_free (deref h a) = false) l) = allocated_bytes h l ∧
  foldr (λ a acc, size (deref h a) + acc) 0
        (filter (λ a, is_free (deref h a) = true) l) = free_bytes h l ∧
  Z.of_nat (length (filter (λ a, is_free (deref h a) = false) l))
  = count_allocated h l ∧
  Z.of_nat (length (filter (λ a, is_free (deref h a) = true) l))
  = count_free h l.
Proof.
  sums. induction l as [|a l (IH1 & IH2 & IH3 & IH4)]; [done|].
  rewrite !filter_cons, !sum_over_cons.
  destruct (is_free (deref h a)) eqn:E.
  - rewrite decide_False by done. rewrite decide_True by done.
    cbn [foldr length]. repeat split; lia.
  - rewrite decide_True by done. rewrite decide_False by done.
    cbn [foldr length]. repeat split; lia.
Qed.

(** X10.  [display_memory_info] recounts the statistics from the block
    list.  In a state a well-behaved client can reach it finds the block
    counters right; it sets [used_memory] to the allocated payload, one
    header less than the calls keep it, and [free_memory] to the free
    payload, one header less for every block but one. *)
Theorem display_memory_info_recounts (h : heap) :
  reachable h →
  ∃ l h', block_list h = Some l ∧ display_memory_info h = Some h' ∧
    blocks h' = blocks h ∧ bytes h' = bytes h ∧
    allocated_blocks (memory_stats h') = allocated_blocks (memory_stats h) ∧
    free_blocks (memory_stats h') = free_blocks (memory_stats h) ∧
    used_memory (memory_stats h') = allocated_bytes h l ∧
    used_memory (memory_stats h')
    = used_memory (memory_stats h) - sizeof_memory_block ∧
    free_memory (memory_stats h') = free_bytes h l ∧
    free_memory (memory_stats h')
    = free_memory (memory_stats h)
      - sizeof_memory_block * (Z.of_nat (length l) - 1).
Proof.
  intros (l & Hok & _ & (Ht & Hu & Hf & Hca & Hcf & Hc) & _)%reachable_heap_sound.
  pose proof (heap_ok_block_list _ _ Hok) as Hl.
  pose proof (heap_ok_sums _ _ Hok) as (?&?&?&?&?&Hsum).
  exists l. eexists. split; [done|]. unfold display_memory_info.
  destruct Hok as (Hi & Hrest). rewrite Hi. cbn [negb].
  assert (Hok : heap_ok h l) by (by split). clear Hrest.
  rewrite Hl. cbn [mbind option_bind]. cbv zeta.
  rewrite (filter_all (λ a, validate_block h a = true) l)
    by (intros x Hx; by eapply heap_ok_validate).
  split; [reflexivity|]. split; [done|]. split; [done|].
  destruct (filter_sums h l) as (-> & -> & -> & ->).
  cbn [memory_stats with_stats allocated_blocks free_blocks used_memory
       free_memory].
  unfold sizeof_memory_block, HEAP_SIZE in *.
  rewrite !wrap64_small, !wrap32_small by lia.
  repeat split; lia.
Qed.

Lemma display_memory_info_recounts_witness :
  ∃ l h', block_list heap_one_live = Some l ∧
          display_memory_info heap_one_live = Some h' ∧
          used_memory (memory_stats h')
          = used_memory (memory_stats heap_one_live) - sizeof_memory_block.
Proof.
  destruct (display_memory_info_recounts heap_one_live
              heap_one_live_reachable)
    as (l & h' & Hl & E & _ & _ & _ & _ & _ & Hu & _).
  exists l, h'. split; [exact Hl|]. split; [exact E|exact Hu].
Defined.

(** X11.  [malloc] is first fit on the request rounded up to a multiple
    of 8: it takes the first block of the block list, in address order,
    that is free and large enough.  It returns [NULL], and changes
    nothing, exactly when the request is empty or no block fits. *)
Theorem malloc_first_fit (h : heap) (sz : Z) (h' : heap) (p : Z) :
  reachable h → malloc h sz = Some (h', p) →
  ∃ l, block_list h = Some l ∧
    (p = 0 → h' = h ∧ (sz = 0 ∨ ∀ x, x ∈ l → ¬ fits h (ALIGN_UP sz 8) x)) ∧
    (p ≠ 0 →
     sz ≠ 0 ∧
     ∃ l1 l2, l = l1 ++ (p - sizeof_memory_block) :: l2 ∧
       fits h (ALIGN_UP sz 8) (p - sizeof_memory_block) ∧
       ∀ x, x ∈ l1 → ¬ fits h (ALIGN_UP sz 8) x).
Proof.
  intros (l & Hok & _)%reachable_heap_sound E.
  exists l. split; [by apply heap_ok_block_list|].
  destruct (malloc_cases h l sz h' p Hok E)
    as [(-> & -> & Hnone)
       |(l1 & r & l2 & hs & ls & -> & -> & Hsz & Hfit & Hfirst & _)].
  - split; [done|]. by intros [].
  - assert (Hr0 : r ≠ 0).
    { eapply heap_ok_pos; [done|]. apply elem_of_app. right. left. }
    split.
    + intros Hp. destruct (heap_ok_limits _ _ Hok) as [_ Hlim].
      destruct (Hlim r) as [? _]; [apply elem_of_app; right; left|].
      unfold HEAP_START, sizeof_memory_block in *. lia.
    + intros _. split; [done|]. exists l1, l2.
      replace (r + sizeof_memory_block - sizeof_memory_block) with r by lia.
      done.
Qed.

Lemma malloc_first_fit_witness :
  ∃ l, block_list heap_one_live = Some l ∧
       ∃ l1 l2, l = l1 ++ (HEAP_START + 136) :: l2 ∧
                ∀ x, x ∈ l1 → ¬ fits heap_one_live 104 x.
Proof.
  assert (E : malloc heap_one_live 100
              = Some (default heap_one_live
                        (fst <$> malloc heap_one_live 100),
                      HEAP_START + 136 + 32))
    by (vm_compute; reflexivity).
  destruct (malloc_first_fit heap_one_live 100 _ _ heap_one_live_reachable E)
    as (l & Hl & _ & H).
  exists l. split; [exact Hl|].
  destruct H as (_ & l1 & l2 & El & _ & Hfirst); [by vm_compute|].
  exists l1, l2. split; [exact El|exact Hfirst].
Defined.

(** X12.  The block [malloc] grants: its payload holds the rounded
    request and at most 40 bytes more, starts on an 8-byte boundary and
    lies inside the arena; its handle is live; the handles that were live
    stay live, with their blocks unchanged in size and in contents. *)
Theorem malloc_grants_block (h : heap) (sz : Z) (h' : heap) (p : Z) :
  reachable h → malloc h sz = Some (h', p) → p ≠ 0 →
  let n := size (deref h' (p - sizeof_memory_block)) in
  live h' p ∧
  ALIGN_UP sz 8 ≤ n ≤ ALIGN_UP sz 8 + 40 ∧
  (sz ≤ 2 ^ 64 - 8 → sz ≤ n) ∧
  p mod 8 = 0 ∧
  HEAP_START + sizeof_memory_block ≤ p ∧ p + n ≤ HEAP_START + HEAP_SIZE ∧
  ∀ q, live h q →
       live h' q ∧ q ≠ p ∧
       size (deref h' (q - sizeof_memory_block))
       = size (deref h (q - sizeof_memory_block)) ∧
       ∀ a, q ≤ a < q + size (deref h (q - sizeof_memory_block)) →
            load (bytes h') a = load (bytes h) a.
Proof.
  intros Hr E Hp.
  destruct (malloc_granted h sz h' p (reachable_heap_sound _ Hr) E Hp)
    as (H1 & H2 & H3 & H4 & H5 & H6 & Hb & Hq).
  do 6 (split; [assumption|]). intros q Hlq.
  destruct (Hq q Hlq) as (? & ? & ?). do 3 (split; [assumption|]).
  intros a _. by rewrite Hb.
Qed.

Lemma malloc_grants_block_witness :
  ∃ h' p, malloc heap_one_live 100 = Some (h', p) ∧ live h' p ∧ p mod 8 = 0.
Proof.
  destruct (reachable_malloc_returns heap_one_live 100
              heap_one_live_reachable) as (h' & p & E).
  exists h', p. split; [exact E|].
  assert (Hp : p ≠ 0).
  { assert (snd <$> malloc heap_one_live 100 = Some (HEAP_START + 168))
      as Hc by (vm_compute; reflexivity).
    rewrite E in Hc. injection Hc as ->. done. }
  destruct (malloc_grants_block heap_one_live 100 h' p
              heap_one_live_reachable E Hp) as (H1 & _ & _ & H2 & _).
  split; [exact H1|exact H2].
Defined.

(** X13.  In every state a well-behaved client can reach, two different
    live handles have disjoint blocks: the payload of the one ends before
    the header of the other begins. *)
Theorem live_blocks_are_disjoint (h : heap) (p q : Z) :
  reachable h → live h p → live h q → p ≠ q →
  p + size (deref h (p - sizeof_memory_block)) ≤ q - sizeof_memory_block ∨
  q + size (deref h (q - sizeof_memory_block)) ≤ p - sizeof_memory_block.
Proof.
  intros (l & Hok & _)%reachable_heap_sound Hp Hq Hpq.
  destruct (live_block _ _ _ Hok Hp) as (Hpl & _).
  destruct (live_block _ _ _ Hok Hq) as (Hql & _).
  destruct (heap_ok_ordered h l _ _ Hok Hpl Hql); lia.
Qed.

Lemma heap_two_live_reachable : reachable heap_two_live.
Proof.
  apply (reach_malloc heap_one_live 100 _ (HEAP_START + 168)).
  - apply heap_one_live_reachable.
  - vm_compute. reflexivity.
Qed.

Lemma heap_two_live_handles :
  live heap_two_live (HEAP_START + 32) ∧ live heap_two_live (HEAP_START + 168).
Proof.
  split; exists [HEAP_START; HEAP_START + 136; HEAP_START + 272].
  - split; [vm_compute; reflexivity|]. split; [left|vm_compute; reflexivity].
  - split; [vm_compute; reflexivity|].
    split; [right; left|vm_compute; reflexivity].
Qed.

Lemma live_blocks_are_disjoint_witness :
  HEAP_START + 32
  + size (deref heap_two_live (HEAP_START + 32 - sizeof_memory_block))
  ≤ HEAP_START + 168 - sizeof_memory_block.
Proof.
  destruct heap_two_live_handles as [H1 H2].
  destruct (live_blocks_are_disjoint heap_two_live (HEAP_START + 32)
              (HEAP_START + 168) heap_two_live_reachable H1 H2 ltac:(done))
    as [H|H]; [exact H|].
  vm_compute in H. by exfalso.
Defined.

Lemma malloc_rounds_to_zero (h : heap) (sz : Z) (h' : heap) (p : Z) :
  reachable h → 2 ^ 64 - 8 < sz < 2 ^ 64 → malloc h sz = Some (h', p) →
  ALIGN_UP sz 8 = 0 ∧
  ∃ l, block_list h = Some l ∧
       (p = 0 ↔ ∀ x, x ∈ l → is_free (deref h x) = false) ∧
       (p ≠ 0 →
        live h' p ∧ size (deref h' (p - sizeof_memory_block)) ≤ 40 ∧
        (40 < size (deref h (p - sizeof_memory_block)) →
         size (deref h' (p - sizeof_memory_block)) = 0)).
Proof.
  intros Hreach Hsz E. pose proof (ALIGN_UP_wraps sz Hsz) as HA.
  split; [done|].
  pose proof (reachable_heap_sound _ Hreach) as (l & Hok & _).
  exists l. split; [by apply heap_ok_block_list|].
  destruct (malloc_cases h l sz h' p Hok E)
    as [(-> & -> & [?|Hnone])
       |(l1 & r & l2 & hs & ls & -> & -> & _ & [Hfr Hfit] & Hfirst
         & Hcase & Hoks & Eh')]; [lia| |].
  - split; [|done]. split; [|done]. intros _ x Hx.
    destruct (is_free (deref h x)) eqn:Hf; [|done].
    exfalso. apply (Hnone x Hx). split; [done|]. rewrite HA.
    by destruct (heap_ok_size _ _ _ Hok Hx).
  - assert (Hrl : r ∈ l1 ++ r :: l2) by (apply elem_of_app; right; left).
    destruct (heap_ok_limits _ _ Hok) as [_ Hlim].
    destruct (Hlim r Hrl) as [Hlo _].
    assert (Hp : r + sizeof_memory_block ≠ 0)
      by (unfold HEAP_START, sizeof_memory_block in *; lia).
    split.
    { split; [done|]. intros Hall. specialize (Hall r Hrl). congruence. }
    intros _.
    destruct (malloc_granted h sz h' (r + sizeof_memory_block)
                (reachable_heap_sound _ Hreach) E Hp)
      as (Hlive & Hn & _). cbv zeta in Hn.
    replace (r + sizeof_memory_block - sizeof_memory_block) with r in *
      by lia.
    split; [done|]. split; [lia|]. intros Hbig.
    destruct Hcase as [(_ & -> & ->)|(Hsmall & -> & ->)]; [|lia].
    destruct (split_block_ok h l1 r l2 (ALIGN_UP sz 8) Hok)
      as (_ & Hsr & _); [lia|unfold sizeof_memory_block; lia|].
    rewrite Eh'. unfold mark_allocated. autorewrite with heap_rw.
    rewrite Hsr. done.
Qed.



Lemma malloc_null_unchanged h l sz h' :
  heap_ok h l → malloc h sz = Some (h', 0) → h' = h.
Proof.
  intros Hok E.
  destruct (malloc_cases h l sz h' 0 Hok E)
    as [(_ & -> & _)|(l1 & r & l2 & hs & ls & -> & Hp & _)]; [done|].
  destruct (heap_ok_limits _ _ Hok) as [_ Hlim].
  destruct (Hlim r) as [? _]; [apply elem_of_app; right; left|].
  unfold HEAP_START, sizeof_memory_block in *. lia.
Qed.

Lemma free_live_not_live h l ptr :
  heap_ok h l → live h ptr → ¬ live (free h ptr) ptr.
Proof.
  intros Hok Hlive (l' & _ & _ & Hf).
  rewrite (free_live_unfold h l ptr Hok Hlive) in Hf. cbv zeta in Hf.
  rewrite (proj1 (coalesce_blocks_same_tags _ _ _)) in Hf.
  unfold mark_free in Hf. autorewrite with heap_rw in Hf.
  by rewrite decide_True in Hf.
Qed.

Lemma free_keeps_live h l p q :
  heap_ok h l → live h p → live h q → q ≠ p →
  live (free h p) q ∧
  size (deref (free h p) (q - sizeof_memory_block))
  = size (deref h (q - sizeof_memory_block)).
Proof.
  intros Hok Hp Hq Hqp.
  destruct (live_block _ _ _ Hok Hp) as (Hal & Hfa & _ & _).
  destruct (live_block _ _ _ Hok Hq) as (Hbl & Hfb & _ & _).
  destruct (free_ok h l p Hok Hp) as (l' & Hok' & _).
  pose proof (free_live_unfold h l p Hok Hp) as Ef. cbv zeta in Ef.
  set (a := p - sizeof_memory_block) in *.
  set (b := q - sizeof_memory_block) in *.
  assert (Hba : b ≠ a) by (subst a b; lia).
  set (h3 := with_stats _ _) in Ef.
  assert (Hok3 : heap_ok h3 l).
  { subst h3. apply heap_ok_with_stats.
    apply heap_ok_retag; [done|done|by left]. }
  assert (Hf3 : ∀ x, is_free (deref h3 x)
            = if decide (a = x) then true else is_free (deref h x)).
  { intros x. subst h3. unfold mark_free. autorewrite with heap_rw.
    by case_decide. }
  assert (Hs3 : ∀ x, size (deref h3 x) = size (deref h x)).
  { intros x. subst h3. unfold mark_free. by autorewrite with heap_rw. }
  assert (Hfa3 : is_free (deref h3 a) = true)
    by (rewrite Hf3; by rewrite decide_True).
  pose proof Hal as Hal'.
  apply list_elem_of_split in Hal' as (la & lb & El).
  rewrite El in Hok3.
  destruct (coalesce_blocks_keeps
              (λ hh ll, ∀ x, x ∈ l → is_free (deref hh x) = false →
                             x ∈ ll ∧ size (deref hh x) = size (deref h3 x))
              h3 la a lb) as (l'' & Hok'' & Hkept & _); try done.
  { intros hh ll1 aa bb ll3 Hokm Hfaa Hfbb IH x Hx Hfx.
    rewrite is_free_merge_next in Hfx. destruct (IH x Hx Hfx) as [Hin Hsz].
    assert (x ≠ aa) by (intros ->; congruence).
    assert (x ≠ bb) by (intros ->; congruence).
    split.
    - revert Hin. rewrite !elem_of_app, !elem_of_cons.
      intros [?|[?|[?|?]]]; auto; done.
    - by rewrite size_merge_next_other. }
  { intros x Hx _. by rewrite <- El. }
  rewrite <- Ef in Hok'', Hkept.
  assert (Hfb' : is_free (deref (free h p) b) = false).
  { rewrite Ef. rewrite (proj1 (coalesce_blocks_same_tags _ _ _)).
    rewrite Hf3. by rewrite decide_False. }
  destruct (Hkept b Hbl Hfb') as [Hin Hsz]. split.
  - exists l''. split; [by apply heap_ok_block_list|done].
  - by rewrite Hsz, Hs3.
Qed.

(** X15.  [realloc] of a live handle.  A request that the block already
    holds returns the same handle and changes nothing (the block is never
    shrunk).  A larger request that cannot be served returns [NULL] and
    changes nothing.  A larger request of at most [MAX_REQUEST] bytes that
    is served returns a new live handle whose block holds the request and
    starts with the old payload, and the old handle is no longer live. *)
Theorem realloc_moves_contents (h : heap) (ptr sz : Z) (h' : heap) (q : Z) :
  reachable h → live h ptr → realloc h ptr sz = Some (h', q) →
  let n := size (deref h (ptr - sizeof_memory_block)) in
  (sz = 0 → q = 0 ∧ h' = free h ptr) ∧
  (sz ≠ 0 → sz ≤ n → q = ptr ∧ h' = h) ∧
  (n < sz → q = 0 → h' = h) ∧
  (n < sz → sz ≤ MAX_REQUEST → q ≠ 0 →
   q ≠ ptr ∧ live h' q ∧ ¬ live h' ptr ∧
   sz ≤ size (deref h' (q - sizeof_memory_block)) ∧
   ∀ i, 0 ≤ i < n → load (bytes h') (q + i) = load (bytes h) (ptr + i)).
Proof.
  intros Hreach Hlive E n.
  pose proof (reachable_heap_sound _ Hreach) as Hs.
  pose proof Hs as (l & Hok & _).
  destruct (live_block _ _ _ Hok Hlive) as (Ha & Hf & Hw & Hp).
  fold n. unfold realloc in E.
  apply Z.eqb_neq in Hp as Hp'. rewrite Hp' in E.
  destruct (sz =? 0) eqn:Esz.
  { injection E as <- <-. apply Z.eqb_eq in Esz.
    pose proof (heap_ok_size _ _ _ Hok Ha). fold n in H.
    repeat split; intros; try done; lia. }
  apply Z.eqb_neq in Esz.
  rewrite Hw, (heap_ok_validate _ _ _ Hok Ha) in E. cbn [negb] in E.
  fold n in E. destruct (sz <=? n) eqn:Efit.
  { injection E as <- <-. repeat split; intros; try done; lia. }
  apply Z.leb_gt in Efit.
  destruct (malloc h sz) as [[h1 p1]|] eqn:Em; [|done].
  cbn [mbind option_bind] in E.
  split; [done|]. split; [intros; lia|].
  destruct (p1 =? 0) eqn:Ep1.
  { injection E as <- <-. split; [|done]. intros _ _.
    apply Z.eqb_eq in Ep1. subst p1. by eapply malloc_null_unchanged. }
  apply Z.eqb_neq in Ep1.
  destruct (memcpy h1 p1 ptr _) as [h2|] eqn:Ecp; [|done].
  cbn [mbind option_bind] in E. injection E as <- <-.
  split; [done|]. intros _ Hmax _.
  destruct (malloc_granted h sz h1 p1 Hs Em Ep1)
    as (Hlq & _ & Hge & _ & _ & _ & Hbytes & Hkeep).
  specialize (Hge Hmax).
  destruct (Hkeep ptr Hlive) as (Hlp1 & Hne & Hsize). fold n in Hsize.
  pose proof (heap_sound_malloc _ _ _ _ Hs Em) as Hs1.
  pose proof Hs1 as (l1 & Hok1 & _).
  unfold memcpy in Ecp. destruct (_ || _); [done|].
  injection Ecp as <-. rewrite Hsize.
  set (m := memcpy_loop (Z.to_nat n) (bytes h1) p1 ptr).
  destruct (heap_sound_stored h1 l1 m p1 p1 n Hs1 Hok1 Hlq)
    as (_ & Hok2 & Hl2 & Hlive2); [lia|lia|].
  destruct (live_block _ _ _ Hok1 Hlp1) as (Hal1 & Hfa1 & _ & _).
  destruct (live_block _ _ _ Hok1 Hlq) as (Hql1 & Hfq1 & _ & _).
  destruct (free_keeps_live (stored h1 m p1 n) l1 ptr p1 Hok2)
    as [Hlq' Hsz']; [by apply Hlive2|by apply Hlive2|done|].
  split; [done|]. split; [done|]. split; [|split].
  - eapply free_live_not_live; [exact Hok2|by apply Hlive2].
  - rewrite Hsz', Hl2 by done. lia.
  - intros i Hi. rewrite bytes_free. cbn [bytes stored]. subst m.
    rewrite memcpy_loop_load, Hbytes.
    pose proof (heap_ok_size _ _ _ Hok Ha) as Hn. fold n in Hn.
    rewrite Z2Nat.id by lia. rewrite decide_True by lia.
    replace (p1 + i - p1) with i by lia.
    destruct (heap_ok_ordered h1 l1 _ _ Hok1 Hal1 Hql1) as [Hord|Hord];
      [lia| |].
    + rewrite Hsize in Hord. unfold sizeof_memory_block in *.
      rewrite decide_False by lia. rewrite Z.mod_small by lia. done.
    + pose proof (heap_ok_size _ _ _ Hok1 Hql1).
      unfold sizeof_memory_block in *. rewrite decide_True by lia. done.
Qed.

Lemma realloc_moves_contents_witness :
  ∃ h' q, realloc heap_two_live (HEAP_START + 32) 200 = Some (h', q) ∧
          live h' q ∧
          load (bytes h') q = load (bytes heap_two_live) (HEAP_START + 32).
Proof.
  destruct (realloc heap_two_live (HEAP_START + 32) 200) as [[h' q]|] eqn:E;
    [|by vm_compute in E].
  exists h', q. split; [reflexivity|].
  assert (Hq : q = HEAP_START + 304).
  { assert (snd <$> realloc heap_two_live (HEAP_START + 32) 200
            = Some (HEAP_START + 304)) as Hc by (vm_compute; reflexivity).
    rewrite E in Hc. by injection Hc. }
  destruct (realloc_moves_contents heap_two_live (HEAP_START + 32) 200 h' q
              heap_two_live_reachable (proj1 heap_two_live_handles) E)
    as (_ & _ & _ & H).
  destruct H as (_ & Hlive & _ & _ & Hload);
    [vm_compute; reflexivity|unfold MAX_REQUEST; lia|by rewrite Hq|].
  split; [exact Hlive|].
  specialize (Hload 0). rewrite !Z.add_0_r in Hload. apply Hload.
  split; [lia|]. vm_compute. reflexivity.
Defined.

Lemma memory_stats_ext (s s' : memory_stats_t) :
  total_memory s = total_memory s' → used_memory s = used_memory s' →
  free_memory s = free_memory s' →
  allocated_blocks s = allocated_blocks s' →
  free_blocks s = free_blocks s' →
  corrupted_blocks s = corrupted_blocks s' → s = s'.
Proof. destruct s, s'. cbn. congruence. Qed.

Lemma no_adjacent_free_around h l1 r l2 :
  no_adjacent_free h (l1 ++ r :: l2) → is_free (deref h r) = true →
  (∀ b l3, l2 = b :: l3 → is_free (deref h b) = false) ∧
  (∀ l0 p, l1 = l0 ++ [p] → is_free (deref h p) = false).
Proof.
  intros [H1 H2]%no_adjacent_free_app Hfr. split.
  - intros b l3 ->. apply no_adjacent_free_cons in H2 as [H2 _].
    apply not_true_iff_false. intros Hb. by specialize (H2 Hfr Hb).
  - intros l0 p ->. rewrite <- app_assoc in H1. cbn [app] in H1.
    apply no_adjacent_free_app in H1 as [_ H1].
    apply no_adjacent_free_cons in H1 as [H1 _].
    apply not_true_iff_false. intros Hb. by specialize (H1 Hb Hfr).
Qed.

Lemma malloc_then_free h sz h1 p :
  reachable h → malloc h sz = Some (h1, p) → p ≠ 0 →
  ∃ l, block_list h = Some l ∧ block_list (free h1 p) = Some l ∧
    memory_stats (free h1 p) = memory_stats h ∧
    bytes (free h1 p) = bytes h ∧
    ∀ x, x ∈ l →
         size (deref (free h1 p) x) = size (deref h x) ∧
         is_free (deref (free h1 p) x) = is_free (deref h x).
Proof.
  intros Hreach E Hp.
  pose proof (reachable_heap_sound _ Hreach) as Hs.
  pose proof Hs as (l & Hok & Hnaf & Hst & _).
  pose proof (heap_sound_malloc _ _ _ _ Hs E) as Hs1.
  destruct (malloc_granted h sz h1 p Hs E Hp) as (Hlive1 & _).
  pose proof (heap_sound_free _ p Hs1 (or_intror Hlive1))
    as (lf & Hokf & _ & Hstf & _).
  pose proof (ALIGN_UP_range sz) as HA.
  destruct (malloc_cases h l sz h1 p Hok E)
    as [(-> & _)
       |(l1 & r & l2 & hs & ls & -> & Hpr & Hsz & [Hfr Hfit] & Hfirst
         & Hcase & Hoks & Eh1)]; [done|].
  assert (Hrl : r ∈ l1 ++ r :: l2) by (apply elem_of_app; right; left).
  pose proof (heap_ok_NoDup _ _ Hok) as [Hr1 Hr2]%NoDup_middle.
  destruct (no_adjacent_free_around _ _ _ _ Hnaf Hfr) as [Hnext Hprev].
  assert (Hrls : r ∈ ls).
  { destruct Hcase as [(_ & _ & ->)|(_ & _ & ->)]; [|done].
    apply elem_of_app. right. left. }
  assert (Hok1 : heap_ok h1 ls).
  { rewrite Eh1. apply heap_ok_with_stats.
    apply heap_ok_retag; [done|done|by right]. }
  pose proof (free_live_unfold h1 ls _ Hok1 Hlive1) as Ef. cbv zeta in Ef.
  replace (p - sizeof_memory_block) with r in Ef by lia.
  set (h3 := with_stats _ _) in Ef.
  assert (Hok3 : heap_ok h3 ls).
  { subst h3. apply heap_ok_with_stats.
    apply heap_ok_retag; [done|done|by left]. }
  assert (Hsize3 : ∀ x, size (deref h3 x) = size (deref hs x)).
  { intros x. subst h3. rewrite Eh1. unfold mark_free, mark_allocated.
    by autorewrite with heap_rw. }
  assert (Hfree3 : ∀ x, is_free (deref h3 x)
            = if decide (r = x) then true else is_free (deref hs x)).
  { intros x. subst h3. rewrite Eh1. unfold mark_free, mark_allocated.
    autorewrite with heap_rw. by case_decide. }
  assert (Hf3 : is_free (deref h3 r) = true).
  { rewrite Hfree3. by rewrite decide_True. }
  assert (Hfinal : heap_ok (free h1 p) (l1 ++ r :: l2) ∧
            ∀ x, x ∈ l1 ++ r :: l2 →
                 size (deref (free h1 p) x) = size (deref h x) ∧
                 is_free (deref (free h1 p) x) = is_free (deref h x)).
  { rewrite Ef.
    destruct Hcase as [(Hbig & -> & ->)|(Hsmall & -> & ->)].
    - (* the block was split: the remainder is merged back *)
      destruct (split_block_ok h l1 r l2 (ALIGN_UP sz 8) Hok)
        as (_ & Hsr & Hsn & Hfn & Hfx & _);
        [lia|unfold sizeof_memory_block; lia|].
      unfold sizeof_memory_block in Hsn, Hfn, Hfx.
      pose proof (split_block_fresh _ _ _ _ _ Hoks) as Hfresh.
      set (nb := r + 32 + ALIGN_UP sz 8) in *.
      assert (Hw : wrap64 (r + sizeof_memory_block + ALIGN_UP sz 8) = nb).
      { destruct (heap_ok_limits _ _ Hoks) as [He Hlim].
        destruct (Hlim nb) as [? ?];
          [apply elem_of_app; right; right; left|].
        apply wrap64_small.
        unfold HEAP_START, HEAP_SIZE, sizeof_memory_block in *. lia. }
      destruct (coalesce_blocks_cases h3 l1 r (nb :: l2) Hok3 Hf3)
        as (h4 & l2' & Hfirst' & Hok4 & Hsecond).
      destruct Hfirst' as [(_ & _ & [?|Hc])|(b & l3 & [= <- <-] & _ & -> & ->)];
        [done| |].
      { cbn [hd] in Hc. rewrite Hfree3 in Hc.
        rewrite decide_False in Hc by (apply Hfresh, Hrl).
        congruence. }
      destruct Hsecond as [[-> _]|(l0 & p0 & -> & Hc & _)].
      2:{ rewrite Hfree3 in Hc.
          rewrite decide_False in Hc
            by (intros <-; apply Hr1, elem_of_app; right; left).
          rewrite Hfx in Hc.
          - by rewrite (Hprev l0 p0) in Hc.
          - apply Hfresh. apply elem_of_app. left. apply elem_of_app.
            right. left. }
      split; [done|]. intros x Hx.
      destruct (merge_next_ok h3 l1 r nb l2 Hok3) as [_ Hmsz].
      rewrite is_free_merge_next, Hfree3.
      destruct (decide (r = x)) as [<-|Hxr].
      + rewrite Hmsz, !Hsize3, Hsr, Hsn.
        unfold sizeof_memory_block. split; [lia|done].
      + rewrite size_merge_next_other by done. rewrite Hsize3.
        pose proof (Hfresh x Hx) as Hxn. split.
        * apply size_split_block_other; [done|]. by rewrite Hw.
        * by apply Hfx.
    - (* the block was taken whole: nothing is merged *)
      destruct (coalesce_blocks_cases h3 l1 r l2 Hok3 Hf3)
        as (h4 & l2' & Hfirst' & Hok4 & Hsecond).
      destruct Hfirst' as [(-> & -> & _)|(b & l3 & -> & Hc & _)].
      2:{ rewrite Hfree3 in Hc.
          rewrite decide_False in Hc by (intros <-; apply Hr2; left).
          by rewrite (Hnext b l3) in Hc. }
      destruct Hsecond as [[-> _]|(l0 & p0 & -> & Hc & _)].
      2:{ rewrite Hfree3 in Hc.
          rewrite decide_False in Hc
            by (intros <-; apply Hr1, elem_of_app; right; left).
          by rewrite (Hprev l0 p0) in Hc. }
      split; [done|]. intros x Hx. rewrite Hsize3, Hfree3.
      split; [done|]. case_decide; [by subst|done]. }
  destruct Hfinal as [Hokf' Hsame].
  exists (l1 ++ r :: l2). split; [by apply heap_ok_block_list|].
  split; [by apply heap_ok_block_list|]. split; [|split; [|done]].
  - rewrite (heap_ok_unique _ _ _ Hokf Hokf') in Hstf.
    destruct Hst as (Ht & Hu & Hf & Hca & Hcf & Hc).
    destruct Hstf as (Ht' & Hu' & Hf' & Hca' & Hcf' & Hc').
    sums. rewrite !(sum_over_ext _ h (free h1 p)) in * by done.
    apply memory_stats_ext; congruence.
  - rewrite bytes_free. by eapply bytes_malloc.
Qed.

(** X16.  [free] undoes [malloc]: in a state a well-behaved client can
    reach, freeing the handle that [malloc] has just returned restores the
    block list, the size and the free flag of every block of it and the
    statistics, and the contents of the live blocks are as before. *)
Theorem free_undoes_malloc (h : heap) (sz : Z) (h1 : heap) (p : Z) :
  reachable h → malloc h sz = Some (h1, p) → p ≠ 0 →
  ∃ l, block_list h = Some l ∧ block_list (free h1 p) = Some l ∧
    memory_stats (free h1 p) = memory_stats h ∧
    (∀ x, x ∈ l →
          size (deref (free h1 p) x) = size (deref h x) ∧
          is_free (deref (free h1 p) x) = is_free (deref h x)) ∧
    ∀ q a, live h q → q ≤ a < q + size (deref h (q - sizeof_memory_block)) →
           load (bytes (free h1 p)) a = load (bytes h) a.
Proof.
  intros Hr E Hp.
  destruct (malloc_then_free h sz h1 p Hr E Hp) as (l & H1 & H2 & H3 & Hb & H4).
  exists l. do 4 (split; [assumption|]). intros q a _ _. by rewrite Hb.
Qed.

Lemma free_undoes_malloc_witness :
  ∃ h1 p, malloc heap_one_live 100 = Some (h1, p) ∧
          block_list (free h1 p) = block_list heap_one_live ∧
          memory_stats (free h1 p) = memory_stats heap_one_live.
Proof.
  destruct (reachable_malloc_returns heap_one_live 100
              heap_one_live_reachable) as (h1 & p & E).
  exists h1, p. split; [exact E|].
  assert (Hp : p ≠ 0).
  { assert (snd <$> malloc heap_one_live 100 = Some (HEAP_START + 168))
      as Hc by (vm_compute; reflexivity).
    rewrite E in Hc. injection Hc as ->. done. }
  destruct (free_undoes_malloc heap_one_live 100 h1 p
              heap_one_live_reachable E Hp) as (l & H1 & H2 & H3 & _).
  split; [by rewrite H1, H2|exact H3].
Defined.

(** X27.  [free] of a live handle leaves the other live handles live,
    with their blocks unchanged in size and in contents; the handle freed
    is no longer live. *)
Theorem free_keeps_other_blocks (h : heap) (p q : Z) :
  reachable h → live h p → live h q → q ≠ p →
  live (free h p) q ∧
  size (deref (free h p) (q - sizeof_memory_block))
  = size (deref h (q - sizeof_memory_block)) ∧
  (∀ a, q ≤ a < q + size (deref h (q - sizeof_memory_block)) →
        load (bytes (free h p)) a = load (bytes h) a) ∧
  ¬ live (free h p) p.
Proof.
  intros (l & Hok & _)%reachable_heap_sound Hp Hq Hqp.
  destruct (free_keeps_live h l p q Hok Hp Hq Hqp) as [H1 H2].
  split; [done|]. split; [done|].
  split; [intros a _; by rewrite bytes_free|by eapply free_live_not_live].
Qed.

Lemma free_keeps_other_blocks_witness :
  live (free heap_two_live (HEAP_START + 32)) (HEAP_START + 168).
Proof.
  destruct heap_two_live_handles as [H1 H2].
  destruct (free_keeps_other_blocks heap_two_live (HEAP_START + 32)
              (HEAP_START + 168) heap_two_live_reachable H1 H2 ltac:(done))
    as [H _].
  exact H.
Defined.

(** ** Requests that wrap *)

(** C2, C3 (why the requests of [realloc] are bounded): every handle is
    live, yet [realloc(p, SIZE_MAX)] breaks the block list.  The request
    is rounded to 0; [malloc] splits the free block into an empty block
    and the rest and returns the empty block, whose payload address is the
    header of the rest; the copy of the old payload then overwrites that
    header.  The list ends there: its footprint is 200 bytes, the
    statistics count two free blocks where the list has one, and the rest
    of the arena is lost. *)
Lemma realloc_wrapped_size_corrupts :
  realloc heap_one_live (HEAP_START + 32) (2 ^ 64 - 1)
  = Some (heap_wrapped, HEAP_START + 168) ∧
  reachable heap_one_live ∧ live heap_one_live (HEAP_START + 32) ∧
  block_list heap_wrapped
  = Some [HEAP_START; HEAP_START + 136; HEAP_START + 168] ∧
  footprint heap_wrapped [HEAP_START; HEAP_START + 136; HEAP_START + 168]
  = 200 ∧
  ¬ covers_arena heap_wrapped ∧
  validate_block heap_wrapped (HEAP_START + 168) = false ∧
  allocated_blocks (memory_stats heap_wrapped) = 1 ∧
  free_blocks (memory_stats heap_wrapped) = 2 ∧
  is_free (deref heap_wrapped HEAP_START) = true ∧
  is_free (deref heap_wrapped (HEAP_START + 136)) = false ∧
  is_free (deref heap_wrapped (HEAP_START + 168)) = false ∧
  snd <$> malloc heap_wrapped 200 = Some 0.
Proof.
  assert (E : block_list heap_wrapped
              = Some [HEAP_START; HEAP_START + 136; HEAP_START + 168])
    by (vm_compute; reflexivity).
  split; [vm_compute; reflexivity|].
  split; [exact heap_one_live_reachable|]. split.
  { exists [HEAP_START; HEAP_START + 136].
    split; [vm_compute; reflexivity|].
    split; [left|vm_compute; reflexivity]. }
  split; [exact E|]. split; [vm_compute; reflexivity|]. split.
  { intros (l & Hl & Hf). rewrite E in Hl. injection Hl as <-.
    vm_compute in Hf. discriminate. }
  do 6 (split; [vm_compute; reflexivity|]). vm_compute. reflexivity.
Qed.

(** C9 (amended): on a state a well-behaved client can reach,
    [calloc(num, size)] is [malloc] of the product reduced modulo [2^64]
    and returns that call's [NULL].  When the reduced product [t] is at
    most [MAX_REQUEST], the block granted holds [t] bytes and [calloc]
    zeroes them: it changes no other byte, no header of the block list and
    no statistic.  A larger [t] is rounded to 0 by [malloc], which grants
    at most 40 bytes: fewer than [calloc] goes on to zero. *)
Theorem calloc_is_malloc_then_zero (h : heap) (num sz : Z) :
  reachable h →
  let t := wrap64 (num * sz) in
  ∃ h1 ptr, malloc h t = Some (h1, ptr) ∧
    (ptr = 0 → calloc h num sz = Some (h1, 0)) ∧
    (ptr ≠ 0 → t ≤ MAX_REQUEST →
     ∃ h2 l, calloc h num sz = Some (h2, ptr) ∧
       memset h1 ptr 0 t = Some h2 ∧
       live h2 ptr ∧
       t ≤ size (deref h1 (ptr - sizeof_memory_block)) ∧
       (∀ a, ptr ≤ a < ptr + t → bytes h2 !! a = Some 0) ∧
       (∀ a, ¬ (ptr ≤ a < ptr + t) → bytes h2 !! a = bytes h1 !! a) ∧
       block_list h1 = Some l ∧ block_list h2 = Some l ∧
       (∀ x, x ∈ l → deref h2 x = deref h1 x) ∧
       memory_stats h2 = memory_stats h1) ∧
    (ptr ≠ 0 → MAX_REQUEST < t →
     size (deref h1 (ptr - sizeof_memory_block)) ≤ 40 ∧ 40 < t).
Proof.
  intros Hreach t.
  pose proof (reachable_heap_sound _ Hreach) as Hs.
  destruct (reachable_malloc_returns h t Hreach) as (h1 & ptr & E).
  exists h1, ptr. split; [exact E|].
  assert (Ht : 0 ≤ t < 2 ^ 64)
    by (subst t; unfold wrap64; apply Z.mod_pos_bound; lia).
  unfold calloc. fold t. rewrite E. cbn [mbind option_bind].
  split; [by intros ->|]. split.
  - intros Hp Hmax. apply Z.eqb_neq in Hp as Hp'. rewrite Hp'. cbn [negb].
    destruct (malloc_granted h t h1 ptr Hs E Hp)
      as (Hlive & _ & Hge & _ & Hlo & Hhi & _).
    specialize (Hge Hmax).
    pose proof (heap_sound_malloc _ _ _ _ Hs E) as Hs1.
    pose proof Hs1 as (l1 & Hok1 & _).
    unfold memset.
    replace (2 ^ 64 <? ptr + t) with false
      by (unfold HEAP_START, HEAP_SIZE in *; lia).
    cbn [mbind option_bind].
    set (m := memset_loop (Z.to_nat t) (bytes h1) ptr (0 mod 256)).
    destruct (heap_sound_stored h1 l1 m ptr ptr t Hs1 Hok1 Hlive)
      as (_ & Hok2 & Hl2 & Hlive2); [lia|lia|].
    exists (stored h1 m ptr t), l1. split; [done|]. split; [done|].
    split; [by apply Hlive2|]. split; [done|].
    split; [|split].
    + intros a Ha. cbn [bytes stored]. subst m.
      rewrite memset_loop_lookup. rewrite decide_True by lia. done.
    + intros a Ha. cbn [bytes stored]. subst m.
      rewrite memset_loop_lookup. rewrite decide_False by lia. done.
    + split; [by apply heap_ok_block_list|].
      split; [by apply heap_ok_block_list|]. split; [done|done].
  - intros Hp Hbig. unfold MAX_REQUEST in Hbig.
    destruct (malloc_rounds_to_zero h t h1 ptr Hreach ltac:(lia) E)
      as (_ & l & _ & _ & H).
    destruct (H Hp) as (_ & ? & _). split; [done|lia].
Qed.

Lemma calloc_is_malloc_then_zero_witness :
  ∃ h2, calloc heap_one_live 4 25 = Some (h2, HEAP_START + 168) ∧
        live h2 (HEAP_START + 168) ∧
        bytes h2 !! (HEAP_START + 168) = Some 0.
Proof.
  destruct (calloc_is_malloc_then_zero heap_one_live 4 25
              heap_one_live_reachable) as (h1 & ptr & E & _ & H & _).
  assert (Hp : ptr = HEAP_START + 168).
  { assert (snd <$> malloc heap_one_live (wrap64 (4 * 25))
            = Some (HEAP_START + 168)) as Hc by (vm_compute; reflexivity).
    rewrite E in Hc. by injection Hc. }
  subst ptr.
  destruct H as (h2 & l & Ec & _ & Hlive & _ & Hz & _);
    [done|by vm_compute|].
  exists h2. split; [exact Ec|]. split; [exact Hlive|].
  apply Hz. change (wrap64 (4 * 25)) with 100. lia.
Defined.

End MemoryFacts.

(** * Properties of the process table and the scheduler *)

Module ProcessFacts.
Import Process ProcessSpec.

(** ** The process table *)

(** Conjunctions of closed equations, each settled by evaluation. *)
Ltac by_computation :=
  repeat match goal with |- _ ∧ _ => split end; vm_compute; reflexivity.

Lemma length_upd i f k : length (processes (upd i f k)) = length (processes k).
Proof. unfold upd; cbn. by rewrite length_insert. Qed.

Lemma proc_upd i f k j :
  proc (upd i f k) j =
  if decide (i = j ∧ (i < length (processes k))%nat) then f (proc k i)
  else proc k j.
Proof.
  unfold proc, upd; cbn [processes with_processes].
  destruct (decide (i = j)) as [->|Hne].
  - destruct (decide (j < length (processes k))%nat) as [Hlt|Hge].
    + rewrite decide_True by done. by rewrite list_lookup_insert_eq.
    + rewrite decide_False by tauto. rewrite list_insert_ge by lia. done.
  - rewrite decide_False by tauto. by rewrite list_lookup_insert_ne.
Qed.

Lemma proc_upd_eq i f k :
  (i < length (processes k))%nat → proc (upd i f k) i = f (proc k i).
Proof. intros. rewrite proc_upd. by rewrite decide_True. Qed.

Lemma proc_upd_ne i f k j : i ≠ j → proc (upd i f k) j = proc k j.
Proof. intros. rewrite proc_upd. rewrite decide_False; tauto. Qed.

(** A field that [f] leaves alone reads the same after [upd]. *)
Lemma field_upd {A} (g : process → A) i f k j :
  (∀ p, g (f p) = g p) → g (proc (upd i f k) j) = g (proc k j).
Proof.
  intros Hf. rewrite proc_upd. case_decide as H; [|done].
  destruct H as [-> _]. apply Hf.
Qed.

Lemma find_pid_from_Some l i p j :
  find_pid_from l i p = Some j →
  (i ≤ j < i + length l)%nat ∧
  pid (default zero_process (l !! (j - i)%nat)) = p.
Proof.
  revert i. induction l as [|x l IH]; intros i; cbn; [done|].
  destruct (pid x =? p) eqn:E.
  - intros [= <-]. rewrite Nat.sub_diag. cbn. split; [lia|]. by apply Z.eqb_eq.
  - intros H. apply IH in H as [H1 H2]. split; [lia|].
    replace (j - i)%nat with (S (j - S i)) by lia. done.
Qed.

Lemma find_process_by_pid_Some k p i :
  find_process_by_pid k p = Some i →
  (i < length (processes k))%nat ∧ pid (proc k i) = p.
Proof.
  intros H. apply find_pid_from_Some in H as [H1 H2].
  rewrite Nat.sub_0_r in H2. split; [lia|done].
Qed.

(** ** Segments of the Ready Queue *)

Lemma lseg_app k p q1 q2 e :
  lseg k p (q1 ++ q2) e ↔ ∃ m, lseg k p q1 m ∧ lseg k m q2 e.
Proof.
  revert p. induction q1 as [|i q1 IH]; intros p; cbn.
  - split; [eauto|]. by intros (m & -> & H).
  - rewrite IH. split.
    + intros (-> & m & H1 & H2). eauto.
    + intros (m & (-> & H1) & H2). eauto.
Qed.

(** A segment only depends on the [next] fields of its own slots. *)
Lemma lseg_frame k k' p q e :
  (∀ i, i ∈ q → next (proc k' i) = next (proc k i)) →
  lseg k p q e → lseg k' p q e.
Proof.
  revert p. induction q as [|i q IH]; intros p Hq; cbn; [done|].
  intros [-> H]. split; [done|]. rewrite Hq by left.
  apply IH; [|done]. intros j Hj. apply Hq. by right.
Qed.

Lemma lseg_det k p q1 q2 :
  lseg k p q1 None → lseg k p q2 None → q1 = q2.
Proof.
  revert p q2. induction q1 as [|i q1 IH]; intros p [|j q2]; cbn.
  - done.
  - by intros -> [? _].
  - by intros [-> _] ?.
  - intros [-> H1] [[= <-] H2]. f_equal. eauto.
Qed.

Lemma lseg_NoDup k p q : lseg k p q None → NoDup q.
Proof.
  revert p. induction q as [|i q IH]; intros p; cbn; [constructor|].
  intros [-> H]. constructor; [|eauto].
  intros Hin. apply list_elem_of_split in Hin as (a & b & ->).
  pose proof H as H'. apply lseg_app in H' as (m & _ & Hm).
  cbn in Hm. destruct Hm as [-> Hb].
  pose proof (lseg_det _ _ _ _ H Hb) as E.
  apply (f_equal length) in E. rewrite length_app in E. cbn in E. lia.
Qed.

Lemma queue_from_lseg fuel k p q :
  queue_from fuel k p = Some q → lseg k p q None ∧ (length q ≤ fuel)%nat.
Proof.
  revert p q. induction fuel as [|fuel IH]; intros [i|] q; cbn.
  - done.
  - intros [= <-]. split; [done|cbn; lia].
  - destruct (queue_from fuel k (next (proc k i))) as [q'|] eqn:E; [|done].
    cbn. intros [= <-]. apply IH in E as [H1 H2]. cbn. split; [done|lia].
  - intros [= <-]. split; [done|cbn; lia].
Qed.

Lemma lseg_queue_from fuel k p q :
  lseg k p q None → (length q ≤ fuel)%nat → queue_from fuel k p = Some q.
Proof.
  revert p q. induction fuel as [|fuel IH]; intros p [|i q]; cbn.
  - by intros ->.
  - lia.
  - by intros ->.
  - intros [-> H] Hl. rewrite (IH _ q) by (done || lia). done.
Qed.

(** At most as many distinct slots as the table has. *)
Lemma NoDup_below_length (q : list nat) n :
  NoDup q → Forall (λ i, (i < n)%nat) q → (length q ≤ n)%nat.
Proof.
  intros Hnd Hq.
  assert (q ⊆+ seq 0 n) as Hsub.
  { apply NoDup_submseteq; [done|]. intros x Hx.
    rewrite Forall_forall in Hq. apply elem_of_seq. specialize (Hq x Hx). lia. }
  apply submseteq_length in Hsub. by rewrite length_seq in Hsub.
Qed.

Lemma queue_is_lseg k q :
  queue_is k q →
  lseg k (ready_queue k) q None ∧ NoDup q ∧ (length q ≤ MAX_PROCESSES)%nat.
Proof.
  intros (_ & H & _). apply queue_from_lseg in H as [H1 H2].
  split; [done|]. split; [by eapply lseg_NoDup|done].
Qed.

Lemma lseg_queue_is k q :
  length (processes k) = MAX_PROCESSES →
  lseg k (ready_queue k) q None → in_table k q → queue_is k q.
Proof.
  intros Hlen Hseg Hin. split; [done|]. split; [|done].
  apply lseg_queue_from; [done|].
  apply NoDup_below_length; [by eapply lseg_NoDup|].
  unfold in_table in Hin. by rewrite Hlen in Hin.
Qed.

(** ** [add_to_ready_queue] *)

Lemma same_but_links_refl k : same_but_links k k.
Proof. by repeat split. Qed.

Lemma same_but_links_trans k1 k2 k3 :
  same_but_links k1 k2 → same_but_links k2 k3 → same_but_links k1 k3.
Proof.
  intros (?&?&?&?&?&?&?&?&?&Ha) (?&?&?&?&?&?&?&?&?&Hb).
  repeat split; try congruence.
Qed.

Lemma same_but_links_upd i v k : same_but_links k (upd i (set_next v) k).
Proof.
  repeat split; try reflexivity.
  - apply length_upd.
  - intros j. rewrite proc_upd. by case_decide as H; [destruct H as [-> _]|].
Qed.

Lemma same_but_links_ready_queue v k : same_but_links k (with_ready_queue v k).
Proof. by repeat split. Qed.

Lemma same_but_links_field {A} (g : process → A) k k' j :
  (∀ v p, g (set_next v p) = g p) →
  same_but_links k k' → g (proc k' j) = g (proc k j).
Proof.
  intros Hg (_&_&_&_&_&_&_&_&_&H).
  rewrite <- (Hg None (proc k' j)), <- (Hg None (proc k j)). by rewrite H.
Qed.

Lemma insert_walk_spec k i fuel c rest :
  lseg k (next (proc k c)) rest None → (length rest ≤ fuel)%nat →
  ∃ a x b,
    c :: rest = a ++ x :: b ∧
    insert_walk fuel k c (priority (proc k i)) = Some x ∧
    c :: insert_by_priority k i rest = a ++ x :: i :: b.
Proof.
  revert c rest. induction fuel as [|fuel IH]; intros c [|n rest] Hseg Hlen;
    try (cbn in Hlen; lia).
  - cbn in Hseg. exists [], c, []. cbn. by rewrite Hseg.
  - cbn in Hseg. exists [], c, []. cbn. by rewrite Hseg.
  - destruct Hseg as [Hn Hseg]. cbn [insert_walk insert_by_priority].
    rewrite Hn.
    destruct (priority (proc k n) <=? priority (proc k i)) eqn:E.
    + replace (priority (proc k i) <? priority (proc k n)) with false by lia.
      destruct (IH n rest Hseg) as (a & x & b & E1 & E2 & E3);
        [cbn in Hlen; lia|].
      exists (c :: a), x, b. cbn. rewrite E1, E2, E3. done.
    + replace (priority (proc k i) <? priority (proc k n)) with true by lia.
      by exists [], c, (n :: rest).
Qed.

Lemma in_table_upd i f k q : in_table (upd i f k) q ↔ in_table k q.
Proof. unfold in_table. by rewrite length_upd. Qed.

Lemma lseg_cons k i q e :
  lseg k (Some i) (i :: q) e ↔ lseg k (next (proc k i)) q e.
Proof. cbn. tauto. Qed.

Lemma lseg_cons' k p i q e :
  lseg k p (i :: q) e → p = Some i ∧ lseg k (next (proc k i)) q e.
Proof. done. Qed.

Lemma lseg_with_ready_queue v k p q e :
  lseg (with_ready_queue v k) p q e ↔ lseg k p q e.
Proof. split; apply lseg_frame; done. Qed.

Lemma lseg_upd i f k p q e : i ∉ q → lseg k p q e → lseg (upd i f k) p q e.
Proof.
  intros Hi. apply lseg_frame. intros j Hj. rewrite proc_upd_ne; [done|].
  by intros ->.
Qed.

Lemma add_to_ready_queue_spec k i q :
  queue_is k q → (i < length (processes k))%nat → i ∉ q →
  state (proc k i) = PROCESS_STATE_READY →
  ∃ k', add_to_ready_queue k (Some i) = Some k' ∧
        queue_is k' (insert_by_priority k i q) ∧ same_but_links k k'.
Proof.
  intros Hq Hi Hni Hst.
  destruct (queue_is_lseg _ _ Hq) as (Hseg & Hnd & Hlen).
  destruct Hq as (Htab & _ & Hin).
  unfold add_to_ready_queue. rewrite decide_True by done.
  destruct q as [|hd rest].
  - cbn in Hseg. rewrite Hseg. eexists; split; [reflexivity|]. split.
    + apply lseg_queue_is.
      * cbn. by rewrite length_insert.
      * cbn [ready_queue with_ready_queue insert_by_priority lseg].
        split; [done|].
        change (proc (with_ready_queue ?v ?k) ?j) with (proc k j).
        by rewrite proc_upd_eq.
      * apply Forall_singleton. cbn. by rewrite length_insert.
    + eapply same_but_links_trans;
        [apply same_but_links_upd|apply same_but_links_ready_queue].
  - pose proof Hseg as Hseg0.
    cbn in Hseg. destruct Hseg as [Hhd Hseg]. rewrite Hhd.
    cbn [insert_by_priority].
    destruct (priority (proc k i) <? priority (proc k hd)) eqn:E.
    + eexists; split; [reflexivity|]. split.
      * apply lseg_queue_is.
        -- cbn. by rewrite length_insert.
        -- cbn [ready_queue with_ready_queue]. rewrite lseg_with_ready_queue.
           rewrite lseg_cons.
           rewrite proc_upd_eq by done. cbn [next set_next].
           rewrite Hhd in Hseg0. by apply lseg_upd.
        -- apply Forall_cons. split; [cbn; by rewrite length_insert|].
           change (in_table (with_ready_queue (Some i)
                     (upd i (set_next (Some hd)) k)) (hd :: rest)).
           unfold in_table. cbn. by rewrite length_insert.
      * eapply same_but_links_trans;
          [apply same_but_links_upd|apply same_but_links_ready_queue].
    + destruct (insert_walk_spec k i MAX_PROCESSES hd rest Hseg)
        as (a & x & b & E1 & E2 & E3); [cbn in Hlen; lia|].
      rewrite E2. cbn [mbind option_bind].
      eexists; split; [reflexivity|].
      assert (Hx : (x < length (processes k))%nat).
      { unfold in_table in Hin. rewrite Forall_forall in Hin. apply Hin.
        rewrite E1. apply elem_of_app. right. left. }
      rewrite E1 in Hnd, Hni, Hseg0, Hin.
      apply NoDup_app in Hnd as (Hnda & Hax & Hndb).
      apply NoDup_cons in Hndb as [Hxb Hndb].
      rewrite elem_of_app, elem_of_cons in Hni.
      assert (Hix : i ≠ x) by tauto.
      assert (Hia : i ∉ a) by tauto.
      assert (Hib : i ∉ b) by tauto.
      assert (Hxa : x ∉ a) by (intros H; eapply Hax; [done|left]).
      rewrite Hhd in Hseg0.
      apply lseg_app in Hseg0 as (m & Hsa & Hsb). cbn in Hsb.
      destruct Hsb as [-> Hsb].
      split.
      * apply lseg_queue_is.
        -- by rewrite !length_upd.
        -- change (ready_queue _) with (ready_queue k).
           rewrite Hhd, E3. apply lseg_app. exists (Some x). split.
           ++ by do 2 (apply lseg_upd; [done|]).
           ++ rewrite lseg_cons.
              rewrite proc_upd_eq by (by rewrite length_upd).
              cbn [next set_next]. rewrite lseg_cons.
              rewrite proc_upd_ne by done. rewrite proc_upd_eq by done.
              cbn [next set_next].
              by do 2 (apply lseg_upd; [done|]).
        -- rewrite E3. unfold in_table in *. rewrite !length_upd.
           rewrite Forall_app, !Forall_cons in *. tauto.
      * eapply same_but_links_trans; apply same_but_links_upd.
Qed.

Lemma add_to_ready_queue_not_ready k i :
  state (proc k i) ≠ PROCESS_STATE_READY →
  add_to_ready_queue k (Some i) = Some k.
Proof. intros. unfold add_to_ready_queue. by rewrite decide_False. Qed.

Lemma elem_of_insert_by_priority k i q j :
  j ∈ insert_by_priority k i q ↔ j = i ∨ j ∈ q.
Proof.
  induction q as [|x q IH]; cbn.
  - rewrite elem_of_cons, elem_of_nil. tauto.
  - destruct (_ <? _); rewrite !elem_of_cons, ?IH; tauto.
Qed.

(** ** [remove_from_ready_queue] *)

Lemma remove_walk_spec k i fuel c rest :
  lseg k (next (proc k c)) rest None → (length rest ≤ fuel)%nat →
  (∃ a x b, c :: rest = a ++ x :: i :: b ∧
              remove_walk fuel k c i = Some x) ∨
  ((i ∉ rest) ∧
   (∃ x, remove_walk fuel k c i = Some x ∧ next (proc k x) = None)).
Proof.
  revert c rest. induction fuel as [|fuel IH]; intros c [|n rest] Hseg Hlen;
    try (cbn in Hlen; lia).
  - cbn in Hseg. right. split; [apply not_elem_of_nil|].
    exists c. cbn. by rewrite Hseg.
  - cbn in Hseg. right. split; [apply not_elem_of_nil|].
    exists c. cbn. by rewrite Hseg.
  - destruct Hseg as [Hn Hseg]. cbn [remove_walk]. rewrite Hn.
    destruct (decide (n = i)) as [->|Hne].
    + left. by exists [], c, rest.
    + destruct (IH n rest Hseg) as [(a & x & b & E1 & E2)|(Hni & x & E1 & E2)];
        [cbn in Hlen; lia| |].
      * left. exists (c :: a), x, b. cbn. by rewrite E1.
      * right. split; [|by exists x].
        rewrite not_elem_of_cons. split; [congruence|done].
Qed.

Lemma filter_ne_id (i : nat) (l : list nat) :
  i ∉ l → filter (λ j, j ≠ i) l = l.
Proof.
  induction l as [|x l IH]; [done|].
  rewrite not_elem_of_cons. intros [Hx Hl].
  rewrite filter_cons_True by congruence. by rewrite IH.
Qed.

Lemma filter_ne_gone (i : nat) (l : list nat) : i ∉ filter (λ j, j ≠ i) l.
Proof. rewrite list_elem_of_filter. tauto. Qed.

Lemma remove_from_ready_queue_spec k i q :
  queue_is k q → (i < length (processes k))%nat →
  ∃ k', remove_from_ready_queue k (Some i) = Some k' ∧
        queue_is k' (filter (λ j, j ≠ i) q) ∧ same_but_links k k'.
Proof.
  intros Hq Hi.
  destruct (queue_is_lseg _ _ Hq) as (Hseg & Hnd & Hlen).
  destruct Hq as (Htab & _ & Hin).
  unfold remove_from_ready_queue.
  destruct q as [|hd rest]; cbn in Hseg.
  { rewrite Hseg. eexists; split; [reflexivity|].
    split; [|apply same_but_links_refl].
    apply lseg_queue_is; [done| |done]. by rewrite Hseg. }
  destruct Hseg as [Hhd Hseg]. rewrite Hhd.
  apply NoDup_cons in Hnd as Hnd'. destruct Hnd' as [Hhd_rest Hnd'].
  destruct (decide (hd = i)) as [->|Hne].
  - cbn [mbind option_bind]. eexists; split; [reflexivity|].
    rewrite filter_cons_False by tauto. rewrite filter_ne_id by done.
    split.
    + apply lseg_queue_is.
      * by rewrite length_upd.
      * cbn [ready_queue upd with_processes with_ready_queue].
        change (lseg (upd i (set_next None)
                       (with_ready_queue (next (proc k i)) k))
                     (next (proc k i)) rest None).
        apply lseg_upd; [done|]. by apply lseg_with_ready_queue.
      * unfold in_table in *. rewrite length_upd. cbn.
        by apply Forall_cons in Hin as [_ ?].
    + eapply same_but_links_trans;
        [apply same_but_links_ready_queue|apply same_but_links_upd].
  - rewrite filter_cons_True by done.
    destruct (remove_walk_spec k i MAX_PROCESSES hd rest Hseg)
      as [(a & x & b & E1 & E2)|(Hni & x & E1 & E2)]; [cbn in Hlen; lia| |].
    + rewrite E2. cbn [mbind option_bind].
      assert (Hsq : lseg k (Some hd) (hd :: rest) None) by done.
      rewrite E1 in Hsq, Hnd, Hin.
      apply lseg_app in Hsq as (m & Hsa & Hsb).
      apply lseg_cons' in Hsb as [-> Hsb].
      apply lseg_cons' in Hsb as [Hxi Hsb].
      rewrite Hxi. eexists; split; [reflexivity|].
      apply NoDup_app in Hnd as (Hnda & Hax & Hndb).
      apply NoDup_cons in Hndb as [Hxb Hndb].
      apply NoDup_cons in Hndb as [Hib Hndb].
      rewrite not_elem_of_cons in Hxb. destruct Hxb as [Hxi' Hxb].
      assert (Hia : i ∉ a).
      { intros H. eapply Hax; [done|]. right; left. }
      assert (Hxa : x ∉ a).
      { intros H. eapply Hax; [done|]. left. }
      assert (Hx : (x < length (processes k))%nat).
      { unfold in_table in Hin. rewrite Forall_forall in Hin. apply Hin.
        apply elem_of_app. right. left. }
      assert (Ef : filter (λ j, j ≠ i) rest = tail (a ++ x :: b)).
      { change rest with (tail (hd :: rest)). rewrite E1.
        destruct a as [|a0 a]; cbn [app tail].
        - rewrite filter_cons_False by tauto. by rewrite filter_ne_id.
        - rewrite filter_app, filter_ne_id
            by (by apply not_elem_of_cons in Hia as [_ ?]).
          rewrite filter_cons_True by done.
          rewrite filter_cons_False by tauto. by rewrite filter_ne_id. }
      assert (Ehd : hd :: tail (a ++ x :: b) = a ++ x :: b).
      { destruct a; cbn in E1 |- *; congruence. }
      rewrite Ef, Ehd. split.
      * apply lseg_queue_is.
        -- by rewrite !length_upd.
        -- change (ready_queue _) with (ready_queue k). rewrite Hhd.
           apply lseg_app. exists (Some x). split.
           ++ by do 2 (apply lseg_upd; [done|]).
           ++ rewrite lseg_cons. rewrite proc_upd_ne by done.
              rewrite proc_upd_eq by done. cbn [next set_next].
              by do 2 (apply lseg_upd; [done|]).
        -- unfold in_table in *. rewrite !length_upd.
           rewrite !Forall_app, !Forall_cons in *. tauto.
      * eapply same_but_links_trans; apply same_but_links_upd.
    + rewrite E1. cbn [mbind option_bind]. rewrite E2.
      eexists; split; [reflexivity|]. rewrite filter_ne_id by done.
      split; [|apply same_but_links_upd].
      apply lseg_queue_is.
      * by rewrite length_upd.
      * change (ready_queue _) with (ready_queue k). rewrite Hhd.
        apply lseg_upd; [|done].
        rewrite not_elem_of_cons. split; [congruence|done].
      * unfold in_table in *. by rewrite length_upd.
Qed.

(** ** [schedule_next_process] *)

Lemma queue_is_upd i f k q :
  (∀ p, next (f p) = next p) → queue_is k q → queue_is (upd i f k) q.
Proof.
  intros Hf Hq. destruct (queue_is_lseg _ _ Hq) as (Hseg & _ & _).
  destruct Hq as (Htab & _ & Hin).
  apply lseg_queue_is.
  - by rewrite length_upd.
  - change (ready_queue _) with (ready_queue k).
    eapply lseg_frame; [|done]. intros j _. by apply (field_upd next).
  - by apply in_table_upd.
Qed.

Lemma save_process_context_field {A} (g : process → A) k c j :
  (∀ v p, g (set_cpu_time v p) = g p) →
  g (proc (save_process_context k (Some c)) j) = g (proc k j).
Proof.
  intros Hg. unfold save_process_context, get_system_time.
  change (proc (with_process_stats ?s ?k) ?j) with (proc k j).
  change (proc (with_time_counter ?s ?k) ?j) with (proc k j).
  rewrite (field_upd g) by (intros; apply Hg). done.
Qed.

Lemma save_process_context_globals k c :
  let k' := save_process_context k (Some c) in
  ready_queue k' = ready_queue k ∧ current_process k' = current_process k ∧
  length (processes k') = length (processes k) ∧ mem k' = mem k ∧
  context_switches (process_stats k') = context_switches (process_stats k).
Proof.
  cbv zeta. unfold save_process_context, get_system_time.
  repeat split; cbn; by rewrite ?length_insert.
Qed.

(** The reschedule when the outgoing process is not [RUNNING] any more (its
    caller has already marked it [READY], [WAITING] or [TERMINATED]): the
    head of the queue is popped and becomes the running process; the
    outgoing process is not put back. *)
Lemma schedule_next_process_pop k n r :
  queue_is k (n :: r) →
  (∀ c, current_process k = Some c → c ≠ n →
        state (proc k c) ≠ PROCESS_STATE_RUNNING) →
  ∃ k', schedule_next_process k = Some k' ∧
        queue_is k' r ∧ current_process k' = Some n ∧
        state (proc k' n) = PROCESS_STATE_RUNNING ∧
        context_switches (process_stats k')
        = wrap64 (context_switches (process_stats k) + 1) ∧
        mem k' = mem k ∧
        ∀ j, pid (proc k' j) = pid (proc k j) ∧
             is_suspended (proc k' j) = is_suspended (proc k j) ∧
             priority (proc k' j) = priority (proc k j) ∧
             (j ≠ n → state (proc k' j) = state (proc k j)).
Proof.
  intros Hq Hcur.
  destruct (queue_is_lseg _ _ Hq) as (Hseg & Hnd & Hlen).
  destruct Hq as (Htab & _ & Hin).
  apply lseg_cons' in Hseg as [Hhd Hseg].
  apply NoDup_cons in Hnd as [Hnr Hnd].
  assert (Hn : (n < length (processes k))%nat).
  { unfold in_table in Hin. by apply Forall_cons in Hin as [? _]. }
  unfold schedule_next_process. rewrite Hhd. cbv zeta.
  set (k2 := upd n (set_next None) (with_ready_queue (next (proc k n)) k)).
  assert (∃ k3,
    match current_process k2 with
    | Some cur =>
        if decide (cur = n) then Some k2
        else
          if decide (state (proc (save_process_context k2 (Some cur)) cur)
                     = PROCESS_STATE_RUNNING) then
            add_to_ready_queue
              (upd cur (set_state PROCESS_STATE_READY)
                   (save_process_context k2 (Some cur))) (Some cur)
          else Some (save_process_context k2 (Some cur))
    | None => Some k2
    end = Some k3 ∧
    ready_queue k3 = ready_queue k2 ∧
    length (processes k3) = length (processes k2) ∧ mem k3 = mem k2 ∧
    context_switches (process_stats k3)
    = context_switches (process_stats k2) ∧
    ∀ A (g : process → A) j,
      (∀ v p, g (set_cpu_time v p) = g p) →
      g (proc k3 j) = g (proc k2 j)) as (k3 & -> & Hrq & Hl3 & Hm3 & Hcs & Hg).
  { change (current_process k2) with (current_process k).
    destruct (current_process k) as [c|] eqn:Ec; [|by exists k2].
    destruct (decide (c = n)) as [->|Hcn]; [by exists k2|].
    rewrite decide_False.
    - eexists; split; [reflexivity|].
      destruct (save_process_context_globals k2 c) as (?&?&?&?&?).
      repeat split; try done.
      intros A g j Hgc. by apply save_process_context_field.
    - rewrite (save_process_context_field state) by done.
      subst k2. rewrite proc_upd_ne by done. by apply Hcur. }
  cbn [mbind option_bind]. unfold get_system_time, load_process_context.
  eexists; split; [reflexivity|].
  assert (Hn3 : (n < length (processes k3))%nat).
  { rewrite Hl3. subst k2. by rewrite length_upd. }
  split; [|split; [done|]]; [|split; [|split; [|split]]].
  - apply lseg_queue_is.
    + cbn. rewrite !length_insert. rewrite Hl3. subst k2.
      by rewrite length_upd.
    + cbn [ready_queue with_process_stats upd with_processes
           with_time_counter with_current_process].
      rewrite Hrq. subst k2.
      cbn [ready_queue upd with_processes with_ready_queue].
      eapply lseg_frame; [|exact Hseg].
      intros j Hj. assert (j ≠ n) by (by intros ->).
      change (proc (with_process_stats ?s ?k) ?j) with (proc k j).
      rewrite (field_upd next) by done.
      change (proc (with_time_counter ?s ?k) ?j) with (proc k j).
      rewrite (field_upd next) by done.
      change (proc (with_current_process ?s ?k) ?j) with (proc k j).
      rewrite (Hg _ next) by done. by rewrite proc_upd_ne.
    + unfold in_table in *. cbn. rewrite !length_insert, Hl3. subst k2.
      rewrite length_upd. by apply Forall_cons in Hin as [_ ?].
  - change (proc (with_process_stats ?s ?k) ?j) with (proc k j).
    rewrite (field_upd state) by done.
    change (proc (with_time_counter ?s ?k) ?j) with (proc k j).
    by rewrite proc_upd_eq.
  - cbn. by rewrite Hcs.
  - cbn. by rewrite Hm3.
  - intros j.
    change (proc (with_process_stats ?s ?k) ?j) with (proc k j).
    rewrite !(field_upd pid), !(field_upd is_suspended),
      !(field_upd priority) by done.
    change (proc (with_time_counter ?s ?k) ?j) with (proc k j).
    rewrite !(field_upd pid), !(field_upd is_suspended),
      !(field_upd priority) by done.
    change (proc (with_current_process ?s ?k) ?j) with (proc k j).
    rewrite (Hg _ pid), (Hg _ is_suspended), (Hg _ priority) by done.
    subst k2.
    rewrite !(field_upd pid), !(field_upd is_suspended),
      !(field_upd priority) by done.
    repeat split. intros Hjn.
    rewrite (field_upd state) by done.
    change (proc (with_time_counter ?s ?k) ?j) with (proc k j).
    rewrite proc_upd_ne by done.
    change (proc (with_current_process ?s ?k) ?j) with (proc k j).
    rewrite (Hg _ state) by done. by rewrite (field_upd state).
Qed.

Lemma schedule_next_process_empty k :
  queue_is k [] → schedule_next_process k = Some k.
Proof.
  intros Hq. destruct (queue_is_lseg _ _ Hq) as (Hseg & _).
  cbn in Hseg. unfold schedule_next_process. by rewrite Hseg.
Qed.

(** ** [suspend_process] and [resume_process] *)

Lemma insert_by_priority_ext k k' i q :
  (∀ j, priority (proc k' j) = priority (proc k j)) →
  insert_by_priority k' i q = insert_by_priority k i q.
Proof.
  intros H. induction q as [|j q IH]; cbn; [done|].
  by rewrite !H, IH.
Qed.

(** C8 (as found): [suspend_process] acts on a [RUNNING] process only.  The
    [READY] process of slot 1 (pid 3) stays [READY] and in the queue. *)
Lemma suspend_ready_is_noop :
  state (proc scenario_kernel 1) = PROCESS_STATE_READY ∧
  find_process_by_pid scenario_kernel 3 = Some 1%nat ∧
  ready_list scenario_kernel = Some [1%nat] ∧
  suspend_process scenario_kernel 3 = Some scenario_kernel.
Proof. by_computation. Qed.

(** C8 (amended): [suspend(pid)] moves a [RUNNING] process to [WAITING],
    takes it out of the Ready Queue and, when it is the current process,
    reschedules (the head of the queue, if any, becomes the running
    process); on a process in any other state, [READY] included, it does
    nothing.  [resume(pid)] moves a suspended process back to [READY] and
    inserts it into the Ready Queue by priority. *)
Theorem suspend_resume_spec (k : kernel) (p : Z) (i : nat) (q : list nat) :
  queue_is k q → find_process_by_pid k p = Some i →
  (state (proc k i) = PROCESS_STATE_RUNNING →
   ∃ k', suspend_process k p = Some k' ∧
     state (proc k' i) = PROCESS_STATE_WAITING ∧
     is_suspended (proc k' i) = true ∧
     if decide (current_process k = Some i) then
       match filter (λ j, j ≠ i) q with
       | [] => queue_is k' [] ∧ current_process k' = Some i ∧
               context_switches (process_stats k')
               = context_switches (process_stats k)
       | n :: r => queue_is k' r ∧ current_process k' = Some n ∧
               state (proc k' n) = PROCESS_STATE_RUNNING ∧
               context_switches (process_stats k')
               = wrap64 (context_switches (process_stats k) + 1)
       end
     else queue_is k' (filter (λ j, j ≠ i) q) ∧
          current_process k' = current_process k) ∧
  (state (proc k i) ≠ PROCESS_STATE_RUNNING →
   suspend_process k p = Some k) ∧
  (is_suspended (proc k i) = true → i ∉ q →
   ∃ k', resume_process k p = Some k' ∧
     state (proc k' i) = PROCESS_STATE_READY ∧
     is_suspended (proc k' i) = false ∧
     queue_is k' (insert_by_priority k i q) ∧
     i ∈ insert_by_priority k i q).
Proof.
  intros Hq Hfind.
  destruct (find_process_by_pid_Some _ _ _ Hfind) as [Hi Hpid].
  split; [|split].
  - intros Hst. unfold suspend_process. rewrite Hfind.
    rewrite decide_True by done. cbv zeta.
    set (k1 := upd i _ k).
    assert (Hq1 : queue_is k1 q) by (by apply queue_is_upd).
    destruct (remove_from_ready_queue_spec k1 i q Hq1)
      as (k2 & -> & Hq2 & Hsame); [subst k1; by rewrite length_upd|].
    cbn [mbind option_bind].
    assert (Hst2 : state (proc k2 i) = PROCESS_STATE_WAITING).
    { rewrite (same_but_links_field state _ _ _ (λ _ _, eq_refl) Hsame).
      subst k1. by rewrite proc_upd_eq. }
    assert (Hsu2 : is_suspended (proc k2 i) = true).
    { rewrite (same_but_links_field is_suspended _ _ _ (λ _ _, eq_refl) Hsame).
      subst k1. by rewrite proc_upd_eq. }
    assert (Hc2 : current_process k2 = current_process k).
    { by destruct Hsame as (_&_&->&_). }
    assert (Hcs2 : process_stats k2 = process_stats k).
    { by destruct Hsame as (_&_&_&_&_&_&->&_). }
    rewrite Hc2.
    destruct (decide (current_process k = Some i)) as [Hcur|Hcur].
    + destruct (filter (λ j, j ≠ i) q) as [|n r] eqn:Ef.
      * rewrite schedule_next_process_empty by done.
        eexists; split; [reflexivity|]. rewrite Hc2, Hcs2. done.
      * assert (Hni : n ≠ i).
        { intros ->. apply (filter_ne_gone i q). rewrite Ef. left. }
        destruct (schedule_next_process_pop k2 n r Hq2)
          as (k3 & -> & Hq3 & Hc3 & Hs3 & Hcs3 & _ & Hfld).
        { intros c Hc Hcn. rewrite Hc2, Hcur in Hc. injection Hc as <-.
          by rewrite Hst2. }
        eexists; split; [reflexivity|].
        destruct (Hfld i) as (_ & -> & _ & ->); [|done].
        rewrite Hcs3, Hcs2. done.
    + eexists; split; [reflexivity|]. done.
  - intros Hst. unfold suspend_process. rewrite Hfind.
    by rewrite decide_False.
  - intros Hsu Hni. unfold resume_process. rewrite Hfind, Hsu.
    set (k1 := upd i _ k).
    assert (Hq1 : queue_is k1 q) by (by apply queue_is_upd).
    destruct (add_to_ready_queue_spec k1 i q Hq1)
      as (k2 & -> & Hq2 & Hsame).
    { subst k1. by rewrite length_upd. }
    { done. }
    { subst k1. by rewrite proc_upd_eq. }
    eexists; split; [reflexivity|].
    rewrite (same_but_links_field state _ _ _ (λ _ _, eq_refl) Hsame).
    rewrite (same_but_links_field is_suspended _ _ _ (λ _ _, eq_refl) Hsame).
    rewrite (insert_by_priority_ext k k1) in Hq2
      by (intros j; subst k1; by apply (field_upd priority)).
    subst k1. rewrite !proc_upd_eq by done.
    split; [done|]. split; [done|]. split; [done|].
    apply elem_of_insert_by_priority. by left.
Qed.

(** The scenario's running process (slot 0, pid 2) is suspended: slot 1
    takes over; resumed, it is back in the queue. *)
Lemma suspend_resume_spec_witness :
  ∃ k', suspend_process scenario_kernel 2 = Some k' ∧
        state (proc k' 0) = PROCESS_STATE_WAITING ∧
        is_suspended (proc k' 0) = true ∧
        queue_is k' [] ∧ current_process k' = Some 1%nat ∧
        state (proc k' 1) = PROCESS_STATE_RUNNING.
Proof.
  assert (Hq : queue_is scenario_kernel [1%nat]).
  { split; [vm_compute; reflexivity|]. split; [vm_compute; reflexivity|].
    apply Forall_singleton. vm_compute. lia. }
  assert (Hf : find_process_by_pid scenario_kernel 2 = Some 0%nat)
    by (vm_compute; reflexivity).
  destruct (suspend_resume_spec scenario_kernel 2 0 [1%nat] Hq Hf)
    as (Hs & _ & _).
  destruct Hs as (k' & E & H1 & H2 & H3); [vm_compute; reflexivity|].
  exists k'. split; [exact E|].
  rewrite decide_True in H3 by (vm_compute; reflexivity).
  change (filter (λ j, j ≠ 0%nat) [1%nat]) with [1%nat] in H3.
  cbv beta iota in H3. tauto.
Defined.


(** ** [yield_process] and the timer tick *)

(** [yield_process] marks the running process [READY] before it calls
    [schedule_next_process], whose put-back is guarded by
    [state == PROCESS_STATE_RUNNING]: whenever another process is popped,
    the process that yielded is left [READY] and outside the Ready Queue. *)
Lemma yield_process_not_requeued k c n r :
  queue_is k (n :: r) → current_process k = Some c → c ∉ n :: r →
  (c < length (processes k))%nat →
  ∃ k', yield_process k = Some k' ∧
        current_process k' = Some n ∧
        state (proc k' c) = PROCESS_STATE_READY ∧
        queue_is k' r ∧ c ∉ r.
Proof.
  intros Hq Hc Hcn Hlt. apply not_elem_of_cons in Hcn as [Hcn Hcr].
  unfold yield_process. rewrite Hc.
  set (k1 := upd c (set_state PROCESS_STATE_READY) k).
  assert (Hq1 : queue_is k1 (n :: r)) by (by apply queue_is_upd).
  destruct (schedule_next_process_pop k1 n r Hq1)
    as (k2 & -> & Hq2 & Hc2 & _ & _ & _ & Hfld).
  { intros c' Hc'. change (current_process k1) with (current_process k) in Hc'.
    rewrite Hc in Hc'. injection Hc' as <-. intros _.
    subst k1. by rewrite proc_upd_eq. }
  exists k2. split; [done|]. split; [done|].
  destruct (Hfld c) as (_ & _ & _ & ->); [|done].
  subst k1. by rewrite proc_upd_eq.
Qed.

(** C1 (the code at the failing input): in the scenario state slot 0 runs
    and slot 1 waits in the queue; after [yield_process], and likewise
    after the ticks that use up the time slice, slot 0 is [READY] and the
    Ready Queue is empty. *)
Theorem yield_drops_the_running_process :
  current_process scenario_kernel = Some 0%nat ∧
  state (proc scenario_kernel 0) = PROCESS_STATE_RUNNING ∧
  pid (proc scenario_kernel 0) = 2 ∧
  ready_list scenario_kernel = Some [1%nat] ∧
  (yield_process scenario_kernel = Some yielded_kernel ∧
   current_process yielded_kernel = Some 1%nat ∧
   pid (proc yielded_kernel 0) = 2 ∧
   state (proc yielded_kernel 0) = PROCESS_STATE_READY ∧
   ready_list yielded_kernel = Some []) ∧
  (ticks 25 scenario_kernel = Some ticked_kernel ∧
   current_process ticked_kernel = Some 1%nat ∧
   pid (proc ticked_kernel 0) = 2 ∧
   state (proc ticked_kernel 0) = PROCESS_STATE_READY ∧
   ready_list ticked_kernel = Some []).
Proof. by_computation. Qed.

(** ** [create_process] *)

Lemma create_process_stages k nm entry prio demon :
  create_process k nm entry prio demon =
  if negb (process_manager_initialized k)
     || (Z.of_nat MAX_PROCESSES <=? process_count k) then Some (k, None)
  else
    match find_free_slot k with
    | None => Some (k, None)
    | Some i =>
        let k2 := create_claim k i nm prio demon in
        '(m, ptr) ← Memory.malloc (mem k2) STACK_SIZE;
        let k3 := upd i (set_stack_base ptr) (with_mem m k2) in
        if ptr =? 0 then Some (upd i (set_pid 0) k3, None)
        else
          k10 ← add_to_ready_queue (create_setup k3 i entry prio) (Some i);
          Some (create_finish k10 i demon, Some i)
    end.
Proof. reflexivity. Qed.

Lemma stack_heap_fits n :
  (n < MAX_PROCESSES)%nat →
  ∃ p, Memory.malloc (stack_heap n) STACK_SIZE = Some (stack_heap (S n), p) ∧
       p ≠ 0.
Proof.
  intros Hn.
  assert (H : forallb (λ n, stack_fits (stack_heap n)) (seq 0 MAX_PROCESSES)
              = true) by (vm_compute; reflexivity).
  rewrite forallb_forall in H. specialize (H n).
  unfold stack_fits in H. change (stack_heap (S n)) with
    (match Memory.malloc (stack_heap n) STACK_SIZE with
     | Some (h', _) => h'
     | None => stack_heap n
     end).
  destruct (Memory.malloc (stack_heap n) STACK_SIZE) as [[h' p]|].
  - exists p. split; [done|]. apply Z.eqb_neq, negb_true_iff, H.
    apply in_seq. lia.
  - discriminate H. apply in_seq. lia.
Qed.

Ltac proc_with :=
  repeat match goal with
  | |- context [proc (with_mem ?v ?k) ?j] =>
      change (proc (with_mem v k) j) with (proc k j)
  | |- context [proc (with_next_pid ?v ?k) ?j] =>
      change (proc (with_next_pid v k) j) with (proc k j)
  | |- context [proc (with_process_list ?v ?k) ?j] =>
      change (proc (with_process_list v k) j) with (proc k j)
  | |- context [proc (with_process_stats ?v ?k) ?j] =>
      change (proc (with_process_stats v k) j) with (proc k j)
  | |- context [proc (with_process_count ?v ?k) ?j] =>
      change (proc (with_process_count v k) j) with (proc k j)
  | |- context [proc (with_time_counter ?v ?k) ?j] =>
      change (proc (with_time_counter v k) j) with (proc k j)
  end.

Ltac len_simpl :=
  repeat first
    [ rewrite length_upd
    | progress cbn [processes with_mem with_next_pid with_process_list
                    with_process_stats with_process_count with_time_counter
                    with_ready_queue with_current_process] ].

Lemma queue_is_ext k k' q :
  ready_queue k' = ready_queue k →
  length (processes k') = length (processes k) →
  (∀ j, j ∈ q → next (proc k' j) = next (proc k j)) →
  queue_is k q → queue_is k' q.
Proof.
  intros Hrq Hlen Hnext Hq.
  destruct (queue_is_lseg _ _ Hq) as (Hseg & _ & _).
  destruct Hq as (Htab & _ & Hin).
  apply lseg_queue_is.
  - by rewrite Hlen.
  - rewrite Hrq. by eapply lseg_frame.
  - unfold in_table in *. by rewrite Hlen.
Qed.

Lemma find_pid_from_first l s p n x :
  (∀ j y, (j < n)%nat → l !! j = Some y → pid y ≠ p) →
  l !! n = Some x → pid x = p →
  find_pid_from l s p = Some (s + n)%nat.
Proof.
  revert l s. induction n as [|n IH]; intros [|y l] s Hlt Hn Hx; try done.
  - cbn in Hn. injection Hn as ->. cbn. apply Z.eqb_eq in Hx. rewrite Hx.
    f_equal. lia.
  - cbn in Hn. cbn [find_pid_from].
    assert (pid y ≠ p) as Hy by (apply (Hlt 0%nat); [lia|done]).
    apply Z.eqb_neq in Hy. rewrite Hy.
    rewrite (IH l (S s)); [f_equal; lia| |done|done].
    intros j z Hj Hz. apply (Hlt (S j)); [lia|done].
Qed.

Lemma find_free_slot_filled k n :
  (n < length (processes k))%nat →
  (∀ j, (j < n)%nat → pid (proc k j) ≠ 0) → pid (proc k n) = 0 →
  find_free_slot k = Some n.
Proof.
  intros Hn Hlt Hz. unfold find_free_slot.
  destruct (lookup_lt_is_Some_2 _ _ Hn) as [x Hx].
  rewrite (find_pid_from_first _ 0%nat 0 n x); [done| |done|].
  - intros j y Hj Hy. specialize (Hlt j Hj). unfold proc in Hlt.
    by rewrite Hy in Hlt.
  - unfold proc in Hz. by rewrite Hx in Hz.
Qed.

(** What the stages of [create_process] change. *)
Lemma create_claim_facts k i nm prio demon :
  (i < length (processes k))%nat →
  let k2 := create_claim k i nm prio demon in
  length (processes k2) = length (processes k) ∧
  ready_queue k2 = ready_queue k ∧ mem k2 = mem k ∧
  process_count k2 = process_count k ∧
  process_manager_initialized k2 = process_manager_initialized k ∧
  next_pid k2 = wrap32 (next_pid k + 1) ∧
  state (proc k2 i) = PROCESS_STATE_READY ∧
  pid (proc k2 i) = next_pid k ∧
  ∀ j, j ≠ i → proc k2 j = proc k j.
Proof.
  intros Hi. cbv zeta. unfold create_claim.
  split; [by len_simpl|]. repeat split.
  - rewrite proc_upd_eq by (by len_simpl). done.
  - rewrite (field_upd pid) by done. proc_with. by rewrite proc_upd_eq.
  - intros j Hj. rewrite proc_upd_ne by done. proc_with.
    by rewrite proc_upd_ne.
Qed.

Lemma create_setup_facts k3 i entry prio :
  let k9 := create_setup k3 i entry prio in
  length (processes k9) = length (processes k3) ∧
  ready_queue k9 = ready_queue k3 ∧ mem k9 = mem k3 ∧
  process_count k9 = process_count k3 ∧
  process_manager_initialized k9 = process_manager_initialized k3 ∧
  next_pid k9 = next_pid k3 ∧ process_stats k9 = process_stats k3 ∧
  (∀ j, state (proc k9 j) = state (proc k3 j)) ∧
  (∀ j, pid (proc k9 j) = pid (proc k3 j)) ∧
  (∀ j, priority (proc k9 j) = priority (proc k3 j)) ∧
  ∀ j, j ≠ i → next (proc k9 j) = next (proc k3 j).
Proof.
  cbv zeta. unfold create_setup. cbv zeta.
  match goal with |- context [match ?x with Some l => _ | None => _ end] =>
    destruct x as [l|] end.
  - split; [by len_simpl|].
    repeat split; intros j; proc_with.
    + by rewrite !(field_upd state).
    + by rewrite !(field_upd pid).
    + by rewrite !(field_upd priority).
    + intros Hj. rewrite (field_upd next) by done.
      by rewrite !proc_upd_ne.
  - split; [by len_simpl|].
    repeat split; intros j; proc_with.
    + by rewrite !(field_upd state).
    + by rewrite !(field_upd pid).
    + by rewrite !(field_upd priority).
    + intros Hj. by rewrite !proc_upd_ne.
Qed.

Lemma create_finish_facts k10 i demon :
  let k' := create_finish k10 i demon in
  length (processes k') = length (processes k10) ∧
  ready_queue k' = ready_queue k10 ∧ mem k' = mem k10 ∧
  process_count k' = wrap32 (process_count k10 + 1) ∧
  process_manager_initialized k' = process_manager_initialized k10 ∧
  next_pid k' = next_pid k10 ∧
  (∀ j, state (proc k' j) = state (proc k10 j)) ∧
  (∀ j, pid (proc k' j) = pid (proc k10 j)) ∧
  ∀ j, next (proc k' j) = next (proc k10 j).
Proof.
  cbv zeta. unfold create_finish, get_system_time. cbv zeta.
  cbn [fst snd]. split; [by len_simpl|].
  repeat split; intros j; proc_with.
  - by rewrite !(field_upd state).
  - by rewrite !(field_upd pid).
  - by rewrite !(field_upd next).
Qed.

(** One more creation on a table with [n < 64] taken slots succeeds and
    takes slot [n]. *)
Lemma create_filled n k r :
  filled n k → (n < MAX_PROCESSES)%nat →
  ∃ k', create k r = Some (k', Some n) ∧ filled (S n) k'.
Proof.
  intros (Hinit & Hcount & Hnp & Hmem & Hlt & Hge & q & Hq & Hqn) Hn.
  pose proof Hq as (Hlen & _ & _).
  assert (Hn' : (n < length (processes k))%nat) by (by rewrite Hlen).
  assert (Hnq : n ∉ q).
  { intros Hin. rewrite Forall_forall in Hqn. specialize (Hqn n Hin). lia. }
  unfold create. rewrite create_process_stages.
  rewrite Hinit, Hcount. cbn [negb orb].
  replace (Z.of_nat MAX_PROCESSES <=? Z.of_nat n) with false
    by (symmetry; apply Z.leb_gt; lia).
  rewrite (find_free_slot_filled k n) by (try done; apply Hge; lia).
  cbv zeta.
  destruct (create_claim_facts k n (r_name r) (r_priority r) (r_demon r) Hn')
    as (Hl2 & Hrq2 & Hm2 & Hc2 & Hi2 & Hnp2 & Hst2 & Hpid2 & Hoth2).
  set (k2 := create_claim k n (r_name r) (r_priority r) (r_demon r)) in *.
  rewrite Hm2, Hmem.
  destruct (stack_heap_fits n Hn) as (ptr & -> & Hptr).
  cbn [mbind option_bind]. apply Z.eqb_neq in Hptr. rewrite Hptr.
  set (k3 := upd n (set_stack_base ptr) (with_mem (stack_heap (S n)) k2)).
  destruct (create_setup_facts k3 n (r_entry r) (r_priority r))
    as (Hl9 & Hrq9 & Hm9 & Hc9 & Hi9 & Hnp9 & _ & Hst9 & Hpid9 & _ & Hnx9).
  set (k9 := create_setup k3 n (r_entry r) (r_priority r)) in *.
  assert (Hl3 : length (processes k3) = length (processes k)).
  { subst k3. len_simpl. done. }
  assert (Hq9 : queue_is k9 q).
  { apply (queue_is_ext k); [by rewrite Hrq9| by rewrite Hl9, Hl3 | |done].
    intros j Hj. assert (j ≠ n) by (by intros ->).
    rewrite Hnx9 by done. subst k3. rewrite proc_upd_ne by done.
    proc_with. by rewrite Hoth2. }
  destruct (add_to_ready_queue_spec k9 n q Hq9) as (k10 & -> & Hq10 & Hsame).
  { by rewrite Hl9, Hl3. }
  { done. }
  { rewrite Hst9. subst k3. rewrite (field_upd state) by done. done. }
  cbn [mbind option_bind]. eexists; split; [reflexivity|].
  destruct (create_finish_facts k10 n (r_demon r))
    as (Hl' & Hrq' & Hm' & Hc' & Hi' & Hnp' & Hst' & Hpid' & Hnx').
  set (k' := create_finish k10 n (r_demon r)) in *.
  destruct Hsame as (Hm10 & _ & _ & Hnp10 & Hc10 & Hi10 & _ & _ & Hl10 & Hf10).
  assert (Hpid10 : ∀ j, pid (proc k10 j) = pid (proc k9 j)).
  { intros j. change (pid (proc k10 j)) with (pid (set_next None (proc k10 j))).
    by rewrite Hf10. }
  assert (Hpid : ∀ j, pid (proc k' j)
                      = if decide (j = n) then Z.of_nat n + 1 else pid (proc k j)).
  { intros j. rewrite Hpid', Hpid10, Hpid9. subst k3.
    rewrite (field_upd pid) by done. proc_with.
    case_decide as Hj; [subst j; by rewrite Hpid2|by rewrite Hoth2]. }
  split; [by rewrite Hi', Hi10, Hi9|].
  split.
  { rewrite Hc', Hc10, Hc9. subst k3. cbn [process_count upd with_processes
      with_mem]. rewrite Hc2, Hcount.
    unfold MAX_PROCESSES in Hn. rewrite MemoryFacts.wrap32_small by lia. lia. }
  split.
  { rewrite Hnp', Hnp10, Hnp9. subst k3. cbn [next_pid upd with_processes
      with_mem]. rewrite Hnp2, Hnp.
    unfold MAX_PROCESSES in Hn. rewrite MemoryFacts.wrap32_small by lia. lia. }
  split; [by rewrite Hm', Hm10, Hm9|].
  split.
  { intros j Hj. rewrite Hpid. case_decide; [lia|]. apply Hlt. lia. }
  split.
  { intros j Hj. rewrite Hpid. rewrite decide_False by lia. apply Hge. lia. }
  exists (insert_by_priority k9 n q). split.
  - apply (queue_is_ext k10); [done|done| |done]. intros j _. apply Hnx'.
  - apply Forall_forall. intros j Hj.
    apply elem_of_insert_by_priority in Hj as [->|Hj]; [lia|].
    rewrite Forall_forall in Hqn. specialize (Hqn j Hj). lia.
Qed.

(** On a full table [create_process] returns [NULL] and changes nothing. *)
Lemma create_full k r :
  filled MAX_PROCESSES k → create k r = Some (k, None).
Proof.
  intros (Hinit & Hcount & _). unfold create, create_process.
  rewrite Hinit, Hcount. by rewrite Z.leb_refl.
Qed.

Lemma create_all_filled n k rs :
  filled n k → (n + length rs ≤ MAX_PROCESSES)%nat →
  ∃ k', create_all k rs = Some (k', Some <$> seq n (length rs)) ∧
        filled (n + length rs) k'.
Proof.
  revert n k. induction rs as [|r rs IH]; intros n k Hk Hn.
  - exists k. cbn. rewrite Nat.add_0_r. done.
  - cbn [length] in Hn. cbn [create_all].
    destruct (create_filled n k r Hk) as (k1 & -> & Hk1); [lia|].
    cbn [mbind option_bind].
    destruct (IH (S n) k1 Hk1) as (k2 & -> & Hk2); [lia|].
    cbn [mbind option_bind]. exists k2. split; [done|].
    cbn [length]. by rewrite Nat.add_succ_r.
Qed.

Lemma fresh_is_fresh_kernel : fresh = Some fresh_kernel.
Proof. vm_compute. reflexivity. Qed.

Lemma fresh_kernel_table :
  processes fresh_kernel
  = replicate MAX_PROCESSES
      (set_state PROCESS_STATE_TERMINATED zero_process).
Proof. vm_compute. reflexivity. Qed.

Lemma fresh_kernel_filled : filled 0 fresh_kernel.
Proof.
  split; [vm_compute; reflexivity|]. split; [vm_compute; reflexivity|].
  split; [vm_compute; reflexivity|]. split; [vm_compute; reflexivity|].
  split; [intros j Hj; lia|]. split.
  - intros j _. unfold proc. rewrite fresh_kernel_table.
    destruct (replicate _ _ !! j) as [x|] eqn:E; [|done].
    apply lookup_replicate in E as [-> _]. done.
  - exists []. split; [|constructor].
    split; [vm_compute; reflexivity|]. split; [vm_compute; reflexivity|].
    constructor.
Qed.

(** C7 (the code at the failing input): the freshly initialised table
    holds no kernel process.  [init_process_manager] calls [create_process]
    while [process_manager_initialized] is still [false], so the call
    returns [NULL]: every slot is free, the process count is 0 and there is
    no current process. *)
Lemma fresh_table_has_no_kernel_process :
  fresh = Some fresh_kernel ∧
  current_process fresh_kernel = None ∧
  process_count fresh_kernel = 0 ∧
  ready_list fresh_kernel = Some [] ∧
  forallb (λ p, (pid p =? 0)
                && bool_decide (state p = PROCESS_STATE_TERMINATED))
          (processes fresh_kernel) = true.
Proof. by_computation. Qed.

(** X28.  The table holds 64 processes and the arena their stacks: on the
    table as [init_process_manager] leaves it after boot, with the arena
    that [init_memory_manager] sets up, any 64 calls of [create_process]
    succeed, taking the slots 0 to 63 in order, and any further call
    returns [NULL] and leaves the state as it is. *)
Theorem create_process_capacity (rs : list request) (r : request) :
  length rs = MAX_PROCESSES →
  fresh = Some fresh_kernel ∧
  ∃ k, create_all fresh_kernel rs
       = Some (k, Some <$> seq 0 MAX_PROCESSES) ∧
       process_count k = Z.of_nat MAX_PROCESSES ∧
       create k r = Some (k, None).
Proof.
  intros Hlen. split; [apply fresh_is_fresh_kernel|].
  destruct (create_all_filled 0 fresh_kernel rs fresh_kernel_filled)
    as (k & Hk & Hfilled); [lia|].
  rewrite Hlen in Hk, Hfilled. exists k. split; [exact Hk|].
  split; [apply Hfilled|]. by apply create_full.
Qed.

Lemma create_process_capacity_witness :
  ∃ k, create_all fresh_kernel
         (replicate 64 (Request "soul" 0 PRIORITY_SOUL false))
       = Some (k, Some <$> seq 0 64) ∧
       create k (Request "late" 0 PRIORITY_OVERLORD true) = Some (k, None).
Proof.
  destruct (create_process_capacity
              (replicate 64 (Request "soul" 0 PRIORITY_SOUL false))
              (Request "late" 0 PRIORITY_OVERLORD true))
    as (_ & k & H1 & _ & H2); [reflexivity|].
  exists k. split; [exact H1|exact H2].
Defined.

(** C6 (the code at the failing input).  After boot there is no kernel
    process: nothing carries pid 0 as a process, and the first
    [create_process] takes slot 0 with pid 1.  After a second
    [init_process_manager] the kernel process exists in slot 0 with pid 0;
    since the slot search looks for [pid == 0], [create_process] takes its
    slot again: at once it ties the slot's [next] to itself and never
    leaves the queue walk, and after a [yield_process] (which empties the
    queue) it overwrites the kernel process with the new one. *)
Theorem kernel_slot_is_reclaimed :
  (current_process fresh_kernel = None ∧
   state (proc fresh_kernel 0) = PROCESS_STATE_TERMINATED ∧
   snd <$> first_creation = Some (Some 0%nat) ∧
   (pid ∘ (λ k, proc k 0) ∘ fst) <$> first_creation = Some 1 ∧
   (name ∘ (λ k, proc k 0) ∘ fst) <$> first_creation = Some "a") ∧
  (current_process reinit_kernel = Some 0%nat ∧
   pid (proc reinit_kernel 0) = 0 ∧
   name (proc reinit_kernel 0) = "kernel_daemon" ∧
   state (proc reinit_kernel 0) = PROCESS_STATE_RUNNING ∧
   find_free_slot reinit_kernel = Some 0%nat ∧
   create_process reinit_kernel "a" 0 PRIORITY_SOUL false = None ∧
   snd <$> creation_after_reinit = Some (Some 0%nat) ∧
   (pid ∘ (λ k, proc k 0) ∘ fst) <$> creation_after_reinit = Some 2 ∧
   (name ∘ (λ k, proc k 0) ∘ fst) <$> creation_after_reinit = Some "a" ∧
   (current_process ∘ fst) <$> creation_after_reinit = Some (Some 0%nat)).
Proof. by_computation. Qed.

(** [add_to_ready_queue] only writes [next] fields and [ready_queue]. *)
Lemma add_to_ready_queue_links k p k' :
  add_to_ready_queue k p = Some k' → same_but_links k k'.
Proof.
  unfold add_to_ready_queue. destruct p as [i|]; [|intros [= <-]; apply
    same_but_links_refl].
  case_decide; [|intros [= <-]; apply same_but_links_refl].
  destruct (ready_queue k) as [hd|].
  - destruct (_ <? _).
    + intros [= <-]. eapply same_but_links_trans;
        [apply same_but_links_upd|apply same_but_links_ready_queue].
    + destruct (insert_walk _ _ _ _) as [c|]; [|done].
      intros [= <-]. eapply same_but_links_trans; apply same_but_links_upd.
  - intros [= <-]. eapply same_but_links_trans;
      [apply same_but_links_upd|apply same_but_links_ready_queue].
Qed.

(** Every successful [create_process] hands out [next_pid] and advances it
    by one (modulo [2^32]). *)
Lemma create_process_assigns_next_pid k nm entry prio demon k' i :
  create_process k nm entry prio demon = Some (k', Some i) →
  pid (proc k' i) = next_pid k ∧ next_pid k' = wrap32 (next_pid k + 1).
Proof.
  rewrite create_process_stages.
  destruct (_ || _); [done|].
  destruct (find_free_slot k) as [j|] eqn:Ej; [|done].
  apply find_pid_from_Some in Ej as [Hj _]. cbv zeta.
  destruct (Memory.malloc _ _) as [[m ptr]|]; [|done].
  cbn [mbind option_bind]. destruct (ptr =? 0); [done|].
  destruct (add_to_ready_queue _ _) as [k10|] eqn:E; [|done].
  cbn [mbind option_bind]. intros [= <- <-].
  apply add_to_ready_queue_links in E.
  destruct (create_finish_facts k10 j demon)
    as (_ & _ & _ & _ & _ & -> & _ & Hpid & _).
  rewrite Hpid.
  rewrite (same_but_links_field pid _ _ _ (λ _ _, eq_refl) E).
  destruct E as (_ & _ & _ & -> & _).
  match goal with |- context [create_setup ?k3 j entry prio] =>
    destruct (create_setup_facts k3 j entry prio)
      as (_ & _ & _ & _ & _ & -> & _ & _ & Hpid9 & _) end.
  rewrite Hpid9. rewrite (field_upd pid) by done. proc_with.
  cbn [next_pid upd with_processes with_mem].
  destruct (create_claim_facts k j nm prio demon)
    as (_ & _ & _ & _ & _ & -> & _ & -> & _); [lia|]. done.
Qed.

(** ** Lookup by pid *)

Lemma find_pid_from_None l s p :
  find_pid_from l s p = None ↔ ∀ x, x ∈ l → pid x ≠ p.
Proof.
  revert s. induction l as [|y l IH]; intros s; cbn [find_pid_from].
  { split; [by intros _ x ?%elem_of_nil|done]. }
  destruct (pid y =? p) eqn:E.
  - apply Z.eqb_eq in E. split; [done|]. intros H. exfalso.
    apply (H y); [left|done].
  - apply Z.eqb_neq in E. rewrite IH. split.
    + intros H x [->|Hx]%elem_of_cons; auto.
    + intros H x Hx. apply H. by right.
Qed.

Lemma find_pid_from_lowest l s p j :
  find_pid_from l s p = Some j →
  ∀ i y, (i < j - s)%nat → l !! i = Some y → pid y ≠ p.
Proof.
  revert s. induction l as [|x l IH]; intros s; cbn [find_pid_from]; [done|].
  destruct (pid x =? p) eqn:E.
  - intros [= <-] i y Hi. lia.
  - intros H [|i] y Hi Hy.
    + cbn in Hy. injection Hy as <-. by apply Z.eqb_neq.
    + cbn in Hy. apply (IH (S s) H i y); [|done].
      apply find_pid_from_Some in H. lia.
Qed.

Lemma proc_lookup k i x : processes k !! i = Some x → proc k i = x.
Proof. unfold proc. by intros ->. Qed.

Lemma lookup_proc k i :
  (i < length (processes k))%nat → processes k !! i = Some (proc k i).
Proof.
  intros Hi. unfold proc.
  destruct (lookup_lt_is_Some_2 (processes k) i Hi) as [x ->]. done.
Qed.

(** X17.  [find_process_by_pid] returns the lowest slot whose [pid] field
    is the pid asked for, free slots (pid 0) included, and [NULL] exactly
    when no slot carries it. *)
Theorem find_process_by_pid_lowest (k : kernel) (p : Z) :
  (∀ i, find_process_by_pid k p = Some i ↔
        (i < length (processes k))%nat ∧ pid (proc k i) = p ∧
        ∀ j, (j < i)%nat → pid (proc k j) ≠ p) ∧
  (find_process_by_pid k p = None ↔
   ∀ j, (j < length (processes k))%nat → pid (proc k j) ≠ p).
Proof.
  unfold find_process_by_pid. split.
  - intros i. split.
    + intros H. destruct (find_process_by_pid_Some k p i H) as [Hi Hp].
      split; [done|]. split; [done|]. intros j Hj.
      apply (find_pid_from_lowest _ _ _ _ H j); [lia|].
      apply lookup_proc. lia.
    + intros (Hi & Hp & Hlow).
      change (Some i) with (Some (0 + i)%nat).
      apply (find_pid_from_first _ _ _ _ (proc k i)); [|by apply lookup_proc|done].
      intros j y Hj Hy. rewrite <- (proc_lookup _ _ _ Hy). by apply Hlow.
  - rewrite find_pid_from_None. split.
    + intros H j Hj. apply H. apply list_elem_of_lookup. exists j.
      by apply lookup_proc.
    + intros H x Hx. apply list_elem_of_lookup in Hx as [j Hj].
      rewrite <- (proc_lookup _ _ _ Hj). apply H.
      by eapply lookup_lt_Some.
Qed.

(** ** The order of the Ready Queue *)

Lemma by_priority_ext k k' q :
  (∀ j, priority (proc k' j) = priority (proc k j)) →
  by_priority k q → by_priority k' q.
Proof.
  intros Hp. induction q as [|i q IH]; [done|]. cbn [by_priority].
  intros [H1 H2]. split; [|auto].
  eapply Forall_impl; [done|]. intros j. by rewrite !Hp.
Qed.

Lemma by_priority_filter k (P : nat → Prop) `{∀ x, Decision (P x)} q :
  by_priority k q → by_priority k (filter P q).
Proof.
  induction q as [|i q IH]; [done|]. cbn [by_priority]. intros [H1 H2].
  rewrite filter_cons. case_decide; [|auto]. cbn [by_priority].
  split; [|auto]. rewrite Forall_forall in H1. apply Forall_forall.
  intros x [_ Hx]%list_elem_of_filter. by apply H1.
Qed.

Lemma insert_by_priority_sorted k i q :
  by_priority k q → by_priority k (insert_by_priority k i q).
Proof.
  induction q as [|j q IH]; [done|]. cbn [by_priority insert_by_priority].
  intros [H1 H2]. destruct (priority (proc k i) <? priority (proc k j)) eqn:E.
  - apply Z.ltb_lt in E. cbn [by_priority]. split; [|done].
    apply Forall_cons. split; [lia|].
    eapply Forall_impl; [done|]. cbn. intros; lia.
  - apply Z.ltb_ge in E. cbn [by_priority]. split; [|auto].
    apply Forall_forall. intros x [->|Hx]%elem_of_insert_by_priority; [done|].
    rewrite Forall_forall in H1. by apply H1.
Qed.

Lemma insert_by_priority_split k i q :
  by_priority k q →
  ∃ a b, q = a ++ b ∧ insert_by_priority k i q = a ++ i :: b ∧
         Forall (λ j, priority (proc k j) ≤ priority (proc k i)) a ∧
         Forall (λ j, priority (proc k i) < priority (proc k j)) b.
Proof.
  induction q as [|j q IH]; cbn [by_priority insert_by_priority].
  { intros _. by exists [], []. }
  intros [H1 H2]. destruct (priority (proc k i) <? priority (proc k j)) eqn:E.
  - apply Z.ltb_lt in E. exists [], (j :: q). split; [done|]. split; [done|].
    split; [done|]. apply Forall_cons. split; [done|].
    eapply Forall_impl; [done|]. cbn. intros; lia.
  - apply Z.ltb_ge in E. destruct (IH H2) as (a & b & -> & -> & Ha & Hb).
    exists (j :: a), b. split; [done|]. split; [done|].
    split; [|done]. by apply Forall_cons.
Qed.

(** X18.  [add_to_ready_queue] keeps the Ready Queue in priority order and
    is first in, first out within a priority: a [READY] process that is not
    queued goes behind every entry whose priority value is not above its
    own and before the others.  Nothing but [ready_queue] and [next] links
    changes.  A process that is not [READY], or [NULL], is not queued. *)
Theorem add_to_ready_queue_in_order (k : kernel) (i : nat) (q : list nat) :
  queue_is k q → (i < length (processes k))%nat → i ∉ q →
  by_priority k q →
  (state (proc k i) = PROCESS_STATE_READY →
   ∃ k' a b, add_to_ready_queue k (Some i) = Some k' ∧
     q = a ++ b ∧ queue_is k' (a ++ i :: b) ∧ by_priority k' (a ++ i :: b) ∧
     Forall (λ j, priority (proc k j) ≤ priority (proc k i)) a ∧
     Forall (λ j, priority (proc k i) < priority (proc k j)) b ∧
     same_but_links k k') ∧
  (state (proc k i) ≠ PROCESS_STATE_READY →
   add_to_ready_queue k (Some i) = Some k) ∧
  add_to_ready_queue k None = Some k.
Proof.
  intros Hq Hi Hiq Hsorted. split; [|split; [|done]].
  - intros Hst.
    destruct (add_to_ready_queue_spec k i q Hq Hi Hiq Hst)
      as (k' & E & Hq' & Hsame).
    destruct (insert_by_priority_split k i q Hsorted)
      as (a & b & Eq & Eins & Ha & Hb).
    exists k', a, b. split; [done|]. split; [done|].
    rewrite <- Eins. split; [done|]. split; [|done].
    apply (by_priority_ext k).
    + intros j. by apply (same_but_links_field priority).
    + by apply insert_by_priority_sorted.
  - by apply add_to_ready_queue_not_ready.
Qed.

Lemma scenario_queue : queue_is scenario_kernel [1%nat].
Proof.
  split; [by vm_compute|]. split; [by vm_compute|].
  apply Forall_singleton. vm_compute. lia.
Qed.

Lemma crowded_queue : queue_is crowded_kernel [2; 3]%nat.
Proof.
  split; [by vm_compute|]. split; [by vm_compute|].
  apply Forall_cons. split; [vm_compute; lia|].
  apply Forall_singleton. vm_compute. lia.
Qed.

Lemma add_to_ready_queue_in_order_witness :
  ∃ k', add_to_ready_queue crowded_kernel (Some 0%nat) = Some k' ∧
        ready_list k' = Some [2; 0; 3]%nat ∧
        by_priority k' [2; 0; 3]%nat.
Proof.
  destruct (add_to_ready_queue_in_order crowded_kernel 0 [2; 3]%nat
              crowded_queue) as (H & _).
  - vm_compute. lia.
  - intros Hin. apply elem_of_cons in Hin as [Hin|Hin]; [discriminate|].
    apply elem_of_cons in Hin as [Hin|Hin]; [discriminate|].
    by apply elem_of_nil in Hin.
  - split; [apply Forall_singleton; vm_compute; discriminate|].
    split; [apply Forall_nil_2|exact I].
  - destruct H as (k' & a & b & E & _ & Hq & Hs & _);
      [vm_compute; reflexivity|].
    exists k'. split; [exact E|].
    assert (Hc : ready_list <$> add_to_ready_queue crowded_kernel (Some 0%nat)
                 = Some (Some [2; 0; 3]%nat)) by (vm_compute; reflexivity).
    rewrite E in Hc. injection Hc as Hc. split; [exact Hc|].
    destruct Hq as (_ & Hrl & _). rewrite Hc in Hrl. injection Hrl as ->.
    exact Hs.
Defined.

(** X19.  [remove_from_ready_queue] takes the process out of the Ready
    Queue and keeps the order of the others; a process that is not queued
    leaves the queue as it is.  On a queue that is not empty the [next]
    link of the process is cleared in both cases; on an empty queue nothing
    changes at all. *)
Theorem remove_from_ready_queue_unlinks (k : kernel) (i : nat)
    (q : list nat) :
  queue_is k q → (i < length (processes k))%nat →
  ∃ k', remove_from_ready_queue k (Some i) = Some k' ∧
    queue_is k' (filter (λ j, j ≠ i) q) ∧
    (i ∉ q → queue_is k' q) ∧
    (by_priority k q → by_priority k' (filter (λ j, j ≠ i) q)) ∧
    same_but_links k k' ∧
    (q ≠ [] → next (proc k' i) = None) ∧
    (q = [] → k' = k).
Proof.
  intros Hq Hi.
  destruct (remove_from_ready_queue_spec k i q Hq Hi) as (k' & E & Hq' & Hsame).
  exists k'. split; [done|]. split; [done|]. split.
  { intros Hiq. by rewrite filter_ne_id in Hq'. }
  split.
  { intros Hs. apply (by_priority_ext k).
    - intros j. by apply (same_but_links_field priority).
    - by apply by_priority_filter. }
  split; [done|].
  destruct (queue_is_lseg _ _ Hq) as (Hseg & _).
  unfold remove_from_ready_queue in E. split.
  - intros Hne. destruct q as [|hd rest]; [done|].
    apply lseg_cons' in Hseg as [Hhd _]. rewrite Hhd in E.
    destruct (if decide (hd = i) then _ else _) as [k1|] eqn:E1; [|done].
    cbn [mbind option_bind] in E. injection E as <-.
    rewrite proc_upd_eq; [done|].
    destruct Hsame as (_&_&_&_&_&_&_&_&Hlen&_).
    rewrite length_upd in Hlen. lia.
  - intros ->. cbn in Hseg. rewrite Hseg in E. by injection E.
Qed.

Lemma remove_from_ready_queue_unlinks_witness :
  ∃ k', remove_from_ready_queue scenario_kernel (Some 1%nat) = Some k' ∧
        queue_is k' [] ∧ next (proc k' 1) = None.
Proof.
  destruct (remove_from_ready_queue_unlinks scenario_kernel 1 [1%nat]
              scenario_queue) as (k' & E & Hq & _ & _ & _ & Hn & _).
  - vm_compute. lia.
  - exists k'. split; [exact E|]. split; [exact Hq|]. by apply Hn.
Defined.

(** ** The scheduler on a running process *)

Ltac proc_glob :=
  repeat match goal with
  | |- context [proc (with_mem ?v ?k) ?j] =>
      change (proc (with_mem v k) j) with (proc k j)
  | |- context [proc (with_next_pid ?v ?k) ?j] =>
      change (proc (with_next_pid v k) j) with (proc k j)
  | |- context [proc (with_process_list ?v ?k) ?j] =>
      change (proc (with_process_list v k) j) with (proc k j)
  | |- context [proc (with_process_stats ?v ?k) ?j] =>
      change (proc (with_process_stats v k) j) with (proc k j)
  | |- context [proc (with_process_count ?v ?k) ?j] =>
      change (proc (with_process_count v k) j) with (proc k j)
  | |- context [proc (with_time_counter ?v ?k) ?j] =>
      change (proc (with_time_counter v k) j) with (proc k j)
  | |- context [proc (with_current_process ?v ?k) ?j] =>
      change (proc (with_current_process v k) j) with (proc k j)
  | |- context [proc (with_ready_queue ?v ?k) ?j] =>
      change (proc (with_ready_queue v k) j) with (proc k j)
  | |- context [proc (with_initialized ?v ?k) ?j] =>
      change (proc (with_initialized v k) j) with (proc k j)
  end.

Lemma queue_is_pop k n r :
  queue_is k (n :: r) →
  queue_is (upd n (set_next None) (with_ready_queue (next (proc k n)) k)) r.
Proof.
  intros Hq. destruct (queue_is_lseg _ _ Hq) as (Hseg & Hnd & Hlen).
  destruct Hq as (Htab & _ & Hin).
  apply lseg_cons' in Hseg as [Hhd Hseg].
  apply NoDup_cons in Hnd as [Hnr Hnd].
  apply lseg_queue_is.
  - by rewrite length_upd.
  - cbn [ready_queue upd with_processes with_ready_queue].
    change (lseg (upd n (set_next None)
                   (with_ready_queue (next (proc k n)) k))
                 (next (proc k n)) r None).
    apply lseg_upd; [done|]. by apply lseg_with_ready_queue.
  - unfold in_table in *. rewrite length_upd. cbn.
    by apply Forall_cons in Hin as [_ ?].
Qed.

Lemma queue_is_head k n r :
  queue_is k (n :: r) →
  ready_queue k = Some n ∧ (n < length (processes k))%nat ∧ n ∉ r.
Proof.
  intros Hq. destruct (queue_is_lseg _ _ Hq) as (Hseg & Hnd & _).
  destruct Hq as (_ & _ & Hin).
  apply lseg_cons' in Hseg as [Hhd _].
  apply NoDup_cons in Hnd as [Hnr _].
  unfold in_table in Hin. by apply Forall_cons in Hin as [? _].
Qed.

Lemma schedule_next_process_requeues k c n r :
  queue_is k (n :: r) → current_process k = Some c →
  (c < length (processes k))%nat → c ∉ n :: r →
  state (proc k c) = PROCESS_STATE_RUNNING →
  ∃ k', schedule_next_process k = Some k' ∧
    current_process k' = Some n ∧
    state (proc k' n) = PROCESS_STATE_RUNNING ∧
    state (proc k' c) = PROCESS_STATE_READY ∧
    queue_is k' (insert_by_priority k c r) ∧
    (by_priority k (n :: r) → by_priority k' (insert_by_priority k c r)) ∧
    context_switches (process_stats k')
    = wrap64 (context_switches (process_stats k) + 1) ∧
    cpu_time (proc k' c)
    = wrap64 (cpu_time (proc k c)
              + wrap64 (wrap64 (time_counter k + 1)
                        - last_scheduled (proc k c))) ∧
    time_counter k'
    = wrap64 (wrap64 (wrap64 (time_counter k + 1) + 1) + 1) ∧
    last_scheduled (proc k' n) = time_counter k' ∧
    mem k' = mem k.
Proof.
  intros Hq Hcur Hc Hcq Hrun.
  destruct (queue_is_head _ _ _ Hq) as (Hhd & Hn & Hnr).
  pose proof (queue_is_pop _ _ _ Hq) as Hq2.
  apply not_elem_of_cons in Hcq as [Hcn Hcr].
  unfold schedule_next_process. rewrite Hhd. cbv zeta.
  set (k2 := upd n (set_next None) (with_ready_queue (next (proc k n)) k))
    in *.
  change (current_process k2) with (current_process k). rewrite Hcur.
  rewrite decide_False by done.
  set (ka := save_process_context k2 (Some c)).
  destruct (save_process_context_globals k2 c) as (Hrqa & Hcura & Hla & Hma & Hcsa).
  fold ka in Hrqa, Hcura, Hla, Hma, Hcsa.
  assert (Hl2 : length (processes k2) = length (processes k))
    by (subst k2; by rewrite length_upd).
  assert (Hsta : state (proc ka c) = PROCESS_STATE_RUNNING).
  { subst ka. rewrite (save_process_context_field state) by done.
    subst k2. rewrite proc_upd_ne by done. done. }
  rewrite decide_True by done.
  set (kb := upd c (set_state PROCESS_STATE_READY) ka).
  assert (Hqa : queue_is ka r).
  { apply (queue_is_ext k2); [done|done| |done].
    intros j _. subst ka. by apply (save_process_context_field next). }
  assert (Hqb : queue_is kb r) by (by apply queue_is_upd).
  assert (Hprio : ∀ j, priority (proc kb j) = priority (proc k j)).
  { intros j. subst kb. rewrite (field_upd priority) by done.
    subst ka. rewrite (save_process_context_field priority) by done.
    subst k2. by rewrite (field_upd priority). }
  destruct (add_to_ready_queue_spec kb c r Hqb) as (k3 & -> & Hq3 & Hsame).
  { subst kb. rewrite length_upd. lia. }
  { done. }
  { subst kb. rewrite proc_upd_eq by lia. done. }
  rewrite (insert_by_priority_ext k kb) in Hq3 by done.
  cbn [mbind option_bind]. unfold get_system_time, load_process_context.
  eexists; split; [reflexivity|].
  pose proof Hsame as (Hm3 & _ & _ & _ & _ & _ & Hps3 & Htc3 & Hl3 & _).
  assert (Hlb : length (processes kb) = length (processes k)).
  { subst kb. rewrite length_upd. lia. }
  assert (Hn3 : (n < length (processes k3))%nat) by lia.
  split; [done|]. split.
  { proc_glob. rewrite (field_upd state) by done. proc_glob.
    by rewrite proc_upd_eq. }
  split.
  { proc_glob. rewrite (field_upd state) by done. proc_glob.
    rewrite proc_upd_ne by done. proc_glob.
    rewrite (same_but_links_field state kb k3) by done.
    subst kb. by rewrite proc_upd_eq by lia. }
  split.
  { apply (queue_is_ext k3); [done| |  |done].
    - cbn. by rewrite !length_insert.
    - intros j _. proc_glob. rewrite (field_upd next) by done. proc_glob.
      by rewrite (field_upd next). }
  split.
  { intros [_ Hsr]. apply (by_priority_ext k).
    - intros j. proc_glob. rewrite (field_upd priority) by done. proc_glob.
      rewrite (field_upd priority) by done. proc_glob.
      rewrite (same_but_links_field priority kb k3) by done. apply Hprio.
    - by apply insert_by_priority_sorted. }
  split.
  { cbn [process_stats with_process_stats context_switches upd
         with_processes with_time_counter with_current_process].
    rewrite Hps3. subst kb. cbn [process_stats upd with_processes].
    by rewrite Hcsa. }
  assert (Htca : time_counter ka = wrap64 (wrap64 (time_counter k + 1) + 1)).
  { subst ka. unfold save_process_context, get_system_time. done. }
  split.
  { proc_glob. rewrite (field_upd cpu_time) by done. proc_glob.
    rewrite (field_upd cpu_time) by done. proc_glob.
    rewrite (same_but_links_field cpu_time kb k3) by done.
    subst kb. rewrite (field_upd cpu_time) by done.
    subst ka. unfold save_process_context, get_system_time.
    proc_glob.
    rewrite proc_upd_eq by (cbn [processes with_time_counter]; lia).
    proc_glob.
    subst k2. rewrite proc_upd_ne by done. done. }
  split.
  { cbn [time_counter with_process_stats upd with_processes
         with_time_counter with_current_process].
    rewrite Htc3. subst kb. cbn [time_counter upd with_processes].
    by rewrite Htca. }
  split.
  { proc_glob. rewrite proc_upd_eq by (cbn; rewrite length_insert; lia).
    cbn [last_scheduled set_last_scheduled time_counter with_process_stats
         upd with_processes with_time_counter with_current_process].
    done. }
  cbn [mem with_process_stats upd with_processes with_time_counter
       with_current_process].
  rewrite Hm3. subst kb. cbn [mem upd with_processes]. rewrite Hma.
  by subst k2.
Qed.

(** X20.  [schedule_next_process] called while the current process is
    still [RUNNING] is a round-robin step: the head of the Ready Queue
    becomes the running process, the outgoing process is charged the time
    since it was scheduled, marked [READY] and queued behind the entries of
    its priority, and one context switch is counted. *)
Theorem schedule_next_process_round_robin (k : kernel) (c n : nat)
    (r : list nat) :
  queue_is k (n :: r) → current_process k = Some c →
  (c < length (processes k))%nat → c ∉ n :: r →
  state (proc k c) = PROCESS_STATE_RUNNING →
  ∃ k', schedule_next_process k = Some k' ∧
    current_process k' = Some n ∧
    state (proc k' n) = PROCESS_STATE_RUNNING ∧
    state (proc k' c) = PROCESS_STATE_READY ∧
    queue_is k' (insert_by_priority k c r) ∧
    (by_priority k (n :: r) → by_priority k' (insert_by_priority k c r)) ∧
    context_switches (process_stats k')
    = wrap64 (context_switches (process_stats k) + 1) ∧
    cpu_time (proc k' c)
    = wrap64 (cpu_time (proc k c)
              + wrap64 (wrap64 (time_counter k + 1)
                        - last_scheduled (proc k c))) ∧
    time_counter k'
    = wrap64 (wrap64 (wrap64 (time_counter k + 1) + 1) + 1) ∧
    last_scheduled (proc k' n) = time_counter k' ∧
    mem k' = mem k.
Proof. apply schedule_next_process_requeues. Qed.

Lemma schedule_next_process_round_robin_witness :
  ∃ k', schedule_next_process scenario_kernel = Some k' ∧
        current_process k' = Some 1%nat ∧ queue_is k' [0%nat].
Proof.
  destruct (schedule_next_process_round_robin scenario_kernel 0 1 []
              scenario_queue) as (k' & E & Hc & _ & _ & Hq & _).
  - by vm_compute.
  - vm_compute. lia.
  - intros [=]%list_elem_of_singleton.
  - by vm_compute.
  - exists k'. split; [exact E|]. split; [exact Hc|exact Hq].
Defined.

(** X21.  [yield_process] with an empty Ready Queue keeps the current
    process in place but leaves it marked [READY]: nothing else changes,
    no context switch is counted, and the timer tick, which preempts
    [RUNNING] processes only, never reschedules it. *)
Theorem yield_process_alone (k : kernel) (c : nat) :
  queue_is k [] → current_process k = Some c →
  (c < length (processes k))%nat →
  yield_process k = Some (upd c (set_state PROCESS_STATE_READY) k) ∧
  (process_manager_initialized k = true →
   ∃ t, process_scheduler (upd c (set_state PROCESS_STATE_READY) k)
        = Some (with_time_counter t
                  (upd c (set_state PROCESS_STATE_READY) k))).
Proof.
  intros Hq Hcur Hc. unfold yield_process. rewrite Hcur. split.
  - apply schedule_next_process_empty. by apply queue_is_upd.
  - intros Hinit. unfold process_scheduler.
    cbn [process_manager_initialized upd with_processes current_process].
    rewrite Hinit, Hcur. cbn [negb]. unfold get_system_time. cbv zeta.
    proc_glob. eexists.
    destruct (_ <=? _); [|reflexivity].
    rewrite decide_False; [reflexivity|].
    rewrite proc_upd_eq by done. done.
Qed.

Lemma yielded_queue : queue_is yielded_kernel [].
Proof. split; [by vm_compute|]. split; [by vm_compute|]. apply Forall_nil_2. Qed.

Lemma yield_process_alone_witness :
  yield_process yielded_kernel
  = Some (upd 1 (set_state PROCESS_STATE_READY) yielded_kernel).
Proof.
  destruct (yield_process_alone yielded_kernel 1 yielded_queue) as [H _].
  - by vm_compute.
  - vm_compute. lia.
  - exact H.
Defined.

(** ** [terminate_process] *)

Lemma same_scheduling_refl k : same_scheduling k k.
Proof. by repeat split. Qed.

Lemma same_scheduling_trans k1 k2 k3 :
  same_scheduling k1 k2 → same_scheduling k2 k3 → same_scheduling k1 k3.
Proof.
  intros (Ha1&Ha2&Ha3&Ha4&Ha5&Hf1) (Hb1&Hb2&Hb3&Hb4&Hb5&Hf2).
  repeat split; try congruence;
    destruct (Hf1 j) as (?&?&?&?); destruct (Hf2 j) as (?&?&?&?); congruence.
Qed.

Lemma same_scheduling_queue k k' q :
  same_scheduling k k' → queue_is k q → queue_is k' q.
Proof.
  intros (Hrq & _ & _ & _ & Hlen & Hf). apply queue_is_ext; [done|done|].
  intros j _. by destruct (Hf j).
Qed.

Lemma same_scheduling_upd k i f m :
  (∀ p, next (f p) = next p) → (∀ p, pid (f p) = pid p) →
  (∀ p, state (f p) = state p) → (∀ p, priority (f p) = priority p) →
  same_scheduling k (upd i f (with_mem m k)).
Proof.
  intros Hn Hp Hs Hpr. split; [done|]. split; [done|]. split; [done|].
  split; [done|]. split; [by rewrite length_upd|]. intros j.
  rewrite (field_upd next), (field_upd pid), (field_upd state),
    (field_upd priority) by done. done.
Qed.

Lemma same_scheduling_stats k s : same_scheduling k (with_process_stats s k).
Proof. by repeat split. Qed.

Lemma schedule_next_process_count k k' :
  schedule_next_process k = Some k' → process_count k' = process_count k.
Proof.
  unfold schedule_next_process.
  destruct (ready_queue k) as [n|]; [|by intros [= <-]]. cbv zeta.
  set (k2 := upd n (set_next None) (with_ready_queue (next (proc k n)) k)).
  destruct (match current_process k2 with Some _ => _ | None => _ end)
    as [k3|] eqn:E3; [|done].
  cbn [mbind option_bind]. unfold get_system_time, load_process_context.
  intros [= <-].
  cbn [process_count with_process_stats upd with_processes
       with_time_counter with_current_process].
  destruct (current_process k2) as [cur|]; [|by injection E3 as <-].
  destruct (decide (cur = n)); [by injection E3 as <-|].
  destruct (decide (_ = PROCESS_STATE_RUNNING)); [|by injection E3 as <-].
  apply add_to_ready_queue_links in E3.
  destruct E3 as (_&_&_&_&Hc&_). rewrite Hc. done.
Qed.

Lemma terminate_process_effect k p i q :
  queue_is k q → find_process_by_pid k p = Some i → p ≠ 0 →
  state (proc k i) ≠ PROCESS_STATE_TERMINATED →
  ∃ k', terminate_process k p = Some k' ∧
    pid (proc k' i) = 0 ∧
    state (proc k' i) = PROCESS_STATE_TERMINATED ∧
    process_count k' = wrap32 (process_count k - 1) ∧
    mem k' = released (mem k) (stack_base (proc k i))
                      (heap_start (proc k i)) ∧
    (∀ j, j ≠ i → pid (proc k' j) = pid (proc k j)) ∧
    if decide (current_process k = Some i) then
      match filter (λ j, j ≠ i) q with
      | [] => queue_is k' [] ∧ current_process k' = Some i
      | n :: r => queue_is k' r ∧ current_process k' = Some n ∧
                  state (proc k' n) = PROCESS_STATE_RUNNING
      end
    else queue_is k' (filter (λ j, j ≠ i) q) ∧
         current_process k' = current_process k.
Proof.
  intros Hq Hfind Hp Hst.
  destruct (find_process_by_pid_Some _ _ _ Hfind) as [Hi Hpid].
  unfold terminate_process. rewrite Hfind. rewrite decide_False by done.
  rewrite Hpid. apply Z.eqb_neq in Hp as Hp'. rewrite Hp'.
  set (k1 := upd i (set_state PROCESS_STATE_TERMINATED) k).
  assert (Hq1 : queue_is k1 q) by (by apply queue_is_upd).
  destruct (remove_from_ready_queue_spec k1 i q Hq1) as (k2 & -> & Hq2 & Hsame);
    [subst k1; by rewrite length_upd|].
  cbn [mbind option_bind]. cbv zeta.
  assert (Hl2 : length (processes k2) = length (processes k)).
  { destruct Hsame as (_&_&_&_&_&_&_&_&->&_). subst k1. by rewrite length_upd. }
  assert (Hfld : ∀ A (g : process → A) j,
            (∀ v x, g (set_next v x) = g x) →
            (∀ v x, g (set_state v x) = g x) →
            g (proc k2 j) = g (proc k j)).
  { intros A g j Hg1 Hg2. rewrite (same_but_links_field g k1 k2) by done.
    subst k1. by rewrite (field_upd g). }
  assert (Hst2 : state (proc k2 i) = PROCESS_STATE_TERMINATED).
  { rewrite (same_but_links_field state k1 k2) by done.
    subst k1. by rewrite proc_upd_eq. }
  assert (Hcur2 : current_process k2 = current_process k)
    by (by destruct Hsame as (_&_&->&_)).
  assert (Hcnt2 : process_count k2 = process_count k)
    by (by destruct Hsame as (_&_&_&_&->&_)).
  assert (Hmem2 : mem k2 = mem k) by (by destruct Hsame as (->&_)).
  rewrite (Hfld _ stack_base) by done.
  set (sb := stack_base (proc k i)).
  set (k3 := if negb (sb =? 0) then _ else k2).
  assert (H3 : same_scheduling k2 k3 ∧
               mem k3 = (if sb =? 0 then mem k else Memory.free (mem k) sb) ∧
               heap_start (proc k3 i) = heap_start (proc k i) ∧
               ∀ j, is_demon (proc k3 j) = is_demon (proc k2 j)).
  { subst k3. destruct (sb =? 0); cbn [negb].
    - split; [apply same_scheduling_refl|]. split; [done|].
      split; [by apply (Hfld _ heap_start)|done].
    - split; [by apply same_scheduling_upd|]. split; [by rewrite Hmem2|].
      split.
      + rewrite (field_upd heap_start) by done. proc_glob.
        by apply (Hfld _ heap_start).
      + intros j. by rewrite (field_upd is_demon). }
  destruct H3 as (Hs3 & Hm3 & Hhs3 & _). rewrite Hhs3.
  set (hs := heap_start (proc k i)).
  set (k4 := if negb (hs =? 0) then _ else k3).
  assert (H4 : same_scheduling k3 k4 ∧ mem k4 = released (mem k) sb hs).
  { subst k4. unfold released. cbv zeta. destruct (hs =? 0); cbn [negb].
    - split; [apply same_scheduling_refl|done].
      - split; [by apply same_scheduling_upd|].
        cbn [mem upd with_processes with_mem]. by rewrite Hm3. }
  destruct H4 as (Hs4 & Hm4).
  set (k5 := with_process_stats _ k4).
  assert (Hs5 : same_scheduling k2 k5).
  { eapply same_scheduling_trans; [exact Hs3|].
    eapply same_scheduling_trans; [exact Hs4|apply same_scheduling_stats]. }
  assert (Hm5 : mem k5 = released (mem k) sb hs) by done.
  pose proof (same_scheduling_queue _ _ _ Hs5 Hq2) as Hq5.
  destruct Hs5 as (_ & Hcur5 & Hcnt5 & _ & Hl5 & Hf5).
  assert (Hpid5 : ∀ j, pid (proc k5 j) = pid (proc k j)).
  { intros j. destruct (Hf5 j) as (_ & -> & _). by apply (Hfld _ pid). }
  assert (Hst5 : state (proc k5 i) = PROCESS_STATE_TERMINATED).
  { destruct (Hf5 i) as (_ & _ & -> & _). done. }
  rewrite Hcur5, Hcur2.
  assert (Hfinal : ∀ k6,
    (i < length (processes k6))%nat →
    state (proc k6 i) = PROCESS_STATE_TERMINATED →
    process_count k6 = process_count k → mem k6 = released (mem k) sb hs →
    (∀ j, pid (proc k6 j) = pid (proc k j)) →
    let k' := with_process_count (wrap32 (process_count k6 - 1))
                (upd i (set_pid 0) k6) in
    pid (proc k' i) = 0 ∧ state (proc k' i) = PROCESS_STATE_TERMINATED ∧
    process_count k' = wrap32 (process_count k - 1) ∧
    mem k' = released (mem k) sb hs ∧
    (∀ j, j ≠ i → pid (proc k' j) = pid (proc k j)) ∧
    (∀ q', queue_is k6 q' → queue_is k' q') ∧
    current_process k' = current_process k6 ∧
    ∀ j, state (proc k' j) = state (proc k6 j)).
  { intros k6 Hi6 Hst6 Hcnt6 Hm6 Hpid6 k'. subst k'. proc_glob.
    split; [by rewrite proc_upd_eq|].
    split; [by rewrite (field_upd state)|].
    split; [cbn; by rewrite Hcnt6|]. split; [done|].
    split; [intros j Hj; proc_glob; by rewrite proc_upd_ne|].
    split; [|split; [done|]].
    - intros q' Hq'. apply (queue_is_ext k6); [done| | |done].
      + cbn. by rewrite length_insert.
      + intros j _. proc_glob. by rewrite (field_upd next).
    - intros j. proc_glob. by rewrite (field_upd state). }
  assert (Hi5 : (i < length (processes k5))%nat) by lia.
  assert (Hcnt5' : process_count k5 = process_count k) by lia.
  destruct (decide (current_process k = Some i)) as [Hcur|Hcur].
  - destruct (filter (λ j, j ≠ i) q) as [|n r] eqn:Eq.
    + rewrite (schedule_next_process_empty k5 Hq5). cbn [mbind option_bind].
      eexists; split; [reflexivity|].
      destruct (Hfinal k5 Hi5 Hst5 Hcnt5' Hm5 Hpid5)
        as (R1&R2&R3&R4&R5&Hqk&Hck&_).
      do 5 (split; [assumption|]). split; [by apply Hqk|].
      by rewrite Hck, Hcur5, Hcur2.
    + assert (Hni : n ≠ i).
      { assert (n ∈ filter (λ j, j ≠ i) q) as Hin by (rewrite Eq; left).
        by apply list_elem_of_filter in Hin as [? _]. }
      destruct (schedule_next_process_pop k5 n r Hq5)
        as (k6 & E6 & Hq6 & Hc6 & Hsn6 & _ & Hm6 & Hf6).
      { intros c Hc _. rewrite Hcur5, Hcur2, Hcur in Hc.
        injection Hc as <-. by rewrite Hst5. }
      rewrite E6. cbn [mbind option_bind]. eexists; split; [reflexivity|].
      destruct Hq6 as (Hl6 & Hrl6 & Hin6).
      assert (Hq6 : queue_is k6 r) by done.
      assert (Hi6 : (i < length (processes k6))%nat).
      { rewrite Hl6. destruct Hq as (<- & _). done. }
      assert (Hst6 : state (proc k6 i) = PROCESS_STATE_TERMINATED).
      { destruct (Hf6 i) as (_&_&_&->); [done|done]. }
      assert (Hcnt6 : process_count k6 = process_count k).
      { rewrite (schedule_next_process_count _ _ E6). lia. }
      assert (Hpid6 : ∀ j, pid (proc k6 j) = pid (proc k j)).
      { intros j. destruct (Hf6 j) as (-> & _). apply Hpid5. }
      destruct (Hfinal k6 Hi6 Hst6 Hcnt6 ltac:(by rewrite Hm6) Hpid6)
        as (R1&R2&R3&R4&R5&Hqk&Hck&Hsk).
      do 5 (split; [assumption|]). split; [by apply Hqk|].
      split; [by rewrite Hck|]. by rewrite Hsk.
  - cbn [mbind option_bind]. eexists; split; [reflexivity|].
    destruct (Hfinal k5 Hi5 Hst5 Hcnt5' Hm5 Hpid5)
      as (R1&R2&R3&R4&R5&Hqk&Hck&_).
    do 5 (split; [assumption|]). split; [by apply Hqk|].
    by rewrite Hck, Hcur5, Hcur2.
Qed.

(** X22.  [terminate_process].  Pid 0, a pid that no slot carries and a
    process that is already [TERMINATED] are left alone.  Otherwise the
    process is marked [TERMINATED] and taken out of the Ready Queue, its
    stack and heap are handed to [free], its slot is given back (pid 0) and
    the process count drops by one.  When it was the current process the
    head of the Ready Queue, if any, takes over; with nothing ready
    [current_process] keeps pointing at the slot that was given back. *)
Theorem terminate_process_spec (k : kernel) (p : Z) (q : list nat) :
  queue_is k q →
  terminate_process k 0 = Some k ∧
  (find_process_by_pid k p = None → terminate_process k p = Some k) ∧
  ∀ i, find_process_by_pid k p = Some i →
    (state (proc k i) = PROCESS_STATE_TERMINATED →
     terminate_process k p = Some k) ∧
    (p ≠ 0 → state (proc k i) ≠ PROCESS_STATE_TERMINATED →
     ∃ k', terminate_process k p = Some k' ∧
       pid (proc k' i) = 0 ∧
       state (proc k' i) = PROCESS_STATE_TERMINATED ∧
       process_count k' = wrap32 (process_count k - 1) ∧
       mem k' = released (mem k) (stack_base (proc k i))
                         (heap_start (proc k i)) ∧
       (∀ j, j ≠ i → pid (proc k' j) = pid (proc k j)) ∧
       if decide (current_process k = Some i) then
         match filter (λ j, j ≠ i) q with
         | [] => queue_is k' [] ∧ current_process k' = Some i
         | n :: r => queue_is k' r ∧ current_process k' = Some n ∧
                     state (proc k' n) = PROCESS_STATE_RUNNING
         end
       else queue_is k' (filter (λ j, j ≠ i) q) ∧
            current_process k' = current_process k).
Proof.
  intros Hq. split; [|split].
  - unfold terminate_process.
    destruct (find_process_by_pid k 0) as [i|] eqn:E; [|done].
    destruct (find_process_by_pid_Some _ _ _ E) as [_ ->].
    by destruct (decide _).
  - intros E. unfold terminate_process. by rewrite E.
  - intros i E. split.
    + intros Hst. unfold terminate_process. rewrite E.
      by rewrite decide_True.
    + intros Hp Hst. by apply terminate_process_effect.
Qed.

Lemma terminate_process_spec_witness :
  ∃ k', terminate_process scenario_kernel 3 = Some k' ∧
        pid (proc k' 1) = 0 ∧ queue_is k' [] ∧
        current_process k' = Some 0%nat.
Proof.
  destruct (terminate_process_spec scenario_kernel 3 [1%nat] scenario_queue)
    as (_ & _ & H).
  destruct (H 1%nat) as [_ H']; [vm_compute; reflexivity|].
  destruct H' as (k' & E & Hpid & _ & _ & _ & _ & Hrest);
    [done|by vm_compute|].
  exists k'. split; [exact E|]. split; [exact Hpid|].
  assert (Hc : current_process scenario_kernel = Some 0%nat)
    by (vm_compute; reflexivity).
  rewrite decide_False in Hrest by (rewrite Hc; by intros [=]).
  destruct Hrest as [Hq' Hc']. split; [|by rewrite Hc'].
  by rewrite filter_cons_False, filter_nil in Hq' by tauto.
Defined.

(** ** More on [create_process] and the timer tick *)

Lemma insert_by_priority_parts k i q :
  ∃ a b, q = a ++ b ∧ insert_by_priority k i q = a ++ i :: b.
Proof.
  induction q as [|j q (a & b & -> & IH)]; cbn [insert_by_priority].
  { by exists [], []. }
  destruct (_ <? _).
  - by exists [], (j :: a ++ b).
  - exists (j :: a), b. split; [done|]. by rewrite IH.
Qed.

Lemma create_process_links k nm entry prio demon k' i q :
  queue_is k q → (∀ j, j ∈ q → pid (proc k j) ≠ 0) →
  create_process k nm entry prio demon = Some (k', Some i) →
  find_free_slot k = Some i ∧ process_list k' = Some i ∧
  ∃ a b, q = a ++ b ∧ queue_is k' (a ++ i :: b).
Proof.
  intros Hq Hpids. rewrite create_process_stages.
  destruct (_ || _); [done|].
  destruct (find_free_slot k) as [n|] eqn:Efs; [|done]. cbv zeta.
  destruct (find_process_by_pid_Some k 0 n Efs) as [Hn Hpn].
  assert (Hnq : n ∉ q) by (intros Hin; by apply (Hpids n Hin)).
  destruct (create_claim_facts k n nm prio demon Hn)
    as (Hl2 & Hrq2 & Hm2 & Hc2 & Hi2 & Hnp2 & Hst2 & Hpid2 & Hoth2).
  set (k2 := create_claim k n nm prio demon) in *.
  destruct (Memory.malloc (mem k2) STACK_SIZE) as [[m ptr]|]; [|done].
  cbn [mbind option_bind]. destruct (ptr =? 0); [done|].
  set (k3 := upd n (set_stack_base ptr) (with_mem m k2)).
  destruct (create_setup_facts k3 n entry prio)
    as (Hl9 & Hrq9 & Hm9 & Hc9 & Hi9 & Hnp9 & _ & Hst9 & Hpid9 & _ & Hnx9).
  set (k9 := create_setup k3 n entry prio) in *.
  assert (Hl3 : length (processes k3) = length (processes k)).
  { subst k3. len_simpl. done. }
  assert (Hq9 : queue_is k9 q).
  { apply (queue_is_ext k); [by rewrite Hrq9| by rewrite Hl9, Hl3 | |done].
    intros j Hj. assert (j ≠ n) by (by intros ->).
    rewrite Hnx9 by done. subst k3. rewrite proc_upd_ne by done.
    proc_with. by rewrite Hoth2. }
  destruct (add_to_ready_queue_spec k9 n q Hq9) as (k10 & -> & Hq10 & Hsame).
  { by rewrite Hl9, Hl3. }
  { done. }
  { rewrite Hst9. subst k3. rewrite (field_upd state) by done. done. }
  cbn [mbind option_bind]. intros [= <- <-]. split; [done|].
  destruct (create_finish_facts k10 n demon)
    as (Hl' & Hrq' & _ & _ & _ & _ & _ & _ & Hnx').
  split.
  { destruct Hsame as (_ & Hpl & _).
    change (process_list (create_finish k10 n demon)) with (process_list k10).
    by rewrite Hpl. }
  destruct (insert_by_priority_parts k9 n q) as (a & b & Eq & Eins).
  exists a, b. split; [done|]. rewrite <- Eins.
  apply (queue_is_ext k10); [done|done| |done]. intros j _. apply Hnx'.
Qed.

(** X23.  [create_process] puts the new descriptor at the head of
    [process_list] through its [next] field and then queues it, which
    writes the same field.  After a successful creation a walk of
    [process_list], as [list_processes] does it, therefore ends and visits
    the new process and the processes queued behind it in the Ready Queue,
    nothing else. *)
Theorem list_processes_follows_ready_queue (k : kernel) (nm : string)
    (entry prio : Z) (demon : bool) (k' : kernel) (i : nat) (q : list nat) :
  queue_is k q → (∀ j, j ∈ q → pid (proc k j) ≠ 0) →
  create_process k nm entry prio demon = Some (k', Some i) →
  get_process_list k' = Some i ∧
  ∃ a b, q = a ++ b ∧ ready_list k' = Some (a ++ i :: b) ∧
         list_processes k' = Some (i :: b).
Proof.
  intros Hq Hpids E.
  destruct (create_process_links _ _ _ _ _ _ _ _ Hq Hpids E)
    as (_ & Hpl & a & b & Eq & Hq').
  split; [done|]. exists a, b. split; [done|].
  destruct (queue_is_lseg _ _ Hq') as (Hseg & _ & Hlen).
  destruct Hq' as (_ & Hrl & _). split; [done|].
  apply lseg_app in Hseg as (m & _ & Hseg).
  apply lseg_cons' in Hseg as Hm. destruct Hm as [-> _].
  unfold list_processes. rewrite Hpl.
  apply lseg_queue_from; [done|]. rewrite length_app in Hlen. lia.
Qed.

Lemma list_processes_follows_ready_queue_witness :
  ∃ k', create_process crowded_kernel "e" 0 PRIORITY_SOUL false
        = Some (k', Some 4%nat) ∧
        ready_list k' = Some [2; 4; 3]%nat ∧
        list_processes k' = Some [4; 3]%nat.
Proof.
  destruct (create_process crowded_kernel "e" 0 PRIORITY_SOUL false)
    as [[k' [i|]]|] eqn:E.
  2,3: by vm_compute in E.
  assert (Hc : (λ r, (snd r, ready_list (fst r)))
                 <$> create_process crowded_kernel "e" 0 PRIORITY_SOUL false
               = Some (Some 4%nat, Some [2; 4; 3]%nat))
    by (vm_compute; reflexivity).
  rewrite E in Hc.
  change (Some (Some i, ready_list k') = Some (Some 4%nat, Some [2; 4; 3]%nat))
    in Hc.
  injection Hc as Hi Hrl. subst i.
  exists k'. split; [reflexivity|]. split; [exact Hrl|].
  destruct (list_processes_follows_ready_queue crowded_kernel "e" 0
              PRIORITY_SOUL false k' 4 [2; 3]%nat crowded_queue)
    as (_ & a & b & Eq & Hrl' & Hl).
  - intros j Hj Hpid.
    apply elem_of_cons in Hj as [->|Hj];
      [vm_compute in Hpid; discriminate Hpid|].
    apply elem_of_cons in Hj as [->|Hj];
      [vm_compute in Hpid; discriminate Hpid|].
    by apply elem_of_nil in Hj.
  - exact E.
  - rewrite Hrl in Hrl'. injection Hrl' as Hab. clear E Hrl.
    destruct a as [|x [|y [|z a]]]; cbn in Eq, Hab; simplify_eq.
    exact Hl.
Defined.

(** X24.  When [malloc] has no stack for it, [create_process] returns
    [NULL] and gives the slot back, but the pid it had drawn is spent and
    the slot keeps the name, the [READY] state and the priority it was
    given.  The process count, the Ready Queue and the other slots are
    untouched. *)
Theorem create_process_out_of_memory (k : kernel) (nm : string)
    (entry prio : Z) (demon : bool) (i : nat) (m : Memory.heap) :
  process_manager_initialized k = true →
  process_count k < Z.of_nat MAX_PROCESSES →
  find_free_slot k = Some i →
  Memory.malloc (mem k) STACK_SIZE = Some (m, 0) →
  ∃ k', create_process k nm entry prio demon = Some (k', None) ∧
    next_pid k' = wrap32 (next_pid k + 1) ∧
    pid (proc k' i) = 0 ∧
    state (proc k' i) = PROCESS_STATE_READY ∧
    name (proc k' i) = strncpy (PROCESS_NAME_LENGTH - 1) nm ∧
    priority (proc k' i) = prio ∧
    process_count k' = process_count k ∧
    ready_queue k' = ready_queue k ∧
    process_list k' = process_list k ∧
    mem k' = m ∧
    ∀ j, j ≠ i → proc k' j = proc k j.
Proof.
  intros Hinit Hcount Hfs Hm. rewrite create_process_stages.
  rewrite Hinit. cbn [negb orb].
  replace (Z.of_nat MAX_PROCESSES <=? process_count k) with false
    by (symmetry; apply Z.leb_gt; lia).
  rewrite Hfs. cbv zeta.
  destruct (find_process_by_pid_Some k 0 i Hfs) as [Hi _].
  change (mem (create_claim k i nm prio demon)) with (mem k). rewrite Hm.
  cbn [mbind option_bind Z.eqb]. eexists; split; [reflexivity|].
  unfold create_claim.
  assert (Hlen : ∀ f g h1 h2 v,
    (i < length (processes
            (upd i f (with_mem m (upd i g (with_next_pid v (upd i h1 k))))))
    )%nat ∧ h2 = h2) by (intros; split; [by len_simpl|done]).
  split; [done|]. split.
  { rewrite proc_upd_eq; [done|]. by len_simpl. }
  split.
  { rewrite (field_upd state) by done. rewrite (field_upd state) by done.
    proc_with. rewrite proc_upd_eq; [done|]. by len_simpl. }
  split.
  { rewrite (field_upd name) by done. rewrite (field_upd name) by done.
    proc_with. rewrite proc_upd_eq; [done|]. by len_simpl. }
  split.
  { rewrite (field_upd priority) by done.
    rewrite (field_upd priority) by done.
    proc_with. rewrite proc_upd_eq; [done|]. by len_simpl. }
  split; [done|]. split; [done|]. split; [done|]. split; [done|].
  intros j Hj. rewrite !proc_upd_ne by done. proc_with.
  rewrite proc_upd_ne by done. proc_with. by rewrite proc_upd_ne.
Qed.

Lemma create_process_out_of_memory_witness :
  ∃ k', create_process heapless_kernel "a" 0 PRIORITY_SOUL false
        = Some (k', None) ∧
        next_pid k' = 2 ∧ process_count k' = 0.
Proof.
  destruct (create_process_out_of_memory heapless_kernel "a" 0 PRIORITY_SOUL
              false 0 Memory.boot) as (k' & E & Hn & _ & _ & _ & _ & Hc & _).
  - by vm_compute.
  - by vm_compute.
  - by vm_compute.
  - by vm_compute.
  - exists k'. split; [exact E|]. split; [exact Hn|exact Hc].
Defined.

Lemma ticks_before_slice n k c :
  process_manager_initialized k = true → current_process k = Some c →
  0 ≤ last_scheduled (proc k c) ≤ time_counter k →
  time_counter k + Z.of_nat n < 2 ^ 64 →
  time_counter k + Z.of_nat n - last_scheduled (proc k c)
  < time_slice (proc k c) →
  ticks n k = Some (with_time_counter (time_counter k + Z.of_nat n) k).
Proof.
  revert k. induction n as [|n IH]; intros k Hinit Hcur Hlast Hmax Hslice.
  { cbn [ticks]. rewrite Z.add_0_r. by destruct k. }
  cbn [ticks]. unfold process_scheduler. rewrite Hinit, Hcur. cbn [negb].
  unfold get_system_time. cbv zeta.
  change (proc (with_time_counter ?v ?k) ?j) with (proc k j).
  rewrite (MemoryFacts.wrap64_small (time_counter k + 1)) by lia.
  rewrite MemoryFacts.wrap64_small by lia.
  replace (time_slice (proc k c)
           <=? time_counter k + 1 - last_scheduled (proc k c))
    with false by lia.
  cbn [mbind option_bind]. rewrite IH; try done.
  - unfold with_time_counter. cbn. f_equal. f_equal. lia.
  - cbn [time_counter with_time_counter].
    change (proc (with_time_counter ?v ?k) ?j) with (proc k j). lia.
  - cbn [time_counter with_time_counter]. lia.
  - cbn [time_counter with_time_counter].
    change (proc (with_time_counter ?v ?k) ?j) with (proc k j). lia.
Qed.

(** X25.  The timer tick.  [process_scheduler] advances the clock by one
    and does nothing else until the current process has used its time
    slice; the tick on which the slice is used up marks a [RUNNING] process
    [READY] and calls [schedule_next_process]. *)
Theorem process_scheduler_waits_for_slice (n : nat) (k : kernel) (c : nat) :
  process_manager_initialized k = true → current_process k = Some c →
  0 ≤ last_scheduled (proc k c) ≤ time_counter k →
  time_counter k + Z.of_nat n + 1 < 2 ^ 64 →
  time_counter k + Z.of_nat n - last_scheduled (proc k c)
  < time_slice (proc k c) →
  let k1 := with_time_counter (time_counter k + Z.of_nat n) k in
  ticks n k = Some k1 ∧
  (time_slice (proc k c)
   ≤ time_counter k + Z.of_nat n + 1 - last_scheduled (proc k c) →
   state (proc k c) = PROCESS_STATE_RUNNING →
   process_scheduler k1
   = schedule_next_process
       (upd c (set_state PROCESS_STATE_READY)
          (with_time_counter (time_counter k + Z.of_nat n + 1) k))).
Proof.
  intros Hinit Hcur Hlast Hmax Hslice k1. split.
  { apply (ticks_before_slice n k c); try done. lia. }
  intros Hexp Hrun. subst k1. unfold process_scheduler.
  cbn [process_manager_initialized with_time_counter current_process].
  rewrite Hinit, Hcur. cbn [negb]. unfold get_system_time. cbv zeta.
  cbn [time_counter with_time_counter].
  change (proc (with_time_counter ?v ?k) ?j) with (proc k j).
  rewrite (MemoryFacts.wrap64_small (time_counter k + Z.of_nat n + 1))
    by lia.
  proc_glob. rewrite MemoryFacts.wrap64_small by lia.
  replace (time_slice (proc k c)
           <=? time_counter k + Z.of_nat n + 1 - last_scheduled (proc k c))
    with true by lia.
  rewrite decide_True by done. done.
Qed.

Lemma process_scheduler_waits_for_slice_witness :
  ticks 20 scenario_kernel
  = Some (with_time_counter (time_counter scenario_kernel + 20)
            scenario_kernel).
Proof.
  destruct (process_scheduler_waits_for_slice 20 scenario_kernel 0)
    as [H _].
  - by vm_compute.
  - by vm_compute.
  - vm_compute. split; discriminate.
  - by vm_compute.
  - by vm_compute.
  - exact H.
Defined.

(** ** The name of a process *)

Lemma code_range c : 0 ≤ Z.of_N (Ascii.N_of_ascii c) < 256.
Proof. pose proof (Ascii.N_ascii_bounded c). lia. Qed.

Lemma code_zero c : Z.of_N (Ascii.N_of_ascii c) = 0 ↔ c = Ascii.zero.
Proof.
  split.
  - intros H. rewrite <- (Ascii.ascii_N_embedding c).
    assert (Ascii.N_of_ascii c = 0%N) as -> by lia. done.
  - by intros ->.
Qed.

Lemma schar_zero_iff (m : gmap Z Z) a :
  0 ≤ Memory.load m a < 256 →
  (Memory.schar m a =? 0) = (Memory.load m a =? 0).
Proof.
  intros H. unfold Memory.schar, Memory.uint8.
  rewrite Z.mod_small by lia.
  destruct (Memory.load m a <? 128) eqn:E; [done|]. lia.
Qed.

Lemma name_buffer_gen n (m0 m : gmap Z Z) d src s :
  d ≤ src ∨ src + Z.of_nat n ≤ d →
  (∀ a, src ≤ a < src + Z.of_nat n → Memory.load m a = Memory.load m0 a) →
  holds m0 src s →
  holds (<[d + Z.of_nat n := 0]> (Memory.strncpy_loop n m d src)) d
        (strncpy n s).
Proof.
  revert m d src s. induction n as [|n IH]; intros m d src s Hds Hm Hs.
  { cbn [strncpy Memory.strncpy_loop holds].
    rewrite MemoryFacts.load_insert. by rewrite decide_True by lia. }
  assert (Hsrc : Memory.load m src = Memory.load m0 src) by (apply Hm; lia).
  assert (Hstop : Memory.load m0 src = 0 →
            holds (<[d + Z.of_nat (S n) := 0]>
                     (Memory.strncpy_loop (S n) m d src)) d EmptyString).
  { intros H0. cbn [Memory.strncpy_loop holds].
    rewrite schar_zero_iff by (rewrite Hsrc, H0; lia).
    rewrite Hsrc, H0. cbn [Z.eqb negb].
    rewrite MemoryFacts.load_insert. rewrite decide_False by lia.
    rewrite MemoryFacts.load_memset_loop. by rewrite decide_True by lia. }
  destruct s as [|c s']; [by apply Hstop|].
  destruct Hs as [Hc Hs']. cbn [strncpy].
  destruct (decide (c = Ascii.zero)) as [->|Hcz]; [by apply Hstop|].
  pose proof (code_range c) as Hr.
  assert (Hc0 : Z.of_N (Ascii.N_of_ascii c) ≠ 0)
    by (by rewrite code_zero).
  cbn [Memory.strncpy_loop holds].
  rewrite schar_zero_iff by (rewrite Hsrc, Hc; lia).
  rewrite Hsrc, Hc. apply Z.eqb_neq in Hc0 as Hc0'. rewrite Hc0'.
  cbn [negb]. split.
  - rewrite MemoryFacts.load_insert. rewrite decide_False by lia.
    rewrite MemoryFacts.strncpy_loop_outside by lia.
    rewrite MemoryFacts.load_insert. by rewrite decide_True.
  - replace (d + Z.of_nat (S n)) with (d + 1 + Z.of_nat n) by lia.
    apply IH; [lia| |done].
    intros a Ha. rewrite MemoryFacts.load_insert.
    rewrite decide_False by lia. apply Hm. lia.
Qed.

Lemma create_process_name k nm entry prio demon k' i :
  create_process k nm entry prio demon = Some (k', Some i) →
  name (proc k' i) = strncpy (PROCESS_NAME_LENGTH - 1) nm ∧
  find_free_slot k = Some i.
Proof.
  rewrite create_process_stages. destruct (_ || _); [done|].
  destruct (find_free_slot k) as [n|] eqn:Efs; [|done]. cbv zeta.
  destruct (find_process_by_pid_Some k 0 n Efs) as [Hn _].
  destruct (Memory.malloc _ STACK_SIZE) as [[m ptr]|]; [|done].
  cbn [mbind option_bind]. destruct (ptr =? 0); [done|].
  destruct (add_to_ready_queue _ (Some n)) as [k10|] eqn:Ea; [|done].
  cbn [mbind option_bind]. intros [= <- <-]. split; [|done].
  apply add_to_ready_queue_links in Ea.
  unfold create_finish, get_system_time. cbv zeta. cbn [fst snd].
  proc_glob. rewrite (field_upd name) by done. proc_glob.
  rewrite (same_but_links_field name _ k10 n) by done.
  unfold create_setup. cbv zeta. proc_glob.
  match goal with
  | |- context [match ?x with Some _ => _ | None => _ end] => destruct x
  end; rewrite ?(field_upd name) by done; proc_glob;
    rewrite ?(field_upd name) by done; proc_glob;
    unfold create_claim; rewrite ?(field_upd name) by done; proc_glob.
  all: rewrite proc_upd_eq by (len_simpl; done).
  all: reflexivity.
Qed.

(** X26.  The name of a process.  The descriptor's name is the string
    that the C code leaves in its 32-byte name array: [strncpy] of 31 bytes
    of the name given, not overlapping from above, followed by a NUL in the
    last byte.  It is the name cut at its first NUL and after 31
    characters. *)
Theorem name_is_the_name_buffer (k : kernel) (nm : string)
    (entry prio : Z) (demon : bool) (k' : kernel) (i : nat)
    (m : gmap Z Z) (dest src : Z) :
  create_process k nm entry prio demon = Some (k', Some i) →
  holds m src nm →
  dest ≤ src ∨ src + Z.of_nat (PROCESS_NAME_LENGTH - 1) ≤ dest →
  holds (name_buffer m dest src) dest (name (proc k' i)) ∧
  (String.length (name (proc k' i)) ≤ PROCESS_NAME_LENGTH - 1)%nat.
Proof.
  intros E Hs Hds. destruct (create_process_name _ _ _ _ _ _ _ E) as [-> _].
  split.
  - unfold name_buffer. by apply (name_buffer_gen _ m).
  - generalize (PROCESS_NAME_LENGTH - 1)%nat. clear. intros n. revert nm.
    induction n as [|n IH]; intros [|c s]; cbn [strncpy String.length];
      try lia.
    destruct (decide _); cbn [String.length]; [lia|].
    specialize (IH s). lia.
Qed.

Lemma name_is_the_name_buffer_witness :
  ∃ k', create_process fresh_kernel "a" 0 PRIORITY_SOUL false
        = Some (k', Some 0%nat) ∧
        holds (name_buffer (list_to_map [(500, 97)]) 100 500) 100
              (name (proc k' 0)).
Proof.
  destruct (create_process fresh_kernel "a" 0 PRIORITY_SOUL false)
    as [[k' [i|]]|] eqn:E.
  2,3: by vm_compute in E.
  assert (Hi : i = 0%nat).
  { assert (snd <$> create_process fresh_kernel "a" 0 PRIORITY_SOUL false
            = Some (Some 0%nat)) as Hc by (vm_compute; reflexivity).
    rewrite E in Hc. by injection Hc. }
  subst i. exists k'. split; [reflexivity|].
  destruct (name_is_the_name_buffer fresh_kernel "a" 0 PRIORITY_SOUL false
              k' 0 (list_to_map [(500, 97)]) 100 500 E) as [H _].
  - split; [by vm_compute|by vm_compute].
  - left. lia.
  - exact H.
Defined.

(** ** The descriptor a successful [create_process] returns *)

Ltac peel Hn :=
  repeat first
    [ progress proc_glob
    | rewrite proc_upd_eq by (len_simpl; exact Hn) ].

(** Reads field [g], which the queue links do not touch, of the new
    descriptor back to the stages that wrote it. *)
Ltac read_field g Hn Ea :=
  unfold create_finish, get_system_time; cbv zeta; cbn [fst snd];
  proc_glob; rewrite (field_upd g) by done; proc_glob;
  rewrite (same_but_links_field g _ _ _ (λ _ _, eq_refl) Ea);
  unfold create_setup; cbv zeta;
  match goal with
  | |- context [match ?x with Some l => _ | None => _ end] =>
      destruct x as [?l|]
  end; proc_glob; rewrite ?(field_upd g _ (set_prev _)) by done;
  peel Hn; unfold create_claim; peel Hn.

(** X29.  The descriptor of a created process.  It carries the pid drawn
    from [next_pid], the state [READY], the priority and the entry point
    given; the demon flag also decides the kernel mode; the time slice is
    100, 50, 25 or 10 ticks by priority; the stack is the block [malloc]
    granted for [STACK_SIZE] bytes and the stack pointer its upper end; the
    parent is the current process, which is the new process itself when
    [current_process] pointed to the slot taken. *)
Theorem create_process_descriptor (k : kernel) (nm : string)
    (entry prio : Z) (demon : bool) (k' : kernel) (i : nat) :
  create_process k nm entry prio demon = Some (k', Some i) →
  let p := proc k' i in
  pid p = next_pid k ∧ state p = PROCESS_STATE_READY ∧
  priority p = prio ∧ is_demon p = demon ∧ is_kernel_mode p = demon ∧
  is_suspended p = false ∧
  time_slice p = time_slice_of prio ∧ cpu_time p = 0 ∧
  entry_point p = entry ∧ instruction_pointer p = entry ∧
  registers p = replicate 16 0 ∧
  Memory.malloc (mem k) STACK_SIZE = Some (mem k', stack_base p) ∧
  stack_base p ≠ 0 ∧
  stack_pointer p = wrap64 (stack_base p + STACK_SIZE) ∧
  parent p = current_process k ∧
  parent_pid p = match current_process k with
                 | Some c => if decide (c = i) then next_pid k
                             else pid (proc k c)
                 | None => 0
                 end ∧
  creation_time p = wrap64 (time_counter k + 1) ∧
  process_count k' = wrap32 (process_count k + 1).
Proof.
  rewrite create_process_stages. destruct (_ || _); [done|].
  destruct (find_free_slot k) as [n|] eqn:Efs; [|done]. cbv zeta.
  destruct (find_process_by_pid_Some k 0 n Efs) as [Hn _].
  change (mem (create_claim k n nm prio demon)) with (mem k).
  destruct (Memory.malloc (mem k) STACK_SIZE) as [[m ptr]|]; [|done].
  cbn [mbind option_bind]. destruct (ptr =? 0) eqn:Eptr; [done|].
  apply Z.eqb_neq in Eptr.
  destruct (add_to_ready_queue _ (Some n)) as [k10|] eqn:Ea; [|done].
  cbn [mbind option_bind]. intros [= <- <-].
  apply add_to_ready_queue_links in Ea.
  pose proof Ea as (Hmem & _ & _ & _ & Hcnt & _ & _ & Htc & Hlen & _).
  assert (Hl10 : (n < length (processes k10))%nat).
  { rewrite Hlen. unfold create_setup. cbv zeta.
    destruct (process_list _); len_simpl; unfold create_claim; len_simpl;
      exact Hn. }
  assert (Hsb : stack_base (proc (create_finish k10 n demon) n) = ptr).
  { read_field stack_base Hn Ea; reflexivity. }
  assert (Hm' : mem (create_finish k10 n demon) = m).
  { unfold create_finish, get_system_time. cbv zeta. cbn [fst snd].
    change (mem k10 = m). rewrite Hmem. unfold create_setup. cbv zeta.
    destruct (process_list _); reflexivity. }
  rewrite Hsb, Hm'.
  split; [read_field pid Hn Ea; reflexivity|].
  split; [read_field state Hn Ea; reflexivity|].
  split; [read_field priority Hn Ea; reflexivity|].
  split; [read_field is_demon Hn Ea; reflexivity|].
  split; [read_field is_kernel_mode Hn Ea; reflexivity|].
  split; [read_field is_suspended Hn Ea; reflexivity|].
  split; [read_field time_slice Hn Ea; reflexivity|].
  split; [read_field cpu_time Hn Ea; reflexivity|].
  split; [read_field entry_point Hn Ea; reflexivity|].
  split; [read_field instruction_pointer Hn Ea; reflexivity|].
  split; [read_field registers Hn Ea; reflexivity|].
  split; [reflexivity|]. split; [exact Eptr|].
  split; [read_field stack_pointer Hn Ea; reflexivity|].
  split; [read_field parent Hn Ea; reflexivity|].
  split.
  { assert (Hp4 : ∀ c,
      pid (proc
        (upd n (λ p, set_registers (replicate 16 0)
            (set_instruction_pointer entry
               (set_entry_point entry
                  (set_heap_size 0
                     (set_heap_start 0
                        (set_stack_pointer
                           (wrap64 (stack_base p + STACK_SIZE)) p))))))
           (upd n (set_stack_base ptr)
              (with_mem m (create_claim k n nm prio demon)))) c)
      = if decide (c = n) then next_pid k else pid (proc k c)).
    { intros c. rewrite !(field_upd pid) by done. proc_glob.
      unfold create_claim. rewrite (field_upd pid) by done. proc_glob.
      case_decide as Hc.
      - subst c. by rewrite proc_upd_eq.
      - by rewrite proc_upd_ne. }
    read_field parent_pid Hn Ea.
    all: cbn [parent_pid set_parent_pid set_prev set_next set_time_slice
              set_last_scheduled set_cpu_time set_next_sibling set_children
              set_parent].
    all: change (current_process (upd _ _ _)) with (current_process k).
    all: destruct (current_process k) as [c|]; [apply Hp4|reflexivity]. }
  split.
  { unfold create_finish, get_system_time. cbv zeta. cbn [fst snd].
    proc_glob. rewrite proc_upd_eq by (len_simpl; exact Hl10).
    cbn [creation_time set_creation_time time_counter with_process_stats
         with_process_count].
    rewrite Htc. unfold create_setup. cbv zeta.
    destruct (process_list _); reflexivity. }
  change (wrap32 (process_count k10 + 1) = wrap32 (process_count k + 1)).
  rewrite Hcnt. unfold create_setup. cbv zeta.
  destruct (process_list _); reflexivity.
Qed.

Lemma create_process_descriptor_witness :
  ∃ k', create_process fresh_kernel "a" 0 PRIORITY_SOUL false
        = Some (k', Some 0%nat) ∧
        time_slice (proc k' 0) = 25 ∧ pid (proc k' 0) = 1.
Proof.
  destruct (create_process fresh_kernel "a" 0 PRIORITY_SOUL false)
    as [[k' [i|]]|] eqn:E.
  2,3: by vm_compute in E.
  assert (Hi : i = 0%nat).
  { assert (snd <$> create_process fresh_kernel "a" 0 PRIORITY_SOUL false
            = Some (Some 0%nat)) as Hc by (vm_compute; reflexivity).
    rewrite E in Hc. by injection Hc. }
  subst i. exists k'. split; [reflexivity|].
  destruct (create_process_descriptor fresh_kernel "a" 0 PRIORITY_SOUL
              false k' 0 E) as (Hpid & _ & _ & _ & _ & _ & Hts & _).
  split; [exact Hts|exact Hpid].
Defined.

End ProcessFacts.
